(** * Akumuli block codec: the compression streams of
      [libakumuli/storage_engine/compression.h]

    The header defines the byte stream ([Base128StreamWriter] and
    [Base128StreamReader] over [Base128Int]), the integer filters (zig-zag,
    delta, run-length) and the typedefs that stack them.  Each C++ function
    is embedded as a Rocq function of the same name over explicit state:

    - raw memory is a [list Z] of bytes, a pointer is a [nat] offset into it;
    - an integer of type [TVal] is a [Z], with the wrap-around of the type
      written out by [wrap];
    - a stream object that is held by reference (the one [Base128StreamWriter]
      shared by all filters of a block) is passed in and returned;
    - [AKU_PANIC] (a thrown exception) is the outcome [Panic].

    [assert] statements are compiled out, as in a release build; each is
    recorded as a comment at the definition it belongs to. *)

From Stdlib Require Import ZArith Lia Bool.
From stdpp Require Import base option list.

Local Open Scope Z_scope.

(** ** Integer types *)

(** The instantiations of [TVal]: width in bits and signedness. *)
Record IntType := { bits : Z; is_signed : bool }.

Definition u16 : IntType := {| bits := 16; is_signed := false |}.
Definition u32 : IntType := {| bits := 32; is_signed := false |}.
Definition u64 : IntType := {| bits := 64; is_signed := false |}.
Definition i64 : IntType := {| bits := 64; is_signed := true |}.

(** The value an arithmetic result takes when it is stored in a [T]. *)
Definition wrap (T : IntType) (x : Z) : Z :=
  if is_signed T
  then (x + 2 ^ (bits T - 1)) mod 2 ^ bits T - 2 ^ (bits T - 1)
  else x mod 2 ^ bits T.

Definition in_range (T : IntType) (x : Z) : Prop :=
  if is_signed T
  then - 2 ^ (bits T - 1) <= x < 2 ^ (bits T - 1)
  else 0 <= x < 2 ^ bits T.

(** ** Memory *)

(** [typedef unsigned char byte_t]: a byte is a [Z] in [0, 256); raw memory
    is a list of bytes. *)
Abbreviation byte_t := Z (only parsing).
Abbreviation memory := (list Z) (only parsing).

(** [*p] *)
Definition load (m : memory) (p : nat) : byte_t := m !!! p.

(** [*p = b] *)
Definition store (m : memory) (p : nat) (b : byte_t) : memory := <[p := b]> m.

(** A value of [n] bytes as it lies in memory (little-endian, as on the
    machines the library is built for), and back. *)
Fixpoint le_bytes (n : nat) (x : Z) : list Z :=
  match n with
  | O => []
  | S n' => Z.land x 255 :: le_bytes n' (Z.shiftr x 8)
  end.

Fixpoint le_value (bs : list Z) : Z :=
  match bs with
  | [] => 0
  | b :: bs' => Z.lor b (Z.shiftl (le_value bs') 8)
  end.

(** [*reinterpret_cast<TVal*>(p) = value], byte by byte, and
    [*reinterpret_cast<const TVal*>(p)] for a [TVal] of [n] bytes. *)
Fixpoint store_bytes (m : memory) (p : nat) (bs : list Z) : memory :=
  match bs with
  | [] => m
  | b :: bs' => store_bytes (store m p b) (S p) bs'
  end.

Definition load_bytes (m : memory) (p n : nat) : list Z :=
  map (load m) (seq p n).

(** ** Base128Int *)

Module Base128Int.

(** The loop of [put].  [fuel] is [end - p]: the test [p == end] is [fuel = 0].
    The result is the returned pointer and the memory as the loop left it
    (bytes stored before a failure stay stored). *)
Fixpoint put_loop (fuel : nat) (value : Z) (begin p : nat) (m : memory)
  : nat * memory :=
  match fuel with
  | O => (begin, m)
  | S fuel' =>
      let m1 := store m p (Z.land value 127) in
      let value' := Z.shiftr value 7 in
      if value' =? 0
      then (S p, m1)
      else put_loop fuel' value' begin (S p)
             (store m1 p (Z.lor (load m1 p) 128))
  end.

(** [unsigned char* put(unsigned char* begin, const unsigned char* end) const] *)
Definition put (value_ : Z) (m : memory) (begin end_ : nat) : nat * memory :=
  if (end_ <=? begin)%nat then (begin, m)
  else put_loop (end_ - begin) value_ begin begin m.

(** The loop of [get]; the result is the returned pointer and [value_]
    ([value_] keeps its constructed value [TVal()] when [begin] is returned).
    [TVal(i) << cnt] is undefined in C++ once [cnt] reaches the width of
    [TVal]; the model shifts in [Z] and wraps. *)
Fixpoint get_loop (T : IntType) (fuel : nat) (acc cnt : Z) (begin p : nat)
    (m : memory) : nat * Z :=
  match fuel with
  | O => (begin, 0)
  | S fuel' =>
      let i := Z.land (load m p) 127 in
      let acc' := Z.lor acc (wrap T (Z.shiftl i cnt)) in
      if Z.land (load m p) 128 =? 0
      then (S p, acc')
      else get_loop T fuel' acc' (wrap T (cnt + 7)) begin (S p) m
  end.

(** [const unsigned char* get(const unsigned char* begin, const unsigned char* end)]
    ([assert(begin < end)] precedes the loop). *)
Definition get (T : IntType) (m : memory) (begin end_ : nat) : nat * Z :=
  get_loop T (end_ - begin) 0 0 begin begin m.

End Base128Int.

(** ** Base128StreamWriter *)

Module Base128StreamWriter.

Record t := mk {
  mem : memory;
  begin_ : nat;
  end_ : nat;
  pos_ : nat
}.

(** The invariant of a stream over a buffer: [begin_ <= pos_ <= end_], all
    inside the memory. *)
Definition wf (s : t) : Prop :=
  (begin_ s <= pos_ s)%nat /\ (pos_ s <= end_ s)%nat /\
  (end_ s <= length (mem s))%nat.

Definition set_mem (s : t) (m : memory) : t :=
  mk m (begin_ s) (end_ s) (pos_ s).

Definition set_pos (s : t) (p : nat) : t :=
  mk (mem s) (begin_ s) (end_ s) p.

(** [Base128StreamWriter(unsigned char* begin, const unsigned char* end)] *)
Definition make (m : memory) (begin end' : nat) : t :=
  mk m begin end' begin.

Definition empty (s : t) : bool := (begin_ s =? end_ s)%nat.

(** [bool commit() { return true; }] *)
Definition commit (s : t) : bool := true.

(** [template <class TVal> bool put_raw(TVal value)], [sz] being
    [sizeof(TVal)] *)
Definition put_raw (sz : nat) (value : Z) (s : t) : bool * t :=
  if (end_ s - pos_ s <? sz)%nat then (false, s)
  else (true, mk (store_bytes (mem s) (pos_ s) (le_bytes sz value))
                 (begin_ s) (end_ s) (pos_ s + sz)).

(** [template <class T> T* allocate()]: the pointer, or [None] for
    [nullptr] *)
Definition allocate (sz : nat) (s : t) : option nat * t :=
  if (end_ s - pos_ s <? sz)%nat then (None, s)
  else (Some (pos_ s), set_pos s (pos_ s + sz)).

(** [template <class TVal> bool put(TVal value)] *)
Definition put (value : Z) (s : t) : bool * t :=
  let '(p, m) := Base128Int.put value (mem s) (pos_ s) (end_ s) in
  if (pos_ s =? p)%nat
  then (false, set_mem s m)
  else (true, set_pos (set_mem s m) p).

(** The loop of [tput], [oldpos] being the saved cursor. *)
Fixpoint tput_loop (iter : list Z) (oldpos : nat) (s : t) : bool * t :=
  match iter with
  | [] => (commit s, s)
  | v :: iter' =>
      let '(ok, s') := put v s in
      if ok then tput_loop iter' oldpos s'
      else (false, set_pos s' oldpos)
  end.

(** [template <class TVal> bool tput(TVal const* iter, size_t n)] *)
Definition tput (iter : list Z) (s : t) : bool * t :=
  tput_loop iter (pos_ s) s.

Definition size (s : t) : nat := (pos_ s - begin_ s)%nat.

Definition space_left (s : t) : nat := (end_ s - pos_ s)%nat.

End Base128StreamWriter.

(** ** Base128StreamReader *)

(** What a reading operation ends in: a value, or the exception thrown by
    [AKU_PANIC]. *)
Inductive outcome (A : Type) : Type :=
| Value (a : A)
| Panic.
Arguments Value {A} a.
Arguments Panic {A}.

#[global] Instance outcome_ret : MRet outcome := fun _ a => Value a.

#[global] Instance outcome_bind : MBind outcome := fun _ _ f x =>
  match x with
  | Value a => f a
  | Panic => Panic
  end.

Module Base128StreamReader.

Record t := mk {
  mem : memory;
  pos_ : nat;
  end_ : nat
}.

(** [Base128StreamReader(const unsigned char* begin, const unsigned char* end)] *)
Definition make (m : memory) (begin end' : nat) : t := mk m begin end'.

(** [template <class TVal> TVal next()] *)
Definition next (T : IntType) (s : t) : outcome (Z * t) :=
  let '(p, value) := Base128Int.get T (mem s) (pos_ s) (end_ s) in
  if (p =? pos_ s)%nat
  then Panic
  else Value (value, mk (mem s) p (end_ s)).

Definition space_left (s : t) : nat := (end_ s - pos_ s)%nat.

(** [template <class TVal> TVal read_raw()], [sz] being [sizeof(TVal)] *)
Definition read_raw (sz : nat) (s : t) : outcome (Z * t) :=
  if (space_left s <? sz)%nat then Panic
  else Value (le_value (load_bytes (mem s) (pos_ s) sz),
              mk (mem s) (pos_ s + sz) (end_ s)).

Definition pos (s : t) : nat := pos_ s.

End Base128StreamReader.

(** ** The filters over the byte stream

    A filter holds its own fields; the [Base128StreamWriter] (or reader) it
    refers to by reference is the shared stream, passed in and returned.
    [StreamWriter] and [StreamReader] are the interface a template parameter
    [Stream] has to offer. *)

Class StreamWriter (S : Type) := {
  stream_tput : list Z -> S -> Base128StreamWriter.t -> bool * S * Base128StreamWriter.t;
  stream_put : Z -> S -> Base128StreamWriter.t -> bool * S * Base128StreamWriter.t;
  stream_commit : S -> Base128StreamWriter.t -> bool * S * Base128StreamWriter.t;
  stream_size : S -> Base128StreamWriter.t -> nat
}.

Class StreamReader (S : Type) := {
  stream_next : S -> Base128StreamReader.t -> outcome (Z * S * Base128StreamReader.t)
}.

(** *** RLEStreamWriter *)

Module RLEStreamWriter.

Record t (T : IntType) := mk {
  prev_ : Z;
  reps_ : Z;
  start_size_ : nat
}.
Arguments mk {T}.
Arguments prev_ {T}.
Arguments reps_ {T}.
Arguments start_size_ {T}.

Definition make (T : IntType) (stream : Base128StreamWriter.t) : t T :=
  mk 0 0 (Base128StreamWriter.size stream).

(** The first loop of [tput]: [outbuf] holds the [outpos] entries written so
    far. *)
Fixpoint tput_loop (T : IntType) (iter : list Z) (prev reps : Z)
    (outbuf : list Z) : Z * Z * list Z :=
  match iter with
  | [] => (prev, reps, outbuf)
  | value :: iter' =>
      if negb (value =? prev)
      then
        let outbuf' := if negb (reps =? 0) then outbuf ++ [reps; prev] else outbuf in
        tput_loop T iter' value (wrap T (0 + 1)) outbuf'
      else tput_loop T iter' prev (wrap T (reps + 1)) outbuf
  end.

(** [bool tput(TVal const* iter, size_t n)] *)
Definition tput (T : IntType) (iter : list Z) (self : t T)
    (stream : Base128StreamWriter.t) : bool * t T * Base128StreamWriter.t :=
  let n := length iter in
  let '(prev, reps, outbuf) := tput_loop T iter (prev_ self) (reps_ self) [] in
  let outbuf' :=
    if (length outbuf <? n * 2)%nat then outbuf ++ [reps; prev] else outbuf in
  let '(ok, stream') := Base128StreamWriter.tput outbuf' stream in
  (ok, mk 0 0 (start_size_ self), stream').

(** [bool put(TVal value)] *)
Definition put (T : IntType) (value : Z) (self : t T)
    (stream : Base128StreamWriter.t) : bool * t T * Base128StreamWriter.t :=
  if negb (value =? prev_ self) then
    if negb (reps_ self =? 0) then
      let '(ok1, stream1) := Base128StreamWriter.put (reps_ self) stream in
      if negb ok1 then (false, self, stream1)
      else
        let '(ok2, stream2) := Base128StreamWriter.put (prev_ self) stream1 in
        if negb ok2 then (false, self, stream2)
        else (true, mk value (wrap T (0 + 1)) (start_size_ self), stream2)
    else (true, mk value (wrap T (0 + 1)) (start_size_ self), stream)
  else (true, mk (prev_ self) (wrap T (reps_ self + 1)) (start_size_ self), stream).

Definition size (T : IntType) (self : t T) (stream : Base128StreamWriter.t) : nat :=
  (Base128StreamWriter.size stream - start_size_ self)%nat.

(** [bool commit() { return stream_.put(reps_) && stream_.put(prev_) && stream_.commit(); }] *)
Definition commit (T : IntType) (self : t T) (stream : Base128StreamWriter.t)
  : bool * t T * Base128StreamWriter.t :=
  let '(ok1, stream1) := Base128StreamWriter.put (reps_ self) stream in
  if ok1 then
    let '(ok2, stream2) := Base128StreamWriter.put (prev_ self) stream1 in
    if ok2 then (Base128StreamWriter.commit stream2, self, stream2)
    else (false, self, stream2)
  else (false, self, stream1).

End RLEStreamWriter.

#[global] Instance RLEStreamWriter_ops (T : IntType) : StreamWriter (RLEStreamWriter.t T) := {
  stream_tput := RLEStreamWriter.tput T;
  stream_put := RLEStreamWriter.put T;
  stream_commit := RLEStreamWriter.commit T;
  stream_size := RLEStreamWriter.size T
}.

(** *** RLEStreamReader *)

Module RLEStreamReader.

Record t (T : IntType) := mk {
  prev_ : Z;
  reps_ : Z
}.
Arguments mk {T}.
Arguments prev_ {T}.
Arguments reps_ {T}.

Definition make (T : IntType) : t T := mk 0 0.

(** [TVal next()] *)
Definition next (T : IntType) (self : t T) (stream : Base128StreamReader.t)
  : outcome (Z * t T * Base128StreamReader.t) :=
  '(self1, stream1) ←
    (if reps_ self =? 0 then
       '(reps, s1) ← Base128StreamReader.next T stream;
       '(prev, s2) ← Base128StreamReader.next T s1;
       mret (mk (T:=T) prev reps, s2)
     else mret (self, stream));
  mret (prev_ self1, mk (prev_ self1) (wrap T (reps_ self1 - 1)), stream1).

End RLEStreamReader.

#[global] Instance RLEStreamReader_ops (T : IntType) : StreamReader (RLEStreamReader.t T) := {
  stream_next := RLEStreamReader.next T
}.

(** *** ZigZagStreamWriter *)

Module ZigZagStreamWriter.

Record t (S : Type) (T : IntType) := mk {
  stream_ : S
}.
Arguments mk {S T}.
Arguments stream_ {S T}.

(** [(value << 1) ^ (value >> shift_width)], with
    [shift_width = sizeof(TVal) * 8 - 1] *)
Definition zigzag (T : IntType) (value : Z) : Z :=
  let shift_width := bits T - 1 in
  wrap T (Z.lxor (wrap T (Z.shiftl value 1)) (Z.shiftr value shift_width)).

Section Ops.
Context {S : Type} `{!StreamWriter S} (T : IntType).

(** [bool tput(TVal const* iter, size_t n)] ([assert(n < 1000)]) *)
Definition tput (iter : list Z) (self : t S T) (stream : Base128StreamWriter.t)
  : bool * t S T * Base128StreamWriter.t :=
  let outbuf := map (zigzag T) iter in
  let '(ok, inner, stream') := stream_tput outbuf (stream_ self) stream in
  (ok, mk inner, stream').

(** [bool put(TVal value)] *)
Definition put (value : Z) (self : t S T) (stream : Base128StreamWriter.t)
  : bool * t S T * Base128StreamWriter.t :=
  let res := zigzag T value in
  let '(ok, inner, stream') := stream_put res (stream_ self) stream in
  (ok, mk inner, stream').

Definition size (self : t S T) (stream : Base128StreamWriter.t) : nat :=
  stream_size (stream_ self) stream.

Definition commit (self : t S T) (stream : Base128StreamWriter.t)
  : bool * t S T * Base128StreamWriter.t :=
  let '(ok, inner, stream') := stream_commit (stream_ self) stream in
  (ok, mk inner, stream').

End Ops.
End ZigZagStreamWriter.

#[global] Instance ZigZagStreamWriter_ops (S : Type) `{!StreamWriter S} (T : IntType)
  : StreamWriter (ZigZagStreamWriter.t S T) := {
  stream_tput := ZigZagStreamWriter.tput T;
  stream_put := ZigZagStreamWriter.put T;
  stream_commit := ZigZagStreamWriter.commit T;
  stream_size := ZigZagStreamWriter.size T
}.

(** *** ZigZagStreamReader *)

Module ZigZagStreamReader.

Record t (S : Type) (T : IntType) := mk {
  stream_ : S
}.
Arguments mk {S T}.
Arguments stream_ {S T}.

(** [(n >> 1) ^ (-(n & 1))] on an [n] of type [TVal] *)
Definition unzigzag (T : IntType) (n : Z) : Z :=
  wrap T (Z.lxor (Z.shiftr n 1) (wrap T (- Z.land n 1))).

(** [TVal next()] *)
Definition next {S : Type} `{!StreamReader S} (T : IntType) (self : t S T)
    (stream : Base128StreamReader.t)
  : outcome (Z * t S T * Base128StreamReader.t) :=
  '(n, inner, stream') ← stream_next (stream_ self) stream;
  mret (unzigzag T n, mk inner, stream').

End ZigZagStreamReader.

#[global] Instance ZigZagStreamReader_ops (S : Type) `{!StreamReader S} (T : IntType)
  : StreamReader (ZigZagStreamReader.t S T) := {
  stream_next := ZigZagStreamReader.next T
}.

(** *** DeltaStreamWriter *)

Module DeltaStreamWriter.

Record t (S : Type) (T : IntType) := mk {
  stream_ : S;
  prev_ : Z
}.
Arguments mk {S T}.
Arguments stream_ {S T}.
Arguments prev_ {S T}.

(** The loop of [tput]: the differences, and [prev_] as the loop leaves it. *)
Fixpoint tput_loop (T : IntType) (iter : list Z) (prev : Z) : list Z * Z :=
  match iter with
  | [] => ([], prev)
  | value :: iter' =>
      let result := wrap T (value - prev) in
      let '(outbuf, prev') := tput_loop T iter' value in
      (result :: outbuf, prev')
  end.

Section Ops.
Context {S : Type} `{!StreamWriter S} (T : IntType).

(** [bool tput(TVal const* iter, size_t n)] ([assert(n < 1000)]) *)
Definition tput (iter : list Z) (self : t S T) (stream : Base128StreamWriter.t)
  : bool * t S T * Base128StreamWriter.t :=
  let '(outbuf, prev) := tput_loop T iter (prev_ self) in
  let '(ok, inner, stream') := stream_tput outbuf (stream_ self) stream in
  (ok, mk inner prev, stream').

(** [bool put(TVal value)] *)
Definition put (value : Z) (self : t S T) (stream : Base128StreamWriter.t)
  : bool * t S T * Base128StreamWriter.t :=
  let '(result, inner, stream') :=
    stream_put (wrap T (value - prev_ self)) (stream_ self) stream in
  (result, mk inner value, stream').

Definition size (self : t S T) (stream : Base128StreamWriter.t) : nat :=
  stream_size (stream_ self) stream.

Definition commit (self : t S T) (stream : Base128StreamWriter.t)
  : bool * t S T * Base128StreamWriter.t :=
  let '(ok, inner, stream') := stream_commit (stream_ self) stream in
  (ok, mk inner (prev_ self), stream').

End Ops.
End DeltaStreamWriter.

#[global] Instance DeltaStreamWriter_ops (S : Type) `{!StreamWriter S} (T : IntType)
  : StreamWriter (DeltaStreamWriter.t S T) := {
  stream_tput := DeltaStreamWriter.tput T;
  stream_put := DeltaStreamWriter.put T;
  stream_commit := DeltaStreamWriter.commit T;
  stream_size := DeltaStreamWriter.size T
}.

(** *** DeltaStreamReader *)

Module DeltaStreamReader.

Record t (S : Type) (T : IntType) := mk {
  stream_ : S;
  prev_ : Z
}.
Arguments mk {S T}.
Arguments stream_ {S T}.
Arguments prev_ {S T}.

(** [TVal next()] *)
Definition next {S : Type} `{!StreamReader S} (T : IntType) (self : t S T)
    (stream : Base128StreamReader.t)
  : outcome (Z * t S T * Base128StreamReader.t) :=
  '(delta, inner, stream') ← stream_next (stream_ self) stream;
  let value := wrap T (prev_ self + delta) in
  mret (value, mk inner value, stream').

End DeltaStreamReader.

#[global] Instance DeltaStreamReader_ops (S : Type) `{!StreamReader S} (T : IntType)
  : StreamReader (DeltaStreamReader.t S T) := {
  stream_next := DeltaStreamReader.next T
}.

(** *** The stacks *)

(** [i64 -> Delta -> ZigZag -> RLE -> Base128] *)
Definition __RLEWriter := RLEStreamWriter.t i64.
Definition __ZigZagWriter := ZigZagStreamWriter.t __RLEWriter i64.
Definition ZDeltaRLEWriter := DeltaStreamWriter.t __ZigZagWriter i64.

(** [Base128 -> RLE -> ZigZag -> Delta -> i64] *)
Definition __RLEReader := RLEStreamReader.t i64.
Definition __ZigZagReader := ZigZagStreamReader.t __RLEReader i64.
Definition ZDeltaRLEReader := DeltaStreamReader.t __ZigZagReader i64.

(** [u64 -> Delta -> RLE -> Base128] *)
Definition DeltaRLEWriter := DeltaStreamWriter.t (RLEStreamWriter.t u64) u64.
(** [Base128 -> RLE -> Delta -> u64] *)
Definition DeltaRLEReader := DeltaStreamReader.t (RLEStreamReader.t u64) u64.

(** The constructors of the stacks over a stream ([prev_()] is zero). *)
Definition ZDeltaRLEWriter_make (stream : Base128StreamWriter.t) : ZDeltaRLEWriter :=
  DeltaStreamWriter.mk (ZigZagStreamWriter.mk (RLEStreamWriter.make i64 stream)) 0.

Definition ZDeltaRLEReader_make : ZDeltaRLEReader :=
  DeltaStreamReader.mk (ZigZagStreamReader.mk (RLEStreamReader.make i64)) 0.

Definition DeltaRLEWriter_make (stream : Base128StreamWriter.t) : DeltaRLEWriter :=
  DeltaStreamWriter.mk (RLEStreamWriter.make u64 stream) 0.

Definition DeltaRLEReader_make : DeltaRLEReader :=
  DeltaStreamReader.mk (RLEStreamReader.make u64) 0.

(** ** The encoding, byte by byte

    [bitlen] and [encode_len] are the length formula of the specification,
    [max(1, ceil(bitlen(u)/7))]; [base128 n v] are the [n] bytes of [v], low
    seven bits first, the continuation bit [0x80] on all but the last. *)

Definition bitlen (u : Z) : Z := if u =? 0 then 0 else Z.log2 u + 1.

Definition encode_len (u : Z) : nat := Z.to_nat (Z.max 1 ((bitlen u + 6) / 7)).

Fixpoint base128 (n : nat) (v : Z) : list byte_t :=
  match n with
  | O => []
  | S O => [Z.land v 127]
  | S n' => Z.lor (Z.land v 127) 128 :: base128 n' (Z.shiftr v 7)
  end.

Definition varint (u : Z) : list byte_t := base128 (encode_len u) u.

(** [bs] written over [m] from offset [p] on. *)
Definition blit (m : memory) (p : nat) (bs : list byte_t) : memory :=
  take p m ++ bs ++ drop (p + length bs) m.

(** [m] holds the bytes [bs] from offset [p] on. *)
Definition holds (m : memory) (p : nat) (bs : list byte_t) : Prop :=
  take (length bs) (drop p m) = bs.

(** ** Sequences of calls and the encodings they produce *)

(** [n] successive calls of [next()]. *)
Fixpoint read_n {S : Type} `{!StreamReader S} (n : nat) (self : S)
    (stream : Base128StreamReader.t)
  : outcome (list Z * S * Base128StreamReader.t) :=
  match n with
  | O => mret ([], self, stream)
  | S n' =>
      '(v, self1, stream1) ← stream_next self stream;
      '(vs, self2, stream2) ← read_n n' self1 stream1;
      mret (v :: vs, self2, stream2)
  end.

(** The bytes of a sequence of values, each in its base-128 encoding. *)
Definition varints (l : list Z) : list Z := concat (map varint l).

(** The sequence a list of (repeat-count, value) pairs stands for, and the
    pairs as they lie in [outbuf]. *)
Definition expand_pairs (ps : list (Z * Z)) : list Z :=
  concat (map (fun '(r, v) => replicate (Z.to_nat r) v) ps).

Definition flatten_pairs (ps : list (Z * Z)) : list Z :=
  concat (map (fun '(r, v) => [r; v]) ps).

(** The running sums a [DeltaStreamReader] rebuilds from differences. *)
Fixpoint undelta (T : IntType) (prev : Z) (ds : list Z) : list Z :=
  match ds with
  | [] => []
  | d :: ds' => let value := wrap T (prev + d) in value :: undelta T value ds'
  end.

(** [outbuf] as [RLEStreamWriter::tput] hands it to the byte stream when the
    writer holds no pending run ([prev_] and [reps_] zero, as after the
    constructor and after every [tput]). *)
Definition rle_outbuf (T : IntType) (iter : list Z) : list Z :=
  let '(prev, reps, outbuf) := RLEStreamWriter.tput_loop T iter 0 0 [] in
  if (length outbuf <? length iter * 2)%nat then outbuf ++ [reps; prev] else outbuf.

(** The bytes one [DeltaRLEWriter::tput] appends for the chunk [iter] when
    the delta filter holds [prev]. *)
Definition ts_chunk_bytes (prev : Z) (iter : list Z) : list Z :=
  varints (rle_outbuf u64 (DeltaStreamWriter.tput_loop u64 iter prev).1).

(** Successive [tput] calls, one per chunk, up to the first that fails. *)
Fixpoint tput_chunks {S : Type} `{!StreamWriter S} (chunks : list (list Z))
    (self : S) (stream : Base128StreamWriter.t)
  : bool * S * Base128StreamWriter.t :=
  match chunks with
  | [] => (true, self, stream)
  | c :: chunks' =>
      let '(ok, self1, stream1) := stream_tput c self stream in
      if ok then tput_chunks chunks' self1 stream1 else (false, self1, stream1)
  end.

(** A pair the run-length writer emits: its repeat-count is at least 1. *)
Definition good_pair (p : Z * Z) : Prop := 1 <= p.1 < 2 ^ 64.

(** The bytes successive [DeltaRLEWriter::tput] calls append, one chunk
    after the other; the delta filter carries the last value over. *)
Fixpoint ts_chunks_bytes (prev : Z) (chunks : list (list Z)) : list Z :=
  match chunks with
  | [] => []
  | c :: chunks' =>
      ts_chunk_bytes prev c ++ ts_chunks_bytes (default prev (last c)) chunks'
  end.

(** Every element is a value of an unsigned 64-bit integer. *)
Definition u64_list (l : list Z) : Prop := Forall (fun v => 0 <= v < 2 ^ 64) l.

(** * The FCM float codec and the block codec

    [compression.h] declares [FcmPredictor], [FcmStreamWriter],
    [FcmStreamReader], [DataBlockWriter] and [DataBlockReader]; their member
    functions are defined in [compression.cpp], which is not among the
    sources.  The records below have the fields of the declarations; the
    functions follow sections 3 and 4.3 to 4.5 of the specification.  A
    [double] is modelled by its 64 bits, a [Z] in [[0, 2^64)]: the codec is
    transparent to the bits and uses nothing else of a value. *)

Definition i32 : IntType := {| bits := 32; is_signed := true |}.

(** Modelled from the spec: the constants that the missing function bodies
    choose and the specification leaves open: the size of the predictor
    table (a power of two), the free space [room_for_chunk] asks for, and
    the least chunk cost the writer's constructor asks for beyond the
    header. *)
Record Params := {
  table_size : nat;
  chunk_reserve : nat;
  min_chunk_cost : nat
}.

(** Modelled from the spec: the status codes; the header names
    [AKU_SUCCESS] and [AKU_EOVERFLOW], section 7 of the specification the
    other kinds, section 4.5 the terminal status of an exhausted reader. *)
Inductive aku_Status :=
| AKU_SUCCESS
| AKU_EOVERFLOW
| BadArgument
| Corrupt
| StateError
| Exhausted.

(** Modelled from the spec: [MAX_CHUNKS_PER_BLOCK] of section 8, defined
    nowhere in the sources; taken as the largest count the two-byte
    [nchunks] field of the header holds. *)
Definition MAX_CHUNKS_PER_BLOCK : Z := 65535.

Module FcmPredictor.

Record t := mk {
  table : list Z;
  last_hash : Z;
  MASK_ : Z
}.

(** Modelled from the spec: the body of [FcmPredictor(size_t table_size)]: a
    table of zeros, the index mask [size - 1]. *)
Definition make (table_size : nat) : t :=
  mk (replicate table_size 0) 0 (wrap u64 (Z.of_nat table_size - 1)).

(** Modelled from the spec: the body of [predict_next]: [table[last_hash]]. *)
Definition predict_next (self : t) : Z :=
  table self !!! Z.to_nat (last_hash self).

(** Modelled from the spec: the body of [update]: writes [v] into
    [table[last_hash]], then
    [last_hash = ((last_hash << 6) XOR (v >> 48)) AND mask]. *)
Definition update (value : Z) (self : t) : t :=
  mk (<[Z.to_nat (last_hash self) := value]> (table self))
     (Z.land (Z.lxor (wrap u64 (Z.shiftl (last_hash self) 6)) (Z.shiftr value 48))
        (MASK_ self))
     (MASK_ self).

End FcmPredictor.

(** Modelled from the spec: the count of significant bytes of a 64-bit
    value, 8 minus its count of leading zero bytes [lz]. *)
Fixpoint significant_bytes (fuel : nat) (x : Z) : nat :=
  match fuel with
  | O => O
  | S fuel' => if x =? 0 then O else S (significant_bytes fuel' (Z.shiftr x 8))
  end.

(** Modelled from the spec: the count [lz] of leading zero bytes (0..8) of a
    64-bit value. *)
Definition leading_zero_bytes (x : Z) : Z := 8 - Z.of_nat (significant_bytes 8 x).

Module FcmStreamWriter.

Record t := mk {
  predictor_ : FcmPredictor.t;
  prev_diff_ : Z;
  prev_flag_ : Z;
  nelements_ : Z
}.

(** Modelled from the spec: the body of the constructor: a predictor reset
    to zeros, nothing pending. *)
Definition make (P : Params) : t :=
  mk (FcmPredictor.make (table_size P)) 0 0 0.

(** Modelled from the spec: steps 1 and 2 of the wire format, absent with
    the body of [put]: [xor = bits(v) XOR predict_next()], [flag = lz]; the
    predictor is updated with the value. *)
Definition encode (value : Z) (self : t) : Z * Z * FcmPredictor.t :=
  let diff := Z.lxor value (FcmPredictor.predict_next (predictor_ self)) in
  (diff, leading_zero_bytes diff, FcmPredictor.update value (predictor_ self)).

(** Modelled from the spec: the write of the [8 - lz] significant bytes of a
    difference, low-order first, absent with the body of [put]. *)
Definition put_significant (diff flag : Z) (stream : Base128StreamWriter.t)
  : bool * Base128StreamWriter.t :=
  Base128StreamWriter.put_raw (Z.to_nat (8 - flag)) diff stream.

(** Modelled from the spec: the body of [put]: the first value of a pair
    stashes its flag and difference; with the second the byte
    [(flag_first << 4) | flag_second] is written, then the significant bytes
    of the first and of the second. *)
Definition put (value : Z) (self : t) (stream : Base128StreamWriter.t)
  : bool * t * Base128StreamWriter.t :=
  let '(diff, flag, predictor) := encode value self in
  let self' := mk predictor diff flag (wrap i32 (nelements_ self + 1)) in
  if Z.even (nelements_ self) then (true, self', stream)
  else
    let '(ok0, s0) :=
      Base128StreamWriter.put_raw 1 (Z.lor (Z.shiftl (prev_flag_ self) 4) flag) stream in
    if negb ok0 then (false, self', s0)
    else
      let '(ok1, s1) := put_significant (prev_diff_ self) (prev_flag_ self) s0 in
      if negb ok1 then (false, self', s1)
      else
        let '(ok2, s2) := put_significant diff flag s1 in
        (ok2, self', s2).

(** Modelled from the spec: the loop of [tput] over the values. *)
Fixpoint tput_loop (values : list Z) (self : t) (stream : Base128StreamWriter.t)
  : bool * t * Base128StreamWriter.t :=
  match values with
  | [] => (true, self, stream)
  | value :: values' =>
      let '(ok, self1, stream1) := put value self stream in
      if ok then tput_loop values' self1 stream1 else (false, self1, stream1)
  end.

(** Modelled from the spec: the body of [tput]: all values or none; on a
    failure the cursor and the state of the codec are those before the
    call. *)
Definition tput (values : list Z) (self : t) (stream : Base128StreamWriter.t)
  : bool * t * Base128StreamWriter.t :=
  let '(ok, self', stream') := tput_loop values self stream in
  if ok then (true, self', stream')
  else (false, self,
        Base128StreamWriter.set_pos stream' (Base128StreamWriter.pos_ stream)).

(** Modelled from the spec: the body of [commit]: a pending first value of a
    pair is written with its flag in the high nibble, the low nibble zero. *)
Definition commit (self : t) (stream : Base128StreamWriter.t)
  : bool * t * Base128StreamWriter.t :=
  if Z.odd (nelements_ self) then
    let '(ok0, s0) :=
      Base128StreamWriter.put_raw 1 (Z.shiftl (prev_flag_ self) 4) stream in
    if negb ok0 then (false, self, s0)
    else
      let '(ok1, s1) := put_significant (prev_diff_ self) (prev_flag_ self) s0 in
      (ok1, self, s1)
  else (true, self, stream).

End FcmStreamWriter.

Module FcmStreamReader.

Record t := mk {
  predictor_ : FcmPredictor.t;
  flags_ : Z;
  iter_ : Z
}.

(** Modelled from the spec: the body of the constructor. *)
Definition make (P : Params) : t :=
  mk (FcmPredictor.make (table_size P)) 0 0.

(** Modelled from the spec: the body of [next]: the flag byte is read at the
    start of each pair; a value is [8 - flag_nibble] bytes, XOR the
    prediction; a nibble above 8 and a read past the end are failures. *)
Definition next (self : t) (stream : Base128StreamReader.t)
  : outcome (Z * t * Base128StreamReader.t) :=
  '(flags, stream1) ←
    (if Z.even (iter_ self) then Base128StreamReader.read_raw 1 stream
     else mret (flags_ self, stream));
  let flag := if Z.even (iter_ self) then Z.shiftr flags 4 else Z.land flags 15 in
  if 8 <? flag then Panic
  else
    '(diff, stream2) ← Base128StreamReader.read_raw (Z.to_nat (8 - flag)) stream1;
    let value := Z.lxor diff (FcmPredictor.predict_next (predictor_ self)) in
    mret (value,
          mk (FcmPredictor.update value (predictor_ self)) flags
             (wrap u32 (iter_ self + 1)),
          stream2).

End FcmStreamReader.

#[global] Instance FcmStreamReader_ops : StreamReader FcmStreamReader.t := {
  stream_next := FcmStreamReader.next
}.

Module DataBlockWriter.

Definition CHUNK_SIZE : nat := 16.
Definition CHUNK_MASK : Z := 15.
Definition HEADER_SIZE : nat := 14.

(** The fields of the struct; [sealed_] is not one of them: it records that
    [commit] was called, which the specification has [put] test. *)
Record t := mk {
  stream_ : Base128StreamWriter.t;
  ts_stream_ : DeltaRLEWriter;
  val_stream_ : FcmStreamWriter.t;
  write_index_ : Z;
  ts_writebuf_ : list Z;
  val_writebuf_ : list Z;
  nchunks_ : nat;
  ntail_ : nat;
  sealed_ : bool
}.

(** Modelled from the spec: the body of
    [DataBlockWriter(aku_ParamId id, u8* buf, int size)]: the header with
    version 1, the two reserved counts set to zero, and the series id;
    construction fails below [HEADER_SIZE] plus the least chunk cost.
    [buf] is the memory from the pointer on. *)
Definition make (P : Params) (id : Z) (buf : list Z) (size : nat) : option t :=
  if (size <? HEADER_SIZE + min_chunk_cost P)%nat then None
  else
    let s0 := Base128StreamWriter.make buf 0 size in
    let '(ok1, s1) := Base128StreamWriter.put_raw 2 1 s0 in
    let '(nchunks, s2) := Base128StreamWriter.allocate 2 s1 in
    let '(ntail, s3) := Base128StreamWriter.allocate 2 s2 in
    let '(ok2, s4) := Base128StreamWriter.put_raw 8 id s3 in
    match nchunks, ntail with
    | Some pn, Some pt =>
        if ok1 && ok2 then
          let m := store_bytes (store_bytes (Base128StreamWriter.mem s4) pt (le_bytes 2 0))
                     pn (le_bytes 2 0) in
          Some (mk (Base128StreamWriter.set_mem s4 m) (DeltaRLEWriter_make s0)
                  (FcmStreamWriter.make P) 0 (replicate CHUNK_SIZE 0)
                  (replicate CHUNK_SIZE 0) pn pt false)
        else None
    | _, _ => None
    end.

(** Modelled from the spec: the body of [room_for_chunk]: enough space
    left for the worst case of one chunk. *)
Definition room_for_chunk (P : Params) (self : t) : bool :=
  (chunk_reserve P <=? Base128StreamWriter.space_left (stream_ self))%nat.

(** Modelled from the spec: the body of [put]: the sample goes to the
    scratch arrays; the sixteenth sample of a chunk flushes the chunk, the
    timestamps through the Delta-RLE stack, then the values through the FCM
    codec; without room, or when the flush fails, the status is overflow
    and the writer is as before the call; after [commit] a state error. *)
Definition put (P : Params) (ts value : Z) (self : t) : aku_Status * t :=
  if sealed_ self then (StateError, self)
  else
    let i := Z.to_nat (Z.land (write_index_ self) CHUNK_MASK) in
    let ts_writebuf := <[i := ts]> (ts_writebuf_ self) in
    let val_writebuf := <[i := value]> (val_writebuf_ self) in
    if (S i =? CHUNK_SIZE)%nat then
      if negb (room_for_chunk P self) then (AKU_EOVERFLOW, self)
      else
        let '(ok1, ts_stream, stream1) :=
          stream_tput ts_writebuf (ts_stream_ self) (stream_ self) in
        if negb ok1 then (AKU_EOVERFLOW, self)
        else
          let '(ok2, val_stream, stream2) :=
            FcmStreamWriter.tput val_writebuf (val_stream_ self) stream1 in
          if negb ok2 then (AKU_EOVERFLOW, self)
          else
            (AKU_SUCCESS,
             mk stream2 ts_stream val_stream (wrap i32 (write_index_ self + 1))
                ts_writebuf val_writebuf (nchunks_ self) (ntail_ self) false)
    else
      (AKU_SUCCESS,
       mk (stream_ self) (ts_stream_ self) (val_stream_ self)
          (wrap i32 (write_index_ self + 1))
          ts_writebuf val_writebuf (nchunks_ self) (ntail_ self) false).

(** Modelled from the spec: the body of [commit]: the counts of completed
    chunks and of scratch samples go to their header slots; the result is
    the number of bytes used. *)
Definition commit (self : t) : nat * t :=
  let s := stream_ self in
  let nchunks := Z.shiftr (write_index_ self) 4 in
  let ntail := Z.land (write_index_ self) CHUNK_MASK in
  let m := store_bytes
             (store_bytes (Base128StreamWriter.mem s) (nchunks_ self) (le_bytes 2 nchunks))
             (ntail_ self) (le_bytes 2 ntail) in
  (Base128StreamWriter.size s,
   mk (Base128StreamWriter.set_mem s m) (ts_stream_ self) (val_stream_ self)
      (write_index_ self) (ts_writebuf_ self) (val_writebuf_ self)
      (nchunks_ self) (ntail_ self) true).

(** Modelled from the spec: the body of [read_tail_elements]: the scratch
    samples not yet flushed. *)
Definition read_tail_elements (self : t) : list Z * list Z :=
  let ntail := Z.to_nat (Z.land (write_index_ self) CHUNK_MASK) in
  (take ntail (ts_writebuf_ self), take ntail (val_writebuf_ self)).

(** Modelled from the spec: the body of [get_write_index]. *)
Definition get_write_index (self : t) : Z := write_index_ self.

End DataBlockWriter.

Module DataBlockReader.

Definition CHUNK_SIZE : nat := 16.
Definition CHUNK_MASK : Z := 15.

Record t := mk {
  begin_ : nat;
  stream_ : Base128StreamReader.t;
  ts_stream_ : DeltaRLEReader;
  val_stream_ : FcmStreamReader.t;
  read_buffer_ : list Z;
  read_index_ : Z
}.

(** Modelled from the spec: the bodies of the header accessors [version],
    [get_id] and [nelements], the last being [nchunks * 16]. *)
Definition version (self : t) : Z :=
  le_value (load_bytes (Base128StreamReader.mem (stream_ self)) (begin_ self) 2).

Definition nchunks (self : t) : Z :=
  le_value (load_bytes (Base128StreamReader.mem (stream_ self)) (begin_ self + 2) 2).

Definition get_id (self : t) : Z :=
  le_value (load_bytes (Base128StreamReader.mem (stream_ self)) (begin_ self + 6) 8).

Definition nelements (self : t) : Z := nchunks self * 16.

(** Modelled from the spec: the body of
    [DataBlockReader(u8 const* buf, size_t bufsize)]: the header is parsed, a
    version other than 1 and a tail count above 15 are rejected, the streams
    start right after the header. *)
Definition make (P : Params) (buf : list Z) (bufsize : nat) : t + aku_Status :=
  if (bufsize <? DataBlockWriter.HEADER_SIZE)%nat then inr BadArgument
  else if negb (le_value (load_bytes buf 0 2) =? 1) then inr Corrupt
  else if 15 <? le_value (load_bytes buf 4 2) then inr Corrupt
  else inl (mk 0 (Base128StreamReader.make buf DataBlockWriter.HEADER_SIZE bufsize)
              DeltaRLEReader_make (FcmStreamReader.make P)
              (replicate CHUNK_SIZE 0) 0).

(** Modelled from the spec: the body of [next]: at a chunk boundary the 16
    timestamps of the chunk are read into [read_buffer_]; each call decodes
    one value; after [nelements()] samples the status is terminal; a failure
    of a stream is reported as corrupt and leaves the reader as it was. *)
Definition next (self : t) : aku_Status * Z * Z * t :=
  if read_index_ self <? nelements self then
    let chunk_index := Z.land (read_index_ self) CHUNK_MASK in
    let step :=
      '(buffer, ts_stream, stream1) ←
        (if chunk_index =? 0
         then read_n CHUNK_SIZE (ts_stream_ self) (stream_ self)
         else mret (read_buffer_ self, ts_stream_ self, stream_ self));
      '(value, val_stream, stream2) ← FcmStreamReader.next (val_stream_ self) stream1;
      mret (buffer, ts_stream, value, val_stream, stream2) in
    match step with
    | Value (buffer, ts_stream, value, val_stream, stream2) =>
        (AKU_SUCCESS, buffer !!! Z.to_nat chunk_index, value,
         mk (begin_ self) stream2 ts_stream val_stream buffer
            (wrap u32 (read_index_ self + 1)))
    | Panic => (Corrupt, 0, 0, self)
    end
  else (Exhausted, 0, 0, self).

End DataBlockReader.

(** ** Runs of the block codec *)

(** [put] for each sample in order, every call returning [AKU_SUCCESS]. *)
Fixpoint put_all (P : Params) (samples : list (Z * Z)) (w : DataBlockWriter.t)
  : option DataBlockWriter.t :=
  match samples with
  | [] => Some w
  | (ts, value) :: samples' =>
      match DataBlockWriter.put P ts value w with
      | (AKU_SUCCESS, w') => put_all P samples' w'
      | _ => None
      end
  end.

(** [n] successive [next()] calls of the block reader, every one returning
    [AKU_SUCCESS]: the samples, and the reader after them. *)
Fixpoint next_all (n : nat) (r : DataBlockReader.t)
  : option (list (Z * Z) * DataBlockReader.t) :=
  match n with
  | O => Some ([], r)
  | S n' =>
      match DataBlockReader.next r with
      | (AKU_SUCCESS, ts, value, r') =>
          match next_all n' r' with
          | Some (samples, r'') => Some ((ts, value) :: samples, r'')
          | None => None
          end
      | _ => None
      end
  end.

(** ** The bytes of the FCM codec and of a block *)

(** The bytes of a pair of values: the flag byte, then the significant bytes
    of the two differences; [p] is the predictor before the pair. *)
Definition fcm_pair_bytes (p : FcmPredictor.t) (v1 v2 : Z) : list Z :=
  let d1 := Z.lxor v1 (FcmPredictor.predict_next p) in
  let p1 := FcmPredictor.update v1 p in
  let d2 := Z.lxor v2 (FcmPredictor.predict_next p1) in
  [Z.lor (Z.shiftl (leading_zero_bytes d1) 4) (leading_zero_bytes d2)]
  ++ le_bytes (significant_bytes 8 d1) d1
  ++ le_bytes (significant_bytes 8 d2) d2.

Fixpoint fcm_bytes (p : FcmPredictor.t) (values : list Z) : list Z :=
  match values with
  | v1 :: v2 :: values' =>
      fcm_pair_bytes p v1 v2
      ++ fcm_bytes (FcmPredictor.update v2 (FcmPredictor.update v1 p)) values'
  | _ => []
  end.

(** The predictor after a sequence of values. *)
Definition predictor_after (p : FcmPredictor.t) (values : list Z) : FcmPredictor.t :=
  fold_left (fun p v => FcmPredictor.update v p) values p.

(** The entries of the table are 64-bit values. *)
Definition predictor_ok (p : FcmPredictor.t) : Prop := u64_list (FcmPredictor.table p).

(** The payload of a block: for each chunk of samples its timestamps, then
    its values, each codec carrying its state over from the chunk before. *)
Fixpoint payload (ts_prev : Z) (p : FcmPredictor.t) (chunks : list (list (Z * Z)))
  : list Z :=
  match chunks with
  | [] => []
  | c :: chunks' =>
      ts_chunk_bytes ts_prev (map fst c) ++ fcm_bytes p (map snd c)
      ++ payload (default ts_prev (last (map fst c)))
           (predictor_after p (map snd c)) chunks'
  end.

(** A sample: a 64-bit timestamp and the 64 bits of a double. *)
Definition sample_ok (s : Z * Z) : Prop :=
  (0 <= s.1 < 2 ^ 64) /\ (0 <= s.2 < 2 ^ 64).

(** The state the two codecs are in after the chunks [chunks]. *)
Definition ts_prev_after (prev : Z) (chunks : list (list (Z * Z))) : Z :=
  fold_left (fun p c => default p (last (map fst c))) chunks prev.

Definition predictor_after_chunks (p : FcmPredictor.t) (chunks : list (list (Z * Z)))
  : FcmPredictor.t :=
  fold_left (fun p c => predictor_after p (map snd c)) chunks p.

(** The 14 bytes of the header. *)
Definition header_bytes (nchunks ntail id : Z) : list Z :=
  le_bytes 2 1 ++ le_bytes 2 nchunks ++ le_bytes 2 ntail ++ le_bytes 8 id.

(** A chunk: 16 samples. *)
Definition chunk_ok (c : list (Z * Z)) : Prop :=
  length c = 16%nat /\ Forall sample_ok c.

(** The writer of a block of size [size] for the series [id] after the chunks
    [flushed] went to the stream, with the samples [tail] in the scratch
    arrays. *)
Definition writer_inv (P : Params) (id : Z) (size : nat) (w : DataBlockWriter.t)
    (flushed : list (list (Z * Z))) (tail : list (Z * Z)) : Prop :=
  let s := DataBlockWriter.stream_ w in
  let p0 := FcmPredictor.make (table_size P) in
  let bytes := payload 0 p0 flushed in
  DataBlockWriter.sealed_ w = false /\
  Forall chunk_ok flushed /\ Forall sample_ok tail /\ (length tail < 16)%nat /\
  DataBlockWriter.write_index_ w = Z.of_nat (16 * length flushed + length tail) /\
  DataBlockWriter.nchunks_ w = 2%nat /\ DataBlockWriter.ntail_ w = 4%nat /\
  Base128StreamWriter.wf s /\
  Base128StreamWriter.begin_ s = 0%nat /\ Base128StreamWriter.end_ s = size /\
  Base128StreamWriter.pos_ s = (14 + length bytes)%nat /\
  holds (Base128StreamWriter.mem s) 0 (header_bytes 0 0 id ++ bytes) /\
  DataBlockWriter.ts_stream_ w
    = DeltaStreamWriter.mk (RLEStreamWriter.mk 0 0 0) (ts_prev_after 0 flushed) /\
  (exists d f k, Z.even k = true /\
     DataBlockWriter.val_stream_ w
       = FcmStreamWriter.mk (predictor_after_chunks p0 flushed) d f k) /\
  length (DataBlockWriter.ts_writebuf_ w) = 16%nat /\
  length (DataBlockWriter.val_writebuf_ w) = 16%nat /\
  take (length tail) (DataBlockWriter.ts_writebuf_ w) = map fst tail /\
  take (length tail) (DataBlockWriter.val_writebuf_ w) = map snd tail.

(** A writer constructed over [buf] with [size] bytes, then [put] for every
    sample in order: the writer before [commit], when the constructor and
    every [put] succeeded. *)
Definition write_block (P : Params) (id : Z) (buf : list Z) (size : nat)
    (samples : list (Z * Z)) : option DataBlockWriter.t :=
  match DataBlockWriter.make P id buf size with
  | Some w => put_all P samples w
  | None => None
  end.

(** * Further parts of [compression.h]

    ** Runs of calls on the byte streams *)

(** [n] successive [next<TVal>()] calls on the byte stream. *)
Fixpoint next_n (T : IntType) (n : nat) (s : Base128StreamReader.t)
  : outcome (list Z * Base128StreamReader.t) :=
  match n with
  | O => mret ([], s)
  | S n' =>
      '(v, s1) ← Base128StreamReader.next T s;
      '(vs, s2) ← next_n T n' s1;
      mret (v :: vs, s2)
  end.

(** [put] for each value in order, up to the first call that fails. *)
Fixpoint put_each {S : Type} `{!StreamWriter S} (l : list Z) (self : S)
    (stream : Base128StreamWriter.t) : bool * S * Base128StreamWriter.t :=
  match l with
  | [] => (true, self, stream)
  | v :: l' =>
      let '(ok, self1, stream1) := stream_put v self stream in
      if ok then put_each l' self1 stream1 else (false, self1, stream1)
  end.

(** The calls that move the cursor of a [Base128StreamWriter] or write
    through it, and the stream after a sequence of them, whatever they
    returned. *)
Inductive writer_op :=
| OpPut (value : Z)
| OpTput (iter : list Z)
| OpPutRaw (sz : nat) (value : Z)
| OpAllocate (sz : nat).

Definition run_op (op : writer_op) (s : Base128StreamWriter.t)
  : Base128StreamWriter.t :=
  match op with
  | OpPut value => (Base128StreamWriter.put value s).2
  | OpTput iter => (Base128StreamWriter.tput iter s).2
  | OpPutRaw sz value => (Base128StreamWriter.put_raw sz value s).2
  | OpAllocate sz => (Base128StreamWriter.allocate sz s).2
  end.

Definition run_ops (ops : list writer_op) (s : Base128StreamWriter.t)
  : Base128StreamWriter.t :=
  fold_left (fun s' op => run_op op s') ops s.

(** The bytes one [ZDeltaRLEWriter::tput] appends for the chunk [iter] when
    the delta filter holds [prev]: the differences, their zig-zag codes, the
    runs of those, each number in base 128. *)
Definition zts_chunk_bytes (prev : Z) (iter : list Z) : list Z :=
  varints (rle_outbuf i64
             (map (ZigZagStreamWriter.zigzag i64)
                (DeltaStreamWriter.tput_loop i64 iter prev).1)).

(** Every element is a value of a signed 64-bit integer. *)
Definition i64_list (l : list Z) : Prop := Forall (fun v => - 2 ^ 63 <= v < 2 ^ 63) l.

(** ** The delta-of-delta filters

    [DeltaDeltaStreamWriter<Step, TVal>] and [DeltaDeltaStreamReader<Step,
    TVal>] hold a reference to the byte stream itself; it is passed in and
    returned.  [put_calls_] and [counter_] are of type [int]; their
    increment is modelled with the wrap-around of a 32-bit integer. *)

Module DeltaDeltaStreamWriter.

Record t (T : IntType) := mk {
  prev_ : Z;
  put_calls_ : Z
}.
Arguments mk {T}.
Arguments prev_ {T}.
Arguments put_calls_ {T}.

Definition make (T : IntType) : t T := mk 0 0.

(** The first loop of [tput]: the differences, and [prev_] as the loop
    leaves it. *)
Fixpoint delta_loop (T : IntType) (iter : list Z) (prev : Z) : list Z * Z :=
  match iter with
  | [] => ([], prev)
  | value :: iter' =>
      let result := wrap T (value - prev) in
      let '(outbuf, prev') := delta_loop T iter' value in
      (result :: outbuf, prev')
  end.

(** [TVal min = outbuf[0]; for (i = 1; i < n; i++) min = std::min(outbuf[i], min);]
    For [n = 0] the C++ reads [outbuf[0]] outside the array; the model has 0
    there. *)
Definition min_loop (outbuf : list Z) : Z :=
  match outbuf with
  | [] => 0
  | d :: outbuf' => fold_left (fun min d' => Z.min d' min) outbuf' d
  end.

(** [bool tput(TVal const* iter, size_t n)] ([assert(n == Step)]) *)
Definition tput (T : IntType) (iter : list Z) (self : t T)
    (stream : Base128StreamWriter.t) : bool * t T * Base128StreamWriter.t :=
  let '(outbuf, prev) := delta_loop T iter (prev_ self) in
  let min := min_loop outbuf in
  let outbuf' := map (fun d => wrap T (d - min)) outbuf in
  let self' := mk prev (put_calls_ self) in
  let '(ok1, stream1) := Base128StreamWriter.put min stream in
  if negb ok1 then (false, self', stream1)
  else
    let '(ok, stream2) := Base128StreamWriter.tput outbuf' stream1 in
    (ok, self', stream2).

(** The type of [value - prev_] after the integer promotions: a [TVal]
    narrower than [int] is promoted to [int] and the difference is an [int],
    negative when [value < prev_]; from 32 bits on the difference is a
    [TVal] again. *)
Definition promoted (T : IntType) : IntType :=
  if bits T <? 32 then i32 else T.

(** [bool put(TVal value)].  [stream_.put] is the template
    [Base128StreamWriter::put<TVal>], so [stream_.put(value - prev_)] is
    instantiated at the promoted type of the difference and not at [TVal]. *)
Definition put (T : IntType) (value : Z) (self : t T)
    (stream : Base128StreamWriter.t) : bool * t T * Base128StreamWriter.t :=
  let rest (stream1 : Base128StreamWriter.t) :=
    let '(success, stream2) :=
      Base128StreamWriter.put (wrap (promoted T) (value - prev_ self)) stream1 in
    (success, mk value (wrap i32 (put_calls_ self + 1)), stream2) in
  if put_calls_ self =? 0 then
    let '(success, stream1) := Base128StreamWriter.put 0 stream in
    if negb success then (false, self, stream1) else rest stream1
  else rest stream.

Definition size (T : IntType) (self : t T) (stream : Base128StreamWriter.t) : nat :=
  Base128StreamWriter.size stream.

Definition commit (T : IntType) (self : t T) (stream : Base128StreamWriter.t)
  : bool * t T * Base128StreamWriter.t :=
  (Base128StreamWriter.commit stream, self, stream).

End DeltaDeltaStreamWriter.

#[global] Instance DeltaDeltaStreamWriter_ops (T : IntType)
  : StreamWriter (DeltaDeltaStreamWriter.t T) := {
  stream_tput := DeltaDeltaStreamWriter.tput T;
  stream_put := DeltaDeltaStreamWriter.put T;
  stream_commit := DeltaDeltaStreamWriter.commit T;
  stream_size := DeltaDeltaStreamWriter.size T
}.

Module DeltaDeltaStreamReader.

Record t (T : IntType) := mk {
  prev_ : Z;
  min_ : Z;
  counter_ : Z
}.
Arguments mk {T}.
Arguments prev_ {T}.
Arguments min_ {T}.
Arguments counter_ {T}.

Definition make (T : IntType) : t T := mk 0 0 0.

(** [TVal next()]; in [counter_ % Step] the [int] is converted to the
    [size_t] of [Step] ([Step = 0] is a division by zero in C++). *)
Definition next (Step : nat) (T : IntType) (self : t T)
    (stream : Base128StreamReader.t)
  : outcome (Z * t T * Base128StreamReader.t) :=
  '(min, stream1) ←
    (if wrap u64 (counter_ self) mod Z.of_nat Step =? 0
     then Base128StreamReader.next T stream
     else mret (min_ self, stream));
  '(delta, stream2) ← Base128StreamReader.next T stream1;
  let value := wrap T (prev_ self + delta + min) in
  mret (value, mk value min (wrap i32 (counter_ self + 1)), stream2).

End DeltaDeltaStreamReader.

(** [n] successive [next()] calls of a [DeltaDeltaStreamReader<Step, TVal>]. *)
Fixpoint dd_read_n (Step : nat) (T : IntType) (n : nat)
    (self : DeltaDeltaStreamReader.t T) (stream : Base128StreamReader.t)
  : outcome (list Z * DeltaDeltaStreamReader.t T * Base128StreamReader.t) :=
  match n with
  | O => mret ([], self, stream)
  | S n' =>
      '(v, self1, stream1) ← DeltaDeltaStreamReader.next Step T self stream;
      '(vs, self2, stream2) ← dd_read_n Step T n' self1 stream1;
      mret (v :: vs, self2, stream2)
  end.

(** The bytes one [DeltaDeltaStreamWriter::tput] appends for the chunk
    [iter] when the filter holds [prev]: the least difference, then each
    difference less that. *)
Definition dd_chunk_bytes (T : IntType) (prev : Z) (iter : list Z) : list Z :=
  let outbuf := (DeltaDeltaStreamWriter.delta_loop T iter prev).1 in
  let min := DeltaDeltaStreamWriter.min_loop outbuf in
  varints (min :: map (fun d => wrap T (d - min)) outbuf).

(** The number of bits a non-negative value of [T] can have, and the
    non-negative values of [T]. *)
Definition value_bits (T : IntType) : Z :=
  if is_signed T then bits T - 1 else bits T.

Definition nonneg_value (T : IntType) (v : Z) : Prop := 0 <= v /\ in_range T v.

(** A chunk in which no value equals the one before it, [prev] being the
    value before the first. *)
Fixpoint all_change (prev : Z) (l : list Z) : Prop :=
  match l with
  | [] => True
  | v :: l' => v <> prev /\ all_change v l'
  end.

(** * Properties *)

(** ** Arithmetic of seven-bit groups *)

Lemma forall_below (P : Z -> bool) (n : nat) :
  forallb P (map Z.of_nat (seq 0 n)) = true ->
  forall x, 0 <= x < Z.of_nat n -> P x = true.
Proof.
  intros H x Hx. rewrite forallb_forall in H. apply H.
  apply in_map_iff. exists (Z.to_nat x). split; [lia|].
  apply in_seq. lia.
Qed.

Lemma land_127 v : Z.land v 127 = v mod 128.
Proof. change 127 with (Z.ones 7). rewrite Z.land_ones by lia. reflexivity. Qed.

Lemma shiftr_7 v : Z.shiftr v 7 = v / 128.
Proof. rewrite Z.shiftr_div_pow2 by lia. reflexivity. Qed.

Lemma low7_range v : 0 <= Z.land v 127 < 128.
Proof. rewrite land_127. apply Z.mod_pos_bound. lia. Qed.

Lemma split7 v : v = Z.land v 127 + 128 * Z.shiftr v 7.
Proof. rewrite land_127, shiftr_7. pose proof (Z.div_mod v 128). lia. Qed.

Lemma byte_last_flag v : (Z.land (Z.land v 127) 128 =? 0) = true.
Proof.
  pose proof (low7_range v).
  apply (forall_below (fun x => Z.land x 128 =? 0) 128 eq_refl). lia.
Qed.

Lemma byte_cont_flag v : (Z.land (Z.lor (Z.land v 127) 128) 128 =? 0) = false.
Proof.
  pose proof (low7_range v).
  apply negb_true_iff.
  apply (forall_below (fun x => negb (Z.land (Z.lor x 128) 128 =? 0)) 128 eq_refl).
  lia.
Qed.

Lemma byte_cont_low v : Z.land (Z.lor (Z.land v 127) 128) 127 = Z.land v 127.
Proof.
  pose proof (low7_range v).
  apply Z.eqb_eq.
  apply (forall_below (fun x => Z.land (Z.lor x 128) 127 =? x) 128 eq_refl).
  lia.
Qed.

Lemma byte_last_low v : Z.land (Z.land v 127) 127 = Z.land v 127.
Proof.
  rewrite <- Z.land_assoc. reflexivity.
Qed.

Lemma lor_disjoint a b n :
  0 <= n -> 0 <= a < 2 ^ n -> Z.lor a (b * 2 ^ n) = a + b * 2 ^ n.
Proof.
  intros Hn Ha.
  rewrite <- Z.shiftl_mul_pow2 by lia.
  assert (Hd : Z.land a (Z.shiftl b n) = 0).
  { apply Z.bits_inj'. intros k Hk. rewrite Z.land_spec, Z.bits_0.
    destruct (Z.lt_ge_cases k n).
    + rewrite Z.shiftl_spec_low by lia. apply andb_false_r.
    + destruct (Z.eq_dec a 0) as [->|]; [rewrite Z.bits_0; reflexivity|].
      rewrite (Z.bits_above_log2 a k); [reflexivity|lia|].
      assert (Z.log2 a < n) by (apply Z.log2_lt_pow2; lia). lia. }
  rewrite <- Z.lxor_lor by assumption.
  symmetry. apply Z.add_nocarry_lxor. assumption.
Qed.

(** ** The length formula *)

Lemma encode_len_small u : 0 <= u -> Z.shiftr u 7 = 0 -> encode_len u = 1%nat.
Proof.
  intros Hu H. rewrite shiftr_7 in H.
  assert (u < 128) by (apply Z.div_small_iff in H; lia).
  unfold encode_len, bitlen.
  destruct (Z.eqb_spec u 0).
  - reflexivity.
  - assert (Z.log2 u < 7) by (apply Z.log2_lt_pow2; lia).
    pose proof (Z.log2_nonneg u).
    replace ((Z.log2 u + 1 + 6) / 7) with 1; [reflexivity|].
    apply (Z.div_unique _ 7 1 (Z.log2 u)); lia.
Qed.

Lemma encode_len_step u :
  0 <= u -> Z.shiftr u 7 <> 0 -> encode_len u = S (encode_len (Z.shiftr u 7)).
Proof.
  intros Hu H.
  assert (128 <= u).
  { destruct (Z.lt_ge_cases u 128); [|assumption].
    exfalso. apply H. rewrite shiftr_7. apply Z.div_small. lia. }
  assert (Hlog : Z.log2 (Z.shiftr u 7) = Z.max 0 (Z.log2 u - 7)).
  { apply Z.log2_shiftr. lia. }
  rewrite shiftr_7 in *.
  assert (7 <= Z.log2 u) by (apply (Z.log2_le_pow2 u 7); lia).
  unfold encode_len, bitlen.
  destruct (Z.eqb_spec u 0); [lia|].
  destruct (Z.eqb_spec (u / 128) 0); [lia|].
  rewrite Hlog.
  replace (Z.max 0 (Z.log2 u - 7)) with (Z.log2 u - 7) by lia.
  replace (Z.log2 u + 1 + 6) with ((Z.log2 u - 7 + 1 + 6) + 1 * 7) by lia.
  rewrite Z.div_add by lia.
  assert (1 <= (Z.log2 u - 7 + 1 + 6) / 7) by (apply Z.div_le_lower_bound; lia).
  lia.
Qed.

Lemma encode_len_pos u : (1 <= encode_len u)%nat.
Proof. unfold encode_len. lia. Qed.

Lemma encode_len_bound u k :
  0 <= u < 2 ^ (7 * Z.of_nat k) -> (1 <= k)%nat -> (encode_len u <= k)%nat.
Proof.
  intros Hu Hk. unfold encode_len, bitlen.
  destruct (Z.eqb_spec u 0).
  - change ((0 + 6) / 7) with 0. lia.
  - assert (Z.log2 u < 7 * Z.of_nat k) by (apply Z.log2_lt_pow2; lia).
    assert ((Z.log2 u + 1 + 6) / 7 < Z.of_nat k + 1).
    { apply Z.div_lt_upper_bound; lia. }
    lia.
Qed.

Lemma encode_len_u64 u : 0 <= u < 2 ^ 64 -> (encode_len u <= 10)%nat.
Proof.
  intros Hu. apply encode_len_bound; [|lia].
  change (7 * Z.of_nat 10) with 70.
  assert (2 ^ 64 <= 2 ^ 70) by (apply Z.pow_le_mono_r; lia). lia.
Qed.

Lemma base128_length n v : length (base128 n v) = n.
Proof.
  revert v. induction n as [|n IH]; intros v; [reflexivity|].
  destruct n; [reflexivity|].
  change (length (base128 (S (S n)) v)) with (S (length (base128 (S n) (Z.shiftr v 7)))).
  rewrite IH. reflexivity.
Qed.

Lemma varint_length u : length (varint u) = encode_len u.
Proof. apply base128_length. Qed.

Lemma varint_small u : 0 <= u -> Z.shiftr u 7 = 0 -> varint u = [Z.land u 127].
Proof. intros Hu H. unfold varint. rewrite encode_len_small by assumption. reflexivity. Qed.

Lemma varint_step u :
  0 <= u -> Z.shiftr u 7 <> 0 ->
  varint u = Z.lor (Z.land u 127) 128 :: varint (Z.shiftr u 7).
Proof.
  intros Hu H. unfold varint. rewrite (encode_len_step u) by assumption.
  pose proof (encode_len_pos (Z.shiftr u 7)).
  destruct (encode_len (Z.shiftr u 7)); [lia|]. reflexivity.
Qed.


(** ** Memory *)

Lemma store_length m p b : length (store m p b) = length m.
Proof. apply length_insert. Qed.

Lemma load_store m p b : (p < length m)%nat -> load (store m p b) p = b.
Proof.
  intros H. unfold load, store.
  apply list_lookup_total_correct. apply list_lookup_insert_eq. assumption.
Qed.

Lemma store_store m p a b : store (store m p a) p b = store m p b.
Proof. apply list_insert_insert_eq. Qed.

Lemma blit_length m p bs :
  (p + length bs <= length m)%nat -> length (blit m p bs) = length m.
Proof.
  intros H. unfold blit.
  rewrite !length_app, length_take, length_drop. lia.
Qed.

Lemma blit_nil m p : blit m p [] = m.
Proof.
  unfold blit. simpl. rewrite Nat.add_0_r. apply take_drop.
Qed.

Lemma blit_cons m p b bs :
  (p < length m)%nat -> blit (store m p b) (S p) bs = blit m p (b :: bs).
Proof.
  intros H. unfold blit, store.
  rewrite (take_S_r _ _ b) by (apply list_lookup_insert_eq; assumption).
  rewrite take_insert_ge by lia.
  rewrite drop_insert_lt by lia.
  replace (p + length (b :: bs))%nat with (S p + length bs)%nat by (simpl; lia).
  rewrite <- app_assoc. reflexivity.
Qed.

Lemma blit_app m p bs1 bs2 :
  (p + length bs1 <= length m)%nat ->
  blit (blit m p bs1) (p + length bs1) bs2 = blit m p (bs1 ++ bs2).
Proof.
  intros H. unfold blit.
  assert (Hp : length (take p m) = p) by (rewrite length_take; lia).
  set (A := take p m) in *. set (C := drop (p + length bs1) m).
  assert (E1 : take (p + length bs1) (A ++ bs1 ++ C) = A ++ bs1).
  { rewrite (app_assoc A bs1 C). apply take_app_length'.
    rewrite length_app; lia. }
  assert (E2 : drop (p + length bs1 + length bs2) (A ++ bs1 ++ C)
               = drop (length bs2) C).
  { rewrite (app_assoc A bs1 C).
    rewrite drop_app_ge by (rewrite length_app; lia).
    f_equal. rewrite length_app. lia. }
  rewrite E1, E2. subst C. rewrite drop_drop, length_app, Nat.add_assoc.
  rewrite <- !app_assoc. reflexivity.
Qed.

Lemma take_blit m p q bs :
  (q <= p)%nat -> (p <= length m)%nat -> take q (blit m p bs) = take q m.
Proof.
  intros Hq Hp. unfold blit.
  rewrite take_app_le by (rewrite length_take; lia).
  rewrite take_take. f_equal. lia.
Qed.

Lemma drop_blit m p q bs :
  (p + length bs <= q)%nat -> (p + length bs <= length m)%nat ->
  drop q (blit m p bs) = drop q m.
Proof.
  intros Hq Hp. unfold blit.
  assert (Hl : length (take p m) = p) by (rewrite length_take; lia).
  set (A := take p m) in *.
  rewrite (app_assoc A bs).
  rewrite drop_app_ge by (rewrite length_app; lia).
  rewrite length_app, Hl, drop_drop. f_equal. lia.
Qed.

Lemma holds_blit m p bs :
  (p + length bs <= length m)%nat -> holds (blit m p bs) p bs.
Proof.
  intros H. unfold holds, blit.
  rewrite drop_app_length' by (rewrite length_take; lia).
  rewrite take_app_length. reflexivity.
Qed.

Lemma holds_length m p bs : holds m p bs -> (p + length bs <= length m)%nat \/ bs = [].
Proof.
  unfold holds. intros H.
  destruct bs as [|b bs]; [right; reflexivity|left].
  assert (Hl : length (take (length (b :: bs)) (drop p m)) = length (b :: bs))
    by (rewrite H; reflexivity).
  rewrite length_take, length_drop in Hl. cbn [length] in *. lia.
Qed.

Lemma take_add_app {A} (l : list A) n k :
  take (n + k) l = take n l ++ take k (drop n l).
Proof.
  revert l. induction n as [|n IH]; intros l.
  - rewrite drop_0. reflexivity.
  - destruct l as [|x l]; [rewrite take_nil, !drop_nil, !take_nil; reflexivity|].
    simpl. rewrite IH. reflexivity.
Qed.

Lemma holds_app m p bs1 bs2 :
  holds m p (bs1 ++ bs2) <-> holds m p bs1 /\ holds m (p + length bs1) bs2.
Proof.
  unfold holds. rewrite length_app, <- drop_drop, take_add_app.
  split.
  - intros H.
    assert (Hl : length (take (length bs1) (drop p m)) = length bs1).
    { apply (f_equal length) in H. rewrite !length_app in H.
      pose proof (length_take_le (drop p m) (length bs1)).
      rewrite length_take in *. 
      rewrite (length_take (drop (length bs1) (drop p m))) in H. lia. }
    apply app_inj_1 in H; assumption.
  - intros [-> ->]. reflexivity.
Qed.

Lemma holds_cons m p b bs :
  holds m p (b :: bs) <-> (p < length m)%nat /\ load m p = b /\ holds m (S p) bs.
Proof.
  change (b :: bs) with ([b] ++ bs). rewrite holds_app.
  simpl. replace (p + 1)%nat with (S p) by lia.
  unfold holds at 1. simpl. unfold load.
  split.
  - intros [H1 H2]. destruct (drop p m) as [|x l] eqn:E; [discriminate|].
    simpl in H1. injection H1 as ->.
    assert (m !! p = Some b).
    { rewrite <- (Nat.add_0_r p), <- lookup_drop, E. reflexivity. }
    split; [eapply lookup_lt_Some; eassumption|].
    split; [apply list_lookup_total_correct; assumption|assumption].
  - intros (Hlt & Hl & H2). split; [|assumption].
    destruct (lookup_lt_is_Some_2 m p Hlt) as [x Hx].
    rewrite (drop_S _ _ _ Hx). simpl. rewrite take_0.
    apply list_lookup_total_correct in Hx. congruence.
Qed.

Lemma holds_nil m p : holds m p [].
Proof. reflexivity. Qed.

(** Bytes held before (or after) a region survive a write to the region. *)
Lemma holds_blit_before m p bs q cs :
  holds m p bs -> (p + length bs <= q)%nat -> (q <= length m)%nat ->
  holds (blit m q cs) p bs.
Proof.
  unfold holds. intros H Hq Hm.
  rewrite take_drop_commute, take_blit by lia.
  rewrite <- take_drop_commute. assumption.
Qed.

Lemma holds_blit_after m p bs q cs :
  holds m p bs -> (q + length cs <= p)%nat -> (q + length cs <= length m)%nat ->
  holds (blit m q cs) p bs.
Proof.
  unfold holds. intros H Hq Hm.
  rewrite drop_blit by lia. assumption.
Qed.


(** ** Base128Int::put *)

Lemma wrap_u64_id x : 0 <= x < 2 ^ 64 -> wrap u64 x = x.
Proof. intros H. unfold wrap. simpl. apply Z.mod_small. assumption. Qed.

Lemma wrap_u64_range x : 0 <= wrap u64 x < 2 ^ 64.
Proof. unfold wrap. simpl. apply Z.mod_pos_bound. lia. Qed.

Lemma put_loop_step fuel value begin p m :
  (p < length m)%nat -> Z.shiftr value 7 <> 0 ->
  Base128Int.put_loop (S fuel) value begin p m =
  Base128Int.put_loop fuel (Z.shiftr value 7) begin (S p)
    (store m p (Z.lor (Z.land value 127) 128)).
Proof.
  intros Hp Hv. simpl.
  destruct (Z.eqb_spec (Z.shiftr value 7) 0); [contradiction|].
  rewrite load_store, store_store by assumption. reflexivity.
Qed.

Lemma put_loop_last fuel value begin p m :
  Z.shiftr value 7 = 0 ->
  Base128Int.put_loop (S fuel) value begin p m = (S p, store m p (Z.land value 127)).
Proof. intros Hv. simpl. rewrite Hv. reflexivity. Qed.

(** With room for the whole encoding the loop writes [varint value] and
    returns the pointer past it. *)
Lemma put_loop_ok fuel : forall value begin p m,
  0 <= value -> (encode_len value <= fuel)%nat ->
  (p + encode_len value <= length m)%nat ->
  Base128Int.put_loop fuel value begin p m =
  ((p + encode_len value)%nat, blit m p (varint value)).
Proof.
  induction fuel as [|fuel IH]; intros value begin p m Hv Hf Hm.
  - pose proof (encode_len_pos value). lia.
  - pose proof (encode_len_pos value).
    destruct (Z.eq_dec (Z.shiftr value 7) 0) as [E|E].
    + rewrite put_loop_last by assumption.
      rewrite varint_small, encode_len_small by assumption.
      rewrite <- (blit_cons m p _ []) by lia. rewrite blit_nil.
      f_equal. lia.
    + rewrite put_loop_step by (assumption || lia).
      rewrite (varint_step value), (encode_len_step value) in * by assumption.
      assert (0 <= Z.shiftr value 7) by (apply Z.shiftr_nonneg; assumption).
      rewrite IH by (rewrite ?store_length; lia || assumption).
      rewrite blit_cons by lia. f_equal. lia.
Qed.

(** Whatever the value, the loop leaves the bytes before [p] and from
    [p + fuel] on as they were, and returns [begin] or a pointer in
    [(p, p + fuel]]. *)
Lemma put_loop_frame fuel : forall value begin p m,
  (p + fuel <= length m)%nat ->
  let r := Base128Int.put_loop fuel value begin p m in
  length r.2 = length m /\ take p r.2 = take p m /\
  drop (p + fuel) r.2 = drop (p + fuel) m /\
  (r.1 = begin \/ (p < r.1 <= p + fuel)%nat).
Proof.
  induction fuel as [|fuel IH]; intros value begin p m Hm; simpl.
  - repeat split; auto.
  - destruct (Z.eqb_spec (Z.shiftr value 7) 0) as [E|E]; simpl.
    + rewrite store_length. unfold store.
      rewrite take_insert_ge, drop_insert_lt by lia.
      repeat split; auto. right. lia.
    + rewrite load_store, store_store by lia.
      specialize (IH (Z.shiftr value 7) begin (S p)
                    (store m p (Z.lor (Z.land value 127) 128))).
      rewrite store_length in IH. specialize (IH ltac:(lia)).
      cbv zeta in IH. destruct IH as (H1 & H2 & H3 & H4).
      split; [assumption|]. split; [|split].
      * apply (f_equal (take p)) in H2. rewrite !take_take in H2.
        rewrite Nat.min_l in H2 by lia. rewrite H2.
        unfold store. apply take_insert_ge. lia.
      * replace (p + S fuel)%nat with (S p + fuel)%nat by lia.
        rewrite H3. unfold store. apply drop_insert_lt. lia.
      * destruct H4 as [H4|H4]; [left; assumption|right; lia].
Qed.

(** Without room for the whole encoding the loop returns [begin]. *)
Lemma put_loop_short fuel : forall value begin p m,
  0 <= value -> (fuel < encode_len value)%nat -> (p + fuel <= length m)%nat ->
  (Base128Int.put_loop fuel value begin p m).1 = begin.
Proof.
  induction fuel as [|fuel IH]; intros value begin p m Hv Hf Hm.
  - reflexivity.
  - destruct (Z.eq_dec (Z.shiftr value 7) 0) as [E|E].
    + rewrite encode_len_small in Hf by assumption. lia.
    + rewrite put_loop_step by (assumption || lia).
      rewrite (encode_len_step value) in Hf by assumption.
      apply IH; [apply Z.shiftr_nonneg; assumption|lia|].
      rewrite store_length. lia.
Qed.

(** A negative value never shifts down to zero: the loop runs into [end]. *)
Lemma put_loop_negative fuel : forall value begin p m,
  value < 0 -> (p + fuel <= length m)%nat ->
  (Base128Int.put_loop fuel value begin p m).1 = begin.
Proof.
  induction fuel as [|fuel IH]; intros value begin p m Hv Hm.
  - reflexivity.
  - assert (Z.shiftr value 7 < 0) by (apply Z.shiftr_neg; assumption).
    rewrite put_loop_step by lia.
    apply IH; [assumption|]. rewrite store_length. lia.
Qed.

(** ** Base128Int::get *)

(** The loop reads only the bytes in [[p, p + fuel)]. *)
Lemma get_loop_ext T fuel : forall acc cnt begin p m1 m2,
  (forall i, (p <= i < p + fuel)%nat -> load m1 i = load m2 i) ->
  Base128Int.get_loop T fuel acc cnt begin p m1 =
  Base128Int.get_loop T fuel acc cnt begin p m2.
Proof.
  induction fuel as [|fuel IH]; intros acc cnt begin p m1 m2 H; simpl.
  - reflexivity.
  - rewrite (H p) by lia.
    destruct (Z.land (load m2 p) 128 =? 0); [reflexivity|].
    apply IH. intros i Hi. apply H. lia.
Qed.

(** When every byte up to [end] has the continuation bit, the loop returns
    [begin]. *)
Lemma get_loop_truncated T fuel : forall acc cnt begin p m,
  (forall i, (p <= i < p + fuel)%nat -> Z.land (load m i) 128 <> 0) ->
  Base128Int.get_loop T fuel acc cnt begin p m = (begin, 0).
Proof.
  induction fuel as [|fuel IH]; intros acc cnt begin p m H; simpl.
  - reflexivity.
  - destruct (Z.eqb_spec (Z.land (load m p) 128) 0) as [E|E].
    + exfalso. apply (H p); [lia|assumption].
    + apply IH. intros i Hi. apply H. lia.
Qed.

(** The loop returns [begin] or a pointer in [(p, p + fuel]]. *)
Lemma get_loop_pointer T fuel : forall acc cnt begin p m,
  let r := Base128Int.get_loop T fuel acc cnt begin p m in
  r.1 = begin \/ (p < r.1 <= p + fuel)%nat.
Proof.
  induction fuel as [|fuel IH]; intros acc cnt begin p m; simpl.
  - left. reflexivity.
  - destruct (Z.land (load m p) 128 =? 0); simpl; [right; lia|].
    destruct (IH (Z.lor acc (wrap T (Z.shiftl (Z.land (load m p) 127) cnt)))
                (wrap T (cnt + 7)) begin (S p) m) as [H|H];
      [left; assumption|right; lia].
Qed.

Lemma get_loop_ok n : forall v acc cnt fuel begin p m,
  0 <= v -> encode_len v = n -> 0 <= cnt <= 64 -> 0 <= acc < 2 ^ cnt ->
  acc + v * 2 ^ cnt < 2 ^ 64 -> (n <= fuel)%nat ->
  holds m p (varint v) ->
  Base128Int.get_loop u64 fuel acc cnt begin p m = ((p + n)%nat, acc + v * 2 ^ cnt).
Proof.
  induction n as [|n IH]; intros v acc cnt fuel begin p m Hv Hn Hc Ha Hb Hf Hm.
  - pose proof (encode_len_pos v). lia.
  - destruct fuel as [|fuel]; [lia|].
    assert (Hpow : 0 < 2 ^ cnt) by (apply Z.pow_pos_nonneg; lia).
    pose proof (low7_range v) as Hlow.
    pose proof (split7 v) as Hsplit.
    destruct (Z.eq_dec (Z.shiftr v 7) 0) as [E|E].
    + rewrite varint_small in Hm by assumption.
      rewrite encode_len_small in Hn by assumption.
      apply holds_cons in Hm. destruct Hm as (_ & Hl & _).
      simpl. rewrite Hl, byte_last_flag, byte_last_low.
      rewrite Z.shiftl_mul_pow2 by lia.
      assert (Z.land v 127 = v) by lia.
      rewrite H, wrap_u64_id by nia.
      rewrite lor_disjoint by lia.
      f_equal. lia.
    + rewrite varint_step in Hm by assumption.
      rewrite encode_len_step in Hn by assumption.
      apply holds_cons in Hm. destruct Hm as (_ & Hl & Hm).
      assert (Hs : 0 < Z.shiftr v 7).
      { assert (0 <= Z.shiftr v 7) by (apply Z.shiftr_nonneg; assumption). lia. }
      assert (Hc' : cnt + 7 <= 64).
      { destruct (Z.le_gt_cases (cnt + 7) 64); [assumption|exfalso].
        assert (2 ^ 64 <= 2 ^ (cnt + 7)) by (apply Z.pow_le_mono_r; lia).
        rewrite Z.pow_add_r in H0 by lia. change (2 ^ 7) with 128 in H0. nia. }
      simpl. rewrite Hl, byte_cont_flag, byte_cont_low.
      rewrite Z.shiftl_mul_pow2 by lia.
      rewrite (wrap_u64_id (_ * _)) by nia.
      rewrite (wrap_u64_id (cnt + 7)) by lia.
      rewrite lor_disjoint by lia.
      rewrite (IH (Z.shiftr v 7)); try assumption; try lia.
      * f_equal; [lia|]. rewrite Z.pow_add_r by lia. change (2 ^ 7) with 128. nia.
      * rewrite Z.pow_add_r by lia. change (2 ^ 7) with 128. nia.
      * rewrite Z.pow_add_r by lia. change (2 ^ 7) with 128. nia.
Qed.


(** ** Base128StreamWriter::put *)

Section WriterPut.
Import Base128StreamWriter.

Lemma stream_put_ok (v : Z) (s : t) :
  wf s -> 0 <= v -> (pos_ s + encode_len v <= end_ s)%nat ->
  put v s = (true, mk (blit (mem s) (pos_ s) (varint v)) (begin_ s) (end_ s)
                      (pos_ s + encode_len v)).
Proof.
  intros (Hb & Hp & He) Hv Hroom. unfold put, Base128Int.put.
  pose proof (encode_len_pos v).
  destruct (Nat.leb_spec (end_ s) (pos_ s)); [lia|].
  rewrite put_loop_ok by lia.
  destruct (Nat.eqb_spec (pos_ s) (pos_ s + encode_len v)); [lia|].
  reflexivity.
Qed.

(** What [put] does to the stream in every case: the bounds stay, the cursor
    does not move back, the bytes before the cursor and from [end_] on stay;
    a value that is negative or does not fit fails with the cursor in
    place. *)
Lemma stream_put_frame (v : Z) (s : t) :
  wf s ->
  let r := put v s in
  wf r.2 /\ begin_ r.2 = begin_ s /\ end_ r.2 = end_ s /\
  length (mem r.2) = length (mem s) /\
  take (pos_ s) (mem r.2) = take (pos_ s) (mem s) /\
  drop (end_ s) (mem r.2) = drop (end_ s) (mem s) /\
  (pos_ s <= pos_ r.2)%nat /\
  (r.1 = false -> pos_ r.2 = pos_ s).
Proof.
  intros (Hb & Hp & He). unfold put, Base128Int.put, wf.
  destruct (Nat.leb_spec (end_ s) (pos_ s)).
  - rewrite Nat.eqb_refl. simpl. repeat split; auto.
  - pose proof (put_loop_frame (end_ s - pos_ s) v (pos_ s) (pos_ s) (mem s)
                  ltac:(lia)) as Hf.
    destruct (Base128Int.put_loop _ _ _ _ _) as [q m'].
    cbv zeta in Hf. simpl in Hf. destruct Hf as (H1 & H2 & H3 & H4).
    replace (pos_ s + (end_ s - pos_ s))%nat with (end_ s) in * by lia.
    destruct (Nat.eqb_spec (pos_ s) q); simpl.
    + repeat split; auto; lia.
    + repeat split; auto; try lia; try discriminate.
Qed.

Lemma stream_put_negative (v : Z) (s : t) :
  wf s -> v < 0 -> (put v s).1 = false.
Proof.
  intros (Hb & Hp & He) Hv. unfold put, Base128Int.put.
  destruct (Nat.leb_spec (end_ s) (pos_ s)).
  - rewrite Nat.eqb_refl. reflexivity.
  - pose proof (put_loop_negative (end_ s - pos_ s) v (pos_ s) (pos_ s) (mem s)
                  Hv ltac:(lia)) as Hf.
    destruct (Base128Int.put_loop _ _ _ _ _) as [q m']. simpl in Hf. subst q.
    rewrite Nat.eqb_refl. reflexivity.
Qed.

Lemma stream_put_short (v : Z) (s : t) :
  wf s -> 0 <= v -> (end_ s < pos_ s + encode_len v)%nat -> (put v s).1 = false.
Proof.
  intros (Hb & Hp & He) Hv Hroom. unfold put, Base128Int.put.
  destruct (Nat.leb_spec (end_ s) (pos_ s)).
  - rewrite Nat.eqb_refl. reflexivity.
  - pose proof (put_loop_short (end_ s - pos_ s) v (pos_ s) (pos_ s) (mem s)
                  Hv ltac:(lia) ltac:(lia)) as Hf.
    destruct (Base128Int.put_loop _ _ _ _ _) as [q m']. simpl in Hf. subst q.
    rewrite Nat.eqb_refl. reflexivity.
Qed.

End WriterPut.

(** ** Base128StreamReader::next *)

Lemma stream_next_ok (v : Z) (s : Base128StreamReader.t) :
  0 <= v < 2 ^ 64 ->
  holds (Base128StreamReader.mem s) (Base128StreamReader.pos_ s) (varint v) ->
  (Base128StreamReader.pos_ s + encode_len v <= Base128StreamReader.end_ s)%nat ->
  Base128StreamReader.next u64 s =
  Value (v, Base128StreamReader.mk (Base128StreamReader.mem s)
              (Base128StreamReader.pos_ s + encode_len v)
              (Base128StreamReader.end_ s)).
Proof.
  intros Hv Hm Hroom. unfold Base128StreamReader.next, Base128Int.get.
  pose proof (encode_len_pos v).
  rewrite (get_loop_ok (encode_len v) v) by (auto; simpl; lia).
  destruct (Nat.eqb_spec (Base128StreamReader.pos_ s + encode_len v)
              (Base128StreamReader.pos_ s)); [lia|].
  do 3 f_equal. lia.
Qed.

Lemma stream_next_truncated (T : IntType) (s : Base128StreamReader.t) :
  (forall i, (Base128StreamReader.pos_ s <= i < Base128StreamReader.end_ s)%nat ->
             Z.land (load (Base128StreamReader.mem s) i) 128 <> 0) ->
  Base128StreamReader.next T s = Panic.
Proof.
  intros H. unfold Base128StreamReader.next, Base128Int.get.
  rewrite get_loop_truncated; [rewrite Nat.eqb_refl; reflexivity|].
  intros i Hi. apply H. lia.
Qed.

(** The outcome of [next] is a function of the bytes in [[pos_, end_)]. *)
Lemma stream_next_ext (T : IntType) (m1 m2 : list Z) (p e : nat) :
  (forall i, (p <= i < e)%nat -> load m1 i = load m2 i) ->
  match Base128StreamReader.next T (Base128StreamReader.mk m1 p e),
        Base128StreamReader.next T (Base128StreamReader.mk m2 p e) with
  | Value (v1, s1), Value (v2, s2) =>
      v1 = v2 /\ Base128StreamReader.pos_ s1 = Base128StreamReader.pos_ s2
  | Panic, Panic => True
  | _, _ => False
  end.
Proof.
  intros H. unfold Base128StreamReader.next, Base128Int.get. simpl.
  rewrite (get_loop_ext T (e - p) 0 0 p p m1 m2) by (intros i Hi; apply H; lia).
  destruct (Base128Int.get_loop T (e - p) 0 0 p p m2) as [q v].
  destruct (q =? p)%nat; simpl; auto.
Qed.

(** All bytes of an encoding but the last carry the continuation bit. *)
Lemma base128_continuation n : forall v i,
  (S i < n)%nat -> Z.land (load (base128 n v) i) 128 <> 0.
Proof.
  induction n as [|n IH]; intros v i Hi; [lia|].
  destruct n as [|n]; [lia|].
  change (base128 (S (S n)) v)
    with (Z.lor (Z.land v 127) 128 :: base128 (S n) (Z.shiftr v 7)).
  destruct i as [|i].
  - unfold load. simpl. pose proof (byte_cont_flag v) as Hc.
    apply Z.eqb_neq in Hc. assumption.
  - unfold load in *. simpl. apply (IH (Z.shiftr v 7) i). lia.
Qed.

Lemma holds_load m p bs i :
  holds m p bs -> (i < length bs)%nat -> load m (p + i) = load bs i.
Proof.
  unfold holds, load. intros H Hi.
  rewrite !list_lookup_total_alt. f_equal.
  rewrite <- lookup_drop, <- (lookup_take_lt _ (length bs)) by assumption.
  rewrite H. reflexivity.
Qed.


(** ** Base128StreamWriter::tput *)

Lemma varints_cons v l : varints (v :: l) = varint v ++ varints l.
Proof. reflexivity. Qed.

Lemma varints_app l1 l2 : varints (l1 ++ l2) = varints l1 ++ varints l2.
Proof. unfold varints. rewrite map_app, concat_app. reflexivity. Qed.

Lemma varints_length_bound l :
  Forall (fun v => 0 <= v < 2 ^ 64) l ->
  (length (varints l) <= 10 * length l)%nat.
Proof.
  induction 1 as [|v l Hv _ IH]; [simpl; lia|].
  rewrite varints_cons, length_app, varint_length.
  pose proof (encode_len_u64 v Hv). simpl. lia.
Qed.

Section WriterTput.
Import Base128StreamWriter.

Lemma tput_loop_ok (l : list Z) : forall (oldpos : nat) (s : t),
  wf s -> Forall (fun v => 0 <= v) l ->
  (pos_ s + length (varints l) <= end_ s)%nat ->
  tput_loop l oldpos s =
  (true, mk (blit (mem s) (pos_ s) (varints l)) (begin_ s) (end_ s)
            (pos_ s + length (varints l))).
Proof.
  induction l as [|v l IH]; intros oldpos s Hwf Hl Hroom.
  - simpl. rewrite blit_nil, Nat.add_0_r. destruct s; reflexivity.
  - inversion Hl as [|? ? Hv Hl']; subst.
    rewrite varints_cons, length_app, varint_length in *.
    simpl. rewrite stream_put_ok by (assumption || lia).
    destruct Hwf as (Hb & Hp & He).
    rewrite IH; simpl.
    + rewrite <- (varint_length v) at 1.
      rewrite blit_app by (rewrite varint_length; lia).
      do 2 f_equal. lia.
    + unfold wf. simpl. rewrite blit_length by (rewrite varint_length; lia). lia.
    + assumption.
    + lia.
Qed.

(** In every case [tput] keeps the bounds and the bytes before the saved
    cursor and from [end_] on; when it fails the cursor is the saved one. *)
Lemma tput_loop_frame (l : list Z) : forall (oldpos : nat) (s : t),
  wf s -> (begin_ s <= oldpos <= pos_ s)%nat ->
  let r := tput_loop l oldpos s in
  wf r.2 /\ begin_ r.2 = begin_ s /\ end_ r.2 = end_ s /\
  length (mem r.2) = length (mem s) /\
  take oldpos (mem r.2) = take oldpos (mem s) /\
  drop (end_ s) (mem r.2) = drop (end_ s) (mem s) /\
  (oldpos <= pos_ r.2)%nat /\
  (r.1 = false -> pos_ r.2 = oldpos).
Proof.
  induction l as [|v l IH]; intros oldpos s Hwf Hold; simpl.
  - repeat split; try apply Hwf; auto; try lia. discriminate.
  - pose proof (stream_put_frame v s Hwf) as Hf. cbv zeta in Hf.
    destruct (put v s) as [ok s']. simpl in Hf.
    destruct Hf as (Hwf' & Hb' & He' & Hlen' & Htake' & Hdrop' & Hpos' & Hfail').
    assert (Htk : take oldpos (mem s') = take oldpos (mem s)).
    { apply (f_equal (take oldpos)) in Htake'. rewrite !take_take in Htake'.
      rewrite Nat.min_l in Htake' by lia. assumption. }
    destruct ok.
    + specialize (IH oldpos s' Hwf' ltac:(lia)). cbv zeta in IH.
      destruct IH as (H1 & H2 & H3 & H4 & H5 & H6 & H7 & H8).
      rewrite He' in H6.
      split; [exact H1|]. repeat split; try congruence; try lia.
      intros Hr. apply H8. assumption.
    + simpl. destruct Hwf' as (W1 & W2 & W3).
      unfold wf. simpl. repeat split; auto; lia.
Qed.

Lemma tput_loop_negative (l : list Z) : forall (oldpos : nat) (s : t),
  wf s -> Exists (fun v => v < 0) l -> (tput_loop l oldpos s).1 = false.
Proof.
  induction l as [|v l IH]; intros oldpos s Hwf Hex.
  - inversion Hex.
  - simpl. pose proof (stream_put_frame v s Hwf) as Hf. cbv zeta in Hf.
    pose proof (stream_put_negative v s Hwf) as Hneg.
    destruct (put v s) as [ok s']. simpl in *.
    destruct ok; [|reflexivity].
    inversion Hex as [? ? Hv|? ? Hex']; subst.
    + specialize (Hneg Hv). discriminate.
    + apply IH; [apply Hf|assumption].
Qed.

Lemma tput_loop_short (l : list Z) : forall (oldpos : nat) (s : t),
  wf s -> Forall (fun v => 0 <= v) l ->
  (end_ s < pos_ s + length (varints l))%nat ->
  (tput_loop l oldpos s).1 = false.
Proof.
  induction l as [|v l IH]; intros oldpos s Hwf Hl Hroom.
  - destruct Hwf as (? & ? & ?). simpl in Hroom. lia.
  - inversion Hl as [|? ? Hv Hl']; subst.
    rewrite varints_cons, length_app, varint_length in Hroom.
    destruct (Nat.le_gt_cases (pos_ s + encode_len v) (end_ s)) as [Hfit|Hfit].
    + simpl. rewrite stream_put_ok by (assumption || lia).
      apply IH; simpl; [|assumption|lia].
      destruct Hwf as (Hb & Hp & He). unfold wf. simpl.
      rewrite blit_length by (rewrite varint_length; lia). lia.
    + simpl. pose proof (stream_put_short v s Hwf Hv Hfit) as Hs.
      destruct (put v s) as [ok s']. simpl in Hs. subst ok. reflexivity.
Qed.

Lemma tput_ok (l : list Z) (s : t) :
  wf s -> Forall (fun v => 0 <= v) l ->
  (pos_ s + length (varints l) <= end_ s)%nat ->
  tput l s =
  (true, mk (blit (mem s) (pos_ s) (varints l)) (begin_ s) (end_ s)
            (pos_ s + length (varints l))).
Proof. apply tput_loop_ok. Qed.

(** A [tput] of non-negative values succeeds exactly when all their bytes
    fit. *)
Lemma tput_true_fits (l : list Z) (s : t) :
  wf s -> Forall (fun v => 0 <= v) l -> (tput l s).1 = true ->
  (pos_ s + length (varints l) <= end_ s)%nat.
Proof.
  intros Hwf Hl Hok.
  destruct (Nat.le_gt_cases (pos_ s + length (varints l)) (end_ s)); [assumption|].
  unfold tput in Hok. rewrite tput_loop_short in Hok by assumption. discriminate.
Qed.

Lemma tput_frame (l : list Z) (s : t) :
  wf s ->
  let r := tput l s in
  wf r.2 /\ begin_ r.2 = begin_ s /\ end_ r.2 = end_ s /\
  length (mem r.2) = length (mem s) /\
  take (pos_ s) (mem r.2) = take (pos_ s) (mem s) /\
  drop (end_ s) (mem r.2) = drop (end_ s) (mem s) /\
  (pos_ s <= pos_ r.2)%nat /\
  (r.1 = false -> pos_ r.2 = pos_ s).
Proof.
  intros Hwf. apply tput_loop_frame; [assumption|]. destruct Hwf. lia.
Qed.

End WriterTput.


(** ** RLEStreamWriter::tput *)

Lemma flatten_pairs_app ps1 ps2 :
  flatten_pairs (ps1 ++ ps2) = flatten_pairs ps1 ++ flatten_pairs ps2.
Proof. unfold flatten_pairs. rewrite map_app, concat_app. reflexivity. Qed.

Lemma expand_pairs_app ps1 ps2 :
  expand_pairs (ps1 ++ ps2) = expand_pairs ps1 ++ expand_pairs ps2.
Proof. unfold expand_pairs. rewrite map_app, concat_app. reflexivity. Qed.

Lemma flatten_pairs_length ps : length (flatten_pairs ps) = (2 * length ps)%nat.
Proof.
  induction ps as [|[r v] ps IH]; [reflexivity|].
  change (flatten_pairs ((r, v) :: ps)) with (r :: v :: flatten_pairs ps).
  simpl. rewrite IH. lia.
Qed.


Lemma rle_loop_spec (T : IntType) (iter : list Z) :
  forall (prev reps : Z) (out : list Z),
  0 <= reps -> reps + Z.of_nat (length iter) < 2 ^ 64 ->
  (forall x, 0 <= x <= reps + Z.of_nat (length iter) -> wrap T x = x) ->
  exists ps prev' reps',
    RLEStreamWriter.tput_loop T iter prev reps out
      = (prev', reps', out ++ flatten_pairs ps) /\
    expand_pairs ps ++ replicate (Z.to_nat reps') prev'
      = replicate (Z.to_nat reps) prev ++ iter /\
    0 <= reps' < 2 ^ 64 /\
    (iter <> [] -> 1 <= reps') /\
    Forall good_pair ps /\
    (length ps <= length iter)%nat /\
    (reps = 0 -> iter <> [] -> (length ps < length iter)%nat).
Proof.
  induction iter as [|value iter IH]; intros prev reps out Hr Hn Hw.
  - exists [], prev, reps. simpl. rewrite !app_nil_r.
    repeat split; auto; try lia; congruence.
  - cbn [length] in Hn, Hw. simpl.
    destruct (Z.eqb_spec value prev) as [->|Hne]; simpl.
    + rewrite Hw by lia.
      destruct (IH prev (reps + 1) out ltac:(lia) ltac:(lia)
                  ltac:(intros; apply Hw; lia))
        as (ps & prev' & reps' & E & Hx & Hr' & Hne' & Hg & Hl & _).
      exists ps, prev', reps'. rewrite E.
      repeat split; auto; try lia.
      * rewrite Hx. replace (Z.to_nat (reps + 1)) with (S (Z.to_nat reps)) by lia.
        rewrite replicate_S_end, <- app_assoc. reflexivity.
      * destruct iter; [|specialize (Hne' ltac:(discriminate)); lia].
        simpl in E. injection E as _ <- _. lia.
    + rewrite (Hw (0 + 1)) by lia. change (0 + 1) with 1.
      destruct (Z.eqb_spec reps 0) as [->|Hr0]; simpl.
      * destruct (IH value 1 out ltac:(lia) ltac:(lia)
                    ltac:(intros; apply Hw; lia))
          as (ps & prev' & reps' & E & Hx & Hr' & Hne' & Hg & Hl & _).
        exists ps, prev', reps'. rewrite E.
        repeat split; auto; try lia.
        destruct iter; [|specialize (Hne' ltac:(discriminate)); lia].
        simpl in E. injection E as _ <- _. lia.
      * destruct (IH value 1 (out ++ [reps; prev]) ltac:(lia) ltac:(lia)
                    ltac:(intros; apply Hw; lia))
          as (ps & prev' & reps' & E & Hx & Hr' & Hne' & Hg & Hl & Hl').
        exists ((reps, prev) :: ps), prev', reps'. rewrite E.
        repeat split; auto; try lia.
        -- rewrite <- app_assoc. reflexivity.
        -- change (expand_pairs ((reps, prev) :: ps))
             with (replicate (Z.to_nat reps) prev ++ expand_pairs ps).
           rewrite <- app_assoc, Hx. reflexivity.
        -- destruct iter; [|specialize (Hne' ltac:(discriminate)); lia].
           simpl in E. injection E as _ <- _. lia.
        -- constructor; [unfold good_pair; simpl; lia|assumption].
        -- simpl. lia.
Qed.

(** From a writer with no pending run, [tput] hands over the runs of [iter]
    as pairs, every count at least 1; nothing for an empty [iter]. *)
Lemma rle_outbuf_pairs (T : IntType) (iter : list Z) :
  Z.of_nat (length iter) < 2 ^ 64 ->
  (forall x, 0 <= x <= Z.of_nat (length iter) -> wrap T x = x) ->
  exists ps, rle_outbuf T iter = flatten_pairs ps /\
             expand_pairs ps = iter /\ Forall good_pair ps /\
             (length ps <= length iter)%nat.
Proof.
  intros Hn Hw. unfold rle_outbuf.
  destruct (rle_loop_spec T iter 0 0 [] ltac:(lia) ltac:(lia) Hw)
    as (ps & prev' & reps' & E & Hx & Hr' & Hne' & Hg & Hl & Hl').
  rewrite E. simpl in Hx |- *. rewrite flatten_pairs_length.
  destruct iter as [|x iter].
  - simpl in E. injection E as <- <- E.
    destruct ps; [|simpl in Hl; lia].
    exists []. simpl. repeat split; auto.
  - specialize (Hl' eq_refl ltac:(discriminate)).
    specialize (Hne' ltac:(discriminate)).
    destruct (Nat.ltb_spec (2 * length ps) (length (x :: iter) * 2)); [|lia].
    exists (ps ++ [(reps', prev')]).
    rewrite flatten_pairs_app, expand_pairs_app.
    split; [reflexivity|]. split; [|split].
    + unfold expand_pairs at 2. simpl. rewrite app_nil_r. assumption.
    + apply Forall_app. split; [assumption|].
      constructor; [unfold good_pair; simpl; lia|constructor].
    + rewrite length_app. simpl in *. lia.
Qed.

Lemma rle_tput_fresh (T : IntType) (iter : list Z) (start : nat)
    (stream : Base128StreamWriter.t) :
  RLEStreamWriter.tput T iter (RLEStreamWriter.mk 0 0 start) stream =
  let '(ok, stream') := Base128StreamWriter.tput (rle_outbuf T iter) stream in
  (ok, RLEStreamWriter.mk 0 0 start, stream').
Proof.
  unfold RLEStreamWriter.tput, rle_outbuf. simpl.
  destruct (RLEStreamWriter.tput_loop T iter 0 0 []) as [[prev reps] outbuf].
  reflexivity.
Qed.

Lemma expand_pairs_elem ps x :
  x ∈ expand_pairs ps -> x ∈ flatten_pairs ps.
Proof.
  induction ps as [|[r v] ps IH]; [auto|].
  change (expand_pairs ((r, v) :: ps))
    with (replicate (Z.to_nat r) v ++ expand_pairs ps).
  change (flatten_pairs ((r, v) :: ps)) with (r :: v :: flatten_pairs ps).
  rewrite elem_of_app. intros [H|H].
  - apply elem_of_replicate in H. destruct H as [-> _].
    apply elem_of_cons. right. apply elem_of_cons. left. reflexivity.
  - do 2 (apply elem_of_cons; right). apply IH. assumption.
Qed.

(** Every value of [iter] is handed over as the value of some pair. *)
Lemma rle_outbuf_values (T : IntType) (iter : list Z) (x : Z) :
  Z.of_nat (length iter) < 2 ^ 64 ->
  (forall x, 0 <= x <= Z.of_nat (length iter) -> wrap T x = x) ->
  x ∈ iter -> x ∈ rle_outbuf T iter.
Proof.
  intros Hn Hw Hx.
  destruct (rle_outbuf_pairs T iter Hn Hw) as (ps & -> & E & _).
  apply expand_pairs_elem. rewrite E. assumption.
Qed.

Lemma good_pairs_nonneg ps :
  Forall good_pair ps -> Forall (fun v => 0 <= v) (expand_pairs ps) ->
  Forall (fun v => 0 <= v) (flatten_pairs ps).
Proof.
  induction 1 as [|[r v] ps Hp _ IH]; [constructor|].
  change (expand_pairs ((r, v) :: ps))
    with (replicate (Z.to_nat r) v ++ expand_pairs ps).
  change (flatten_pairs ((r, v) :: ps)) with (r :: v :: flatten_pairs ps).
  unfold good_pair in Hp. simpl in Hp.
  rewrite Forall_app. intros [Hv Hrest].
  constructor; [lia|]. constructor; [|apply IH; assumption].
  rewrite Forall_forall in Hv. apply Hv.
  apply elem_of_replicate. split; [reflexivity|lia].
Qed.

Lemma good_pairs_range ps :
  Forall good_pair ps -> Forall (fun v => 0 <= v < 2 ^ 64) (expand_pairs ps) ->
  Forall (fun v => 0 <= v < 2 ^ 64) (flatten_pairs ps).
Proof.
  induction 1 as [|[r v] ps Hp _ IH]; [constructor|].
  change (expand_pairs ((r, v) :: ps))
    with (replicate (Z.to_nat r) v ++ expand_pairs ps).
  change (flatten_pairs ((r, v) :: ps)) with (r :: v :: flatten_pairs ps).
  unfold good_pair in Hp. simpl in Hp.
  rewrite Forall_app. intros [Hv Hrest].
  constructor; [lia|]. constructor; [|apply IH; assumption].
  rewrite Forall_forall in Hv. apply Hv.
  apply elem_of_replicate. split; [reflexivity|lia].
Qed.

(** ** DeltaStreamWriter::tput *)

Lemma delta_loop_length T iter : forall prev,
  length (DeltaStreamWriter.tput_loop T iter prev).1 = length iter.
Proof.
  induction iter as [|v iter IH]; intros prev; [reflexivity|].
  simpl. specialize (IH v).
  destruct (DeltaStreamWriter.tput_loop T iter v). simpl in *. lia.
Qed.

Lemma delta_loop_prev T iter : forall prev,
  (DeltaStreamWriter.tput_loop T iter prev).2 = default prev (last iter).
Proof.
  induction iter as [|v iter IH]; intros prev; [reflexivity|].
  simpl. specialize (IH v).
  destruct (DeltaStreamWriter.tput_loop T iter v). simpl in *.
  rewrite IH, last_cons. destruct (last iter); reflexivity.
Qed.

Lemma delta_loop_range iter : forall prev,
  Forall (fun v => 0 <= v < 2 ^ 64) (DeltaStreamWriter.tput_loop u64 iter prev).1.
Proof.
  induction iter as [|v iter IH]; intros prev; [constructor|].
  simpl. specialize (IH v).
  destruct (DeltaStreamWriter.tput_loop u64 iter v). simpl in *.
  constructor; [apply wrap_u64_range|assumption].
Qed.

Lemma undelta_delta iter : forall prev,
  Forall (fun v => 0 <= v < 2 ^ 64) iter ->
  undelta u64 prev (DeltaStreamWriter.tput_loop u64 iter prev).1 = iter.
Proof.
  induction iter as [|v iter IH]; intros prev Hr; [reflexivity|].
  inversion Hr as [|? ? Hv Hr']; subst.
  simpl. specialize (IH v Hr').
  destruct (DeltaStreamWriter.tput_loop u64 iter v). simpl in *.
  assert (E : wrap u64 (prev + wrap u64 (v - prev)) = v).
  { unfold wrap. simpl. rewrite Zplus_mod_idemp_r.
    replace (prev + (v - prev)) with v by lia. apply Z.mod_small. assumption. }
  rewrite E, IH. reflexivity.
Qed.


(** ** Reading back *)

Lemma read_n_app {S : Type} `{!StreamReader S} (a b : nat) :
  forall (self : S) (stream : Base128StreamReader.t),
  read_n (a + b) self stream =
  '(xs, self1, stream1) ← read_n a self stream;
  '(ys, self2, stream2) ← read_n b self1 stream1;
  mret (xs ++ ys, self2, stream2).
Proof.
  induction a as [|a IH]; intros self stream.
  - simpl. destruct (read_n b self stream) as [[[ys s2] st2]|]; reflexivity.
  - simpl. destruct (stream_next self stream) as [[[v s1] st1]|]; [|reflexivity].
    simpl. rewrite IH.
    destruct (read_n a s1 st1) as [[[xs s2] st2]|]; [|reflexivity].
    simpl. destruct (read_n b s2 st2) as [[[ys s3] st3]|]; reflexivity.
Qed.

(** A pending run is handed out without a look at the stream. *)
Lemma rle_read_run (T : IntType) (k : nat) :
  forall (prev reps : Z) (stream : Base128StreamReader.t),
  reps = Z.of_nat k ->
  (forall x, 1 <= x <= reps -> wrap T (x - 1) = x - 1) ->
  read_n k (RLEStreamReader.mk (T:=T) prev reps) stream =
  Value (replicate k prev, RLEStreamReader.mk prev 0, stream).
Proof.
  induction k as [|k IH]; intros prev reps stream Hk Hw.
  - simpl in *. subst. reflexivity.
  - cbn [read_n]. simpl. unfold RLEStreamReader.next. simpl.
    destruct (Z.eqb_spec reps 0) as [E|E]; [lia|]. simpl.
    rewrite Hw by lia.
    rewrite IH; [reflexivity|lia|].
    intros x Hx. apply Hw. lia.
Qed.

Lemma rle_read_pair (r v : Z) (self : RLEStreamReader.t u64) (m : list Z) (p e : nat) :
  1 <= r < 2 ^ 64 -> 0 <= v < 2 ^ 64 ->
  RLEStreamReader.reps_ self = 0 ->
  holds m p (varint r ++ varint v) ->
  (p + length (varint r ++ varint v) <= e)%nat ->
  read_n (Z.to_nat r) self (Base128StreamReader.mk m p e) =
  Value (replicate (Z.to_nat r) v, RLEStreamReader.mk v 0,
         Base128StreamReader.mk m (p + length (varint r ++ varint v)) e).
Proof.
  intros Hr Hv Hs Hm He.
  rewrite length_app, !varint_length in *.
  apply holds_app in Hm. destruct Hm as [Hm1 Hm2]. rewrite varint_length in Hm2.
  destruct (Z.to_nat r) as [|k] eqn:Ek; [lia|].
  cbn [read_n]. simpl. unfold RLEStreamReader.next. rewrite Hs. simpl.
  rewrite (stream_next_ok r) by (simpl; assumption || lia). simpl.
  rewrite (stream_next_ok v) by (simpl; assumption || lia). simpl.
  rewrite wrap_u64_id by lia.
  rewrite (rle_read_run u64 k v (r - 1)); [|lia|].
  - simpl. do 3 f_equal. lia.
  - intros x Hx. apply wrap_u64_id. lia.
Qed.

Lemma expand_pairs_cons r v ps :
  expand_pairs ((r, v) :: ps) = replicate (Z.to_nat r) v ++ expand_pairs ps.
Proof. reflexivity. Qed.

Lemma flatten_pairs_cons r v ps :
  flatten_pairs ((r, v) :: ps) = r :: v :: flatten_pairs ps.
Proof. reflexivity. Qed.

Lemma rle_read_pairs (ps : list (Z * Z)) :
  forall (self : RLEStreamReader.t u64) (m : list Z) (p e : nat),
  Forall (fun v => 0 <= v < 2 ^ 64) (flatten_pairs ps) ->
  Forall good_pair ps ->
  RLEStreamReader.reps_ self = 0 ->
  holds m p (varints (flatten_pairs ps)) ->
  (p + length (varints (flatten_pairs ps)) <= e)%nat ->
  exists self',
    RLEStreamReader.reps_ self' = 0 /\
    read_n (length (expand_pairs ps)) self (Base128StreamReader.mk m p e) =
    Value (expand_pairs ps, self',
           Base128StreamReader.mk m (p + length (varints (flatten_pairs ps))) e).
Proof.
  induction ps as [|[r v] ps IH]; intros self m p e Hrange Hgood Hs Hm He.
  - exists self. split; [assumption|]. simpl. rewrite Nat.add_0_r. reflexivity.
  - rewrite flatten_pairs_cons in *. rewrite expand_pairs_cons.
    change (varints (r :: v :: flatten_pairs ps))
      with (varint r ++ varint v ++ varints (flatten_pairs ps)) in *.
    rewrite app_assoc in *. rewrite length_app in He.
    apply holds_app in Hm. destruct Hm as [Hm1 Hm2].
    inversion Hrange as [|? ? Hr Hrange']; subst.
    inversion Hrange' as [|? ? Hv Hrange'']; subst.
    inversion Hgood as [|? ? Hg Hgood']; subst.
    unfold good_pair in Hg. simpl in Hg.
    rewrite length_app, length_replicate, read_n_app.
    rewrite (rle_read_pair r v) by (assumption || lia). simpl.
    destruct (IH (RLEStreamReader.mk v 0) m (p + length (varint r ++ varint v))%nat e
                Hrange'' Hgood' eq_refl Hm2 ltac:(lia)) as (self' & Hs' & E).
    rewrite E. simpl. exists self'. split; [assumption|].
    rewrite !length_app in *. do 3 f_equal. lia.
Qed.

(** A delta reader hands out the running sums of what its inner stream
    hands out. *)
Lemma delta_read_n {S : Type} `{!StreamReader S} (T : IntType) (n : nat) :
  forall (inner : S) (prev : Z) (stream : Base128StreamReader.t),
  read_n n (DeltaStreamReader.mk (T:=T) inner prev) stream =
  '(ds, inner', stream') ← read_n n inner stream;
  mret (undelta T prev ds,
        DeltaStreamReader.mk inner' (default prev (last (undelta T prev ds))),
        stream').
Proof.
  induction n as [|n IH]; intros inner prev stream.
  - reflexivity.
  - cbn [read_n]. simpl. unfold DeltaStreamReader.next. simpl.
    destruct (stream_next inner stream) as [[[d s1] st1]|]; [|reflexivity].
    simpl. rewrite IH.
    destruct (read_n n s1 st1) as [[[ds s2] st2]|]; [|reflexivity].
    simpl. rewrite last_cons.
    destruct (last (undelta T (wrap T (prev + d)) ds)); reflexivity.
Qed.


(** ** The timestamp stack, chunk by chunk *)

Lemma range_nonneg l : u64_list l -> Forall (fun v => 0 <= v) l.
Proof.
  intros H. eapply Forall_impl; [exact H|]. intros x Hx. simpl in Hx. lia.
Qed.

Lemma ts_outbuf_range (prev : Z) (iter : list Z) :
  Z.of_nat (length iter) < 2 ^ 64 ->
  u64_list (rle_outbuf u64 (DeltaStreamWriter.tput_loop u64 iter prev).1) /\
  (length (rle_outbuf u64 (DeltaStreamWriter.tput_loop u64 iter prev).1)
     <= 2 * length iter)%nat.
Proof.
  intros Hn.
  pose proof (delta_loop_length u64 iter prev) as Hlen.
  pose proof (delta_loop_range iter prev) as Hrange.
  destruct (rle_outbuf_pairs u64 (DeltaStreamWriter.tput_loop u64 iter prev).1)
    as (ps & E & Hx & Hg & Hl).
  - rewrite Hlen. assumption.
  - intros x Hx. apply wrap_u64_id. rewrite Hlen in Hx. lia.
  - rewrite E. split.
    + apply good_pairs_range; [assumption|]. rewrite Hx. assumption.
    + rewrite flatten_pairs_length. lia.
Qed.

Lemma ts_chunk_bytes_bound (prev : Z) (iter : list Z) :
  Z.of_nat (length iter) < 2 ^ 64 ->
  (length (ts_chunk_bytes prev iter) <= 20 * length iter)%nat.
Proof.
  intros Hn. unfold ts_chunk_bytes.
  destruct (ts_outbuf_range prev iter Hn) as [Hr Hl].
  pose proof (varints_length_bound _ Hr). lia.
Qed.

(** One [tput] of the timestamp stack is one transactional [tput] of the
    pairs on the byte stream; the delta filter keeps the chunk's last value
    whether that succeeds or not. *)
Lemma ts_tput_unfold (iter : list Z) (prev : Z) (start : nat)
    (stream : Base128StreamWriter.t) :
  stream_tput iter
    (DeltaStreamWriter.mk (T:=u64) (RLEStreamWriter.mk (T:=u64) 0 0 start) prev) stream =
  let '(ok, stream') :=
    Base128StreamWriter.tput
      (rle_outbuf u64 (DeltaStreamWriter.tput_loop u64 iter prev).1) stream in
  (ok, DeltaStreamWriter.mk (RLEStreamWriter.mk 0 0 start) (default prev (last iter)),
   stream').
Proof.
  simpl. unfold DeltaStreamWriter.tput. simpl.
  pose proof (delta_loop_prev u64 iter prev) as Hp.
  destruct (DeltaStreamWriter.tput_loop u64 iter prev) as [outbuf prev'].
  simpl in *. subst prev'. rewrite rle_tput_fresh.
  destruct (Base128StreamWriter.tput (rle_outbuf u64 outbuf) stream).
  reflexivity.
Qed.

Lemma ts_tput_ok (iter : list Z) (prev : Z) (start : nat)
    (stream : Base128StreamWriter.t) :
  Base128StreamWriter.wf stream -> Z.of_nat (length iter) < 2 ^ 64 ->
  (Base128StreamWriter.pos_ stream + length (ts_chunk_bytes prev iter)
     <= Base128StreamWriter.end_ stream)%nat ->
  stream_tput iter
    (DeltaStreamWriter.mk (T:=u64) (RLEStreamWriter.mk (T:=u64) 0 0 start) prev) stream =
  (true, DeltaStreamWriter.mk (RLEStreamWriter.mk 0 0 start) (default prev (last iter)),
   Base128StreamWriter.mk
     (blit (Base128StreamWriter.mem stream) (Base128StreamWriter.pos_ stream)
        (ts_chunk_bytes prev iter))
     (Base128StreamWriter.begin_ stream) (Base128StreamWriter.end_ stream)
     (Base128StreamWriter.pos_ stream + length (ts_chunk_bytes prev iter))).
Proof.
  intros Hwf Hn Hroom. rewrite ts_tput_unfold.
  destruct (ts_outbuf_range prev iter Hn) as [Hr _].
  rewrite tput_ok by (try apply range_nonneg; assumption).
  reflexivity.
Qed.

Lemma ts_tput_true_fits (iter : list Z) (prev : Z) (start : nat)
    (stream : Base128StreamWriter.t) :
  Base128StreamWriter.wf stream -> Z.of_nat (length iter) < 2 ^ 64 ->
  (stream_tput iter
     (DeltaStreamWriter.mk (T:=u64) (RLEStreamWriter.mk (T:=u64) 0 0 start) prev)
     stream).1.1 = true ->
  (Base128StreamWriter.pos_ stream + length (ts_chunk_bytes prev iter)
     <= Base128StreamWriter.end_ stream)%nat.
Proof.
  intros Hwf Hn Hok. rewrite ts_tput_unfold in Hok.
  destruct (ts_outbuf_range prev iter Hn) as [Hr _].
  apply tput_true_fits; [assumption|apply range_nonneg; assumption|].
  destruct (Base128StreamWriter.tput _ stream). assumption.
Qed.

(** Reading a chunk back. *)
Lemma ts_read_chunk (iter : list Z) (prev : Z) (rle : RLEStreamReader.t u64)
    (m : list Z) (p e : nat) :
  u64_list iter -> Z.of_nat (length iter) < 2 ^ 64 ->
  RLEStreamReader.reps_ rle = 0 ->
  holds m p (ts_chunk_bytes prev iter) ->
  (p + length (ts_chunk_bytes prev iter) <= e)%nat ->
  exists rle',
    RLEStreamReader.reps_ rle' = 0 /\
    read_n (length iter) (DeltaStreamReader.mk (T:=u64) rle prev)
      (Base128StreamReader.mk m p e) =
    Value (iter, DeltaStreamReader.mk rle' (default prev (last iter)),
           Base128StreamReader.mk m (p + length (ts_chunk_bytes prev iter)) e).
Proof.
  intros Hr Hn Hs Hm He. unfold ts_chunk_bytes in *.
  pose proof (delta_loop_length u64 iter prev) as Hlen.
  pose proof (delta_loop_range iter prev) as Hrange.
  pose proof (undelta_delta iter prev Hr) as Hund.
  destruct (rle_outbuf_pairs u64 (DeltaStreamWriter.tput_loop u64 iter prev).1)
    as (ps & E & Hx & Hg & Hl).
  { rewrite Hlen. assumption. }
  { intros x Hx. apply wrap_u64_id. rewrite Hlen in Hx. lia. }
  rewrite E in *.
  destruct (rle_read_pairs ps rle m p e) as (rle' & Hs' & Hread);
    try assumption.
  { apply good_pairs_range; [assumption|]. rewrite Hx. assumption. }
  exists rle'. split; [assumption|].
  rewrite delta_read_n.
  rewrite <- Hlen, <- Hx at 1. rewrite Hread. simpl.
  rewrite Hx, Hund. reflexivity.
Qed.


(** ** The timestamp stack over several chunks *)

Lemma ts_chunks_bytes_bound (chunks : list (list Z)) : forall prev,
  Forall (fun c => Z.of_nat (length c) < 2 ^ 64) chunks ->
  (length (ts_chunks_bytes prev chunks) <= 20 * length (concat chunks))%nat.
Proof.
  induction chunks as [|c chunks IH]; intros prev Hn; [simpl; lia|].
  inversion Hn as [|? ? Hc Hn']; subst.
  simpl. rewrite !length_app.
  pose proof (ts_chunk_bytes_bound prev c Hc).
  specialize (IH (default prev (last c)) Hn'). lia.
Qed.

Lemma tput_chunks_ok (chunks : list (list Z)) :
  forall (prev : Z) (start : nat) (stream : Base128StreamWriter.t),
  Base128StreamWriter.wf stream ->
  Forall (fun c => Z.of_nat (length c) < 2 ^ 64) chunks ->
  (Base128StreamWriter.pos_ stream + length (ts_chunks_bytes prev chunks)
     <= Base128StreamWriter.end_ stream)%nat ->
  exists prev',
    tput_chunks chunks
      (DeltaStreamWriter.mk (T:=u64) (RLEStreamWriter.mk (T:=u64) 0 0 start) prev)
      stream =
    (true, DeltaStreamWriter.mk (RLEStreamWriter.mk 0 0 start) prev',
     Base128StreamWriter.mk
       (blit (Base128StreamWriter.mem stream) (Base128StreamWriter.pos_ stream)
          (ts_chunks_bytes prev chunks))
       (Base128StreamWriter.begin_ stream) (Base128StreamWriter.end_ stream)
       (Base128StreamWriter.pos_ stream + length (ts_chunks_bytes prev chunks))).
Proof.
  induction chunks as [|c chunks IH]; intros prev start stream Hwf Hn Hroom.
  - exists prev. simpl. rewrite blit_nil, Nat.add_0_r. destruct stream; reflexivity.
  - inversion Hn as [|? ? Hc Hn']; subst.
    cbn [ts_chunks_bytes] in *. rewrite length_app in Hroom.
    cbn [tput_chunks]. rewrite ts_tput_ok by (assumption || lia).
    destruct Hwf as (Hb & Hp & He).
    set (s1 := Base128StreamWriter.mk
                 (blit (Base128StreamWriter.mem stream)
                    (Base128StreamWriter.pos_ stream) (ts_chunk_bytes prev c))
                 (Base128StreamWriter.begin_ stream)
                 (Base128StreamWriter.end_ stream)
                 (Base128StreamWriter.pos_ stream + length (ts_chunk_bytes prev c))).
    assert (Hwf1 : Base128StreamWriter.wf s1).
    { unfold Base128StreamWriter.wf, s1. simpl. rewrite blit_length; lia. }
    assert (Hroom1 : (Base128StreamWriter.pos_ s1
                      + length (ts_chunks_bytes (default prev (last c)) chunks)
                      <= Base128StreamWriter.end_ s1)%nat).
    { unfold s1. cbn [Base128StreamWriter.pos_ Base128StreamWriter.end_]. lia. }
    destruct (IH (default prev (last c)) start s1 Hwf1 Hn' Hroom1) as (prev' & E).
    rewrite E. exists prev'. unfold s1.
    cbn [Base128StreamWriter.mem Base128StreamWriter.pos_
         Base128StreamWriter.begin_ Base128StreamWriter.end_].
    rewrite blit_app by lia. rewrite length_app, Nat.add_assoc.
    reflexivity.
Qed.

Lemma tput_chunks_true_fits (chunks : list (list Z)) :
  forall (prev : Z) (start : nat) (stream : Base128StreamWriter.t),
  Base128StreamWriter.wf stream ->
  Forall (fun c => Z.of_nat (length c) < 2 ^ 64) chunks ->
  (tput_chunks chunks
     (DeltaStreamWriter.mk (T:=u64) (RLEStreamWriter.mk (T:=u64) 0 0 start) prev)
     stream).1.1 = true ->
  (Base128StreamWriter.pos_ stream + length (ts_chunks_bytes prev chunks)
     <= Base128StreamWriter.end_ stream)%nat.
Proof.
  induction chunks as [|c chunks IH]; intros prev start stream Hwf Hn Hok.
  - destruct Hwf as (? & ? & ?). simpl. lia.
  - inversion Hn as [|? ? Hc Hn']; subst.
    cbn [tput_chunks] in Hok.
    pose proof (ts_tput_true_fits c prev start stream Hwf Hc) as Hfit.
    destruct (stream_tput c _ stream) as [[ok w1] s1] eqn:E.
    destruct ok; [|discriminate].
    specialize (Hfit eq_refl).
    rewrite ts_tput_ok in E by assumption. injection E as <- <-.
    apply IH in Hok; [|destruct Hwf as (? & ? & ?); unfold Base128StreamWriter.wf;
                        simpl; rewrite blit_length; lia|assumption].
    simpl in Hok. cbn [ts_chunks_bytes]. rewrite length_app. lia.
Qed.

Lemma ts_read_chunks (chunks : list (list Z)) :
  forall (prev : Z) (rle : RLEStreamReader.t u64) (m : list Z) (p e : nat),
  Forall (fun c => u64_list c /\ Z.of_nat (length c) < 2 ^ 64) chunks ->
  RLEStreamReader.reps_ rle = 0 ->
  holds m p (ts_chunks_bytes prev chunks) ->
  (p + length (ts_chunks_bytes prev chunks) <= e)%nat ->
  exists rd',
    read_n (length (concat chunks)) (DeltaStreamReader.mk (T:=u64) rle prev)
      (Base128StreamReader.mk m p e) =
    Value (concat chunks, rd',
           Base128StreamReader.mk m (p + length (ts_chunks_bytes prev chunks)) e).
Proof.
  induction chunks as [|c chunks IH]; intros prev rle m p e Hc Hs Hm He.
  - eexists. simpl. rewrite Nat.add_0_r. reflexivity.
  - inversion Hc as [|? ? [Hr Hn] Hc']; subst.
    cbn [ts_chunks_bytes concat] in *. rewrite length_app in *.
    apply holds_app in Hm. destruct Hm as [Hm1 Hm2].
    destruct (ts_read_chunk c prev rle m p e Hr Hn Hs Hm1 ltac:(lia))
      as (rle' & Hs' & E1).
    destruct (IH (default prev (last c)) rle' m
                (p + length (ts_chunk_bytes prev c))%nat e Hc' Hs' Hm2 ltac:(lia))
      as (rd' & E2).
    exists rd'. rewrite read_n_app, E1. simpl. rewrite E2. simpl.
    rewrite length_app, Nat.add_assoc. reflexivity.
Qed.


(** ** RLEStreamWriter::commit *)

Lemma pair_bytes_length (r v : Z) :
  length (varints [r; v]) = (encode_len r + encode_len v)%nat.
Proof.
  unfold varints. simpl. rewrite !length_app, !varint_length. simpl. lia.
Qed.

Lemma rle_commit_ok (T : IntType) (self : RLEStreamWriter.t T)
    (stream : Base128StreamWriter.t) :
  Base128StreamWriter.wf stream ->
  0 <= RLEStreamWriter.reps_ self -> 0 <= RLEStreamWriter.prev_ self ->
  let pair := [RLEStreamWriter.reps_ self; RLEStreamWriter.prev_ self] in
  (Base128StreamWriter.pos_ stream + length (varints pair)
     <= Base128StreamWriter.end_ stream)%nat ->
  RLEStreamWriter.commit T self stream =
  (true, self,
   Base128StreamWriter.mk
     (blit (Base128StreamWriter.mem stream) (Base128StreamWriter.pos_ stream)
        (varints pair))
     (Base128StreamWriter.begin_ stream) (Base128StreamWriter.end_ stream)
     (Base128StreamWriter.pos_ stream + length (varints pair))).
Proof.
  intros Hwf Hr Hp pair Hroom. unfold pair in *.
  rewrite pair_bytes_length in *.
  unfold RLEStreamWriter.commit.
  rewrite stream_put_ok by (assumption || lia).
  destruct Hwf as (Hb & Hq & He).
  rewrite stream_put_ok; simpl.
  - unfold Base128StreamWriter.commit.
    rewrite <- (varint_length (RLEStreamWriter.reps_ self)) at 1.
    rewrite blit_app by (rewrite varint_length; lia).
    unfold varints. simpl. rewrite app_nil_r, Nat.add_assoc. reflexivity.
  - unfold Base128StreamWriter.wf. simpl.
    rewrite blit_length by (rewrite varint_length; lia). lia.
  - assumption.
  - lia.
Qed.

Lemma rle_commit_short (T : IntType) (self : RLEStreamWriter.t T)
    (stream : Base128StreamWriter.t) :
  Base128StreamWriter.wf stream ->
  0 <= RLEStreamWriter.reps_ self -> 0 <= RLEStreamWriter.prev_ self ->
  (Base128StreamWriter.end_ stream <
   Base128StreamWriter.pos_ stream
   + length (varints [RLEStreamWriter.reps_ self; RLEStreamWriter.prev_ self]))%nat ->
  (RLEStreamWriter.commit T self stream).1.1 = false.
Proof.
  intros Hwf Hr Hp Hshort. rewrite pair_bytes_length in Hshort.
  unfold RLEStreamWriter.commit.
  destruct (Nat.le_gt_cases
              (Base128StreamWriter.pos_ stream
               + encode_len (RLEStreamWriter.reps_ self))
              (Base128StreamWriter.end_ stream)) as [Hfit1|Hshort1].
  - rewrite stream_put_ok by assumption.
    destruct Hwf as (Hb & Hq & He).
    set (s1 := Base128StreamWriter.mk _ _ _ _).
    assert (Hs : (Base128StreamWriter.put (RLEStreamWriter.prev_ self) s1).1 = false).
    { apply stream_put_short; [|assumption|simpl; lia].
      unfold Base128StreamWriter.wf, s1. simpl.
      rewrite blit_length by (rewrite varint_length; lia). lia. }
    destruct (Base128StreamWriter.put _ s1) as [ok2 s2].
    simpl in Hs. subst ok2. reflexivity.
  - pose proof (stream_put_short _ stream Hwf Hr Hshort1) as Hs.
    destruct (Base128StreamWriter.put _ stream) as [ok1 s1].
    simpl in Hs. subst ok1. reflexivity.
Qed.


(** ** A failed [tput] of the timestamp stack *)

Lemma ts_tput_general (iter : list Z) (w : DeltaRLEWriter)
    (stream : Base128StreamWriter.t) :
  exists outbuf,
    stream_tput iter w stream =
    let '(ok, stream') := Base128StreamWriter.tput outbuf stream in
    (ok,
     DeltaStreamWriter.mk
       (RLEStreamWriter.mk 0 0 (RLEStreamWriter.start_size_ (DeltaStreamWriter.stream_ w)))
       (default (DeltaStreamWriter.prev_ w) (last iter)),
     stream').
Proof.
  simpl. unfold DeltaStreamWriter.tput. simpl.
  pose proof (delta_loop_prev u64 iter (DeltaStreamWriter.prev_ w)) as Hp.
  destruct (DeltaStreamWriter.tput_loop u64 iter (DeltaStreamWriter.prev_ w))
    as [deltas prev'].
  simpl in Hp. subst prev'. unfold RLEStreamWriter.tput.
  destruct (RLEStreamWriter.tput_loop u64 deltas _ _ []) as [[prev reps] outbuf].
  eexists.
  destruct (Base128StreamWriter.tput _ stream) as [ok stream'] eqn:E.
  rewrite E. reflexivity.
Qed.

(** ** RLEStreamReader::next on a pending run *)

Lemma rle_read_pending (T : IntType) (k : nat) :
  forall (prev reps : Z) (stream : Base128StreamReader.t),
  Z.of_nat k <= reps ->
  (forall x, 1 <= x <= reps -> wrap T (x - 1) = x - 1) ->
  read_n k (RLEStreamReader.mk (T:=T) prev reps) stream =
  Value (replicate k prev, RLEStreamReader.mk prev (reps - Z.of_nat k), stream).
Proof.
  induction k as [|k IH]; intros prev reps stream Hk Hw.
  - simpl. rewrite Z.sub_0_r. reflexivity.
  - cbn [read_n]. simpl. unfold RLEStreamReader.next. simpl.
    destruct (Z.eqb_spec reps 0) as [E|E]; [lia|]. simpl.
    rewrite Hw by lia.
    rewrite IH; [|lia|intros x Hx; apply Hw; lia].
    simpl. do 3 f_equal. f_equal. lia.
Qed.

Lemma wrap_unsigned_id (T : IntType) (x : Z) :
  is_signed T = false -> 0 <= x < 2 ^ bits T -> wrap T x = x.
Proof. intros Hs Hx. unfold wrap. rewrite Hs. apply Z.mod_small. assumption. Qed.

Lemma wrap_unsigned_m1 (T : IntType) :
  is_signed T = false -> 0 < bits T -> wrap T (0 - 1) = 2 ^ bits T - 1.
Proof.
  intros Hs Hb. unfold wrap. rewrite Hs.
  assert (0 < 2 ^ bits T) by (apply Z.pow_pos_nonneg; lia).
  symmetry. apply (Z.mod_unique_pos _ _ (-1)); lia.
Qed.

(** ** Signed 64-bit values *)

Ltac case_ltb :=
  repeat match goal with
         | |- context [?a <? ?b] => destruct (Z.ltb_spec a b)
         end.

Lemma wrap_i64_eq (x : Z) :
  wrap i64 x = (x + 9223372036854775808) mod 18446744073709551616
               - 9223372036854775808.
Proof. reflexivity. Qed.

Lemma wrap_i64_id (x : Z) : - 2 ^ 63 <= x < 2 ^ 63 -> wrap i64 x = x.
Proof.
  intros Hx. rewrite wrap_i64_eq.
  change (2 ^ 63) with 9223372036854775808 in Hx.
  Z.div_mod_to_equations. lia.
Qed.

Lemma wrap_i64_range (x : Z) : - 2 ^ 63 <= wrap i64 x < 2 ^ 63.
Proof.
  rewrite wrap_i64_eq. change (2 ^ 63) with 9223372036854775808.
  Z.div_mod_to_equations. lia.
Qed.

(** Bit 63 of a signed 64-bit value is its sign. *)
Lemma i64_bit63 (y : Z) :
  - 2 ^ 63 <= y < 2 ^ 63 -> (Z.testbit y 63 = true <-> y < 0).
Proof.
  intros Hy. destruct (Z.lt_ge_cases y 0) as [Hneg|Hpos].
  - split; [intros _; assumption|intros _].
    apply Z.bits_above_log2_neg; [assumption|].
    destruct (Z.eq_dec (Z.pred (- y)) 0) as [->|Hne]; [reflexivity|].
    apply Z.log2_lt_pow2; lia.
  - split; [|lia]. intros Hbit.
    destruct (Z.eq_dec y 0) as [->|Hne]; [discriminate|].
    rewrite Z.bits_above_log2 in Hbit; [discriminate|lia|].
    apply Z.log2_lt_pow2; lia.
Qed.

Lemma sign_shift_63 (x : Z) :
  - 2 ^ 63 <= x < 2 ^ 63 -> Z.shiftr x 63 = if x <? 0 then -1 else 0.
Proof.
  intros Hx. rewrite Z.shiftr_div_pow2 by lia.
  change (2 ^ 63) with 9223372036854775808 in *.
  destruct (Z.ltb_spec x 0); Z.div_mod_to_equations; lia.
Qed.

(** The zig-zag code of [x] in closed form: without wrap-around when
    [-2^62 <= x < 2^62], with it beyond. *)
Lemma zigzag_i64_value (x : Z) :
  - 2 ^ 63 <= x < 2 ^ 63 ->
  ZigZagStreamWriter.zigzag i64 x =
  if x <? - 2 ^ 62 then - (2 * x + 2 ^ 64) - 1
  else if x <? 0 then - (2 * x) - 1
  else if x <? 2 ^ 62 then 2 * x
  else 2 * x - 2 ^ 64.
Proof.
  intros Hx. unfold ZigZagStreamWriter.zigzag. simpl bits.
  change (64 - 1) with 63.
  rewrite sign_shift_63 by assumption.
  rewrite Z.shiftl_mul_pow2 by lia. change (2 ^ 1) with 2.
  change (2 ^ 62) with 4611686018427387904.
  change (2 ^ 63) with 9223372036854775808 in Hx.
  change (2 ^ 64) with 18446744073709551616.
  assert (Hw : - 9223372036854775808 <= wrap i64 (x * 2) < 9223372036854775808)
    by apply wrap_i64_range.
  destruct (Z.ltb_spec x 0) as [Hneg|Hpos].
  - rewrite Z.lxor_m1_r. unfold Z.lnot.
    rewrite (wrap_i64_id (Z.pred _))
      by (change (2 ^ 63) with 9223372036854775808; lia).
    rewrite wrap_i64_eq in *.
    case_ltb; Z.div_mod_to_equations; lia.
  - rewrite Z.lxor_0_r.
    rewrite (wrap_i64_id (wrap i64 _))
      by (change (2 ^ 63) with 9223372036854775808; lia).
    rewrite wrap_i64_eq in *.
    case_ltb; Z.div_mod_to_equations; lia.
Qed.

(** The code is negative, bit 63 set, exactly for the values outside
    [[-2^62, 2^62)]. *)
Lemma zigzag_i64_negative (x : Z) :
  - 2 ^ 63 <= x < 2 ^ 63 ->
  (ZigZagStreamWriter.zigzag i64 x < 0 <-> x < - 2 ^ 62 \/ 2 ^ 62 <= x).
Proof.
  intros Hx. rewrite zigzag_i64_value by assumption.
  change (2 ^ 62) with 4611686018427387904.
  change (2 ^ 63) with 9223372036854775808 in Hx.
  change (2 ^ 64) with 18446744073709551616.
  case_ltb; lia.
Qed.

(** Decoding inverts the code where no wrap-around took place. *)
Lemma unzigzag_zigzag_small (x : Z) :
  - 2 ^ 62 <= x < 2 ^ 62 ->
  ZigZagStreamReader.unzigzag i64 (ZigZagStreamWriter.zigzag i64 x) = x.
Proof.
  intros Hx.
  assert (H62 : 2 ^ 63 = 2 * 2 ^ 62) by reflexivity.
  rewrite zigzag_i64_value by lia.
  unfold ZigZagStreamReader.unzigzag.
  assert (Hland : forall n, Z.land n 1 = n mod 2)
    by (intros n; change 1 with (Z.ones 1); rewrite Z.land_ones by lia; reflexivity).
  rewrite !Hland.
  destruct (Z.ltb_spec x (- 2 ^ 62)); [lia|].
  destruct (Z.ltb_spec x 0) as [Hneg|Hpos];
    [|destruct (Z.ltb_spec x (2 ^ 62)); [|lia]].
  - rewrite Z.shiftr_div_pow2 by lia.
    change (2 ^ 1) with 2.
    replace ((- (2 * x) - 1) mod 2) with 1 by (Z.div_mod_to_equations; lia).
    replace ((- (2 * x) - 1) / 2) with (- x - 1) by (Z.div_mod_to_equations; lia).
    assert (Hm1 : wrap i64 (Z.opp 1) = -1) by reflexivity. rewrite Hm1.
    rewrite Z.lxor_m1_r. unfold Z.lnot.
    rewrite wrap_i64_id by lia. lia.
  - rewrite Z.shiftr_div_pow2 by lia.
    change (2 ^ 1) with 2.
    replace ((2 * x) mod 2) with 0 by (Z.div_mod_to_equations; lia).
    replace ((2 * x) / 2) with x by (Z.div_mod_to_equations; lia).
    assert (Hm0 : wrap i64 (Z.opp 0) = 0) by reflexivity. rewrite Hm0.
    rewrite Z.lxor_0_r. rewrite wrap_i64_id by lia. reflexivity.
Qed.


(** ** Raw fields *)

Lemma store_bytes_blit (bs : list Z) : forall (m : list Z) (p : nat),
  (p + length bs <= length m)%nat -> store_bytes m p bs = blit m p bs.
Proof.
  induction bs as [|b bs IH]; intros m p H.
  - simpl. rewrite blit_nil. reflexivity.
  - simpl in *. rewrite IH by (rewrite store_length; lia).
    apply blit_cons. lia.
Qed.

Lemma le_bytes_length (n : nat) : forall x, length (le_bytes n x) = n.
Proof. induction n as [|n IH]; intros x; simpl; [|rewrite IH]; reflexivity. Qed.

Lemma load_bytes_holds (bs : list Z) : forall (m : list Z) (p : nat),
  holds m p bs -> load_bytes m p (length bs) = bs.
Proof.
  induction bs as [|b bs IH]; intros m p H; [reflexivity|].
  apply holds_cons in H. destruct H as (_ & Hb & Hrest).
  unfold load_bytes in *. simpl. rewrite Hb. f_equal. apply IH. assumption.
Qed.

Lemma byte_255 (x : Z) : Z.land x 255 = x mod 256.
Proof. change 255 with (Z.ones 8). rewrite Z.land_ones by lia. reflexivity. Qed.

Lemma le_value_le_bytes (n : nat) : forall x,
  0 <= x < 2 ^ (8 * Z.of_nat n) -> le_value (le_bytes n x) = x.
Proof.
  induction n as [|n IH]; intros x Hx.
  - simpl in *. lia.
  - cbn [le_bytes le_value].
    replace (8 * Z.of_nat (S n)) with (8 + 8 * Z.of_nat n) in Hx by lia.
    rewrite Z.pow_add_r in Hx by lia. change (2 ^ 8) with 256 in Hx.
    rewrite Z.shiftr_div_pow2 by lia. change (2 ^ 8) with 256.
    rewrite IH by (split; [apply Z.div_pos; lia|apply Z.div_lt_upper_bound; lia]).
    rewrite Z.shiftl_mul_pow2 by lia. rewrite byte_255.
    rewrite lor_disjoint by (try apply Z.mod_pos_bound; lia).
    change (2 ^ 8) with 256. pose proof (Z.div_mod x 256 ltac:(lia)). lia.
Qed.

Lemma significant_bytes_spec (fuel : nat) : forall x,
  0 <= x < 2 ^ (8 * Z.of_nat fuel) ->
  (significant_bytes fuel x <= fuel)%nat /\
  x < 2 ^ (8 * Z.of_nat (significant_bytes fuel x)).
Proof.
  induction fuel as [|fuel IH]; intros x Hx.
  - simpl in *. split; lia.
  - cbn [significant_bytes].
    destruct (Z.eqb_spec x 0) as [->|Hne]; [split; [lia|reflexivity]|].
    replace (8 * Z.of_nat (S fuel)) with (8 + 8 * Z.of_nat fuel) in Hx by lia.
    rewrite Z.pow_add_r in Hx by lia. change (2 ^ 8) with 256 in Hx.
    destruct (IH (Z.shiftr x 8)) as [H1 H2].
    { rewrite Z.shiftr_div_pow2 by lia. change (2 ^ 8) with 256.
      split; [apply Z.div_pos; lia|apply Z.div_lt_upper_bound; lia]. }
    split; [lia|].
    replace (8 * Z.of_nat (S (significant_bytes fuel (Z.shiftr x 8))))
      with (8 + 8 * Z.of_nat (significant_bytes fuel (Z.shiftr x 8))) by lia.
    rewrite Z.pow_add_r by lia. change (2 ^ 8) with 256.
    set (k := 2 ^ (8 * Z.of_nat (significant_bytes fuel (Z.shiftr x 8)))) in *.
    rewrite Z.shiftr_div_pow2 in H2 by lia. change (2 ^ 8) with 256 in H2.
    pose proof (Z.div_mod x 256 ltac:(lia)).
    pose proof (Z.mod_pos_bound x 256 ltac:(lia)). lia.
Qed.

(** The flag of a 64-bit difference is in [0, 8], and the difference fits in
    [8 - flag] bytes. *)
Lemma flag_spec (diff : Z) :
  0 <= diff < 2 ^ 64 ->
  0 <= leading_zero_bytes diff <= 8 /\
  Z.to_nat (8 - leading_zero_bytes diff) = significant_bytes 8 diff /\
  le_value (le_bytes (significant_bytes 8 diff) diff) = diff.
Proof.
  intros Hd. destruct (significant_bytes_spec 8 diff Hd) as [H1 H2].
  unfold leading_zero_bytes. split; [lia|]. split; [lia|].
  apply le_value_le_bytes. lia.
Qed.

(** The flag byte of a pair and its two nibbles. *)
Lemma flag_byte_spec (f1 f2 : Z) :
  0 <= f1 <= 8 -> 0 <= f2 <= 8 ->
  let b := Z.lor (Z.shiftl f1 4) f2 in
  le_bytes 1 b = [b] /\ le_value [b] = b /\
  Z.shiftr b 4 = f1 /\ Z.land b 15 = f2.
Proof.
  intros H1 H2.
  assert (E1 : f1 = 0 \/ f1 = 1 \/ f1 = 2 \/ f1 = 3 \/ f1 = 4 \/ f1 = 5 \/
               f1 = 6 \/ f1 = 7 \/ f1 = 8) by lia.
  assert (E2 : f2 = 0 \/ f2 = 1 \/ f2 = 2 \/ f2 = 3 \/ f2 = 4 \/ f2 = 5 \/
               f2 = 6 \/ f2 = 7 \/ f2 = 8) by lia.
  repeat (destruct E1 as [->|E1]); try subst f1;
    repeat (destruct E2 as [->|E2]); try subst f2; repeat split.
Qed.

Lemma lxor_u64 (a b : Z) :
  0 <= a < 2 ^ 64 -> 0 <= b < 2 ^ 64 -> 0 <= Z.lxor a b < 2 ^ 64.
Proof.
  intros Ha Hb.
  assert (Hn : 0 <= Z.lxor a b) by (apply Z.lxor_nonneg; lia).
  split; [assumption|].
  destruct (Z.eq_dec (Z.lxor a b) 0) as [->|Hne]; [reflexivity|].
  apply Z.log2_lt_pow2; [lia|].
  pose proof (Z.log2_lxor a b ltac:(lia) ltac:(lia)) as Hl.
  assert (Z.log2 a < 64).
  { destruct (Z.eq_dec a 0) as [->|]; [reflexivity|apply Z.log2_lt_pow2; lia]. }
  assert (Z.log2 b < 64).
  { destruct (Z.eq_dec b 0) as [->|]; [reflexivity|apply Z.log2_lt_pow2; lia]. }
  lia.
Qed.

Lemma lxor_cancel (v p : Z) : Z.lxor (Z.lxor v p) p = v.
Proof. rewrite Z.lxor_assoc, Z.lxor_nilpotent, Z.lxor_0_r. reflexivity. Qed.

Lemma even_wrap_i32 (x : Z) : Z.even (wrap i32 (x + 1)) = negb (Z.even x).
Proof.
  assert (E : wrap i32 (x + 1)
              = (x + 1 + 2147483648) mod 4294967296 - 2147483648) by reflexivity.
  rewrite E.
  pose proof (Z.div_mod (x + 1 + 2147483648) 4294967296 ltac:(lia)) as Hd.
  replace ((x + 1 + 2147483648) mod 4294967296 - 2147483648)
    with (x + 1 + 2 * (- 2147483648 * ((x + 1 + 2147483648) / 4294967296))) by lia.
  rewrite Z.even_add_mul_2, Z.even_add. simpl.
  destruct (Z.even x); reflexivity.
Qed.

Lemma even_wrap_u32 (x : Z) : Z.even (wrap u32 (x + 1)) = negb (Z.even x).
Proof.
  assert (E : wrap u32 (x + 1) = (x + 1) mod 4294967296) by reflexivity.
  rewrite E.
  pose proof (Z.div_mod (x + 1) 4294967296 ltac:(lia)) as Hd.
  replace ((x + 1) mod 4294967296)
    with (x + 1 + 2 * (- 2147483648 * ((x + 1) / 4294967296))) by lia.
  rewrite Z.even_add_mul_2, Z.even_add. simpl.
  destruct (Z.even x); reflexivity.
Qed.

Section RawIO.
Import Base128StreamWriter.

Lemma put_raw_ok (sz : nat) (value : Z) (s : t) :
  wf s -> (pos_ s + sz <= end_ s)%nat ->
  put_raw sz value s =
  (true, mk (blit (mem s) (pos_ s) (le_bytes sz value)) (begin_ s) (end_ s)
            (pos_ s + sz)).
Proof.
  intros (Hb & Hp & He) Hroom. unfold put_raw.
  destruct (Nat.ltb_spec (end_ s - pos_ s) sz); [lia|].
  rewrite store_bytes_blit by (rewrite le_bytes_length; lia). reflexivity.
Qed.

Lemma put_raw_short (sz : nat) (value : Z) (s : t) :
  wf s -> (end_ s < pos_ s + sz)%nat -> put_raw sz value s = (false, s).
Proof.
  intros (Hb & Hp & He) Hroom. unfold put_raw.
  destruct (Nat.ltb_spec (end_ s - pos_ s) sz); [reflexivity|lia].
Qed.

End RawIO.

Lemma read_raw_ok (bs : list Z) (m : list Z) (p e : nat) :
  holds m p bs -> (p + length bs <= e)%nat ->
  Base128StreamReader.read_raw (length bs) (Base128StreamReader.mk m p e) =
  Value (le_value bs, Base128StreamReader.mk m (p + length bs) e).
Proof.
  intros Hm He. unfold Base128StreamReader.read_raw, Base128StreamReader.space_left.
  simpl. destruct (Nat.ltb_spec (e - p) (length bs)); [lia|].
  rewrite load_bytes_holds by assumption. reflexivity.
Qed.


(** ** The FCM codec *)

Lemma predictor_make_ok (n : nat) : predictor_ok (FcmPredictor.make n).
Proof.
  unfold predictor_ok, u64_list, FcmPredictor.make.
  cbn [FcmPredictor.table]. apply Forall_replicate. lia.
Qed.

Lemma predict_next_range (p : FcmPredictor.t) :
  predictor_ok p -> 0 <= FcmPredictor.predict_next p < 2 ^ 64.
Proof.
  intros Hp. unfold FcmPredictor.predict_next.
  destruct (decide (Z.to_nat (FcmPredictor.last_hash p) < length (FcmPredictor.table p))%nat)
    as [Hlt|Hge].
  - destruct (lookup_lt_is_Some_2 _ _ Hlt) as [x Hx].
    rewrite (list_lookup_total_correct _ _ _ Hx).
    unfold predictor_ok, u64_list in Hp. rewrite Forall_forall in Hp.
    apply Hp. eapply list_elem_of_lookup_2. eassumption.
  - rewrite list_lookup_total_alt, lookup_ge_None_2 by lia.
    cbn [default]. vm_compute. split; [discriminate|reflexivity].
Qed.

Lemma predictor_update_ok (v : Z) (p : FcmPredictor.t) :
  predictor_ok p -> 0 <= v < 2 ^ 64 -> predictor_ok (FcmPredictor.update v p).
Proof.
  intros Hp Hv. unfold predictor_ok, u64_list, FcmPredictor.update in *.
  cbn [FcmPredictor.table]. apply Forall_insert; assumption.
Qed.

Lemma predictor_after_ok (values : list Z) : forall p,
  predictor_ok p -> u64_list values -> predictor_ok (predictor_after p values).
Proof.
  induction values as [|v values IH]; intros p Hp Hv; [assumption|].
  inversion Hv; subst. cbn [predictor_after fold_left].
  apply IH; [|assumption].
  apply predictor_update_ok; assumption.
Qed.

Lemma fcm_pair_bytes_length (p : FcmPredictor.t) (v1 v2 : Z) :
  length (fcm_pair_bytes p v1 v2) =
  (1 + significant_bytes 8 (Z.lxor v1 (FcmPredictor.predict_next p))
   + significant_bytes 8
       (Z.lxor v2 (FcmPredictor.predict_next (FcmPredictor.update v1 p))))%nat.
Proof.
  unfold fcm_pair_bytes. rewrite !length_app, !le_bytes_length.
  cbn [length]. lia.
Qed.

Ltac wsimpl :=
  cbn [Base128StreamWriter.mem Base128StreamWriter.pos_
       Base128StreamWriter.begin_ Base128StreamWriter.end_
       FcmStreamWriter.predictor_ FcmStreamWriter.nelements_
       FcmStreamWriter.prev_diff_ FcmStreamWriter.prev_flag_
       length fst snd negb] in *.

Section FcmWriter.
Import Base128StreamWriter.

(** The second value of a pair writes the pair, when it fits. *)
Lemma fcm_put_pair (v1 v2 : Z) (self : FcmStreamWriter.t) (stream : t) :
  Z.even (FcmStreamWriter.nelements_ self) = true ->
  wf stream -> predictor_ok (FcmStreamWriter.predictor_ self) ->
  0 <= v1 < 2 ^ 64 -> 0 <= v2 < 2 ^ 64 ->
  let p := FcmStreamWriter.predictor_ self in
  let bytes := fcm_pair_bytes p v1 v2 in
  exists self1,
    FcmStreamWriter.put v1 self stream = (true, self1, stream) /\
    ((pos_ stream + length bytes <= end_ stream)%nat ->
     exists d f k, Z.even k = true /\
       FcmStreamWriter.put v2 self1 stream =
       (true,
        FcmStreamWriter.mk (FcmPredictor.update v2 (FcmPredictor.update v1 p)) d f k,
        mk (blit (mem stream) (pos_ stream) bytes) (begin_ stream) (end_ stream)
           (pos_ stream + length bytes))) /\
    ((end_ stream < pos_ stream + length bytes)%nat ->
     (FcmStreamWriter.put v2 self1 stream).1.1 = false).
Proof.
  intros Heven Hwf Hp Hv1 Hv2 p bytes.
  pose proof (predict_next_range p Hp) as Hpr.
  pose proof (predictor_update_ok v1 p Hp Hv1) as Hp1.
  pose proof (predict_next_range _ Hp1) as Hpr1.
  assert (Hlen : length bytes
                 = (1 + significant_bytes 8 (Z.lxor v1 (FcmPredictor.predict_next p))
                    + significant_bytes 8
                        (Z.lxor v2 (FcmPredictor.predict_next (FcmPredictor.update v1 p))))%nat)
    by apply fcm_pair_bytes_length.
  assert (Hbytes : bytes = fcm_pair_bytes p v1 v2) by reflexivity.
  unfold fcm_pair_bytes in Hbytes. clearbody bytes.
  remember (Z.lxor v1 (FcmPredictor.predict_next p)) as d1 eqn:Ed1.
  remember (FcmPredictor.update v1 p) as p1 eqn:Ep1.
  remember (Z.lxor v2 (FcmPredictor.predict_next p1)) as d2 eqn:Ed2.
  assert (Hd1 : 0 <= d1 < 2 ^ 64) by (subst d1; apply lxor_u64; assumption).
  assert (Hd2 : 0 <= d2 < 2 ^ 64) by (subst d2; apply lxor_u64; assumption).
  destruct (flag_spec d1 Hd1) as (Hf1 & Hn1 & _).
  destruct (flag_spec d2 Hd2) as (Hf2 & Hn2 & _).
  destruct (flag_byte_spec _ _ Hf1 Hf2) as (Hb & _).
  remember (significant_bytes 8 d1) as n1 eqn:En1.
  remember (significant_bytes 8 d2) as n2 eqn:En2.
  remember (leading_zero_bytes d1) as f1 eqn:Ef1.
  remember (leading_zero_bytes d2) as f2 eqn:Ef2.
  remember (Z.lor (Z.shiftl f1 4) f2) as b eqn:Eb.
  assert (Hput1 : FcmStreamWriter.put v1 self stream
                  = (true, FcmStreamWriter.mk p1 d1 f1
                             (wrap i32 (FcmStreamWriter.nelements_ self + 1)), stream)).
  { unfold FcmStreamWriter.put, FcmStreamWriter.encode. fold p.
    rewrite <- Ed1, <- Ef1, <- Ep1, Heven. reflexivity. }
  eexists. split; [exact Hput1|].
  assert (Hput2 : FcmStreamWriter.put v2
                    (FcmStreamWriter.mk p1 d1 f1
                       (wrap i32 (FcmStreamWriter.nelements_ self + 1))) stream =
                  let self' := FcmStreamWriter.mk (FcmPredictor.update v2 p1) d2 f2
                    (wrap i32 (wrap i32 (FcmStreamWriter.nelements_ self + 1) + 1)) in
                  let '(ok0, s0) := put_raw 1 b stream in
                  if negb ok0 then (false, self', s0)
                  else
                    let '(ok1, s1) := put_raw n1 d1 s0 in
                    if negb ok1 then (false, self', s1)
                    else let '(ok2, s2) := put_raw n2 d2 s1 in (ok2, self', s2)).
  { unfold FcmStreamWriter.put, FcmStreamWriter.encode, FcmStreamWriter.put_significant.
    wsimpl. rewrite <- Ed2, <- Ef2, <- Eb, Hn1, Hn2.
    rewrite even_wrap_i32, Heven. reflexivity. }
  rewrite Hput2. clear Hput1 Hput2. cbv zeta.
  destruct Hwf as (W1 & W2 & W3).
  assert (Hb0 : length [b] = 1%nat) by reflexivity.
  assert (Hl1 : length (le_bytes n1 d1) = n1) by apply le_bytes_length.
  assert (Hl2 : length (le_bytes n2 d2) = n2) by apply le_bytes_length.
  assert (L0 : (pos_ stream + 1 <= end_ stream)%nat ->
               length (blit (mem stream) (pos_ stream) [b]) = length (mem stream))
    by (intros; apply blit_length; cbn [length]; lia).
  assert (L1 : (pos_ stream + 1 + n1 <= end_ stream)%nat ->
               length (blit (blit (mem stream) (pos_ stream) [b])
                         (pos_ stream + 1) (le_bytes n1 d1)) = length (mem stream))
    by (intros; rewrite blit_length; rewrite ?L0, ?Hl1; lia).
  split.
  - intros Hroom.
    rewrite put_raw_ok by (unfold wf; lia). rewrite Hb. wsimpl.
    rewrite put_raw_ok by (unfold wf; wsimpl; rewrite ?L0; lia).
    wsimpl.
    rewrite put_raw_ok by (unfold wf; wsimpl; rewrite ?L1; lia).
    wsimpl.
    assert (B1 : blit (blit (mem stream) (pos_ stream) [b]) (pos_ stream + 1)
                   (le_bytes n1 d1)
                 = blit (mem stream) (pos_ stream) ([b] ++ le_bytes n1 d1)).
    { change (pos_ stream + 1)%nat with (pos_ stream + length [b])%nat.
      apply blit_app. cbn [length]. lia. }
    rewrite B1.
    assert (B2 : blit (blit (mem stream) (pos_ stream) ([b] ++ le_bytes n1 d1))
                   (pos_ stream + 1 + n1) (le_bytes n2 d2)
                 = blit (mem stream) (pos_ stream)
                     (([b] ++ le_bytes n1 d1) ++ le_bytes n2 d2)).
    { replace (pos_ stream + 1 + n1)%nat
        with (pos_ stream + length ([b] ++ le_bytes n1 d1))%nat
        by (rewrite length_app, Hl1; cbn [length]; lia).
      apply blit_app. rewrite length_app, Hl1. cbn [length]. lia. }
    rewrite B2, <- app_assoc, <- Hbytes.
    replace (pos_ stream + 1 + n1 + n2)%nat with (pos_ stream + length bytes)%nat
      by lia.
    subst p1.
    eexists _, _, _. split; [|reflexivity].
    rewrite even_wrap_i32, even_wrap_i32, Heven. reflexivity.
  - intros Hshort.
    destruct (Nat.le_gt_cases (pos_ stream + 1) (end_ stream)) as [Hfit0|Hs0];
      [|rewrite put_raw_short by (unfold wf; lia); reflexivity].
    rewrite put_raw_ok by (unfold wf; lia). rewrite Hb. wsimpl.
    destruct (Nat.le_gt_cases (pos_ stream + 1 + n1) (end_ stream))
      as [Hfit1|Hs1].
    + rewrite put_raw_ok by (unfold wf; wsimpl; rewrite ?L0; lia).
      wsimpl.
      rewrite put_raw_short; [reflexivity| |wsimpl; lia].
      unfold wf. wsimpl. rewrite ?L1; lia.
    + rewrite put_raw_short; [reflexivity| |wsimpl; lia].
      unfold wf. wsimpl. rewrite ?L0; lia.
Qed.

Lemma fcm_tput_loop_spec (n : nat) :
  forall (values : list Z) (self : FcmStreamWriter.t) (stream : t),
  length values = (2 * n)%nat ->
  Z.even (FcmStreamWriter.nelements_ self) = true ->
  wf stream -> predictor_ok (FcmStreamWriter.predictor_ self) ->
  u64_list values ->
  let p := FcmStreamWriter.predictor_ self in
  let bytes := fcm_bytes p values in
  let r := FcmStreamWriter.tput_loop values self stream in
  ((pos_ stream + length bytes <= end_ stream)%nat ->
   exists d f k, Z.even k = true /\
     r = (true, FcmStreamWriter.mk (predictor_after p values) d f k,
          mk (blit (mem stream) (pos_ stream) bytes) (begin_ stream) (end_ stream)
             (pos_ stream + length bytes))) /\
  ((end_ stream < pos_ stream + length bytes)%nat -> r.1.1 = false).
Proof.
  induction n as [|n IH]; intros values self stream Hlen Heven Hwf Hp Hv p bytes r.
  - destruct values; [|discriminate]. subst r bytes p.
    cbn [FcmStreamWriter.tput_loop fcm_bytes predictor_after fold_left length].
    split.
    + intros _. destruct self as [p d f k]. exists d, f, k. wsimpl.
      split; [assumption|]. rewrite blit_nil, Nat.add_0_r. destruct stream; reflexivity.
    + destruct Hwf as (? & ? & ?). lia.
  - destruct values as [|v1 [|v2 values]]; try (cbn [length] in Hlen; lia).
    unfold u64_list in Hv.
    apply Forall_cons in Hv as [Hv1 Hv']. apply Forall_cons in Hv' as [Hv2 Hv''].
    destruct (fcm_put_pair v1 v2 self stream Heven Hwf Hp Hv1 Hv2)
      as (self1 & E1 & Hfit & Hshort).
    fold p in Hfit, Hshort.
    subst r bytes. cbn [FcmStreamWriter.tput_loop fcm_bytes predictor_after fold_left].
    rewrite E1. rewrite length_app.
    destruct (Nat.le_gt_cases
                (pos_ stream + length (fcm_pair_bytes p v1 v2)) (end_ stream))
      as [Hf|Hs].
    + destruct (Hfit Hf) as (d & f & k & Hk & E2). rewrite E2.
      remember (FcmStreamWriter.mk (FcmPredictor.update v2 (FcmPredictor.update v1 p)) d f k)
        as self2 eqn:Es2.
      remember (mk (blit (mem stream) (pos_ stream) (fcm_pair_bytes p v1 v2))
                  (begin_ stream) (end_ stream)
                  (pos_ stream + length (fcm_pair_bytes p v1 v2))) as s2 eqn:Ess2.
      assert (Hwf2 : wf s2).
      { destruct Hwf as (? & ? & ?). subst s2. unfold wf. wsimpl.
        rewrite blit_length by lia. lia. }
      assert (Hk2 : Z.even (FcmStreamWriter.nelements_ self2) = true)
        by (subst self2; exact Hk).
      assert (Hp2 : predictor_ok (FcmStreamWriter.predictor_ self2)).
      { subst self2. wsimpl. apply predictor_update_ok; [|assumption].
        apply predictor_update_ok; assumption. }
      assert (Hlen2 : length values = (2 * n)%nat) by (cbn [length] in Hlen; lia).
      destruct (IH values self2 s2 Hlen2 Hk2 Hwf2 Hp2 Hv'') as [IH1 IH2].
      assert (Epred : FcmStreamWriter.predictor_ self2
                      = FcmPredictor.update v2 (FcmPredictor.update v1 p))
        by (subst self2; reflexivity).
      rewrite Epred in IH1, IH2.
      assert (Epos : pos_ s2 = (pos_ stream + length (fcm_pair_bytes p v1 v2))%nat)
        by (subst s2; reflexivity).
      assert (Eend : end_ s2 = end_ stream) by (subst s2; reflexivity).
      assert (Ebeg : begin_ s2 = begin_ stream) by (subst s2; reflexivity).
      assert (Emem : mem s2 = blit (mem stream) (pos_ stream) (fcm_pair_bytes p v1 v2))
        by (subst s2; reflexivity).
      rewrite Epos, Eend, Ebeg, Emem in IH1. rewrite Epos, Eend in IH2.
      split.
      * intros Hroom.
        destruct IH1 as (d' & f' & k' & Hk' & E3); [lia|].
        rewrite E3. exists d', f', k'. split; [assumption|].
        destruct Hwf as (? & ? & ?).
        rewrite blit_app by lia. rewrite Nat.add_assoc. reflexivity.
      * intros Hshort'. apply IH2. lia.
    + split; [intros; lia|]. intros _.
      specialize (Hshort Hs).
      destruct (FcmStreamWriter.put v2 self1 stream) as [[ok2 self2] s2].
      cbn [fst] in Hshort. subst ok2. reflexivity.
Qed.

End FcmWriter.


Lemma fcm_tput_spec (n : nat) (values : list Z) (self : FcmStreamWriter.t)
    (stream : Base128StreamWriter.t) :
  length values = (2 * n)%nat ->
  Z.even (FcmStreamWriter.nelements_ self) = true ->
  Base128StreamWriter.wf stream ->
  predictor_ok (FcmStreamWriter.predictor_ self) ->
  u64_list values ->
  let p := FcmStreamWriter.predictor_ self in
  let bytes := fcm_bytes p values in
  let r := FcmStreamWriter.tput values self stream in
  r.1.1 = true ->
  (Base128StreamWriter.pos_ stream + length bytes
     <= Base128StreamWriter.end_ stream)%nat /\
  exists d f k, Z.even k = true /\
    r = (true, FcmStreamWriter.mk (predictor_after p values) d f k,
         Base128StreamWriter.mk
           (blit (Base128StreamWriter.mem stream) (Base128StreamWriter.pos_ stream) bytes)
           (Base128StreamWriter.begin_ stream) (Base128StreamWriter.end_ stream)
           (Base128StreamWriter.pos_ stream + length bytes)).
Proof.
  intros Hlen Heven Hwf Hp Hv p bytes r Hok.
  destruct (fcm_tput_loop_spec n values self stream Hlen Heven Hwf Hp Hv)
    as [Hfit Hshort].
  fold p in Hfit, Hshort. fold bytes in Hfit, Hshort.
  subst r. unfold FcmStreamWriter.tput in *.
  destruct (Nat.le_gt_cases
              (Base128StreamWriter.pos_ stream + length bytes)
              (Base128StreamWriter.end_ stream)) as [Hf|Hs].
  - split; [assumption|].
    destruct (Hfit Hf) as (d & f & k & Hk & E). rewrite E.
    exists d, f, k. split; [assumption|reflexivity].
  - specialize (Hshort Hs).
    destruct (FcmStreamWriter.tput_loop values self stream) as [[ok self'] stream'].
    cbn [fst] in Hshort. subst ok. discriminate.
Qed.

(** ** The FCM reader *)

Lemma fcm_read_pair (v1 v2 : Z) (rd : FcmStreamReader.t) (m : list Z) (p e : nat) :
  Z.even (FcmStreamReader.iter_ rd) = true ->
  predictor_ok (FcmStreamReader.predictor_ rd) ->
  0 <= v1 < 2 ^ 64 -> 0 <= v2 < 2 ^ 64 ->
  let pr := FcmStreamReader.predictor_ rd in
  let bytes := fcm_pair_bytes pr v1 v2 in
  holds m p bytes -> (p + length bytes <= e)%nat ->
  exists fl it, Z.even it = true /\
    read_n 2 rd (Base128StreamReader.mk m p e) =
    Value ([v1; v2],
           FcmStreamReader.mk (FcmPredictor.update v2 (FcmPredictor.update v1 pr)) fl it,
           Base128StreamReader.mk m (p + length bytes) e).
Proof.
  intros Heven Hp Hv1 Hv2 pr bytes Hm He.
  pose proof (predict_next_range pr Hp) as Hpr.
  pose proof (predictor_update_ok v1 pr Hp Hv1) as Hp1.
  pose proof (predict_next_range _ Hp1) as Hpr1.
  assert (Hlen : length bytes
                 = (1 + significant_bytes 8 (Z.lxor v1 (FcmPredictor.predict_next pr))
                    + significant_bytes 8
                        (Z.lxor v2 (FcmPredictor.predict_next (FcmPredictor.update v1 pr))))%nat)
    by apply fcm_pair_bytes_length.
  assert (Hbytes : bytes = fcm_pair_bytes pr v1 v2) by reflexivity.
  unfold fcm_pair_bytes in Hbytes. clearbody bytes.
  assert (Ev1 : Z.lxor (Z.lxor v1 (FcmPredictor.predict_next pr))
                  (FcmPredictor.predict_next pr) = v1) by apply lxor_cancel.
  assert (Ev2 : Z.lxor (Z.lxor v2 (FcmPredictor.predict_next (FcmPredictor.update v1 pr)))
                  (FcmPredictor.predict_next (FcmPredictor.update v1 pr)) = v2)
    by apply lxor_cancel.
  remember (Z.lxor v1 (FcmPredictor.predict_next pr)) as d1 eqn:Ed1.
  remember (FcmPredictor.update v1 pr) as p1 eqn:Ep1.
  remember (Z.lxor v2 (FcmPredictor.predict_next p1)) as d2 eqn:Ed2.
  assert (Hd1 : 0 <= d1 < 2 ^ 64) by (subst d1; apply lxor_u64; assumption).
  assert (Hd2 : 0 <= d2 < 2 ^ 64) by (subst d2; apply lxor_u64; assumption).
  destruct (flag_spec d1 Hd1) as (Hf1 & Hn1 & Hr1).
  destruct (flag_spec d2 Hd2) as (Hf2 & Hn2 & Hr2).
  destruct (flag_byte_spec _ _ Hf1 Hf2) as (_ & Hb & Hhi & Hlo).
  remember (significant_bytes 8 d1) as n1 eqn:En1.
  remember (significant_bytes 8 d2) as n2 eqn:En2.
  remember (leading_zero_bytes d1) as f1 eqn:Ef1.
  remember (leading_zero_bytes d2) as f2 eqn:Ef2.
  remember (Z.lor (Z.shiftl f1 4) f2) as b eqn:Eb.
  assert (Hl1 : length (le_bytes n1 d1) = n1) by apply le_bytes_length.
  assert (Hl2 : length (le_bytes n2 d2) = n2) by apply le_bytes_length.
  rewrite Hbytes in Hm.
  apply holds_app in Hm. destruct Hm as [Hm0 Hm].
  apply holds_app in Hm. destruct Hm as [Hm1 Hm2].
  rewrite Hl1 in Hm2. cbn [length] in Hm1, Hm2.
  (* first value *)
  assert (R0 : Base128StreamReader.read_raw 1 (Base128StreamReader.mk m p e)
               = Value (b, Base128StreamReader.mk m (p + 1) e)).
  { rewrite <- Hb. apply (read_raw_ok [b]); [assumption|cbn [length]; lia]. }
  assert (R1 : Base128StreamReader.read_raw n1 (Base128StreamReader.mk m (p + 1) e)
               = Value (d1, Base128StreamReader.mk m (p + 1 + n1) e)).
  { rewrite <- Hr1. rewrite <- Hl1 at 1 3.
    apply read_raw_ok; [assumption|rewrite Hl1; lia]. }
  assert (R2 : Base128StreamReader.read_raw n2 (Base128StreamReader.mk m (p + 1 + n1) e)
               = Value (d2, Base128StreamReader.mk m (p + 1 + n1 + n2) e)).
  { rewrite <- Hr2. rewrite <- Hl2 at 1 3.
    apply read_raw_ok; [assumption|rewrite Hl2; lia]. }
  assert (N1 : FcmStreamReader.next rd (Base128StreamReader.mk m p e)
               = Value (v1, FcmStreamReader.mk p1 b (wrap u32 (FcmStreamReader.iter_ rd + 1)),
                        Base128StreamReader.mk m (p + 1 + n1) e)).
  { unfold FcmStreamReader.next. rewrite Heven, R0.
    cbn [mbind outcome_bind]. rewrite Hhi.
    destruct (Z.ltb_spec 8 f1); [lia|].
    rewrite Hn1, R1. cbn [mbind outcome_bind mret outcome_ret].
    fold pr. rewrite Ev1, <- Ep1. reflexivity. }
  assert (N2 : FcmStreamReader.next
                 (FcmStreamReader.mk p1 b (wrap u32 (FcmStreamReader.iter_ rd + 1)))
                 (Base128StreamReader.mk m (p + 1 + n1) e)
               = Value (v2,
                        FcmStreamReader.mk (FcmPredictor.update v2 p1) b
                          (wrap u32 (wrap u32 (FcmStreamReader.iter_ rd + 1) + 1)),
                        Base128StreamReader.mk m (p + 1 + n1 + n2) e)).
  { unfold FcmStreamReader.next.
    cbn [FcmStreamReader.iter_ FcmStreamReader.flags_ FcmStreamReader.predictor_].
    rewrite even_wrap_u32, Heven.
    cbn [negb mbind outcome_bind mret outcome_ret]. rewrite Hlo.
    destruct (Z.ltb_spec 8 f2); [lia|].
    rewrite Hn2, R2. cbn [mbind outcome_bind mret outcome_ret].
    rewrite Ev2. reflexivity. }
  eexists _, _. split; [|cbn [read_n stream_next FcmStreamReader_ops];
                         rewrite N1; cbn [mbind outcome_bind];
                         rewrite N2; cbn [mbind outcome_bind mret outcome_ret];
                         replace (p + length bytes)%nat with (p + 1 + n1 + n2)%nat by lia;
                         reflexivity].
  rewrite !even_wrap_u32, Heven. reflexivity.
Qed.

Lemma fcm_read_spec (n : nat) :
  forall (values : list Z) (rd : FcmStreamReader.t) (m : list Z) (p e : nat),
  length values = (2 * n)%nat ->
  Z.even (FcmStreamReader.iter_ rd) = true ->
  predictor_ok (FcmStreamReader.predictor_ rd) ->
  u64_list values ->
  let pr := FcmStreamReader.predictor_ rd in
  let bytes := fcm_bytes pr values in
  holds m p bytes -> (p + length bytes <= e)%nat ->
  exists fl it, Z.even it = true /\
    read_n (length values) rd (Base128StreamReader.mk m p e) =
    Value (values, FcmStreamReader.mk (predictor_after pr values) fl it,
           Base128StreamReader.mk m (p + length bytes) e).
Proof.
  induction n as [|n IH]; intros values rd m p e Hlen Heven Hp Hv pr bytes Hm He.
  - destruct values; [|discriminate]. destruct rd as [pr' fl it].
    exists fl, it. split; [assumption|].
    subst bytes. cbn [fcm_bytes length read_n predictor_after fold_left].
    rewrite Nat.add_0_r. reflexivity.
  - destruct values as [|v1 [|v2 values]]; try (cbn [length] in Hlen; lia).
    unfold u64_list in Hv.
    apply Forall_cons in Hv as [Hv1 Hv']. apply Forall_cons in Hv' as [Hv2 Hv''].
    subst bytes pr. cbn [fcm_bytes] in *. rewrite length_app in *.
    apply holds_app in Hm. destruct Hm as [Hm1 Hm2].
    destruct (fcm_read_pair v1 v2 rd m p e Heven Hp Hv1 Hv2 Hm1 ltac:(lia))
      as (fl & it & Hit & E1).
    set (pr := FcmStreamReader.predictor_ rd) in *.
    assert (Hp2 : predictor_ok (FcmPredictor.update v2 (FcmPredictor.update v1 pr))).
    { apply predictor_update_ok; [|assumption].
      apply predictor_update_ok; assumption. }
    assert (Hlen2 : length values = (2 * n)%nat) by (cbn [length] in Hlen; lia).
    assert (Hroom2 :
      (p + length (fcm_pair_bytes pr v1 v2)
       + length (fcm_bytes
                   (FcmStreamReader.predictor_
                      (FcmStreamReader.mk
                         (FcmPredictor.update v2 (FcmPredictor.update v1 pr)) fl it))
                   values) <= e)%nat)
      by (cbn [FcmStreamReader.predictor_]; lia).
    destruct (IH values
                (FcmStreamReader.mk (FcmPredictor.update v2 (FcmPredictor.update v1 pr)) fl it)
                m (p + length (fcm_pair_bytes pr v1 v2))%nat e
                Hlen2 Hit Hp2 Hv'' Hm2 Hroom2)
      as (fl' & it' & Hit' & E2).
    cbn [FcmStreamReader.predictor_] in E2.
    exists fl', it'. split; [assumption|].
    change (length (v1 :: v2 :: values)) with (2 + length values)%nat.
    rewrite read_n_app, E1. cbn [mbind outcome_bind].
    rewrite E2. cbn [mbind outcome_bind mret outcome_ret app].
    rewrite Nat.add_assoc. reflexivity.
Qed.


(** ** The payload of a block *)

Lemma payload_snoc (chunks : list (list (Z * Z))) (c : list (Z * Z)) :
  forall (ts_prev : Z) (p : FcmPredictor.t),
  payload ts_prev p (chunks ++ [c]) =
  payload ts_prev p chunks
  ++ ts_chunk_bytes (ts_prev_after ts_prev chunks) (map fst c)
  ++ fcm_bytes (predictor_after_chunks p chunks) (map snd c).
Proof.
  induction chunks as [|c0 chunks IH]; intros ts_prev p.
  - cbn [app payload ts_prev_after predictor_after_chunks fold_left].
    rewrite !app_nil_r. reflexivity.
  - cbn [app payload ts_prev_after predictor_after_chunks fold_left].
    rewrite IH. rewrite <- !app_assoc. reflexivity.
Qed.

Lemma ts_prev_after_snoc (chunks : list (list (Z * Z))) (c : list (Z * Z)) (prev : Z) :
  ts_prev_after prev (chunks ++ [c])
  = default (ts_prev_after prev chunks) (last (map fst c)).
Proof. unfold ts_prev_after. rewrite fold_left_app. reflexivity. Qed.

Lemma predictor_after_chunks_snoc (chunks : list (list (Z * Z))) (c : list (Z * Z))
    (p : FcmPredictor.t) :
  predictor_after_chunks p (chunks ++ [c])
  = predictor_after (predictor_after_chunks p chunks) (map snd c).
Proof. unfold predictor_after_chunks. rewrite fold_left_app. reflexivity. Qed.

Lemma samples_fst_ok (c : list (Z * Z)) : Forall sample_ok c -> u64_list (map fst c).
Proof.
  induction 1 as [|s c [H1 H2] _ IH]; [constructor|].
  cbn [map]. constructor; assumption.
Qed.

Lemma samples_snd_ok (c : list (Z * Z)) : Forall sample_ok c -> u64_list (map snd c).
Proof.
  induction 1 as [|s c [H1 H2] _ IH]; [constructor|].
  cbn [map]. constructor; assumption.
Qed.

Lemma predictor_after_chunks_ok (chunks : list (list (Z * Z))) : forall p,
  predictor_ok p -> Forall chunk_ok chunks ->
  predictor_ok (predictor_after_chunks p chunks).
Proof.
  induction chunks as [|c chunks IH]; intros p Hp Hc; [assumption|].
  apply Forall_cons in Hc as [[_ Hc] Hcs].
  cbn [predictor_after_chunks fold_left]. apply IH; [|assumption].
  apply predictor_after_ok; [assumption|apply samples_snd_ok; assumption].
Qed.

(** ** Memory with a known prefix *)

Lemma holds_extend (m pre new : list Z) (p : nat) :
  holds m 0 pre -> p = length pre -> (p + length new <= length m)%nat ->
  holds (blit m p new) 0 (pre ++ new).
Proof.
  intros Hpre -> Hlen. apply holds_app. split.
  - apply holds_blit_before; [assumption|lia|lia].
  - apply holds_blit. assumption.
Qed.

Lemma holds_replace (m a b b' c : list Z) :
  holds m 0 (a ++ b ++ c) -> length b' = length b ->
  holds (blit m (length a) b') 0 (a ++ b' ++ c).
Proof.
  intros H Hb.
  assert (Hlen : (length (a ++ b ++ c) <= length m)%nat).
  { destruct (holds_length _ _ _ H) as [Hl|E]; [lia|]. rewrite E. simpl. lia. }
  rewrite !length_app in Hlen.
  apply holds_app in H. destruct H as [Ha H].
  apply holds_app in H. destruct H as [_ Hc].
  apply holds_app. split; [apply holds_blit_before; [assumption|lia|lia]|].
  apply holds_app. split; [apply holds_blit; lia|].
  rewrite Hb. apply holds_blit_after; [assumption|lia|lia].
Qed.

Lemma holds_prefix_length (m l : list Z) : holds m 0 l -> (length l <= length m)%nat.
Proof.
  intros H. destruct (holds_length _ _ _ H) as [Hl|E]; [lia|]. rewrite E. simpl. lia.
Qed.

Lemma insert_last {A} (l : list A) (n : nat) (x : A) :
  length l = S n -> <[n := x]> l = take n l ++ [x].
Proof.
  intros H. rewrite <- (take_drop n l) at 1.
  rewrite insert_app_r_alt by (rewrite length_take; lia).
  rewrite length_take. replace (n - n `min` length l)%nat with 0%nat by lia.
  destruct (drop n l) as [|y [|z r]] eqn:E.
  - apply (f_equal length) in E. rewrite length_drop in E. simpl in E. lia.
  - reflexivity.
  - apply (f_equal length) in E. rewrite length_drop in E. simpl in E. lia.
Qed.

Lemma take_insert_next {A} (l : list A) (n : nat) (x : A) :
  (n < length l)%nat -> take (S n) (<[n := x]> l) = take n l ++ [x].
Proof.
  intros H. rewrite (take_S_r _ _ x) by (apply list_lookup_insert_eq; assumption).
  rewrite take_insert_ge by lia. reflexivity.
Qed.

Lemma land_15 (x : Z) : Z.land x 15 = x mod 16.
Proof. change 15 with (Z.ones 4). rewrite Z.land_ones by lia. reflexivity. Qed.

Lemma shiftr_4 (x : Z) : Z.shiftr x 4 = x / 16.
Proof. rewrite Z.shiftr_div_pow2 by lia. reflexivity. Qed.

Lemma wrap_i32_id (x : Z) : - 2 ^ 31 <= x < 2 ^ 31 -> wrap i32 x = x.
Proof.
  intros Hx.
  assert (E : wrap i32 x = (x + 2147483648) mod 4294967296 - 2147483648)
    by reflexivity.
  rewrite E. change (2 ^ 31) with 2147483648 in Hx.
  rewrite Z.mod_small; lia.
Qed.

Lemma wrap_u32_id (x : Z) : 0 <= x < 2 ^ 32 -> wrap u32 x = x.
Proof. intros Hx. apply wrap_unsigned_id; [reflexivity|assumption]. Qed.


(** ** The block writer *)

Lemma writer_make_inv (P : Params) (id : Z) (buf : list Z) (size : nat)
    (w : DataBlockWriter.t) :
  (size <= length buf)%nat ->
  DataBlockWriter.make P id buf size = Some w ->
  writer_inv P id size w [] [].
Proof.
  intros Hsize Hmake. unfold DataBlockWriter.make in Hmake.
  destruct (Nat.ltb_spec size (DataBlockWriter.HEADER_SIZE + min_chunk_cost P));
    [discriminate|].
  unfold DataBlockWriter.HEADER_SIZE in *.
  unfold Base128StreamWriter.make in Hmake.
  rewrite put_raw_ok in Hmake
    by (unfold Base128StreamWriter.wf; wsimpl; lia).
  unfold Base128StreamWriter.allocate, Base128StreamWriter.set_pos in Hmake.
  wsimpl.
  destruct (Nat.ltb_spec (size - (0 + 2)) 2); [lia|]. wsimpl.
  destruct (Nat.ltb_spec (size - (0 + 2 + 2)) 2); [lia|].
  set (m1 := blit buf 0 (le_bytes 2 1)) in *.
  assert (Hm1 : length m1 = length buf)
    by (apply blit_length; rewrite le_bytes_length; lia).
  rewrite put_raw_ok in Hmake
    by (unfold Base128StreamWriter.wf; wsimpl; lia).
  wsimpl. cbn [andb] in Hmake.
  set (m4 := blit m1 (0 + 2 + 2 + 2) (le_bytes 8 id)) in *.
  assert (Hm4 : length m4 = length buf)
    by (unfold m4; rewrite blit_length; rewrite ?le_bytes_length; lia).
  rewrite (store_bytes_blit (le_bytes 2 0) m4) in Hmake
    by (rewrite le_bytes_length; lia).
  set (m5 := blit m4 (0 + 2 + 2) (le_bytes 2 0)) in *.
  assert (Hm5 : length m5 = length buf)
    by (unfold m5; rewrite blit_length; rewrite ?le_bytes_length; lia).
  rewrite (store_bytes_blit (le_bytes 2 0) m5) in Hmake
    by (rewrite le_bytes_length; lia).
  set (m6 := blit m5 (0 + 2) (le_bytes 2 0)) in *.
  assert (Hm6 : length m6 = length buf)
    by (unfold m6; rewrite blit_length; rewrite ?le_bytes_length; lia).
  injection Hmake as <-.
  unfold writer_inv.
  cbn [DataBlockWriter.stream_ DataBlockWriter.sealed_ DataBlockWriter.write_index_
       DataBlockWriter.nchunks_ DataBlockWriter.ntail_ DataBlockWriter.ts_stream_
       DataBlockWriter.val_stream_ DataBlockWriter.ts_writebuf_
       DataBlockWriter.val_writebuf_ payload length app
       ts_prev_after predictor_after_chunks fold_left take map].
  unfold Base128StreamWriter.set_mem, Base128StreamWriter.wf. wsimpl.
  rewrite app_nil_r.
  repeat match goal with |- _ /\ _ => split end;
    try reflexivity; try (constructor; fail); try lia.
  - unfold header_bytes.
    assert (H1a : holds m1 0 (le_bytes 2 1))
      by (apply holds_blit; rewrite le_bytes_length; lia).
    assert (H4a : holds m4 0 (le_bytes 2 1))
      by (apply holds_blit_before; rewrite ?le_bytes_length; lia || assumption).
    assert (H4d : holds m4 6 (le_bytes 8 id))
      by (apply (holds_blit m1 6); rewrite le_bytes_length; lia).
    assert (H5a : holds m5 0 (le_bytes 2 1))
      by (apply holds_blit_before; rewrite ?le_bytes_length; lia || assumption).
    assert (H5c : holds m5 4 (le_bytes 2 0))
      by (apply (holds_blit m4 4); rewrite le_bytes_length; lia).
    assert (H5d : holds m5 6 (le_bytes 8 id))
      by (apply (holds_blit_after m4 6 _ 4); rewrite ?le_bytes_length; lia || assumption).
    apply holds_app. split.
    { apply holds_blit_before; rewrite ?le_bytes_length; lia || assumption. }
    rewrite le_bytes_length. apply holds_app. split.
    { apply (holds_blit m5 2). rewrite le_bytes_length. lia. }
    rewrite le_bytes_length. apply holds_app. split.
    { apply (holds_blit_after m5 4 _ 2); rewrite ?le_bytes_length; lia || assumption. }
    rewrite le_bytes_length.
    apply (holds_blit_after m5 6 _ 2); rewrite ?le_bytes_length; lia || assumption.
  - exists 0, 0, 0. split; reflexivity.
Qed.


Ltac bsimpl :=
  cbn [DataBlockWriter.stream_ DataBlockWriter.sealed_ DataBlockWriter.write_index_
       DataBlockWriter.nchunks_ DataBlockWriter.ntail_ DataBlockWriter.ts_stream_
       DataBlockWriter.val_stream_ DataBlockWriter.ts_writebuf_
       DataBlockWriter.val_writebuf_
       Base128StreamWriter.mem Base128StreamWriter.pos_
       Base128StreamWriter.begin_ Base128StreamWriter.end_
       FcmStreamWriter.predictor_ FcmStreamWriter.nelements_] in *.

Lemma write_index_low (a b : nat) :
  (b < 16)%nat -> Z.to_nat (Z.land (Z.of_nat (16 * a + b)) 15) = b.
Proof.
  intros Hb. rewrite land_15.
  replace (Z.of_nat (16 * a + b)) with (Z.of_nat b + Z.of_nat a * 16) by lia.
  rewrite Z.mod_add by lia. rewrite Z.mod_small by lia. lia.
Qed.

Lemma write_index_high (a b : nat) :
  (b < 16)%nat -> Z.shiftr (Z.of_nat (16 * a + b)) 4 = Z.of_nat a.
Proof.
  intros Hb. rewrite shiftr_4.
  replace (Z.of_nat (16 * a + b)) with (Z.of_nat b + Z.of_nat a * 16) by lia.
  rewrite Z.div_add by lia. rewrite Z.div_small by lia. lia.
Qed.

(** A successful [put] buffers the sample, or flushes the chunk that the
    sample completes. *)
Lemma writer_put_inv (P : Params) (id : Z) (size : nat) (w w' : DataBlockWriter.t)
    (F : list (list (Z * Z))) (T : list (Z * Z)) (ts v : Z) :
  writer_inv P id size w F T ->
  sample_ok (ts, v) ->
  Z.of_nat (16 * length F + length T) + 1 < 2 ^ 31 ->
  DataBlockWriter.put P ts v w = (AKU_SUCCESS, w') ->
  (length T = 15%nat /\ writer_inv P id size w' (F ++ [T ++ [(ts, v)]]) []) \/
  (length T <> 15%nat /\ writer_inv P id size w' F (T ++ [(ts, v)])).
Proof.
  intros Hinv Hs Hbound Hput.
  destruct Hinv as (Hsealed & HF & HT & HlT & Hwi & Hnc & Hnt & Hwf & Hbeg & Hend
                    & Hpos & Hmem & Hts & (d & f & k & Hk & Hval) & Hlt & Hlv & Htt & Htv).
  unfold DataBlockWriter.put in Hput. rewrite Hsealed in Hput.
  unfold DataBlockWriter.CHUNK_MASK, DataBlockWriter.CHUNK_SIZE in Hput.
  rewrite Hwi, write_index_low in Hput by assumption.
  rewrite wrap_i32_id in Hput by lia.
  set (c := T ++ [(ts, v)]) in *.
  assert (Hc : Forall sample_ok c)
    by (apply Forall_app; split; [assumption|constructor; [assumption|constructor]]).
  assert (Hclen : length c = S (length T))
    by (unfold c; rewrite length_app; cbn [length]; lia).
  destruct (Nat.eqb_spec (S (length T)) 16) as [E|E].
  - left. split; [lia|].
    destruct (DataBlockWriter.room_for_chunk P w); cbn [negb] in Hput; [|discriminate].
    assert (Htsbuf : <[length T := ts]> (DataBlockWriter.ts_writebuf_ w) = map fst c).
    { rewrite insert_last by lia. rewrite Htt. unfold c. rewrite map_app. reflexivity. }
    assert (Hvalbuf : <[length T := v]> (DataBlockWriter.val_writebuf_ w) = map snd c).
    { rewrite insert_last by lia. rewrite Htv. unfold c. rewrite map_app. reflexivity. }
    rewrite Htsbuf, Hvalbuf, Hts in Hput.
    assert (Hl1 : length (map fst c) = 16%nat) by (rewrite length_map; lia).
    assert (Hl2 : length (map snd c) = (2 * 8)%nat) by (rewrite length_map; lia).
    assert (Hn64 : Z.of_nat (length (map fst c)) < 2 ^ 64)
      by (rewrite Hl1; reflexivity).
    pose proof (ts_tput_true_fits (map fst c) (ts_prev_after 0 F) 0
                  (DataBlockWriter.stream_ w) Hwf Hn64) as Hfit1.
    destruct (stream_tput (map fst c) _ (DataBlockWriter.stream_ w))
      as [[ok1 ts'] s1] eqn:E1.
    destruct ok1; cbn [negb] in Hput; [|discriminate].
    specialize (Hfit1 eq_refl).
    rewrite ts_tput_ok in E1 by assumption.
    injection E1 as <- <-.
    rewrite Hval in Hput.
    set (tsb := ts_chunk_bytes (ts_prev_after 0 F) (map fst c)) in *.
    set (m := Base128StreamWriter.mem (DataBlockWriter.stream_ w)) in *.
    set (pos := Base128StreamWriter.pos_ (DataBlockWriter.stream_ w)) in *.
    destruct Hwf as (W1 & W2 & W3). fold m pos in W1, W2, W3.
    set (s1 := Base128StreamWriter.mk (blit m pos tsb) _ _ _) in *.
    assert (Hwf1 : Base128StreamWriter.wf s1).
    { unfold Base128StreamWriter.wf, s1. bsimpl. rewrite blit_length by lia. lia. }
    set (p0 := FcmPredictor.make (table_size P)) in *.
    assert (Hpok : predictor_ok (predictor_after_chunks p0 F)).
    { apply predictor_after_chunks_ok; [apply predictor_make_ok|assumption]. }
    pose proof (fcm_tput_spec 8 (map snd c)
                  (FcmStreamWriter.mk (predictor_after_chunks p0 F) d f k) s1
                  Hl2 Hk Hwf1 Hpok (samples_snd_ok c Hc)) as Hfcm.
    cbv zeta in Hfcm.
    destruct (FcmStreamWriter.tput (map snd c) _ s1) as [[ok2 val'] s2] eqn:E2.
    destruct ok2; cbn [negb] in Hput; [|discriminate].
    destruct (Hfcm eq_refl) as (Hfit2 & d' & f' & k' & Hk' & E3).
    injection E3 as -> ->. injection Hput as <-.
    bsimpl.
    set (fb := fcm_bytes (predictor_after_chunks p0 F) (map snd c)) in *.
    assert (Hpay : payload 0 p0 (F ++ [c]) = payload 0 p0 F ++ tsb ++ fb)
      by apply payload_snoc.
    assert (Hblit : blit (blit m pos tsb) (pos + length tsb) fb = blit m pos (tsb ++ fb))
      by (apply blit_app; lia).
    unfold s1 in Hfit2. bsimpl.
    unfold writer_inv. cbv zeta. fold p0. bsimpl. unfold s1. bsimpl.
    fold m pos.
    rewrite Hblit, Hpay, ts_prev_after_snoc, predictor_after_chunks_snoc.
    rewrite !length_app. cbn [length].
    split; [reflexivity|].
    split; [apply Forall_app; split;
            [assumption|constructor; [split; [lia|assumption]|constructor]]|].
    split; [constructor|]. split; [lia|]. split; [lia|].
    split; [assumption|]. split; [assumption|].
    split; [unfold Base128StreamWriter.wf; bsimpl;
            rewrite blit_length by (rewrite length_app; lia); lia|].
    split; [assumption|]. split; [assumption|]. split; [lia|].
    split.
    { rewrite app_assoc. apply holds_extend.
      - assumption.
      - rewrite length_app. unfold header_bytes.
        rewrite !length_app, !le_bytes_length. lia.
      - rewrite length_app. lia. }
    split; [reflexivity|].
    split; [exists d', f', k'; split; [assumption|reflexivity]|].
    rewrite !length_map. repeat split; lia.
  - right. split; [lia|].
    injection Hput as <-.
    unfold writer_inv. bsimpl.
    rewrite Hclen.
    split; [reflexivity|]. split; [assumption|]. split; [assumption|].
    split; [lia|]. split; [f_equal; lia|].
    split; [assumption|]. split; [assumption|]. split; [assumption|].
    split; [assumption|]. split; [assumption|]. split; [assumption|].
    split; [assumption|]. split; [assumption|].
    split; [exists d, f, k; split; assumption|].
    rewrite !length_insert.
    split; [assumption|]. split; [assumption|].
    unfold c. rewrite !map_app. cbn [map fst snd].
    rewrite !take_insert_next by lia. rewrite Htt, Htv. split; reflexivity.
Qed.


Lemma writer_put_all_inv (P : Params) (id : Z) (size : nat) (samples : list (Z * Z)) :
  forall (w w' : DataBlockWriter.t) (F : list (list (Z * Z))) (T : list (Z * Z)),
  writer_inv P id size w F T ->
  Forall sample_ok samples ->
  Z.of_nat (16 * length F + length T + length samples) < 2 ^ 31 ->
  put_all P samples w = Some w' ->
  exists F' T',
    writer_inv P id size w' F' T' /\
    concat F' ++ T' = concat F ++ T ++ samples.
Proof.
  induction samples as [|[ts v] samples IH]; intros w w' F T Hinv Hs Hbound Hput.
  - cbn [put_all] in Hput. injection Hput as <-.
    exists F, T. split; [assumption|]. rewrite app_nil_r. reflexivity.
  - apply Forall_cons in Hs as [Hs0 Hs]. cbn [length] in Hbound.
    cbn [put_all] in Hput.
    destruct (DataBlockWriter.put P ts v w) as [st w1] eqn:E.
    destruct st; try discriminate.
    destruct (writer_put_inv P id size w w1 F T ts v Hinv Hs0 ltac:(lia) E)
      as [[HT Hinv1]|[HT Hinv1]].
    + destruct (IH w1 w' _ _ Hinv1 Hs
                  ltac:(rewrite length_app; cbn [length]; lia) Hput)
        as (F' & T' & Hinv' & Hcat).
      exists F', T'. split; [assumption|].
      rewrite Hcat, concat_app. cbn [concat app].
      rewrite !app_nil_r, <- !app_assoc. reflexivity.
    + destruct (IH w1 w' _ _ Hinv1 Hs
                  ltac:(rewrite length_app; cbn [length]; lia) Hput)
        as (F' & T' & Hinv' & Hcat).
      exists F', T'. split; [assumption|].
      rewrite Hcat, <- !app_assoc. reflexivity.
Qed.

Lemma header_bytes_length (a b c : Z) : length (header_bytes a b c) = 14%nat.
Proof. unfold header_bytes. rewrite !length_app, !le_bytes_length. reflexivity. Qed.

(** [commit] patches the two counts into the header and reports the bytes
    used; the rest of the block stays. *)
Lemma writer_commit_inv (P : Params) (id : Z) (size : nat) (w : DataBlockWriter.t)
    (F : list (list (Z * Z))) (T : list (Z * Z)) :
  writer_inv P id size w F T ->
  let bytes := payload 0 (FcmPredictor.make (table_size P)) F in
  let r := DataBlockWriter.commit w in
  r.1 = (14 + length bytes)%nat /\ (r.1 <= size)%nat /\
  DataBlockWriter.sealed_ r.2 = true /\
  length (Base128StreamWriter.mem (DataBlockWriter.stream_ r.2))
    = length (Base128StreamWriter.mem (DataBlockWriter.stream_ w)) /\
  holds (Base128StreamWriter.mem (DataBlockWriter.stream_ r.2)) 0
    (header_bytes (Z.of_nat (length F)) (Z.of_nat (length T)) id ++ bytes).
Proof.
  intros Hinv bytes r.
  destruct Hinv as (Hsealed & HF & HT & HlT & Hwi & Hnc & Hnt & Hwf & Hbeg & Hend
                    & Hpos & Hmem & _).
  fold bytes in Hpos, Hmem.
  subst r. unfold DataBlockWriter.commit, DataBlockWriter.CHUNK_MASK.
  cbn [fst snd DataBlockWriter.stream_ DataBlockWriter.sealed_].
  unfold Base128StreamWriter.size, Base128StreamWriter.set_mem.
  cbn [Base128StreamWriter.mem].
  rewrite Hwi, write_index_high by assumption.
  assert (Hlow : Z.land (Z.of_nat (16 * length F + length T)) 15 = Z.of_nat (length T)).
  { pose proof (write_index_low (length F) (length T) HlT).
    assert (0 <= Z.land (Z.of_nat (16 * length F + length T)) 15)
      by (rewrite land_15; apply Z.mod_pos_bound; lia).
    lia. }
  rewrite Hlow, Hnc, Hnt, Hpos, Hbeg.
  destruct Hwf as (W1 & W2 & W3).
  set (m := Base128StreamWriter.mem (DataBlockWriter.stream_ w)) in *.
  pose proof (holds_prefix_length _ _ Hmem) as Hpl.
  rewrite length_app, header_bytes_length in Hpl.
  rewrite (store_bytes_blit _ m) by (rewrite le_bytes_length; lia).
  rewrite store_bytes_blit
    by (rewrite blit_length; rewrite ?le_bytes_length; lia).
  split; [lia|]. split; [lia|]. split; [reflexivity|].
  split.
  { rewrite blit_length; rewrite blit_length; rewrite ?le_bytes_length; lia. }
  unfold header_bytes in *. rewrite <- !app_assoc in *.
  assert (H1 : holds (blit m 2 (le_bytes 2 (Z.of_nat (length F)))) 0
                 (le_bytes 2 1 ++ le_bytes 2 (Z.of_nat (length F))
                  ++ le_bytes 2 0 ++ le_bytes 8 id ++ bytes)).
  { apply (holds_replace m (le_bytes 2 1) (le_bytes 2 0)); [assumption|].
    rewrite !le_bytes_length. reflexivity. }
  set (m1 := blit m 2 (le_bytes 2 (Z.of_nat (length F)))) in *.
  rewrite app_assoc in H1.
  apply (holds_replace m1 _ (le_bytes 2 0) (le_bytes 2 (Z.of_nat (length T)))) in H1;
    [|rewrite !le_bytes_length; reflexivity].
  rewrite length_app, !le_bytes_length in H1. rewrite <- app_assoc in H1.
  exact H1.
Qed.

(** ** The block reader *)

Lemma reader_make_ok (P : Params) (buf rest : list Z) (bufsize : nat)
    (nchunks ntail id : Z) :
  holds buf 0 (header_bytes nchunks ntail id ++ rest) ->
  0 <= nchunks < 2 ^ 16 -> 0 <= ntail <= 15 -> 0 <= id < 2 ^ 64 ->
  (14 <= bufsize)%nat ->
  let rd := DataBlockReader.mk 0 (Base128StreamReader.make buf 14 bufsize)
              DeltaRLEReader_make (FcmStreamReader.make P)
              (replicate DataBlockReader.CHUNK_SIZE 0) 0 in
  DataBlockReader.make P buf bufsize = inl rd /\
  DataBlockReader.version rd = 1 /\
  DataBlockReader.nchunks rd = nchunks /\
  DataBlockReader.get_id rd = id.
Proof.
  intros Hm Hn Ht Hid Hsize rd.
  unfold header_bytes in Hm. rewrite <- !app_assoc in Hm.
  apply holds_app in Hm. destruct Hm as [Hv Hm]. rewrite le_bytes_length in Hm.
  apply holds_app in Hm. destruct Hm as [Hnc Hm]. rewrite le_bytes_length in Hm.
  apply holds_app in Hm. destruct Hm as [Hnt Hm]. rewrite le_bytes_length in Hm.
  apply holds_app in Hm. destruct Hm as [Hi _].
  cbn [Nat.add] in *.
  assert (Ev : le_value (load_bytes buf 0 2) = 1).
  { pose proof (load_bytes_holds _ _ _ Hv) as E. rewrite le_bytes_length in E.
    rewrite E.
    reflexivity. }
  assert (En : le_value (load_bytes buf 2 2) = nchunks).
  { pose proof (load_bytes_holds _ _ _ Hnc) as E. rewrite le_bytes_length in E.
    rewrite E.
    apply le_value_le_bytes. change (8 * Z.of_nat 2) with 16. assumption. }
  assert (Et : le_value (load_bytes buf 4 2) = ntail).
  { pose proof (load_bytes_holds _ _ _ Hnt) as E. rewrite le_bytes_length in E.
    rewrite E.
    apply le_value_le_bytes. change (8 * Z.of_nat 2) with 16.
    assert (15 < 2 ^ 16) by reflexivity. lia. }
  assert (Ei : le_value (load_bytes buf 6 8) = id).
  { pose proof (load_bytes_holds _ _ _ Hi) as E. rewrite le_bytes_length in E.
    rewrite E.
    apply le_value_le_bytes. change (8 * Z.of_nat 8) with 64. assumption. }
  split; [|split; [exact Ev|split; [exact En|exact Ei]]].
  unfold DataBlockReader.make, DataBlockWriter.HEADER_SIZE.
  destruct (Nat.ltb_spec bufsize 14); [lia|].
  rewrite Ev, Et. cbn [Z.eqb Pos.eqb negb].
  destruct (Z.ltb_spec 15 ntail); [lia|]. reflexivity.
Qed.


Lemma read_n_S_inv {R : Type} `{!StreamReader R} (n : nat) (self self' : R)
    (s s' : Base128StreamReader.t) (v : Z) (vs : list Z) :
  read_n (S n) self s = Value (v :: vs, self', s') ->
  exists self1 s1,
    stream_next self s = Value (v, self1, s1) /\
    read_n n self1 s1 = Value (vs, self', s').
Proof.
  cbn [read_n]. destruct (stream_next self s) as [[[v0 self1] s1]|];
    [|discriminate].
  cbn [mbind outcome_bind].
  destruct (read_n n self1 s1) as [[[vs0 self2] s2]|] eqn:E; [|discriminate].
  cbn [mbind outcome_bind mret outcome_ret]. intros H. injection H as -> -> -> ->.
  exists self1, s1. split; [reflexivity|exact E].
Qed.

Lemma read_raw_mem (sz : nat) (s s' : Base128StreamReader.t) (v : Z) :
  Base128StreamReader.read_raw sz s = Value (v, s') ->
  Base128StreamReader.mem s' = Base128StreamReader.mem s.
Proof.
  unfold Base128StreamReader.read_raw.
  destruct (_ <? _)%nat; [discriminate|]. intros H. injection H as _ <-.
  reflexivity.
Qed.

Lemma fcm_next_mem (r r' : FcmStreamReader.t) (s s' : Base128StreamReader.t) (v : Z) :
  FcmStreamReader.next r s = Value (v, r', s') ->
  Base128StreamReader.mem s' = Base128StreamReader.mem s.
Proof.
  unfold FcmStreamReader.next.
  destruct (Z.even (FcmStreamReader.iter_ r)).
  - destruct (Base128StreamReader.read_raw 1 s) as [[fl s1]|] eqn:E1; [|discriminate].
    cbn [mbind outcome_bind]. destruct (8 <? _); [discriminate|].
    destruct (Base128StreamReader.read_raw _ s1) as [[d s2]|] eqn:E2; [|discriminate].
    cbn [mbind outcome_bind mret outcome_ret]. intros H. injection H as _ _ <-.
    rewrite (read_raw_mem _ _ _ _ E2). apply (read_raw_mem _ _ _ _ E1).
  - cbn [mbind outcome_bind mret outcome_ret]. destruct (8 <? _); [discriminate|].
    destruct (Base128StreamReader.read_raw _ s) as [[d s2]|] eqn:E2; [|discriminate].
    cbn [mbind outcome_bind mret outcome_ret]. intros H. injection H as _ _ <-.
    apply (read_raw_mem _ _ _ _ E2).
Qed.

Lemma next_all_app (a b : nat) : forall (r : DataBlockReader.t),
  next_all (a + b) r =
  match next_all a r with
  | Some (xs, r1) =>
      match next_all b r1 with
      | Some (ys, r2) => Some (xs ++ ys, r2)
      | None => None
      end
  | None => None
  end.
Proof.
  induction a as [|a IH]; intros r.
  - cbn [Nat.add next_all]. destruct (next_all b r) as [[ys r2]|]; reflexivity.
  - cbn [Nat.add next_all].
    destruct (DataBlockReader.next r) as [[[st ts] v] r'].
    destruct st; try reflexivity.
    rewrite IH. destruct (next_all a r') as [[xs r1]|]; [|reflexivity].
    destruct (next_all b r1) as [[ys r2]|]; reflexivity.
Qed.

Ltac rsimpl :=
  cbn [DataBlockReader.begin_ DataBlockReader.stream_ DataBlockReader.ts_stream_
       DataBlockReader.val_stream_ DataBlockReader.read_buffer_
       DataBlockReader.read_index_ Base128StreamReader.mem
       mbind outcome_bind mret outcome_ret].

Lemma chunk_index_spec (j : Z) (k : nat) :
  (k < 16)%nat -> Z.land (16 * j + Z.of_nat k) 15 = Z.of_nat k.
Proof.
  intros Hk. rewrite land_15.
  replace (16 * j + Z.of_nat k) with (Z.of_nat k + j * 16) by lia.
  rewrite Z.mod_add by lia. apply Z.mod_small. lia.
Qed.

(** Within a chunk, [next] hands out the buffered timestamp and decodes one
    value. *)
Lemma reader_next_rest (m : list Z) (N j : Z) (tsS : DeltaRLEReader)
    (tsl : list Z) (valf : FcmStreamReader.t) (sf : Base128StreamReader.t)
    (rest : list (Z * Z)) :
  forall (k : nat) (s : Base128StreamReader.t) (val : FcmStreamReader.t),
  (1 <= k)%nat -> (k + length rest = 16)%nat ->
  map fst rest = drop k tsl ->
  read_n (length rest) val s = Value (map snd rest, valf, sf) ->
  Base128StreamReader.mem s = m ->
  le_value (load_bytes m 2 2) * 16 = N ->
  0 <= j -> 16 * j + 16 <= N -> N < 2 ^ 32 ->
  next_all (length rest)
    (DataBlockReader.mk 0 s tsS val tsl (16 * j + Z.of_nat k)) =
  Some (rest, DataBlockReader.mk 0 sf tsS valf tsl (16 * j + 16)).
Proof.
  induction rest as [|[t0 v0] rest IH]; intros k s val Hk Hlen Hts Hrd Hmem HN Hj HjN HN32.
  - cbn [length read_n next_all] in *. injection Hrd as -> ->.
    replace (Z.of_nat k) with 16 by lia. reflexivity.
  - cbn [length map] in *.
    apply read_n_S_inv in Hrd. destruct Hrd as (val1 & s1 & Hn1 & Hrd).
    cbn [stream_next FcmStreamReader_ops] in Hn1.
    pose proof (fcm_next_mem _ _ _ _ _ Hn1) as Hmem1.
    cbn [next_all].
    unfold DataBlockReader.next at 1.
    unfold DataBlockReader.nelements, DataBlockReader.nchunks,
      DataBlockReader.CHUNK_MASK.
    rsimpl. rewrite Hmem. change (0 + 2)%nat with 2%nat. rewrite HN.
    destruct (Z.ltb_spec (16 * j + Z.of_nat k) N); [|lia].
    rewrite chunk_index_spec by lia.
    destruct (Z.eqb_spec (Z.of_nat k) 0); [lia|].
    rsimpl. rewrite Hn1. rsimpl.
    rewrite wrap_u32_id by lia.
    replace (16 * j + Z.of_nat k + 1) with (16 * j + Z.of_nat (S k)) by lia.
    rewrite (IH (S k) s1 val1); try assumption; try lia.
    + rewrite Nat2Z.id.
      assert (Hl : tsl !! k = Some t0).
      { pose proof (f_equal (fun l => l !! 0%nat) Hts) as E. cbn beta in E.
        rewrite lookup_drop, Nat.add_0_r in E. cbn [lookup list_lookup] in E.
        symmetry. exact E. }
      rewrite (list_lookup_total_correct _ _ _ Hl). reflexivity.
    + pose proof (f_equal (drop 1) Hts) as E. cbn [drop] in E.
      rewrite drop_0, drop_drop in E. rewrite E. f_equal. lia.
    + congruence.
Qed.


(** The sixteen [next] calls of one chunk: the first reads the timestamps of
    the chunk, each decodes one value. *)
Lemma reader_next_chunk (m : list Z) (N j : Z) (c : list (Z * Z)) (p e : nat)
    (rle : RLEStreamReader.t u64) (prev : Z) (val : FcmStreamReader.t)
    (buf : list Z) :
  chunk_ok c -> RLEStreamReader.reps_ rle = 0 ->
  Z.even (FcmStreamReader.iter_ val) = true ->
  predictor_ok (FcmStreamReader.predictor_ val) ->
  let pr := FcmStreamReader.predictor_ val in
  let bytes := ts_chunk_bytes prev (map fst c) ++ fcm_bytes pr (map snd c) in
  holds m p bytes -> (p + length bytes <= e)%nat ->
  le_value (load_bytes m 2 2) * 16 = N ->
  0 <= j -> 16 * j + 16 <= N -> N < 2 ^ 32 ->
  exists rle' fl it buf',
    RLEStreamReader.reps_ rle' = 0 /\ Z.even it = true /\
    next_all 16
      (DataBlockReader.mk 0 (Base128StreamReader.mk m p e)
         (DeltaStreamReader.mk (T:=u64) rle prev) val buf (16 * j)) =
    Some (c,
          DataBlockReader.mk 0 (Base128StreamReader.mk m (p + length bytes) e)
            (DeltaStreamReader.mk rle' (default prev (last (map fst c))))
            (FcmStreamReader.mk (predictor_after pr (map snd c)) fl it)
            buf' (16 * j + 16)).
Proof.
  intros [Hlen Hok] Hrle Heven Hpred pr bytes Hm He HN Hj HjN HN32.
  subst bytes. rewrite length_app in He |- *.
  apply holds_app in Hm. destruct Hm as [Hts Hfcm].
  assert (Hl1 : length (map fst c) = 16%nat) by (rewrite length_map; assumption).
  assert (Hl2 : length (map snd c) = 16%nat) by (rewrite length_map; assumption).
  destruct (ts_read_chunk (map fst c) prev rle m p e) as (rle' & Hrle' & Hread);
    [apply samples_fst_ok; assumption|rewrite Hl1; reflexivity|assumption
    |assumption|lia|].
  rewrite Hl1 in Hread.
  destruct (fcm_read_spec 8 (map snd c) val m
              (p + length (ts_chunk_bytes prev (map fst c))) e)
    as (fl & it & Hit & Hread2);
    [rewrite Hl2; reflexivity|assumption|assumption
    |apply samples_snd_ok; assumption|assumption|fold pr; lia|].
  fold pr in Hread2. rewrite Hl2 in Hread2.
  set (p1 := (p + length (ts_chunk_bytes prev (map fst c)))%nat) in *.
  replace (p + (length (ts_chunk_bytes prev (map fst c))
                + length (fcm_bytes pr (map snd c))))%nat
    with (p1 + length (fcm_bytes pr (map snd c)))%nat by lia.
  set (p2 := (p1 + length (fcm_bytes pr (map snd c)))%nat) in *.
  set (tsl := map fst c) in *.
  set (prf := predictor_after pr (map snd c)) in *.
  destruct c as [|[t0 v0] rest]; [discriminate|].
  cbn [map] in Hread2. cbn [length] in Hlen.
  apply read_n_S_inv in Hread2. destruct Hread2 as (val1 & s1 & Hn1 & Hrd).
  cbn [stream_next FcmStreamReader_ops] in Hn1.
  pose proof (fcm_next_mem _ _ _ _ _ Hn1) as Hmem1.
  cbn [Base128StreamReader.mem] in Hmem1.
  exists rle', fl, it, tsl. split; [assumption|]. split; [assumption|].
  set (tsS := DeltaStreamReader.mk rle' (default prev (last tsl))) in *.
  assert (Hfirst :
    DataBlockReader.next
      (DataBlockReader.mk 0 (Base128StreamReader.mk m p e)
         (DeltaStreamReader.mk (T:=u64) rle prev) val buf (16 * j)) =
    (AKU_SUCCESS, t0, v0,
     DataBlockReader.mk 0 s1 tsS val1 tsl (16 * j + Z.of_nat 1))).
  { unfold DataBlockReader.next.
    unfold DataBlockReader.nelements, DataBlockReader.nchunks,
      DataBlockReader.CHUNK_MASK, DataBlockReader.CHUNK_SIZE.
    rsimpl. change (0 + 2)%nat with 2%nat. rewrite HN.
    destruct (Z.ltb_spec (16 * j) N); [|lia].
    replace (Z.land (16 * j) 15) with 0
      by (rewrite land_15; Z.div_mod_to_equations; lia).
    cbn [Z.eqb]. unfold DeltaRLEReader. rewrite Hread. rsimpl. rewrite Hn1. rsimpl.
    rewrite wrap_u32_id by lia. reflexivity. }
  assert (Hone :
    next_all 1
      (DataBlockReader.mk 0 (Base128StreamReader.mk m p e)
         (DeltaStreamReader.mk (T:=u64) rle prev) val buf (16 * j)) =
    Some ([(t0, v0)], DataBlockReader.mk 0 s1 tsS val1 tsl (16 * j + Z.of_nat 1)))
    by (cbn [next_all]; rewrite Hfirst; reflexivity).
  change 16%nat with (1 + 15)%nat. rewrite next_all_app, Hone.
  replace (next_all 15) with (next_all (length rest)) by (f_equal; lia).
  rewrite (reader_next_rest m N j tsS tsl
             (FcmStreamReader.mk prf fl it) (Base128StreamReader.mk m p2 e)
             rest 1 s1 val1); try assumption; try lia.
  - reflexivity.
  - reflexivity.
  - replace (length rest) with 15%nat by lia. exact Hrd.
Qed.

(** All the chunks of a payload, in order. *)
Lemma reader_next_chunks (m : list Z) (N : Z) (e : nat) (F : list (list (Z * Z))) :
  forall (j : Z) (p : nat) (rle : RLEStreamReader.t u64) (prev : Z)
         (val : FcmStreamReader.t) (buf : list Z),
  Forall chunk_ok F -> RLEStreamReader.reps_ rle = 0 ->
  Z.even (FcmStreamReader.iter_ val) = true ->
  predictor_ok (FcmStreamReader.predictor_ val) ->
  holds m p (payload prev (FcmStreamReader.predictor_ val) F) ->
  (p + length (payload prev (FcmStreamReader.predictor_ val) F) <= e)%nat ->
  le_value (load_bytes m 2 2) * 16 = N ->
  0 <= j -> 16 * j + 16 * Z.of_nat (length F) <= N -> N < 2 ^ 32 ->
  exists rd',
    next_all (16 * length F)
      (DataBlockReader.mk 0 (Base128StreamReader.mk m p e)
         (DeltaStreamReader.mk (T:=u64) rle prev) val buf (16 * j)) =
    Some (concat F, rd') /\
    DataBlockReader.read_index_ rd' = 16 * j + 16 * Z.of_nat (length F) /\
    Base128StreamReader.mem (DataBlockReader.stream_ rd') = m /\
    DataBlockReader.begin_ rd' = 0%nat.
Proof.
  induction F as [|c F IH];
    intros j p rle prev val buf HF Hrle Heven Hpred Hm He HN Hj HjN HN32.
  - eexists. cbn [length concat]. change (16 * 0)%nat with 0%nat.
    cbn [next_all]. split; [reflexivity|]. rsimpl.
    split; [cbn [Z.of_nat]; lia|]. split; reflexivity.
  - apply Forall_cons in HF as [Hc HF]. cbn [payload length] in *.
    rewrite app_assoc in Hm, He.
    apply holds_app in Hm. destruct Hm as [Hm1 Hm2].
    rewrite length_app in He.
    destruct (reader_next_chunk m N j c p e rle prev val buf Hc Hrle Heven Hpred
                Hm1 ltac:(lia) HN Hj ltac:(lia) HN32)
      as (rle' & fl & it & buf' & Hrle' & Hit & Hchunk).
    set (len1 := length (ts_chunk_bytes prev (map fst c)
                         ++ fcm_bytes (FcmStreamReader.predictor_ val) (map snd c))) in *.
    set (val' := FcmStreamReader.mk
                   (predictor_after (FcmStreamReader.predictor_ val) (map snd c)) fl it) in *.
    destruct (IH (j + 1) (p + len1)%nat rle' (default prev (last (map fst c)))
                val' buf' HF Hrle' Hit) as (rd' & Hall & Hidx & Hmem & Hbeg).
    + apply predictor_after_ok; [assumption|apply samples_snd_ok; apply Hc].
    + exact Hm2.
    + cbn [val' FcmStreamReader.predictor_]. lia.
    + assumption.
    + lia.
    + lia.
    + assumption.
    + exists rd'.
      replace (16 * S (length F))%nat with (16 + 16 * length F)%nat by lia.
      rewrite next_all_app, Hchunk.
      replace (16 * j + 16) with (16 * (j + 1)) by lia.
      rewrite Hall. cbn [concat]. split; [reflexivity|].
      split; [lia|]. split; assumption.
Qed.

Lemma concat_chunks_length (F : list (list (Z * Z))) :
  Forall chunk_ok F -> length (concat F) = (16 * length F)%nat.
Proof.
  induction 1 as [|c F [Hc _] _ IH]; [reflexivity|].
  cbn [concat length]. rewrite length_app. lia.
Qed.

(** The flushed chunks and the scratch samples are determined by the
    accepted sequence. *)
Lemma chunks_of_samples (F : list (list (Z * Z))) (T samples : list (Z * Z)) :
  Forall chunk_ok F -> (length T < 16)%nat -> concat F ++ T = samples ->
  (length samples `mod` 16)%nat = length T /\
  length samples = (16 * length F + length T)%nat /\
  take (length samples - length samples `mod` 16) samples = concat F /\
  drop (length samples - length samples `mod` 16) samples = T.
Proof.
  intros HF HT <-. pose proof (concat_chunks_length F HF) as Hl.
  rewrite length_app, Hl.
  assert (Hmod : ((16 * length F + length T) `mod` 16)%nat = length T).
  { rewrite Nat.add_comm, Nat.mul_comm, Nat.Div0.mod_add.
    apply Nat.mod_small. assumption. }
  rewrite Hmod. split; [reflexivity|]. split; [reflexivity|].
  replace (16 * length F + length T - length T)%nat with (length (concat F)) by lia.
  rewrite take_app_length, drop_app_length. split; reflexivity.
Qed.


(** ** The length of an encoding and the size of the number *)

Lemma encode_len_spec (n : nat) : forall v,
  0 <= v -> encode_len v = S n ->
  v < 2 ^ (7 * Z.of_nat (S n)) /\ ((1 <= n)%nat -> 2 ^ (7 * Z.of_nat n) <= v).
Proof.
  induction n as [|n IH]; intros v Hv Hn.
  - destruct (Z.eq_dec (Z.shiftr v 7) 0) as [E|E].
    + rewrite shiftr_7 in E. split; [|lia].
      change (2 ^ (7 * Z.of_nat 1)) with 128.
      Z.div_mod_to_equations. lia.
    + rewrite encode_len_step in Hn by assumption.
      pose proof (encode_len_pos (Z.shiftr v 7)). lia.
  - destruct (Z.eq_dec (Z.shiftr v 7) 0) as [E|E].
    + rewrite encode_len_small in Hn by assumption. lia.
    + rewrite encode_len_step in Hn by assumption.
      assert (Hs : 0 <= Z.shiftr v 7) by (apply Z.shiftr_nonneg; assumption).
      destruct (IH (Z.shiftr v 7) Hs ltac:(lia)) as [Hup Hlow].
      rewrite shiftr_7 in *.
      replace (7 * Z.of_nat (S (S n))) with (7 * Z.of_nat (S n) + 7) by lia.
      rewrite Z.pow_add_r by lia. change (2 ^ 7) with 128.
      assert (Hpos : 0 < 2 ^ (7 * Z.of_nat (S n))) by (apply Z.pow_pos_nonneg; lia).
      split; [Z.div_mod_to_equations; nia|]. intros _.
      destruct n as [|n].
      * change (2 ^ (7 * Z.of_nat 1)) with 128. Z.div_mod_to_equations. lia.
      * specialize (Hlow ltac:(lia)).
        replace (7 * Z.of_nat (S (S n))) with (7 * Z.of_nat (S n) + 7) by lia.
        rewrite Z.pow_add_r by lia. change (2 ^ 7) with 128.
        assert (0 < 2 ^ (7 * Z.of_nat (S n))) by (apply Z.pow_pos_nonneg; lia).
        Z.div_mod_to_equations. nia.
Qed.

Lemma encode_len_upper (v : Z) : 0 <= v -> v < 2 ^ (7 * Z.of_nat (encode_len v)).
Proof.
  intros Hv. pose proof (encode_len_pos v).
  destruct (encode_len v) as [|n] eqn:E; [lia|].
  apply (encode_len_spec n v Hv E).
Qed.

Lemma encode_len_lower (v : Z) :
  0 <= v -> (2 <= encode_len v)%nat -> 2 ^ (7 * Z.of_nat (encode_len v - 1)) <= v.
Proof.
  intros Hv H2.
  destruct (encode_len v) as [|n] eqn:E; [lia|].
  replace (S n - 1)%nat with n by lia.
  apply (encode_len_spec n v Hv E). lia.
Qed.

(** ** Decoding groups of seven bits

    [T] is any instantiation of [TVal] whose values include [[0, 2^B)]. *)

Section Decode.
Variable T : IntType.
Variable B : Z.
Hypothesis HB : 0 < B.
Hypothesis Hwrap : forall x, 0 <= x < 2 ^ B -> wrap T x = x.

Lemma get_loop_groups (n : nat) : forall v acc cnt fuel begin p m,
  0 <= v < 2 ^ (7 * Z.of_nat (S n)) ->
  0 <= cnt -> cnt + 7 * Z.of_nat n < B -> 0 <= acc < 2 ^ cnt ->
  acc + v * 2 ^ cnt < 2 ^ B -> (S n <= fuel)%nat ->
  holds m p (base128 (S n) v) ->
  Base128Int.get_loop T fuel acc cnt begin p m
    = ((p + S n)%nat, acc + v * 2 ^ cnt).
Proof.
  induction n as [|n IH]; intros v acc cnt fuel begin p m Hv Hc HcB Ha Hb Hf Hm;
    (destruct fuel as [|fuel]; [lia|]).
  - assert (Hpow : 0 < 2 ^ cnt) by (apply Z.pow_pos_nonneg; lia).
    change (2 ^ (7 * Z.of_nat 1)) with 128 in Hv.
    cbn [base128] in Hm. apply holds_cons in Hm. destruct Hm as (_ & Hl & _).
    cbn [Base128Int.get_loop]. rewrite Hl, byte_last_flag, byte_last_low.
    assert (Hlow : Z.land v 127 = v) by (rewrite land_127; apply Z.mod_small; lia).
    rewrite Hlow, Z.shiftl_mul_pow2 by lia.
    rewrite Hwrap by nia. rewrite lor_disjoint by lia.
    f_equal. lia.
  - assert (Hpow : 0 < 2 ^ cnt) by (apply Z.pow_pos_nonneg; lia).
    pose proof (low7_range v) as Hlow. pose proof (split7 v) as Hsplit.
    change (base128 (S (S n)) v)
      with (Z.lor (Z.land v 127) 128 :: base128 (S n) (Z.shiftr v 7)) in Hm.
    apply holds_cons in Hm. destruct Hm as (_ & Hl & Hm).
    assert (Hs : 0 <= Z.shiftr v 7) by (apply Z.shiftr_nonneg; lia).
    assert (Hlin : B < 2 ^ B) by (apply Z.pow_gt_lin_r; lia).
    assert (Hup : Z.shiftr v 7 < 2 ^ (7 * Z.of_nat (S n))).
    { replace (7 * Z.of_nat (S (S n))) with (7 * Z.of_nat (S n) + 7) in Hv by lia.
      rewrite Z.pow_add_r in Hv by lia. change (2 ^ 7) with 128 in Hv.
      rewrite shiftr_7. apply Z.div_lt_upper_bound; lia. }
    assert (Hp7 : 2 ^ (cnt + 7) = 128 * 2 ^ cnt)
      by (rewrite Z.pow_add_r by lia; change (2 ^ 7) with 128; lia).
    cbn [Base128Int.get_loop]. rewrite Hl, byte_cont_flag, byte_cont_low.
    rewrite Z.shiftl_mul_pow2 by lia.
    rewrite (Hwrap (_ * _)) by nia.
    rewrite (Hwrap (cnt + 7)) by lia.
    rewrite lor_disjoint by lia.
    rewrite (IH (Z.shiftr v 7)); try assumption; try lia; try nia.
    f_equal; [lia|]. nia.
Qed.

Lemma stream_next_groups (n : nat) (v : Z) (s : Base128StreamReader.t) :
  0 <= v < 2 ^ (7 * Z.of_nat (S n)) -> v < 2 ^ B -> 7 * Z.of_nat n < B ->
  holds (Base128StreamReader.mem s) (Base128StreamReader.pos_ s) (base128 (S n) v) ->
  (Base128StreamReader.pos_ s + S n <= Base128StreamReader.end_ s)%nat ->
  Base128StreamReader.next T s =
  Value (v, Base128StreamReader.mk (Base128StreamReader.mem s)
              (Base128StreamReader.pos_ s + S n)
              (Base128StreamReader.end_ s)).
Proof.
  intros Hv HvB Hn Hm Hroom. unfold Base128StreamReader.next, Base128Int.get.
  rewrite (get_loop_groups n v) by (assumption || lia).
  destruct (Nat.eqb_spec (Base128StreamReader.pos_ s + S n)
              (Base128StreamReader.pos_ s)); [lia|].
  do 3 f_equal. lia.
Qed.

Lemma stream_next_ok_gen (v : Z) (s : Base128StreamReader.t) :
  0 <= v < 2 ^ B ->
  holds (Base128StreamReader.mem s) (Base128StreamReader.pos_ s) (varint v) ->
  (Base128StreamReader.pos_ s + encode_len v <= Base128StreamReader.end_ s)%nat ->
  Base128StreamReader.next T s =
  Value (v, Base128StreamReader.mk (Base128StreamReader.mem s)
              (Base128StreamReader.pos_ s + encode_len v)
              (Base128StreamReader.end_ s)).
Proof.
  intros Hv Hm Hroom. unfold varint in Hm.
  pose proof (encode_len_pos v) as Hpos.
  pose proof (encode_len_upper v ltac:(lia)) as Hup.
  destruct (encode_len v) as [|n] eqn:E; [lia|].
  apply stream_next_groups; try assumption; try lia.
  destruct n as [|n]; [|].
  - lia.
  - pose proof (encode_len_lower v ltac:(lia) ltac:(lia)) as Hlow.
    rewrite E in Hlow. replace (S (S n) - 1)%nat with (S n) in Hlow by lia.
    destruct (Z.lt_ge_cases (7 * Z.of_nat (S n)) B) as [|Hge]; [assumption|exfalso].
    assert (2 ^ B <= 2 ^ (7 * Z.of_nat (S n))) by (apply Z.pow_le_mono_r; lia).
    lia.
Qed.

(** ** Reading runs, for any [TVal] *)

Lemma rle_read_pair_gen (r v : Z) (self : RLEStreamReader.t T) (m : list Z)
    (p e : nat) :
  1 <= r < 2 ^ B -> 0 <= v < 2 ^ B ->
  RLEStreamReader.reps_ self = 0 ->
  holds m p (varint r ++ varint v) ->
  (p + length (varint r ++ varint v) <= e)%nat ->
  read_n (Z.to_nat r) self (Base128StreamReader.mk m p e) =
  Value (replicate (Z.to_nat r) v, RLEStreamReader.mk v 0,
         Base128StreamReader.mk m (p + length (varint r ++ varint v)) e).
Proof.
  intros Hr Hv Hs Hm He.
  rewrite length_app, !varint_length in *.
  apply holds_app in Hm. destruct Hm as [Hm1 Hm2]. rewrite varint_length in Hm2.
  destruct (Z.to_nat r) as [|k] eqn:Ek; [lia|].
  cbn [read_n stream_next RLEStreamReader_ops]. unfold RLEStreamReader.next.
  rewrite Hs. cbn [Z.eqb].
  rewrite (stream_next_ok_gen r)
    by (cbn [Base128StreamReader.mem Base128StreamReader.pos_
             Base128StreamReader.end_]; assumption || lia).
  cbn [mbind outcome_bind Base128StreamReader.mem Base128StreamReader.pos_
       Base128StreamReader.end_].
  rewrite (stream_next_ok_gen v)
    by (cbn [Base128StreamReader.mem Base128StreamReader.pos_
             Base128StreamReader.end_]; assumption || lia).
  cbn [mbind outcome_bind mret outcome_ret RLEStreamReader.prev_
       RLEStreamReader.reps_ Base128StreamReader.mem Base128StreamReader.pos_
       Base128StreamReader.end_].
  rewrite Hwrap by lia.
  rewrite (rle_read_run T k v (r - 1)); [|lia|].
  - cbn [mbind outcome_bind mret outcome_ret]. do 3 f_equal. lia.
  - intros x Hx. apply Hwrap. lia.
Qed.

Lemma rle_read_pairs_gen (ps : list (Z * Z)) :
  forall (self : RLEStreamReader.t T) (m : list Z) (p e : nat),
  Forall (fun v => 0 <= v < 2 ^ B) (flatten_pairs ps) ->
  Forall good_pair ps ->
  RLEStreamReader.reps_ self = 0 ->
  holds m p (varints (flatten_pairs ps)) ->
  (p + length (varints (flatten_pairs ps)) <= e)%nat ->
  exists self',
    RLEStreamReader.reps_ self' = 0 /\
    read_n (length (expand_pairs ps)) self (Base128StreamReader.mk m p e) =
    Value (expand_pairs ps, self',
           Base128StreamReader.mk m (p + length (varints (flatten_pairs ps))) e).
Proof.
  induction ps as [|[r v] ps IH]; intros self m p e Hrange Hgood Hs Hm He.
  - exists self. split; [assumption|]. cbn. rewrite Nat.add_0_r. reflexivity.
  - rewrite flatten_pairs_cons in *. rewrite expand_pairs_cons.
    change (varints (r :: v :: flatten_pairs ps))
      with (varint r ++ varint v ++ varints (flatten_pairs ps)) in *.
    rewrite app_assoc in *. rewrite length_app in He.
    apply holds_app in Hm. destruct Hm as [Hm1 Hm2].
    apply Forall_cons in Hrange as [Hr Hrange].
    apply Forall_cons in Hrange as [Hv Hrange].
    apply Forall_cons in Hgood as [Hg Hgood].
    unfold good_pair in Hg. cbn [fst] in Hg.
    rewrite length_app, length_replicate, read_n_app.
    rewrite (rle_read_pair_gen r v) by (assumption || lia).
    cbn [mbind outcome_bind].
    destruct (IH (RLEStreamReader.mk v 0) m (p + length (varint r ++ varint v))%nat e
                Hrange Hgood eq_refl Hm2 ltac:(lia)) as (self' & Hs' & E).
    rewrite E. cbn [mbind outcome_bind mret outcome_ret].
    exists self'. split; [assumption|].
    rewrite !length_app in *. do 3 f_equal. lia.
Qed.

End Decode.


(** ** A [put] that runs out of space *)

Lemma put_loop_short_mem (fuel : nat) : forall value begin p m,
  0 <= value -> (fuel < encode_len value)%nat -> (p + fuel <= length m)%nat ->
  Base128Int.put_loop fuel value begin p m
    = (begin, blit m p (take fuel (varint value))).
Proof.
  induction fuel as [|fuel IH]; intros value begin p m Hv Hf Hm.
  - cbn [Base128Int.put_loop take]. rewrite blit_nil. reflexivity.
  - assert (Hs : Z.shiftr value 7 <> 0).
    { intros E. rewrite encode_len_small in Hf by assumption. lia. }
    rewrite put_loop_step by (assumption || lia).
    rewrite encode_len_step in Hf by assumption.
    rewrite IH;
      [|apply Z.shiftr_nonneg; assumption|lia|rewrite store_length; lia].
    rewrite blit_cons by lia.
    rewrite (varint_step value) by assumption. reflexivity.
Qed.

Section WriterEdge.
Import Base128StreamWriter.

Lemma stream_put_short_exact (v : Z) (s : t) :
  wf s -> 0 <= v -> (end_ s < pos_ s + encode_len v)%nat ->
  put v s =
  (false, mk (blit (mem s) (pos_ s) (take (end_ s - pos_ s) (varint v)))
             (begin_ s) (end_ s) (pos_ s)).
Proof.
  intros (Hb & Hp & He) Hv Hshort. unfold put, Base128Int.put.
  destruct (Nat.leb_spec (end_ s) (pos_ s)).
  - rewrite Nat.eqb_refl. unfold set_mem.
    replace (end_ s - pos_ s)%nat with 0%nat by lia.
    cbn [take]. rewrite blit_nil. reflexivity.
  - rewrite put_loop_short_mem by (assumption || lia).
    rewrite Nat.eqb_refl. reflexivity.
Qed.

Lemma put_raw_frame (sz : nat) (value : Z) (s : t) :
  wf s ->
  let r := put_raw sz value s in
  wf r.2 /\ begin_ r.2 = begin_ s /\ end_ r.2 = end_ s /\
  length (mem r.2) = length (mem s) /\
  take (pos_ s) (mem r.2) = take (pos_ s) (mem s) /\
  drop (end_ s) (mem r.2) = drop (end_ s) (mem s) /\
  (pos_ s <= pos_ r.2)%nat.
Proof.
  intros Hwf. pose proof Hwf as (Hb & Hp & He). intros r. subst r.
  unfold put_raw. destruct (Nat.ltb_spec (end_ s - pos_ s) sz).
  - cbn [fst snd]. repeat split; try assumption; lia.
  - cbn [fst snd mem begin_ end_ pos_].
    rewrite store_bytes_blit by (rewrite le_bytes_length; lia).
    unfold wf. cbn [mem begin_ end_ pos_].
    rewrite blit_length by (rewrite le_bytes_length; lia).
    rewrite take_blit by lia.
    rewrite drop_blit by (rewrite le_bytes_length; lia).
    repeat split; lia.
Qed.

Lemma allocate_frame (sz : nat) (s : t) :
  wf s ->
  let r := allocate sz s in
  wf r.2 /\ begin_ r.2 = begin_ s /\ end_ r.2 = end_ s /\
  mem r.2 = mem s /\ (pos_ s <= pos_ r.2)%nat.
Proof.
  intros (Hb & Hp & He) r. subst r. unfold allocate.
  destruct (Nat.ltb_spec (end_ s - pos_ s) sz).
  - cbn [fst snd]. unfold wf. repeat split; lia.
  - cbn [fst snd]. unfold wf, set_pos. cbn [mem begin_ end_ pos_].
    repeat split; lia.
Qed.

(** Whatever the call and its result: the bounds stay, the cursor does not
    move back, and no byte outside [[pos_, end_)] changes. *)
Lemma run_op_frame (op : writer_op) (s : t) :
  wf s ->
  wf (run_op op s) /\ begin_ (run_op op s) = begin_ s /\
  end_ (run_op op s) = end_ s /\
  length (mem (run_op op s)) = length (mem s) /\
  take (pos_ s) (mem (run_op op s)) = take (pos_ s) (mem s) /\
  drop (end_ s) (mem (run_op op s)) = drop (end_ s) (mem s) /\
  (pos_ s <= pos_ (run_op op s))%nat.
Proof.
  intros Hwf. destruct op as [v|l|sz v|sz]; cbn [run_op].
  - destruct (stream_put_frame v s Hwf) as (H1 & H2 & H3 & H4 & H5 & H6 & H7 & _).
    repeat split; assumption || apply H1.
  - destruct (tput_frame l s Hwf) as (H1 & H2 & H3 & H4 & H5 & H6 & H7 & _).
    repeat split; assumption || apply H1.
  - destruct (put_raw_frame sz v s Hwf) as (H1 & H2 & H3 & H4 & H5 & H6 & H7).
    repeat split; assumption || apply H1.
  - destruct (allocate_frame sz s Hwf) as (H1 & H2 & H3 & H4 & H5).
    rewrite H4. repeat split; assumption || apply H1.
Qed.

End WriterEdge.

(** ** Reading back what [tput] wrote *)

Section NextN.
Variable T : IntType.
Variable B : Z.
Hypothesis HB : 0 < B.
Hypothesis Hwrap : forall x, 0 <= x < 2 ^ B -> wrap T x = x.

Lemma next_n_varints (l : list Z) : forall (m : list Z) (p e : nat),
  Forall (fun v => 0 <= v < 2 ^ B) l ->
  holds m p (varints l) -> (p + length (varints l) <= e)%nat ->
  next_n T (length l) (Base128StreamReader.mk m p e) =
  Value (l, Base128StreamReader.mk m (p + length (varints l)) e).
Proof.
  induction l as [|v l IH]; intros m p e Hl Hm He.
  - cbn. rewrite Nat.add_0_r. reflexivity.
  - apply Forall_cons in Hl as [Hv Hl].
    rewrite varints_cons in *. rewrite length_app, varint_length in *.
    apply holds_app in Hm. destruct Hm as [Hm1 Hm2]. rewrite varint_length in Hm2.
    cbn [length next_n].
    rewrite (stream_next_ok_gen T B HB Hwrap v)
      by (cbn [Base128StreamReader.mem Base128StreamReader.pos_
               Base128StreamReader.end_]; assumption || lia).
    cbn [mbind outcome_bind Base128StreamReader.mem Base128StreamReader.pos_
         Base128StreamReader.end_].
    rewrite IH by (assumption || lia).
    cbn [mbind outcome_bind mret outcome_ret]. do 3 f_equal. lia.
Qed.

End NextN.


(** ** Non-negative values of an integer type *)

Lemma nonneg_value_bound (T : IntType) (v : Z) :
  1 < bits T -> (nonneg_value T v <-> 0 <= v < 2 ^ value_bits T).
Proof.
  intros Hb. unfold nonneg_value, in_range, value_bits.
  destruct (is_signed T); [|lia].
  assert (0 < 2 ^ (bits T - 1)) by (apply Z.pow_pos_nonneg; lia). lia.
Qed.

Lemma wrap_value_bits (T : IntType) (x : Z) :
  1 < bits T -> 0 <= x < 2 ^ value_bits T -> wrap T x = x.
Proof.
  intros Hb Hx. unfold wrap, value_bits in *.
  destruct (is_signed T).
  - assert (Hp : 2 ^ bits T = 2 * 2 ^ (bits T - 1)).
    { replace (bits T) with (bits T - 1 + 1) at 1 by lia.
      rewrite Z.pow_add_r by lia. change (2 ^ 1) with 2. lia. }
    rewrite Hp. rewrite Z.mod_small by lia. lia.
  - apply Z.mod_small. assumption.
Qed.

Lemma value_bits_pos (T : IntType) : 1 < bits T -> 0 < value_bits T.
Proof. intros Hb. unfold value_bits. destruct (is_signed T); lia. Qed.

Lemma nonneg_values_nonneg (T : IntType) (l : list Z) :
  Forall (nonneg_value T) l -> Forall (fun v => 0 <= v) l.
Proof. intros H. eapply Forall_impl; [exact H|]. intros v [Hv _]. exact Hv. Qed.

Lemma nonneg_values_bound (T : IntType) (l : list Z) :
  1 < bits T -> Forall (nonneg_value T) l ->
  Forall (fun v => 0 <= v < 2 ^ value_bits T) l.
Proof.
  intros Hb H. eapply Forall_impl; [exact H|].
  intros v Hv. apply nonneg_value_bound; assumption.
Qed.


(** ** Runs of values of any integer type *)

Lemma good_pairs_range_gen (B : Z) (ps : list (Z * Z)) :
  Forall good_pair ps ->
  Forall (fun v => 0 <= v < 2 ^ B) (expand_pairs ps) ->
  Z.of_nat (length (expand_pairs ps)) < 2 ^ B ->
  Forall (fun v => 0 <= v < 2 ^ B) (flatten_pairs ps).
Proof.
  induction 1 as [|[r v] ps Hp _ IH]; [constructor|].
  rewrite expand_pairs_cons, flatten_pairs_cons.
  unfold good_pair in Hp. cbn [fst] in Hp.
  rewrite Forall_app, length_app, length_replicate. intros [Hv Hrest] Hlen.
  constructor; [lia|]. constructor; [|apply IH; [assumption|lia]].
  rewrite Forall_forall in Hv. apply Hv.
  apply elem_of_replicate. split; [reflexivity|lia].
Qed.

Section RunsOfT.
Variable T : IntType.
Hypothesis Hbits : 1 < bits T <= 64.

Lemma value_bits_le_64 : 2 ^ value_bits T <= 2 ^ 64.
Proof.
  apply Z.pow_le_mono_r; [lia|]. unfold value_bits. destruct (is_signed T); lia.
Qed.

Lemma rle_outbuf_range_gen (iter : list Z) :
  Forall (nonneg_value T) iter ->
  Z.of_nat (length iter) < 2 ^ value_bits T ->
  exists ps,
    rle_outbuf T iter = flatten_pairs ps /\ expand_pairs ps = iter /\
    Forall good_pair ps /\
    Forall (fun v => 0 <= v < 2 ^ value_bits T) (flatten_pairs ps) /\
    (length ps <= length iter)%nat.
Proof.
  intros Hl Hn. pose proof value_bits_le_64 as H64.
  destruct (rle_outbuf_pairs T iter) as (ps & E & Hx & Hg & Hlen).
  - lia.
  - intros x Hx. apply wrap_value_bits; lia.
  - exists ps. repeat split; try assumption.
    apply good_pairs_range_gen; [assumption| |rewrite Hx; assumption].
    rewrite Hx. apply nonneg_values_bound; [lia|assumption].
Qed.

Lemma rle_tput_ok_gen (iter : list Z) (start : nat) (stream : Base128StreamWriter.t) :
  Base128StreamWriter.wf stream ->
  Forall (nonneg_value T) iter -> Z.of_nat (length iter) < 2 ^ value_bits T ->
  (Base128StreamWriter.pos_ stream + length (varints (rle_outbuf T iter))
     <= Base128StreamWriter.end_ stream)%nat ->
  RLEStreamWriter.tput T iter (RLEStreamWriter.mk 0 0 start) stream =
  (true, RLEStreamWriter.mk 0 0 start,
   Base128StreamWriter.mk
     (blit (Base128StreamWriter.mem stream) (Base128StreamWriter.pos_ stream)
        (varints (rle_outbuf T iter)))
     (Base128StreamWriter.begin_ stream) (Base128StreamWriter.end_ stream)
     (Base128StreamWriter.pos_ stream + length (varints (rle_outbuf T iter)))).
Proof.
  intros Hwf Hl Hn Hroom. rewrite rle_tput_fresh.
  destruct (rle_outbuf_range_gen iter Hl Hn) as (ps & E & _ & _ & Hr & _).
  rewrite tput_ok; [reflexivity|assumption| |assumption].
  rewrite E. eapply Forall_impl; [exact Hr|]. cbn beta. intros; lia.
Qed.

Lemma rle_tput_true_fits_gen (iter : list Z) (start : nat)
    (stream : Base128StreamWriter.t) :
  Base128StreamWriter.wf stream ->
  Forall (nonneg_value T) iter -> Z.of_nat (length iter) < 2 ^ value_bits T ->
  (RLEStreamWriter.tput T iter (RLEStreamWriter.mk 0 0 start) stream).1.1 = true ->
  (Base128StreamWriter.pos_ stream + length (varints (rle_outbuf T iter))
     <= Base128StreamWriter.end_ stream)%nat.
Proof.
  intros Hwf Hl Hn Hok. rewrite rle_tput_fresh in Hok.
  destruct (rle_outbuf_range_gen iter Hl Hn) as (ps & E & _ & _ & Hr & _).
  apply tput_true_fits; [assumption| |].
  - rewrite E. eapply Forall_impl; [exact Hr|]. cbn beta. intros; lia.
  - destruct (Base128StreamWriter.tput _ stream). exact Hok.
Qed.

Lemma rle_read_chunk_gen (iter : list Z) (self : RLEStreamReader.t T)
    (m : list Z) (p e : nat) :
  Forall (nonneg_value T) iter -> Z.of_nat (length iter) < 2 ^ value_bits T ->
  RLEStreamReader.reps_ self = 0 ->
  holds m p (varints (rle_outbuf T iter)) ->
  (p + length (varints (rle_outbuf T iter)) <= e)%nat ->
  exists self',
    RLEStreamReader.reps_ self' = 0 /\
    read_n (length iter) self (Base128StreamReader.mk m p e) =
    Value (iter, self',
           Base128StreamReader.mk m (p + length (varints (rle_outbuf T iter))) e).
Proof.
  intros Hl Hn Hs Hm He.
  destruct (rle_outbuf_range_gen iter Hl Hn) as (ps & E & Hx & Hg & Hr & _).
  rewrite E in *.
  destruct (rle_read_pairs_gen T (value_bits T) (value_bits_pos T ltac:(lia))
              (fun x => wrap_value_bits T x ltac:(lia)) ps self m p e
              Hr Hg Hs Hm He) as (self' & Hs' & Hread).
  exists self'. split; [assumption|]. rewrite Hx in Hread. exact Hread.
Qed.

End RunsOfT.

(** ** The zig-zag code of a signed 64-bit value *)

Lemma zigzag_small_codes (k x : Z) :
  0 <= k <= 62 -> - 2 ^ k <= x < 2 ^ k ->
  0 <= ZigZagStreamWriter.zigzag i64 x < 2 ^ (k + 1).
Proof.
  intros Hk Hx.
  assert (Hmono : 2 ^ k <= 2 ^ 62) by (apply Z.pow_le_mono_r; lia).
  assert (H63 : 2 ^ 63 = 2 * 2 ^ 62) by reflexivity.
  rewrite zigzag_i64_value by lia.
  rewrite Z.pow_add_r by lia. change (2 ^ 1) with 2.
  destruct (Z.ltb_spec x (- 2 ^ 62)); [lia|].
  destruct (Z.ltb_spec x 0); [lia|].
  destruct (Z.ltb_spec x (2 ^ 62)); lia.
Qed.

Lemma zigzag_nonneg_value (x : Z) :
  - 2 ^ 62 <= x < 2 ^ 62 -> nonneg_value i64 (ZigZagStreamWriter.zigzag i64 x).
Proof.
  intros Hx. pose proof (zigzag_small_codes 62 x ltac:(lia) Hx) as H.
  change (2 ^ (62 + 1)) with (2 ^ 63) in H.
  unfold nonneg_value, in_range. cbn [is_signed i64 bits].
  change (2 ^ (64 - 1)) with (2 ^ 63). lia.
Qed.

Lemma zigzag_read_n {S : Type} `{!StreamReader S} (T : IntType) (n : nat) :
  forall (inner : S) (stream : Base128StreamReader.t),
  read_n n (ZigZagStreamReader.mk (T:=T) inner) stream =
  '(ns, inner', stream') ← read_n n inner stream;
  mret (map (ZigZagStreamReader.unzigzag T) ns, ZigZagStreamReader.mk inner', stream').
Proof.
  induction n as [|n IH]; intros inner stream.
  - reflexivity.
  - cbn [read_n stream_next ZigZagStreamReader_ops].
    unfold ZigZagStreamReader.next. cbn [ZigZagStreamReader.stream_].
    destruct (stream_next inner stream) as [[[d s1] st1]|]; [|reflexivity].
    cbn [mbind outcome_bind mret outcome_ret]. rewrite IH.
    destruct (read_n n s1 st1) as [[[ds s2] st2]|]; reflexivity.
Qed.

Lemma unzigzag_zigzag_list (ds : list Z) :
  Forall (fun d => - 2 ^ 62 <= d < 2 ^ 62) ds ->
  map (ZigZagStreamReader.unzigzag i64) (map (ZigZagStreamWriter.zigzag i64) ds) = ds.
Proof.
  induction 1 as [|d ds Hd _ IH]; [reflexivity|].
  cbn [map]. rewrite unzigzag_zigzag_small by assumption. rewrite IH. reflexivity.
Qed.

Lemma undelta_delta_i64 (iter : list Z) : forall prev,
  i64_list iter ->
  undelta i64 prev (DeltaStreamWriter.tput_loop i64 iter prev).1 = iter.
Proof.
  induction iter as [|v iter IH]; intros prev Hr; [reflexivity|].
  apply Forall_cons in Hr as [Hv Hr].
  cbn [DeltaStreamWriter.tput_loop]. specialize (IH v Hr).
  destruct (DeltaStreamWriter.tput_loop i64 iter v) as [outbuf prev'].
  cbn [fst undelta] in *.
  assert (E : wrap i64 (prev + wrap i64 (v - prev)) = v).
  { rewrite !wrap_i64_eq. change (2 ^ 63) with 9223372036854775808 in Hv.
    Z.div_mod_to_equations. lia. }
  rewrite E, IH. reflexivity.
Qed.

(** ** The signed stack [ZDeltaRLEWriter] *)

Lemma zts_tput_unfold (iter : list Z) (prev : Z) (start : nat)
    (stream : Base128StreamWriter.t) :
  stream_tput iter
    (DeltaStreamWriter.mk (T:=i64)
       (ZigZagStreamWriter.mk (T:=i64) (RLEStreamWriter.mk (T:=i64) 0 0 start)) prev)
    stream =
  let '(ok, stream') :=
    Base128StreamWriter.tput
      (rle_outbuf i64
         (map (ZigZagStreamWriter.zigzag i64)
            (DeltaStreamWriter.tput_loop i64 iter prev).1)) stream in
  (ok,
   DeltaStreamWriter.mk (ZigZagStreamWriter.mk (RLEStreamWriter.mk 0 0 start))
     (default prev (last iter)),
   stream').
Proof.
  cbn [stream_tput DeltaStreamWriter_ops]. unfold DeltaStreamWriter.tput.
  cbn [DeltaStreamWriter.prev_ DeltaStreamWriter.stream_].
  pose proof (delta_loop_prev i64 iter prev) as Hp.
  destruct (DeltaStreamWriter.tput_loop i64 iter prev) as [outbuf prev'].
  cbn [fst snd] in *. subst prev'.
  cbn [stream_tput ZigZagStreamWriter_ops]. unfold ZigZagStreamWriter.tput.
  cbn [ZigZagStreamWriter.stream_ stream_tput RLEStreamWriter_ops].
  rewrite rle_tput_fresh.
  destruct (Base128StreamWriter.tput _ stream). reflexivity.
Qed.

Lemma zts_codes_ok (iter : list Z) (prev : Z) :
  Forall (fun d => - 2 ^ 62 <= d < 2 ^ 62) (DeltaStreamWriter.tput_loop i64 iter prev).1 ->
  Forall (nonneg_value i64)
    (map (ZigZagStreamWriter.zigzag i64) (DeltaStreamWriter.tput_loop i64 iter prev).1).
Proof.
  intros H. induction H as [|d ds Hd _ IH]; [constructor|].
  cbn [map]. constructor; [apply zigzag_nonneg_value; assumption|exact IH].
Qed.


(** ** Values put one by one *)

Lemma stream_blit_nil (s : Base128StreamWriter.t) :
  Base128StreamWriter.mk
    (blit (Base128StreamWriter.mem s) (Base128StreamWriter.pos_ s) (varints []))
    (Base128StreamWriter.begin_ s) (Base128StreamWriter.end_ s)
    (Base128StreamWriter.pos_ s + length (varints [])) = s.
Proof.
  destruct s as [m b e p]. cbn [varints map concat length Base128StreamWriter.mem
    Base128StreamWriter.pos_ Base128StreamWriter.begin_ Base128StreamWriter.end_].
  rewrite blit_nil, Nat.add_0_r. reflexivity.
Qed.

Lemma rle_loop_acc (T : IntType) (l : list Z) : forall (prev reps : Z) (out0 : list Z),
  RLEStreamWriter.tput_loop T l prev reps out0 =
  let '(prev', reps', o) := RLEStreamWriter.tput_loop T l prev reps [] in
  (prev', reps', out0 ++ o).
Proof.
  induction l as [|value l IH]; intros prev reps out0.
  - cbn [RLEStreamWriter.tput_loop]. rewrite app_nil_r. reflexivity.
  - cbn [RLEStreamWriter.tput_loop].
    destruct (negb (value =? prev)); [|apply IH].
    destruct (negb (reps =? 0)); [|apply IH].
    rewrite (IH value _ (out0 ++ [reps; prev])), (IH value _ ([] ++ [reps; prev])).
    destruct (RLEStreamWriter.tput_loop T l value (wrap T (0 + 1)) [])
      as [[p r] o].
    rewrite <- app_assoc. reflexivity.
Qed.

Lemma rle_loop_prev_nonneg (T : IntType) (l : list Z) :
  forall (prev reps : Z) (out0 : list Z),
  0 <= prev -> Forall (fun v => 0 <= v) l ->
  0 <= (RLEStreamWriter.tput_loop T l prev reps out0).1.1.
Proof.
  induction l as [|value l IH]; intros prev reps out0 Hp Hl; [assumption|].
  apply Forall_cons in Hl as [Hv Hl]. cbn [RLEStreamWriter.tput_loop].
  destruct (negb (value =? prev)); apply IH; assumption.
Qed.

(** [RLEStreamWriter::put] call by call writes what the loop of [tput]
    collects in [outbuf], and is left with the pending run of that loop. *)
Lemma rle_put_each_spec (T : IntType) (start : nat) (l : list Z) :
  forall (prev reps : Z) (stream : Base128StreamWriter.t),
  Base128StreamWriter.wf stream ->
  0 <= prev -> 0 <= reps -> Forall (fun v => 0 <= v) l ->
  (forall x, 0 <= x <= reps + Z.of_nat (length l) -> wrap T x = x) ->
  let '(prev', reps', o) := RLEStreamWriter.tput_loop T l prev reps [] in
  (Base128StreamWriter.pos_ stream + length (varints o)
     <= Base128StreamWriter.end_ stream)%nat ->
  put_each l (RLEStreamWriter.mk (T:=T) prev reps start) stream =
  (true, RLEStreamWriter.mk prev' reps' start,
   Base128StreamWriter.mk
     (blit (Base128StreamWriter.mem stream) (Base128StreamWriter.pos_ stream)
        (varints o))
     (Base128StreamWriter.begin_ stream) (Base128StreamWriter.end_ stream)
     (Base128StreamWriter.pos_ stream + length (varints o))).
Proof.
  induction l as [|value l IH]; intros prev reps stream Hwf Hp Hr Hl Hw.
  - cbn [RLEStreamWriter.tput_loop]. intros _. cbn [put_each].
    rewrite stream_blit_nil. reflexivity.
  - apply Forall_cons in Hl as [Hv Hl]. cbn [length] in Hw.
    cbn [RLEStreamWriter.tput_loop].
    cbn [put_each stream_put RLEStreamWriter_ops]. unfold RLEStreamWriter.put.
    cbn [RLEStreamWriter.prev_ RLEStreamWriter.reps_ RLEStreamWriter.start_size_].
    destruct (Z.eqb_spec value prev) as [->|Hne]; cbn [negb].
    + rewrite Hw by lia.
      apply (IH prev (reps + 1) stream Hwf Hp ltac:(lia) Hl).
      intros; apply Hw; lia.
    + rewrite (Hw (0 + 1)) by lia. change (0 + 1) with 1.
      destruct (Z.eqb_spec reps 0) as [->|Hr0]; cbn [negb].
      * apply (IH value 1 stream Hwf Hv ltac:(lia) Hl).
        intros; apply Hw; lia.
      * rewrite rle_loop_acc. cbn [app].
        pose proof Hwf as (Hb & Hpos & He).
        set (s1 := Base128StreamWriter.mk
               (blit (Base128StreamWriter.mem stream) (Base128StreamWriter.pos_ stream)
                  (varints [reps; prev]))
               (Base128StreamWriter.begin_ stream) (Base128StreamWriter.end_ stream)
               (Base128StreamWriter.pos_ stream + length (varints [reps; prev]))).
        specialize (IH value 1 s1).
        destruct (RLEStreamWriter.tput_loop T l value 1 []) as [[prev' reps'] o].
        intros Hroom.
        change (reps :: prev :: o) with ([reps; prev] ++ o) in *.
        rewrite varints_app, length_app in Hroom.
        assert (Hwf1 : Base128StreamWriter.wf s1).
        { unfold Base128StreamWriter.wf, s1.
          cbn [Base128StreamWriter.mem Base128StreamWriter.pos_
               Base128StreamWriter.begin_ Base128StreamWriter.end_].
          rewrite blit_length by lia. lia. }
        specialize (IH Hwf1 Hv ltac:(lia) Hl ltac:(intros; apply Hw; lia)).
        pose proof (pair_bytes_length reps prev) as Hpl.
        rewrite stream_put_ok by (assumption || lia). cbn [negb].
        rewrite stream_put_ok;
          [|unfold Base128StreamWriter.wf;
            cbn [Base128StreamWriter.mem Base128StreamWriter.pos_
                 Base128StreamWriter.begin_ Base128StreamWriter.end_];
            rewrite blit_length by (rewrite varint_length; lia); lia
           |assumption
           |cbn [Base128StreamWriter.pos_ Base128StreamWriter.end_]; lia].
        cbn [negb Base128StreamWriter.mem Base128StreamWriter.pos_
             Base128StreamWriter.begin_ Base128StreamWriter.end_].
        rewrite <- (varint_length reps) at 1 2.
        rewrite blit_app by (rewrite varint_length; lia).
        assert (Es1 : Base128StreamWriter.mk
                  (blit (Base128StreamWriter.mem stream)
                     (Base128StreamWriter.pos_ stream) (varint reps ++ varint prev))
                  (Base128StreamWriter.begin_ stream) (Base128StreamWriter.end_ stream)
                  (Base128StreamWriter.pos_ stream + length (varint reps)
                   + encode_len prev) = s1).
        { unfold s1. change (varints [reps; prev])
            with (varint reps ++ varint prev ++ []).
          rewrite app_nil_r, length_app, !varint_length, Nat.add_assoc.
          reflexivity. }
        rewrite Es1.
        rewrite IH
          by (unfold s1; cbn [Base128StreamWriter.pos_ Base128StreamWriter.end_]; lia).
        unfold s1. cbn [Base128StreamWriter.mem Base128StreamWriter.pos_
                        Base128StreamWriter.begin_ Base128StreamWriter.end_].
        rewrite blit_app by lia.
        rewrite varints_app, length_app, Nat.add_assoc. reflexivity.
Qed.

(** [DeltaStreamWriter::put] call by call hands the loop's differences to
    the filter below. *)
Lemma delta_put_each_ok {S : Type} `{!StreamWriter S} (T : IntType) (l : list Z) :
  forall (inner inner' : S) (prev : Z) (stream stream' : Base128StreamWriter.t),
  put_each (DeltaStreamWriter.tput_loop T l prev).1 inner stream
    = (true, inner', stream') ->
  put_each l (DeltaStreamWriter.mk (T:=T) inner prev) stream
    = (true, DeltaStreamWriter.mk inner' (default prev (last l)), stream').
Proof.
  induction l as [|value l IH]; intros inner inner' prev stream stream' H.
  - cbn [DeltaStreamWriter.tput_loop fst put_each] in *.
    injection H as -> ->. reflexivity.
  - cbn [DeltaStreamWriter.tput_loop] in H.
    specialize (IH) as IH'.
    destruct (DeltaStreamWriter.tput_loop T l value) as [outbuf prev'] eqn:E.
    cbn [fst put_each] in H.
    cbn [put_each stream_put DeltaStreamWriter_ops]. unfold DeltaStreamWriter.put.
    cbn [DeltaStreamWriter.prev_ DeltaStreamWriter.stream_].
    destruct (stream_put (wrap T (value - prev)) inner stream) as [[ok i1] s1].
    destruct ok; [|discriminate].
    rewrite (IH' i1 inner' value s1 stream').
    + rewrite last_cons. destruct (last l); reflexivity.
    + rewrite E. exact H.
Qed.


(** For a chunk that is not empty, [outbuf] is what the loop collected and
    then the run that was pending at its end. *)
Lemma rle_outbuf_nonempty (T : IntType) (iter : list Z) :
  iter <> [] -> Z.of_nat (length iter) < 2 ^ 64 ->
  (forall x, 0 <= x <= Z.of_nat (length iter) -> wrap T x = x) ->
  let '(prev', reps', o) := RLEStreamWriter.tput_loop T iter 0 0 [] in
  rle_outbuf T iter = o ++ [reps'; prev'] /\ 0 <= reps'.
Proof.
  intros Hne Hn Hw. unfold rle_outbuf.
  destruct (rle_loop_spec T iter 0 0 [] ltac:(lia) ltac:(lia) Hw)
    as (ps & prev' & reps' & E & _ & Hr' & _ & _ & _ & Hlt).
  rewrite E. cbn [app]. rewrite flatten_pairs_length.
  specialize (Hlt eq_refl Hne).
  destruct (Nat.ltb_spec (2 * length ps) (length iter * 2)); [|lia].
  split; [reflexivity|lia].
Qed.

(** The bounds of the stream and the start size of the filter stay, whatever
    the chunks and whether they fit. *)
Lemma tput_chunks_frame (chunks : list (list Z)) :
  forall (w : DeltaRLEWriter) (stream : Base128StreamWriter.t),
  Base128StreamWriter.wf stream ->
  let r := tput_chunks chunks w stream in
  Base128StreamWriter.wf r.2 /\
  Base128StreamWriter.begin_ r.2 = Base128StreamWriter.begin_ stream /\
  (Base128StreamWriter.pos_ stream <= Base128StreamWriter.pos_ r.2)%nat /\
  RLEStreamWriter.start_size_ (DeltaStreamWriter.stream_ r.1.2)
    = RLEStreamWriter.start_size_ (DeltaStreamWriter.stream_ w).
Proof.
  induction chunks as [|c chunks IH]; intros w stream Hwf.
  - cbn [tput_chunks fst snd]. repeat split; try apply Hwf; lia.
  - cbn [tput_chunks].
    destruct (ts_tput_general c w stream) as (outbuf & E). rewrite E.
    destruct (tput_frame outbuf stream Hwf) as (W1 & B1 & _ & _ & _ & _ & P1 & _).
    destruct (Base128StreamWriter.tput outbuf stream) as [ok s1].
    cbn [fst snd] in *.
    destruct ok.
    + destruct (IH (DeltaStreamWriter.mk
                      (RLEStreamWriter.mk 0 0
                         (RLEStreamWriter.start_size_ (DeltaStreamWriter.stream_ w)))
                      (default (DeltaStreamWriter.prev_ w) (last c))) s1 W1)
        as (W2 & B2 & P2 & S2).
      cbv zeta in *. repeat split; try apply W2; try congruence; try lia.
      rewrite S2. reflexivity.
    + cbn [fst snd]. repeat split; try apply W1; try assumption.
Qed.


(** ** The delta-of-delta filters *)

Lemma dd_delta_loop_eq (T : IntType) (iter : list Z) : forall prev,
  DeltaDeltaStreamWriter.delta_loop T iter prev = DeltaStreamWriter.tput_loop T iter prev.
Proof.
  induction iter as [|v iter IH]; intros prev; [reflexivity|].
  cbn [DeltaDeltaStreamWriter.delta_loop DeltaStreamWriter.tput_loop].
  rewrite IH. reflexivity.
Qed.

Lemma min_fold_spec (ds : list Z) : forall d,
  let m := fold_left (fun min d' => Z.min d' min) ds d in
  (m = d \/ m ∈ ds) /\ m <= d /\ Forall (fun x => m <= x) ds.
Proof.
  induction ds as [|x ds IH]; intros d.
  - cbn. split; [left; reflexivity|]. split; [lia|constructor].
  - cbn [fold_left]. destruct (IH (Z.min x d)) as ([E|Hin] & Hle & Hall).
    + cbv zeta. rewrite E. split; [|split].
      * destruct (Z.min_spec x d) as [[_ ->]|[_ ->]];
          [right; apply list_elem_of_here|left; reflexivity].
      * lia.
      * constructor; [lia|]. rewrite <- E. exact Hall.
    + cbv zeta. split; [right; apply list_elem_of_further; exact Hin|].
      split; [lia|]. constructor; [lia|exact Hall].
Qed.

Lemma min_loop_spec (outbuf : list Z) :
  outbuf <> [] ->
  DeltaDeltaStreamWriter.min_loop outbuf ∈ outbuf /\
  Forall (fun x => DeltaDeltaStreamWriter.min_loop outbuf <= x) outbuf.
Proof.
  destruct outbuf as [|d ds]; [congruence|]. intros _.
  cbn [DeltaDeltaStreamWriter.min_loop].
  destruct (min_fold_spec ds d) as ([E|Hin] & Hle & Hall); cbv zeta in *.
  - rewrite E. split; [apply list_elem_of_here|].
    constructor; [lia|]. rewrite <- E. exact Hall.
  - split; [apply list_elem_of_further; exact Hin|].
    constructor; [lia|exact Hall].
Qed.

Section DeltaDelta.
Variable T : IntType.
Hypothesis Hu : is_signed T = false.
Hypothesis Hb : 0 < bits T <= 64.

Lemma wrap_T_id (x : Z) : 0 <= x < 2 ^ bits T -> wrap T x = x.
Proof. apply wrap_unsigned_id. exact Hu. Qed.

Lemma wrap_T_range (x : Z) : 0 <= wrap T x < 2 ^ bits T.
Proof.
  unfold wrap. rewrite Hu. apply Z.mod_pos_bound. apply Z.pow_pos_nonneg; lia.
Qed.

Lemma bits_T_le_64 : 2 ^ bits T <= 2 ^ 64.
Proof. apply Z.pow_le_mono_r; lia. Qed.

Lemma delta_range_gen (iter : list Z) : forall prev,
  Forall (fun d => 0 <= d < 2 ^ bits T) (DeltaStreamWriter.tput_loop T iter prev).1.
Proof.
  induction iter as [|v iter IH]; intros prev; [constructor|].
  cbn [DeltaStreamWriter.tput_loop]. specialize (IH v).
  destruct (DeltaStreamWriter.tput_loop T iter v) as [outbuf prev'].
  cbn [fst] in *. constructor; [apply wrap_T_range|exact IH].
Qed.

Lemma undelta_delta_gen (iter : list Z) : forall prev,
  Forall (fun v => 0 <= v < 2 ^ bits T) iter ->
  undelta T prev (DeltaStreamWriter.tput_loop T iter prev).1 = iter.
Proof.
  induction iter as [|v iter IH]; intros prev Hr; [reflexivity|].
  apply Forall_cons in Hr as [Hv Hr].
  cbn [DeltaStreamWriter.tput_loop]. specialize (IH v Hr).
  destruct (DeltaStreamWriter.tput_loop T iter v) as [outbuf prev'].
  cbn [fst undelta] in *.
  assert (E : wrap T (prev + wrap T (v - prev)) = v).
  { unfold wrap. rewrite Hu. rewrite Zplus_mod_idemp_r.
    replace (prev + (v - prev)) with v by lia. apply Z.mod_small. assumption. }
  rewrite E, IH. reflexivity.
Qed.

Lemma sub_min_map (mn : Z) (ds : list Z) :
  0 <= mn -> Forall (fun d => mn <= d < 2 ^ bits T) ds ->
  map (fun d => wrap T (d - mn)) ds = map (fun d => d - mn) ds /\
  Forall (fun e => 0 <= e < 2 ^ bits T) (map (fun d => d - mn) ds).
Proof.
  intros Hmn Hboth. induction Hboth as [|d ds Hd _ [IH1 IH2]].
  - split; [reflexivity|constructor].
  - cbn [map]. rewrite wrap_T_id by lia. rewrite IH1.
    split; [reflexivity|]. constructor; [lia|exact IH2].
Qed.

(** The differences less their minimum. *)
Lemma dd_outbuf_spec (ds : list Z) :
  ds <> [] -> Forall (fun d => 0 <= d < 2 ^ bits T) ds ->
  let min := DeltaDeltaStreamWriter.min_loop ds in
  0 <= min < 2 ^ bits T /\
  Forall (fun d => min <= d < 2 ^ bits T) ds /\
  map (fun d => wrap T (d - min)) ds = map (fun d => d - min) ds /\
  Forall (fun e => 0 <= e < 2 ^ bits T) (map (fun d => d - min) ds).
Proof.
  intros Hne Hr min. destruct (min_loop_spec ds Hne) as [Hin Hle]. fold min in Hin, Hle.
  assert (Hmin : 0 <= min < 2 ^ bits T).
  { rewrite Forall_forall in Hr. apply Hr. exact Hin. }
  assert (Hboth : Forall (fun d => min <= d < 2 ^ bits T) ds).
  { rewrite Forall_forall in *. intros d Hd.
    specialize (Hr d Hd). specialize (Hle d Hd). lia. }
  split; [exact Hmin|]. split; [exact Hboth|].
  apply sub_min_map; [lia|exact Hboth].
Qed.

(** Reading inside a chunk: the minimum is the one read at its start. *)
Lemma dd_read_tail (Step : nat) (min : Z) (m : list Z) (e : nat) (q : Z) (ds : list Z) :
  forall (prev : Z) (j : nat) (p : nat),
  0 <= q -> 0 <= min -> (1 <= j)%nat -> (j + length ds <= Step)%nat ->
  q * Z.of_nat Step + Z.of_nat Step < 2 ^ 31 ->
  Forall (fun d => min <= d < 2 ^ bits T) ds ->
  holds m p (varints (map (fun d => d - min) ds)) ->
  (p + length (varints (map (fun d => (d - min)%Z) ds)) <= e)%nat ->
  dd_read_n Step T (length ds)
    (DeltaDeltaStreamReader.mk prev min (q * Z.of_nat Step + Z.of_nat j))
    (Base128StreamReader.mk m p e) =
  Value (undelta T prev ds,
         DeltaDeltaStreamReader.mk (default prev (last (undelta T prev ds))) min
           (q * Z.of_nat Step + Z.of_nat (j + length ds)),
         Base128StreamReader.mk m
           (p + length (varints (map (fun d => (d - min)%Z) ds))) e).
Proof.
  induction ds as [|d ds IH]; intros prev j p Hq Hmn Hj Hlen H31 Hr Hm He.
  - cbn. rewrite !Nat.add_0_r. reflexivity.
  - apply Forall_cons in Hr as [Hd Hr]. cbn [length map] in *.
    rewrite varints_cons in *. rewrite length_app, varint_length in *.
    apply holds_app in Hm. destruct Hm as [Hm1 Hm2]. rewrite varint_length in Hm2.
    assert (H31' : 2 ^ 31 < 2 ^ 64) by reflexivity.
    assert (Hqs : 0 <= q * Z.of_nat Step) by nia.
    cbn [dd_read_n]. unfold DeltaDeltaStreamReader.next.
    cbn [DeltaDeltaStreamReader.counter_ DeltaDeltaStreamReader.min_
         DeltaDeltaStreamReader.prev_].
    rewrite wrap_u64_id by lia.
    replace ((q * Z.of_nat Step + Z.of_nat j) mod Z.of_nat Step) with (Z.of_nat j)
      by (rewrite Z.add_comm, Z.mod_add by lia; symmetry; apply Z.mod_small; lia).
    destruct (Z.eqb_spec (Z.of_nat j) 0); [lia|].
    cbn [mbind outcome_bind mret outcome_ret].
    rewrite (stream_next_ok_gen T (bits T) ltac:(lia) wrap_T_id (d - min))
      by (cbn [Base128StreamReader.mem Base128StreamReader.pos_
               Base128StreamReader.end_]; assumption || lia).
    cbn [mbind outcome_bind mret outcome_ret Base128StreamReader.mem
         Base128StreamReader.pos_ Base128StreamReader.end_].
    rewrite wrap_i32_id by (change (2 ^ 31) with 2147483648 in *; lia).
    replace (prev + (d - min) + min) with (prev + d) by lia.
    replace (q * Z.of_nat Step + Z.of_nat j + 1)
      with (q * Z.of_nat Step + Z.of_nat (S j)) by lia.
    rewrite IH by (assumption || lia).
    cbn [mbind outcome_bind mret outcome_ret undelta].
    rewrite last_cons.
    replace (S j + length ds)%nat with (j + S (length ds))%nat by lia.
    rewrite Nat.add_assoc.
    destruct (last (undelta T (wrap T (prev + d)) ds)); reflexivity.
Qed.

(** Reading a chunk from its start: the minimum, then the values. *)
Lemma dd_read_chunk (Step : nat) (m : list Z) (e : nat) (q : Z) (ds : list Z)
    (prev min0 : Z) (p : nat) :
  let min := DeltaDeltaStreamWriter.min_loop ds in
  let bytes := varints (min :: map (fun d => wrap T (d - min)) ds) in
  0 <= q -> (1 <= Step)%nat -> length ds = Step ->
  q * Z.of_nat Step + Z.of_nat Step < 2 ^ 31 ->
  Forall (fun d => 0 <= d < 2 ^ bits T) ds ->
  holds m p bytes -> (p + length bytes <= e)%nat ->
  dd_read_n Step T Step
    (DeltaDeltaStreamReader.mk prev min0 (q * Z.of_nat Step))
    (Base128StreamReader.mk m p e) =
  Value (undelta T prev ds,
         DeltaDeltaStreamReader.mk (default prev (last (undelta T prev ds))) min
           (q * Z.of_nat Step + Z.of_nat Step),
         Base128StreamReader.mk m (p + length bytes) e).
Proof.
  intros min bytes Hq Hs Hlen H31 Hr Hm He.
  assert (Hne : ds <> []) by (intros ->; cbn in Hlen; lia).
  destruct (dd_outbuf_spec ds Hne Hr) as (Hmin & Hboth & Emap & Hes).
  fold min in Hmin, Hboth, Emap, Hes.
  subst bytes. rewrite Emap in *.
  destruct ds as [|d ds]; [congruence|].
  apply Forall_cons in Hboth as [Hd Hboth].
  cbn [map] in *. rewrite !varints_cons in *.
  rewrite !length_app, !varint_length in *.
  apply holds_app in Hm. destruct Hm as [Hm0 Hm].
  apply holds_app in Hm. destruct Hm as [Hm1 Hm2].
  rewrite !varint_length in *.
  assert (H31' : 2 ^ 31 < 2 ^ 64) by reflexivity.
  assert (Hqs : 0 <= q * Z.of_nat Step) by nia.
  cbn [length] in Hlen.
  set (n := Step) at 2.
  assert (En : n = S (length ds)) by (unfold n; lia).
  clearbody n. subst n. cbn [dd_read_n].
  unfold DeltaDeltaStreamReader.next.
  cbn [DeltaDeltaStreamReader.counter_ DeltaDeltaStreamReader.min_
       DeltaDeltaStreamReader.prev_].
  rewrite wrap_u64_id by lia. rewrite Z.mod_mul by lia. cbn [Z.eqb].
  rewrite (stream_next_ok_gen T (bits T) ltac:(lia) wrap_T_id min)
    by (cbn [Base128StreamReader.mem Base128StreamReader.pos_
             Base128StreamReader.end_]; assumption || lia).
  cbn [mbind outcome_bind mret outcome_ret Base128StreamReader.mem
       Base128StreamReader.pos_ Base128StreamReader.end_].
  rewrite (stream_next_ok_gen T (bits T) ltac:(lia) wrap_T_id (d - min))
    by (cbn [Base128StreamReader.mem Base128StreamReader.pos_
             Base128StreamReader.end_]; assumption || lia).
  cbn [mbind outcome_bind mret outcome_ret Base128StreamReader.mem
       Base128StreamReader.pos_ Base128StreamReader.end_].
  rewrite wrap_i32_id by (change (2 ^ 31) with 2147483648 in *; lia).
  replace (prev + (d - min) + min) with (prev + d) by lia.
  replace (q * Z.of_nat Step + 1) with (q * Z.of_nat Step + Z.of_nat 1) by lia.
  rewrite (dd_read_tail Step min m e q ds) by (assumption || lia).
  cbn [mbind outcome_bind mret outcome_ret undelta].
  rewrite last_cons.
  replace (1 + length ds)%nat with Step by lia.
  rewrite !Nat.add_assoc.
  destruct (last (undelta T (wrap T (prev + d)) ds)); reflexivity.
Qed.

End DeltaDelta.


Lemma delta_loop_app (T : IntType) (l1 l2 : list Z) : forall prev,
  (DeltaStreamWriter.tput_loop T (l1 ++ l2) prev).1 =
  (DeltaStreamWriter.tput_loop T l1 prev).1
  ++ (DeltaStreamWriter.tput_loop T l2 (default prev (last l1))).1.
Proof.
  induction l1 as [|v l1 IH]; intros prev; [reflexivity|].
  cbn [app DeltaStreamWriter.tput_loop]. specialize (IH v).
  destruct (DeltaStreamWriter.tput_loop T (l1 ++ l2) v) as [o1 p1].
  destruct (DeltaStreamWriter.tput_loop T l1 v) as [o2 p2].
  cbn [fst] in *. rewrite IH. rewrite last_cons.
  destruct (last l1); reflexivity.
Qed.

Lemma dd_read_n_app (Step : nat) (T : IntType) (a b : nat) :
  forall (self : DeltaDeltaStreamReader.t T) (stream : Base128StreamReader.t),
  dd_read_n Step T (a + b) self stream =
  '(xs, self1, stream1) ← dd_read_n Step T a self stream;
  '(ys, self2, stream2) ← dd_read_n Step T b self1 stream1;
  mret (xs ++ ys, self2, stream2).
Proof.
  induction a as [|a IH]; intros self stream.
  - cbn [Nat.add dd_read_n mbind outcome_bind mret outcome_ret].
    destruct (dd_read_n Step T b self stream) as [[[ys s2] st2]|]; reflexivity.
  - cbn [Nat.add dd_read_n].
    destruct (DeltaDeltaStreamReader.next Step T self stream) as [[[v s1] st1]|];
      [|reflexivity].
    cbn [mbind outcome_bind]. rewrite IH.
    destruct (dd_read_n Step T a s1 st1) as [[[xs s2] st2]|]; [|reflexivity].
    cbn [mbind outcome_bind mret outcome_ret].
    destruct (dd_read_n Step T b s2 st2) as [[[ys s3] st3]|];
      cbn [mbind outcome_bind mret outcome_ret app]; reflexivity.
Qed.

Section DeltaDeltaRuns.
Variable T : IntType.
Hypothesis Hu : is_signed T = false.
Hypothesis Hb : 0 < bits T <= 64.

(** What [tput] does, by the room there is: for all, for the minimum only,
    or for nothing. *)
Lemma dd_tput_cases (iter : list Z) (self : DeltaDeltaStreamWriter.t T)
    (stream : Base128StreamWriter.t) :
  Base128StreamWriter.wf stream -> iter <> [] ->
  let prev := DeltaDeltaStreamWriter.prev_ self in
  let ds := (DeltaStreamWriter.tput_loop T iter prev).1 in
  let min := DeltaDeltaStreamWriter.min_loop ds in
  let es := map (fun d => wrap T (d - min)) ds in
  let r := DeltaDeltaStreamWriter.tput T iter self stream in
  let pos := Base128StreamWriter.pos_ stream in
  let end' := Base128StreamWriter.end_ stream in
  dd_chunk_bytes T prev iter = varint min ++ varints es /\
  r.1.2 = DeltaDeltaStreamWriter.mk (default prev (last iter))
            (DeltaDeltaStreamWriter.put_calls_ self) /\
  (((pos + encode_len min + length (varints es) <= end')%nat /\ r.1.1 = true /\
    r.2 = Base128StreamWriter.mk
            (blit (Base128StreamWriter.mem stream) pos (varint min ++ varints es))
            (Base128StreamWriter.begin_ stream) end'
            (pos + length (varint min ++ varints es))) \/
   ((pos + encode_len min <= end' < pos + encode_len min + length (varints es))%nat /\
    r.1.1 = false /\ Base128StreamWriter.pos_ r.2 = (pos + encode_len min)%nat) \/
   ((end' < pos + encode_len min)%nat /\
    r.1.1 = false /\ Base128StreamWriter.pos_ r.2 = pos)).
Proof.
  intros Hwf Hne prev ds min es r pos end'. pose proof Hwf as (Hbg & Hp & He).
  assert (Hdl : length ds = length iter) by apply delta_loop_length.
  assert (Hdne : ds <> []).
  { intros E. rewrite E in Hdl. destruct iter; [congruence|discriminate]. }
  assert (Hdr : Forall (fun d => 0 <= d < 2 ^ bits T) ds)
    by (apply delta_range_gen; assumption).
  destruct (dd_outbuf_spec T Hu Hb ds Hdne Hdr) as (Hmin & Hboth & Emap & Hes).
  fold min in Hmin, Hboth, Emap, Hes. fold es in Emap.
  assert (Hesn : Forall (fun v => 0 <= v) es).
  { rewrite Emap. eapply Forall_impl; [exact Hes|]. cbn beta. intros; lia. }
  assert (Hbytes : dd_chunk_bytes T prev iter = varint min ++ varints es).
  { unfold dd_chunk_bytes. rewrite dd_delta_loop_eq. reflexivity. }
  assert (Hr : r =
    let '(ok1, stream1) := Base128StreamWriter.put min stream in
    if negb ok1
    then (false, DeltaDeltaStreamWriter.mk (default prev (last iter))
                   (DeltaDeltaStreamWriter.put_calls_ self), stream1)
    else let '(ok, stream2) := Base128StreamWriter.tput es stream1 in
         (ok, DeltaDeltaStreamWriter.mk (default prev (last iter))
                (DeltaDeltaStreamWriter.put_calls_ self), stream2)).
  { unfold r, DeltaDeltaStreamWriter.tput. rewrite dd_delta_loop_eq.
    fold prev. pose proof (delta_loop_prev T iter prev) as Hpv.
    unfold es, min, ds.
    destruct (DeltaStreamWriter.tput_loop T iter prev) as [outbuf prev'].
    cbn [fst snd] in *. subst prev'. reflexivity. }
  split; [exact Hbytes|].
  split.
  { rewrite Hr. destruct (Base128StreamWriter.put min stream) as [ok1 s1].
    destruct ok1; cbn [negb]; [|reflexivity].
    destruct (Base128StreamWriter.tput es s1). reflexivity. }
  destruct (le_lt_dec (pos + encode_len min) end') as [Hfit1|Hshort1].
  - assert (E1 : Base128StreamWriter.put min stream =
              (true, Base128StreamWriter.mk
                       (blit (Base128StreamWriter.mem stream) pos (varint min))
                       (Base128StreamWriter.begin_ stream) end'
                       (pos + encode_len min)))
      by (apply stream_put_ok; [assumption|lia|assumption]).
    rewrite E1 in Hr. cbn [negb] in Hr.
    set (s1 := Base128StreamWriter.mk
                 (blit (Base128StreamWriter.mem stream) pos (varint min))
                 (Base128StreamWriter.begin_ stream) end' (pos + encode_len min)) in *.
    assert (Hwf1 : Base128StreamWriter.wf s1).
    { unfold Base128StreamWriter.wf, s1.
      cbn [Base128StreamWriter.mem Base128StreamWriter.pos_
           Base128StreamWriter.begin_ Base128StreamWriter.end_].
      rewrite blit_length by (rewrite varint_length; unfold pos, end' in *; lia).
      unfold pos, end' in *. lia. }
    destruct (le_lt_dec (pos + encode_len min + length (varints es)) end')
      as [Hfit2|Hshort2].
    + left. split; [assumption|].
      rewrite Hr, tput_ok by assumption. cbn [fst snd]. split; [reflexivity|].
      unfold s1. cbn [Base128StreamWriter.mem Base128StreamWriter.pos_
                      Base128StreamWriter.begin_ Base128StreamWriter.end_].
      rewrite <- (varint_length min).
      rewrite blit_app by (rewrite varint_length; unfold pos, end' in *; lia).
      rewrite length_app, Nat.add_assoc. reflexivity.
    + right. left. split; [lia|].
      pose proof (tput_loop_short es (Base128StreamWriter.pos_ s1) s1 Hwf1 Hesn
                    ltac:(exact Hshort2)) as Hf.
      destruct (tput_frame es s1 Hwf1) as (_ & _ & _ & _ & _ & _ & _ & Hpos2).
      change (Base128StreamWriter.tput_loop es (Base128StreamWriter.pos_ s1) s1)
        with (Base128StreamWriter.tput es s1) in Hf.
      rewrite Hr. destruct (Base128StreamWriter.tput es s1) as [ok2 s2].
      cbn [fst snd] in *. subst ok2. split; [reflexivity|].
      apply Hpos2. reflexivity.
  - right. right. split; [assumption|].
    pose proof (stream_put_short min stream Hwf ltac:(lia) ltac:(exact Hshort1)) as Hf.
    destruct (stream_put_frame min stream Hwf) as (_ & _ & _ & _ & _ & _ & _ & Hpos1).
    rewrite Hr. destruct (Base128StreamWriter.put min stream) as [ok1 s1].
    cbn [fst snd] in *. subst ok1. cbn [negb fst snd]. split; [reflexivity|].
    apply Hpos1. reflexivity.
Qed.

(** From 32 bits on the difference [value - prev_] of [put] is a [TVal]. *)
Lemma promoted_wide : 32 <= bits T -> DeltaDeltaStreamWriter.promoted T = T.
Proof.
  intros H32. unfold DeltaDeltaStreamWriter.promoted.
  destruct (Z.ltb_spec (bits T) 32); [lia|reflexivity].
Qed.

(** [put] on a writer that has put before: the difference only. *)
Lemma dd_put_each_later (l : list Z) :
  forall (prev c : Z) (stream : Base128StreamWriter.t),
  32 <= bits T ->
  Base128StreamWriter.wf stream -> 1 <= c -> c + Z.of_nat (length l) < 2 ^ 31 ->
  let ds := (DeltaStreamWriter.tput_loop T l prev).1 in
  (Base128StreamWriter.pos_ stream + length (varints ds)
     <= Base128StreamWriter.end_ stream)%nat ->
  put_each l (DeltaDeltaStreamWriter.mk (T:=T) prev c) stream =
  (true, DeltaDeltaStreamWriter.mk (default prev (last l)) (c + Z.of_nat (length l)),
   Base128StreamWriter.mk
     (blit (Base128StreamWriter.mem stream) (Base128StreamWriter.pos_ stream)
        (varints ds))
     (Base128StreamWriter.begin_ stream) (Base128StreamWriter.end_ stream)
     (Base128StreamWriter.pos_ stream + length (varints ds))).
Proof.
  induction l as [|v l IH]; intros prev c stream H32 Hwf Hc H31 ds Hroom.
  - cbn [put_each length]. subst ds. cbn [DeltaStreamWriter.tput_loop fst].
    rewrite stream_blit_nil. cbn [last default]. rewrite Z.add_0_r. reflexivity.
  - pose proof Hwf as (Hbg & Hp & He). cbn [length] in H31.
    subst ds. cbn [DeltaStreamWriter.tput_loop] in *.
    specialize (IH v (c + 1)).
    destruct (DeltaStreamWriter.tput_loop T l v) as [outbuf prev'].
    cbn [fst] in *. rewrite varints_cons, length_app, varint_length in *.
    pose proof (wrap_T_range T Hu Hb (v - prev)) as Hd.
    cbn [put_each stream_put DeltaDeltaStreamWriter_ops].
    unfold DeltaDeltaStreamWriter.put. rewrite (promoted_wide H32).
    cbn [DeltaDeltaStreamWriter.put_calls_ DeltaDeltaStreamWriter.prev_].
    destruct (Z.eqb_spec c 0); [lia|].
    rewrite stream_put_ok by (assumption || lia).
    rewrite wrap_i32_id by (change (2 ^ 31) with 2147483648 in *; lia).
    set (s1 := Base128StreamWriter.mk _ _ _ _).
    assert (Hwf1 : Base128StreamWriter.wf s1).
    { unfold Base128StreamWriter.wf, s1.
      cbn [Base128StreamWriter.mem Base128StreamWriter.pos_
           Base128StreamWriter.begin_ Base128StreamWriter.end_].
      rewrite blit_length by (rewrite varint_length; lia). lia. }
    rewrite (IH s1 H32 Hwf1 ltac:(lia) ltac:(lia))
      by (unfold s1; cbn [Base128StreamWriter.pos_ Base128StreamWriter.end_]; lia).
    unfold s1. cbn [Base128StreamWriter.mem Base128StreamWriter.pos_
                    Base128StreamWriter.begin_ Base128StreamWriter.end_].
    rewrite <- (varint_length (wrap T (v - prev))).
    rewrite blit_app by (rewrite varint_length; lia).
    rewrite Nat.add_assoc, last_cons. cbn [length].
    replace (c + 1 + Z.of_nat (length l)) with (c + Z.of_nat (S (length l))) by lia.
    destruct (last l); reflexivity.
Qed.

(** [put] on a new writer: a zero for the minimum, then the differences. *)
Lemma dd_put_each_fresh (l : list Z) (prev : Z) (stream : Base128StreamWriter.t) :
  32 <= bits T ->
  Base128StreamWriter.wf stream -> l <> [] -> Z.of_nat (length l) < 2 ^ 31 ->
  let ds := (DeltaStreamWriter.tput_loop T l prev).1 in
  (Base128StreamWriter.pos_ stream + length (varints (0%Z :: ds))
     <= Base128StreamWriter.end_ stream)%nat ->
  put_each l (DeltaDeltaStreamWriter.mk (T:=T) prev 0) stream =
  (true, DeltaDeltaStreamWriter.mk (default prev (last l)) (Z.of_nat (length l)),
   Base128StreamWriter.mk
     (blit (Base128StreamWriter.mem stream) (Base128StreamWriter.pos_ stream)
        (varints (0 :: ds)))
     (Base128StreamWriter.begin_ stream) (Base128StreamWriter.end_ stream)
     (Base128StreamWriter.pos_ stream + length (varints (0%Z :: ds)))).
Proof.
  intros H32 Hwf Hne H31 ds Hroom. pose proof Hwf as (Hbg & Hp & He).
  destruct l as [|v l]; [congruence|]. cbn [length] in H31.
  subst ds. cbn [DeltaStreamWriter.tput_loop] in *.
  pose proof (fun s => dd_put_each_later l v 1 s H32) as Hlater.
  destruct (DeltaStreamWriter.tput_loop T l v) as [outbuf prev'].
  cbn [fst] in *.
  change (varints (0 :: wrap T (v - prev) :: outbuf))
    with (varint 0 ++ varint (wrap T (v - prev)) ++ varints outbuf) in *.
  rewrite !length_app, !varint_length in Hroom.
  assert (E0 : encode_len 0 = 1%nat) by reflexivity.
  pose proof (wrap_T_range T Hu Hb (v - prev)) as Hd.
  cbn [put_each stream_put DeltaDeltaStreamWriter_ops].
  unfold DeltaDeltaStreamWriter.put. rewrite (promoted_wide H32).
  cbn [DeltaDeltaStreamWriter.put_calls_ DeltaDeltaStreamWriter.prev_ Z.eqb].
  rewrite stream_put_ok by (assumption || lia). cbn [negb].
  set (s0 := Base128StreamWriter.mk _ _ _ _).
  assert (Hwf0 : Base128StreamWriter.wf s0).
  { unfold Base128StreamWriter.wf, s0.
    cbn [Base128StreamWriter.mem Base128StreamWriter.pos_
         Base128StreamWriter.begin_ Base128StreamWriter.end_].
    rewrite blit_length by (rewrite varint_length; lia). lia. }
  rewrite stream_put_ok
    by (try assumption; try lia;
        unfold s0; cbn [Base128StreamWriter.pos_ Base128StreamWriter.end_]; lia).
  change (wrap i32 (0 + 1)) with 1.
  set (s1 := Base128StreamWriter.mk _ _ _ _).
  assert (Hwf1 : Base128StreamWriter.wf s1).
  { unfold Base128StreamWriter.wf, s1, s0.
    cbn [Base128StreamWriter.mem Base128StreamWriter.pos_
         Base128StreamWriter.begin_ Base128StreamWriter.end_].
    rewrite !blit_length;
      rewrite ?blit_length, ?varint_length; try lia.
    rewrite varint_length; lia. }
  rewrite (Hlater s1 Hwf1 ltac:(lia) ltac:(lia))
    by (unfold s1, s0; cbn [Base128StreamWriter.pos_ Base128StreamWriter.end_]; lia).
  unfold s1, s0. cbn [Base128StreamWriter.mem Base128StreamWriter.pos_
                      Base128StreamWriter.begin_ Base128StreamWriter.end_].
  rewrite <- (varint_length 0) at 1 2 3.
  rewrite blit_app by (rewrite varint_length; lia).
  replace (Base128StreamWriter.pos_ stream + length (varint 0)
           + encode_len (wrap T (v - prev)))%nat
    with (Base128StreamWriter.pos_ stream
          + length (varint 0 ++ varint (wrap T (v - prev))))%nat
    by (rewrite length_app, !varint_length; lia).
  rewrite blit_app by (rewrite length_app, !varint_length; lia).
  rewrite <- !app_assoc, !length_app, !Nat.add_assoc, last_cons.
  replace (1 + Z.of_nat (length l)) with (Z.of_nat (S (length l))) by lia.
  rewrite !varint_length.
  destruct (last l); reflexivity.
Qed.

(** Reading from the start of a chunk when the stream holds a minimum [mn]
    and differences less [mn], any number up to [Step]. *)
Lemma dd_read_run (Step : nat) (m : list Z) (e : nat) (q mn : Z) (ds : list Z)
    (prev min0 : Z) (p : nat) :
  let bytes := varint mn ++ varints (map (fun d => d - mn) ds) in
  0 <= q -> ds <> [] -> (length ds <= Step)%nat ->
  q * Z.of_nat Step + Z.of_nat Step < 2 ^ 31 ->
  0 <= mn < 2 ^ bits T -> Forall (fun d => mn <= d < 2 ^ bits T) ds ->
  holds m p bytes -> (p + length bytes <= e)%nat ->
  dd_read_n Step T (length ds)
    (DeltaDeltaStreamReader.mk prev min0 (q * Z.of_nat Step))
    (Base128StreamReader.mk m p e) =
  Value (undelta T prev ds,
         DeltaDeltaStreamReader.mk (default prev (last (undelta T prev ds))) mn
           (q * Z.of_nat Step + Z.of_nat (length ds)),
         Base128StreamReader.mk m (p + length bytes) e).
Proof.
  intros bytes Hq Hne Hlen H31 Hmin Hboth Hm He. subst bytes.
  destruct ds as [|d ds]; [congruence|].
  apply Forall_cons in Hboth as [Hd Hboth].
  cbn [map length] in *. rewrite !varints_cons in *.
  rewrite !length_app, !varint_length in *.
  apply holds_app in Hm. destruct Hm as [Hm0 Hm].
  apply holds_app in Hm. destruct Hm as [Hm1 Hm2].
  rewrite !varint_length in *.
  assert (H31' : 2 ^ 31 < 2 ^ 64) by reflexivity.
  assert (Hqs : 0 <= q * Z.of_nat Step) by nia.
  cbn [dd_read_n]. unfold DeltaDeltaStreamReader.next.
  cbn [DeltaDeltaStreamReader.counter_ DeltaDeltaStreamReader.min_
       DeltaDeltaStreamReader.prev_].
  rewrite wrap_u64_id by lia. rewrite Z.mod_mul by lia. cbn [Z.eqb].
  rewrite (stream_next_ok_gen T (bits T) ltac:(lia) (wrap_T_id T Hu) mn)
    by (cbn [Base128StreamReader.mem Base128StreamReader.pos_
             Base128StreamReader.end_]; assumption || lia).
  cbn [mbind outcome_bind mret outcome_ret Base128StreamReader.mem
       Base128StreamReader.pos_ Base128StreamReader.end_].
  rewrite (stream_next_ok_gen T (bits T) ltac:(lia) (wrap_T_id T Hu) (d - mn))
    by (cbn [Base128StreamReader.mem Base128StreamReader.pos_
             Base128StreamReader.end_]; assumption || lia).
  cbn [mbind outcome_bind mret outcome_ret Base128StreamReader.mem
       Base128StreamReader.pos_ Base128StreamReader.end_].
  rewrite wrap_i32_id by (change (2 ^ 31) with 2147483648 in *; lia).
  replace (prev + (d - mn) + mn) with (prev + d) by lia.
  replace (q * Z.of_nat Step + 1) with (q * Z.of_nat Step + Z.of_nat 1) by lia.
  rewrite (dd_read_tail T Hu Hb Step mn m e q ds) by (assumption || lia).
  cbn [mbind outcome_bind mret outcome_ret undelta].
  rewrite last_cons.
  replace (1 + length ds)%nat with (S (length ds)) by lia.
  rewrite !Nat.add_assoc.
  destruct (last (undelta T (wrap T (prev + d)) ds)); reflexivity.
Qed.

End DeltaDeltaRuns.


(** ** Sequences of calls on the writer *)

Lemma run_ops_frame (ops : list writer_op) :
  forall s : Base128StreamWriter.t,
  Base128StreamWriter.wf s ->
  Base128StreamWriter.wf (run_ops ops s) /\
  Base128StreamWriter.end_ (run_ops ops s) = Base128StreamWriter.end_ s /\
  length (Base128StreamWriter.mem (run_ops ops s)) = length (Base128StreamWriter.mem s) /\
  (Base128StreamWriter.pos_ s <= Base128StreamWriter.pos_ (run_ops ops s))%nat /\
  take (Base128StreamWriter.pos_ s) (Base128StreamWriter.mem (run_ops ops s))
    = take (Base128StreamWriter.pos_ s) (Base128StreamWriter.mem s).
Proof.
  induction ops as [|op ops IH]; intros s Hwf.
  - cbn [run_ops fold_left]. repeat split; try apply Hwf; lia.
  - cbn [run_ops fold_left]. fold (run_ops ops (run_op op s)).
    destruct (run_op_frame op s Hwf) as (W1 & _ & E1 & L1 & T1 & _ & P1).
    destruct (IH (run_op op s) W1) as (W2 & E2 & L2 & P2 & T2).
    set (s1 := run_op op s) in *. set (s2 := run_ops ops s1) in *.
    split; [assumption|]. split; [congruence|]. split; [congruence|].
    split; [lia|].
    assert (Hmin : (Base128StreamWriter.pos_ s `min` Base128StreamWriter.pos_ s1
                    = Base128StreamWriter.pos_ s)%nat) by lia.
    transitivity (take (Base128StreamWriter.pos_ s)
                    (take (Base128StreamWriter.pos_ s1) (Base128StreamWriter.mem s2))).
    { rewrite take_take, Hmin. reflexivity. }
    rewrite T2, take_take, Hmin. exact T1.
Qed.

(** ** A chunk without repeats on a writer that holds a pending run *)

Lemma rle_loop_all_change (T : IntType) (l : list Z) :
  forall (prev reps : Z) (out : list Z),
  wrap T (0 + 1) = 1 -> reps <> 0 -> l <> [] -> all_change prev l ->
  RLEStreamWriter.tput_loop T l prev reps out =
  (default prev (last l), 1,
   out ++ reps :: prev :: flatten_pairs (map (fun v => (1, v)) (removelast l))).
Proof.
  induction l as [|v l IH]; intros prev reps out H1 Hr Hne Hc; [congruence|].
  destruct Hc as [Hv Hc]. cbn [RLEStreamWriter.tput_loop].
  destruct (Z.eqb_spec v prev); [contradiction|].
  destruct (Z.eqb_spec reps 0); [contradiction|]. cbn [negb]. rewrite H1.
  destruct l as [|v2 l].
  - cbn [RLEStreamWriter.tput_loop removelast map last default].
    unfold flatten_pairs. cbn [map concat]. reflexivity.
  - rewrite (IH v 1 (out ++ [reps; prev]) H1 ltac:(lia) ltac:(discriminate) Hc).
    change (last (v :: v2 :: l)) with (last (v2 :: l)).
    change (removelast (v :: v2 :: l)) with (v :: removelast (v2 :: l)).
    cbn [map]. rewrite flatten_pairs_cons, <- app_assoc. cbn [app].
    destruct (last (v2 :: l)) eqn:El; [reflexivity|].
    apply last_None in El. discriminate.
Qed.

Lemma expand_unit_pairs (l : list Z) :
  expand_pairs (map (fun v => (1, v)) l) = l.
Proof.
  induction l as [|v l IH]; [reflexivity|].
  cbn [map]. rewrite expand_pairs_cons, IH. reflexivity.
Qed.


(** ** A block cut short by its last byte *)

Lemma read_raw_short (sz : nat) (m : list Z) (p e : nat) :
  (e - p < sz)%nat ->
  Base128StreamReader.read_raw sz (Base128StreamReader.mk m p e) = Panic.
Proof.
  intros H. unfold Base128StreamReader.read_raw, Base128StreamReader.space_left.
  cbn [Base128StreamReader.pos_ Base128StreamReader.end_].
  destruct (Nat.ltb_spec (e - p) sz); [reflexivity|lia].
Qed.

(** A pair of values whose bytes the stream does not hold to the end: the
    first or the second [next] fails. *)
Lemma fcm_read_pair_cut (v1 v2 : Z) (rd : FcmStreamReader.t) (m : list Z) (p e : nat) :
  Z.even (FcmStreamReader.iter_ rd) = true ->
  predictor_ok (FcmStreamReader.predictor_ rd) ->
  0 <= v1 < 2 ^ 64 -> 0 <= v2 < 2 ^ 64 ->
  let pr := FcmStreamReader.predictor_ rd in
  let bytes := fcm_pair_bytes pr v1 v2 in
  holds m p bytes -> (e < p + length bytes)%nat ->
  FcmStreamReader.next rd (Base128StreamReader.mk m p e) = Panic \/
  exists rd1 s1,
    FcmStreamReader.next rd (Base128StreamReader.mk m p e) = Value (v1, rd1, s1) /\
    FcmStreamReader.next rd1 s1 = Panic.
Proof.
  intros Heven Hp Hv1 Hv2 pr bytes Hm He.
  pose proof (predict_next_range pr Hp) as Hpr.
  pose proof (predictor_update_ok v1 pr Hp Hv1) as Hp1.
  pose proof (predict_next_range _ Hp1) as Hpr1.
  assert (Hlen : length bytes
                 = (1 + significant_bytes 8 (Z.lxor v1 (FcmPredictor.predict_next pr))
                    + significant_bytes 8
                        (Z.lxor v2 (FcmPredictor.predict_next (FcmPredictor.update v1 pr))))%nat)
    by apply fcm_pair_bytes_length.
  assert (Hbytes : bytes = fcm_pair_bytes pr v1 v2) by reflexivity.
  unfold fcm_pair_bytes in Hbytes. clearbody bytes.
  assert (Ev1 : Z.lxor (Z.lxor v1 (FcmPredictor.predict_next pr))
                  (FcmPredictor.predict_next pr) = v1) by apply lxor_cancel.
  remember (Z.lxor v1 (FcmPredictor.predict_next pr)) as d1 eqn:Ed1.
  remember (FcmPredictor.update v1 pr) as p1 eqn:Ep1.
  remember (Z.lxor v2 (FcmPredictor.predict_next p1)) as d2 eqn:Ed2.
  assert (Hd1 : 0 <= d1 < 2 ^ 64) by (subst d1; apply lxor_u64; assumption).
  assert (Hd2 : 0 <= d2 < 2 ^ 64) by (subst d2; apply lxor_u64; assumption).
  destruct (flag_spec d1 Hd1) as (Hf1 & Hn1 & Hr1).
  destruct (flag_spec d2 Hd2) as (Hf2 & Hn2 & Hr2).
  destruct (flag_byte_spec _ _ Hf1 Hf2) as (_ & Hb & Hhi & Hlo).
  remember (significant_bytes 8 d1) as n1 eqn:En1.
  remember (significant_bytes 8 d2) as n2 eqn:En2.
  remember (leading_zero_bytes d1) as f1 eqn:Ef1.
  remember (leading_zero_bytes d2) as f2 eqn:Ef2.
  remember (Z.lor (Z.shiftl f1 4) f2) as b eqn:Eb.
  assert (Hl1 : length (le_bytes n1 d1) = n1) by apply le_bytes_length.
  rewrite Hbytes in Hm.
  apply holds_app in Hm. destruct Hm as [Hm0 Hm].
  apply holds_app in Hm. destruct Hm as [Hm1 Hm2].
  cbn [length] in Hm1.
  destruct (le_lt_dec (p + 1) e) as [H0|H0].
  2:{ left. unfold FcmStreamReader.next.
      rewrite Heven, read_raw_short by lia. reflexivity. }
  assert (R0 : Base128StreamReader.read_raw 1 (Base128StreamReader.mk m p e)
               = Value (b, Base128StreamReader.mk m (p + 1) e)).
  { rewrite <- Hb. apply (read_raw_ok [b]); [assumption|cbn [length]; lia]. }
  destruct (le_lt_dec (p + 1 + n1) e) as [H1|H1].
  2:{ left. unfold FcmStreamReader.next. rewrite Heven, R0.
      cbn [mbind outcome_bind]. rewrite Hhi.
      destruct (Z.ltb_spec 8 f1); [lia|].
      rewrite Hn1, read_raw_short by lia. reflexivity. }
  assert (R1 : Base128StreamReader.read_raw n1 (Base128StreamReader.mk m (p + 1) e)
               = Value (d1, Base128StreamReader.mk m (p + 1 + n1) e)).
  { rewrite <- Hr1. rewrite <- Hl1 at 1 3.
    apply read_raw_ok; [assumption|rewrite Hl1; lia]. }
  assert (N1 : FcmStreamReader.next rd (Base128StreamReader.mk m p e)
               = Value (v1, FcmStreamReader.mk p1 b (wrap u32 (FcmStreamReader.iter_ rd + 1)),
                        Base128StreamReader.mk m (p + 1 + n1) e)).
  { unfold FcmStreamReader.next. rewrite Heven, R0.
    cbn [mbind outcome_bind]. rewrite Hhi.
    destruct (Z.ltb_spec 8 f1); [lia|].
    rewrite Hn1, R1. cbn [mbind outcome_bind mret outcome_ret].
    fold pr. rewrite Ev1, <- Ep1. reflexivity. }
  right. eexists _, _. split; [exact N1|].
  unfold FcmStreamReader.next.
  cbn [FcmStreamReader.iter_ FcmStreamReader.flags_ FcmStreamReader.predictor_].
  rewrite even_wrap_u32, Heven.
  cbn [negb mbind outcome_bind mret outcome_ret]. rewrite Hlo.
  destruct (Z.ltb_spec 8 f2); [lia|].
  rewrite Hn2, read_raw_short by lia. reflexivity.
Qed.

Lemma fcm_bytes_app (n : nat) : forall (l1 l2 : list Z) (p : FcmPredictor.t),
  length l1 = (2 * n)%nat ->
  fcm_bytes p (l1 ++ l2) = fcm_bytes p l1 ++ fcm_bytes (predictor_after p l1) l2.
Proof.
  induction n as [|n IH]; intros l1 l2 p Hlen.
  - destruct l1; [reflexivity|discriminate].
  - destruct l1 as [|v1 [|v2 l1]]; try (cbn [length] in Hlen; lia).
    change ((v1 :: v2 :: l1) ++ l2) with (v1 :: v2 :: (l1 ++ l2)).
    change (fcm_bytes p (v1 :: v2 :: l1 ++ l2))
      with (fcm_pair_bytes p v1 v2
            ++ fcm_bytes (FcmPredictor.update v2 (FcmPredictor.update v1 p)) (l1 ++ l2)).
    change (fcm_bytes p (v1 :: v2 :: l1))
      with (fcm_pair_bytes p v1 v2
            ++ fcm_bytes (FcmPredictor.update v2 (FcmPredictor.update v1 p)) l1).
    rewrite IH by (cbn [length] in Hlen; lia).
    rewrite <- app_assoc. reflexivity.
Qed.

Lemma fcm_bytes_nonempty (p : FcmPredictor.t) (v1 v2 : Z) (values : list Z) :
  (1 <= length (fcm_bytes p (v1 :: v2 :: values)))%nat.
Proof.
  cbn [fcm_bytes]. rewrite length_app, fcm_pair_bytes_length. lia.
Qed.

Lemma payload_nonempty (F : list (list (Z * Z))) (prev : Z) (p : FcmPredictor.t) :
  F <> [] -> Forall chunk_ok F -> (1 <= length (payload prev p F))%nat.
Proof.
  intros Hne HF. destruct F as [|c F]; [congruence|].
  apply Forall_cons in HF as [[Hlen _] _].
  cbn [payload]. rewrite !length_app.
  destruct c as [|s1 [|s2 c]]; try (cbn [length] in Hlen; lia).
  cbn [map]. pose proof (fcm_bytes_nonempty p s1.2 s2.2 (map snd c)). lia.
Qed.

(** Within a chunk, [next] hands out the buffered timestamps and decodes one
    value each, up to any sample of the chunk. *)
Lemma reader_next_run (m : list Z) (N j : Z) (tsS : DeltaRLEReader)
    (tsl : list Z) (valf : FcmStreamReader.t) (sf : Base128StreamReader.t)
    (rest : list (Z * Z)) :
  forall (k : nat) (s : Base128StreamReader.t) (val : FcmStreamReader.t),
  (1 <= k)%nat -> (k + length rest <= 16)%nat ->
  map fst rest = take (length rest) (drop k tsl) ->
  read_n (length rest) val s = Value (map snd rest, valf, sf) ->
  Base128StreamReader.mem s = m ->
  le_value (load_bytes m 2 2) * 16 = N ->
  0 <= j -> 16 * j + 16 <= N -> N < 2 ^ 32 ->
  next_all (length rest)
    (DataBlockReader.mk 0 s tsS val tsl (16 * j + Z.of_nat k)) =
  Some (rest,
        DataBlockReader.mk 0 sf tsS valf tsl (16 * j + Z.of_nat (k + length rest))).
Proof.
  induction rest as [|[t0 v0] rest IH]; intros k s val Hk Hlen Hts Hrd Hmem HN Hj HjN HN32.
  - cbn [length read_n next_all] in *. injection Hrd as -> ->.
    rewrite Nat.add_0_r. reflexivity.
  - cbn [length map] in *.
    apply read_n_S_inv in Hrd. destruct Hrd as (val1 & s1 & Hn1 & Hrd).
    cbn [stream_next FcmStreamReader_ops] in Hn1.
    pose proof (fcm_next_mem _ _ _ _ _ Hn1) as Hmem1.
    cbn [next_all].
    unfold DataBlockReader.next at 1.
    unfold DataBlockReader.nelements, DataBlockReader.nchunks,
      DataBlockReader.CHUNK_MASK.
    rsimpl. rewrite Hmem. change (0 + 2)%nat with 2%nat. rewrite HN.
    destruct (Z.ltb_spec (16 * j + Z.of_nat k) N); [|lia].
    rewrite chunk_index_spec by lia.
    destruct (Z.eqb_spec (Z.of_nat k) 0); [lia|].
    rsimpl. rewrite Hn1. rsimpl.
    rewrite wrap_u32_id by lia.
    replace (16 * j + Z.of_nat k + 1) with (16 * j + Z.of_nat (S k)) by lia.
    rewrite (IH (S k) s1 val1); try assumption; try lia.
    + rewrite Nat2Z.id.
      assert (Hl : tsl !! k = Some t0).
      { pose proof (f_equal (fun l => l !! 0%nat) Hts) as E. cbn beta in E.
        rewrite lookup_take_lt, lookup_drop, Nat.add_0_r in E by lia.
        cbn [lookup list_lookup] in E. symmetry. exact E. }
      rewrite (list_lookup_total_correct _ _ _ Hl).
      replace (S k + length rest)%nat with (k + S (length rest))%nat by lia.
      reflexivity.
    + pose proof (f_equal (drop 1) Hts) as E. cbn [drop] in E.
      rewrite drop_0 in E. rewrite E.
      replace (S k) with (k + 1)%nat by lia.
      rewrite <- drop_drop. symmetry.
      apply (take_drop_commute (drop k tsl) (length rest) 1).
    + congruence.
Qed.

(** A failure of the value stream within a chunk is reported as corrupt. *)
Lemma reader_next_corrupt (m : list Z) (N j : Z) (tsS : DeltaRLEReader)
    (tsl : list Z) (k : nat) (s : Base128StreamReader.t) (val : FcmStreamReader.t) :
  (1 <= k < 16)%nat ->
  FcmStreamReader.next val s = Panic ->
  Base128StreamReader.mem s = m ->
  le_value (load_bytes m 2 2) * 16 = N ->
  0 <= j -> 16 * j + 16 <= N -> N < 2 ^ 32 ->
  let rd := DataBlockReader.mk 0 s tsS val tsl (16 * j + Z.of_nat k) in
  DataBlockReader.next rd = (Corrupt, 0, 0, rd).
Proof.
  intros Hk Hn Hmem HN Hj HjN HN32 rd. unfold rd, DataBlockReader.next.
  unfold DataBlockReader.nelements, DataBlockReader.nchunks,
    DataBlockReader.CHUNK_MASK.
  rsimpl. rewrite Hmem. change (0 + 2)%nat with 2%nat. rewrite HN.
  destruct (Z.ltb_spec (16 * j + Z.of_nat k) N); [|lia].
  rewrite chunk_index_spec by lia.
  destruct (Z.eqb_spec (Z.of_nat k) 0); [lia|].
  rsimpl. rewrite Hn. reflexivity.
Qed.


Lemma chunk_split (c : list (Z * Z)) :
  length c = 16%nat ->
  exists s1 rest s15 s16, c = (s1 :: rest) ++ [s15; s16] /\ length rest = 13%nat.
Proof.
  intros H.
  destruct (drop 14 c) as [|s15 [|s16 [|? ?]]] eqn:E;
    pose proof (f_equal length E) as El; rewrite length_drop in El;
    cbn [length] in El; try lia.
  destruct (take 14 c) as [|s1 rest] eqn:E1;
    pose proof (f_equal length E1) as El1; rewrite length_take in El1;
    cbn [length] in El1; try lia.
  exists s1, rest, s15, s16. split; [|lia].
  rewrite <- E, <- E1. symmetry. apply take_drop.
Qed.

(** The sixteen [next] calls of a chunk whose last byte lies at [end_]: the
    fifteenth or the sixteenth reports corruption, the calls before return
    the samples. *)
Lemma reader_cut_chunk (m : list Z) (N j : Z) (c : list (Z * Z)) (p e : nat)
    (rle : RLEStreamReader.t u64) (prev : Z) (val : FcmStreamReader.t)
    (buf : list Z) :
  chunk_ok c -> RLEStreamReader.reps_ rle = 0 ->
  Z.even (FcmStreamReader.iter_ val) = true ->
  predictor_ok (FcmStreamReader.predictor_ val) ->
  let pr := FcmStreamReader.predictor_ val in
  let bytes := ts_chunk_bytes prev (map fst c) ++ fcm_bytes pr (map snd c) in
  holds m p bytes -> (e + 1 = p + length bytes)%nat ->
  le_value (load_bytes m 2 2) * 16 = N ->
  0 <= j -> 16 * j + 16 <= N -> N < 2 ^ 32 ->
  exists (k : nat) (rd' : DataBlockReader.t),
    (14 <= k < 16)%nat /\
    next_all k
      (DataBlockReader.mk 0 (Base128StreamReader.mk m p e)
         (DeltaStreamReader.mk (T:=u64) rle prev) val buf (16 * j)) =
    Some (take k c, rd') /\
    DataBlockReader.next rd' = (Corrupt, 0, 0, rd').
Proof.
  intros [Hlen Hok] Hrle Heven Hpred pr bytes Hm He HN Hj HjN HN32.
  destruct (chunk_split c Hlen) as ([t0 v0] & rest & s15 & s16 & -> & Hlr).
  pose proof Hok as Hok'. apply Forall_app in Hok' as [Hok14 Hok2].
  apply Forall_cons in Hok2 as [[_ Hv15] Hok2].
  apply Forall_cons in Hok2 as [[_ Hv16] _].
  set (c14 := (t0, v0) :: rest) in *.
  assert (Hl14 : length c14 = 14%nat) by (unfold c14; cbn [length]; lia).
  assert (Hl1 : length (map fst (c14 ++ [s15; s16])) = 16%nat)
    by (rewrite length_map; assumption).
  assert (Hlv : length (map snd c14) = 14%nat) by (rewrite length_map; assumption).
  set (pr14 := predictor_after pr (map snd c14)).
  assert (Hfcm : fcm_bytes pr (map snd (c14 ++ [s15; s16]))
                 = fcm_bytes pr (map snd c14) ++ fcm_pair_bytes pr14 s15.2 s16.2).
  { rewrite map_app, (fcm_bytes_app 7) by (rewrite Hlv; reflexivity).
    fold pr14. cbn [map fcm_bytes]. rewrite app_nil_r. reflexivity. }
  subst bytes. rewrite Hfcm in Hm, He. rewrite !length_app in He.
  apply holds_app in Hm. destruct Hm as [Hts Hm].
  apply holds_app in Hm. destruct Hm as [Hf14 Hpair].
  pose proof (fcm_pair_bytes_length pr14 s15.2 s16.2) as Hpl.
  assert (Hpr14 : predictor_ok pr14)
    by (apply predictor_after_ok; [assumption|apply samples_snd_ok; assumption]).
  destruct (ts_read_chunk (map fst (c14 ++ [s15; s16])) prev rle m p e)
    as (rle' & Hrle' & Hread);
    [apply samples_fst_ok; assumption|rewrite Hl1; reflexivity|assumption
    |assumption|lia|].
  rewrite Hl1 in Hread.
  destruct (fcm_read_spec 7 (map snd c14) val m
              (p + length (ts_chunk_bytes prev (map fst (c14 ++ [s15; s16])))) e)
    as (fl & it & Hit & Hread2);
    [rewrite Hlv; reflexivity|assumption|assumption
    |apply samples_snd_ok; assumption|assumption|fold pr; lia|].
  fold pr pr14 in Hread2. rewrite Hlv in Hread2.
  set (tsl := map fst (c14 ++ [s15; s16])) in *.
  set (p1 := (p + length (ts_chunk_bytes prev tsl))%nat) in *.
  set (p14 := (p1 + length (fcm_bytes pr (map snd c14)))%nat) in *.
  assert (Hcut : (p14 <= e < p14 + length (fcm_pair_bytes pr14 s15.2 s16.2))%nat)
    by (unfold p14, p1; lia).
  set (val14 := FcmStreamReader.mk pr14 fl it) in *.
  set (tsS := DeltaStreamReader.mk rle' (default prev (last tsl))) in *.
  set (rd0 := DataBlockReader.mk 0 (Base128StreamReader.mk m p e)
                (DeltaStreamReader.mk (T:=u64) rle prev) val buf (16 * j)).
  (* the first fourteen samples *)
  unfold c14 in Hread2. cbn [map] in Hread2.
  apply read_n_S_inv in Hread2. destruct Hread2 as (val1 & s1 & Hn1 & Hrd).
  cbn [stream_next FcmStreamReader_ops] in Hn1.
  pose proof (fcm_next_mem _ _ _ _ _ Hn1) as Hmem1.
  cbn [Base128StreamReader.mem] in Hmem1.
  assert (Hfirst :
    DataBlockReader.next rd0 =
    (AKU_SUCCESS, t0, v0, DataBlockReader.mk 0 s1 tsS val1 tsl (16 * j + Z.of_nat 1))).
  { unfold rd0, DataBlockReader.next.
    unfold DataBlockReader.nelements, DataBlockReader.nchunks,
      DataBlockReader.CHUNK_MASK, DataBlockReader.CHUNK_SIZE.
    rsimpl. change (0 + 2)%nat with 2%nat. rewrite HN.
    destruct (Z.ltb_spec (16 * j) N); [|lia].
    replace (Z.land (16 * j) 15) with 0
      by (rewrite land_15; Z.div_mod_to_equations; lia).
    cbn [Z.eqb]. unfold DeltaRLEReader. rewrite Hread. rsimpl. rewrite Hn1. rsimpl.
    rewrite wrap_u32_id by lia. reflexivity. }
  set (st14 := DataBlockReader.mk 0 (Base128StreamReader.mk m p14 e) tsS val14 tsl
                 (16 * j + Z.of_nat 14)).
  assert (H14 : next_all 14 rd0 = Some (c14, st14)).
  { assert (Hone : next_all 1 rd0 =
              Some ([(t0, v0)],
                    DataBlockReader.mk 0 s1 tsS val1 tsl (16 * j + Z.of_nat 1)))
      by (cbn [next_all]; rewrite Hfirst; reflexivity).
    change 14%nat with (1 + 13)%nat at 1. rewrite next_all_app, Hone.
    replace (next_all 13) with (next_all (length rest)) by (f_equal; lia).
    rewrite (reader_next_run m N j tsS tsl val14 (Base128StreamReader.mk m p14 e)
               rest 1 s1 val1); try assumption; try lia.
    - rewrite Hlr. reflexivity.
    - unfold tsl, c14. rewrite map_app. cbn [map app drop].
      symmetry. apply take_app_length'. rewrite length_map. reflexivity.
    - rewrite Hlr. exact Hrd. }
  destruct (fcm_read_pair_cut s15.2 s16.2 val14 m p14 e Hit Hpr14 Hv15 Hv16 Hpair
              (proj2 Hcut)) as [Hpanic|(rd1 & s1' & Hv & Hpanic)].
  - exists 14%nat, st14. split; [lia|]. split.
    + rewrite H14. rewrite take_app_length' by (symmetry; assumption). reflexivity.
    + apply (reader_next_corrupt m N j tsS tsl 14); try assumption; try lia.
      reflexivity.
  - pose proof (fcm_next_mem _ _ _ _ _ Hv) as Hmem2.
    cbn [Base128StreamReader.mem] in Hmem2.
    set (st15 := DataBlockReader.mk 0 s1' tsS rd1 tsl (16 * j + Z.of_nat 15)).
    exists 15%nat, st15. split; [lia|]. split.
    + change 15%nat with (14 + 1)%nat at 1. rewrite next_all_app, H14.
      change 1%nat with (length [s15]) at 1.
      unfold st14.
      rewrite (reader_next_run m N j tsS tsl rd1 s1' [s15] 14
                 (Base128StreamReader.mk m p14 e) val14); try assumption; try lia.
      * change (take 15 (c14 ++ [s15; s16]))
          with (take (14 + 1) (c14 ++ [s15; s16])).
        rewrite (take_app_add' c14 [s15; s16] 14 1) by (symmetry; assumption).
        reflexivity.
      * cbn [length]. lia.
      * unfold tsl. rewrite map_app.
        rewrite drop_app_length' by (rewrite length_map; symmetry; assumption).
        reflexivity.
      * cbn [length read_n stream_next FcmStreamReader_ops map].
        rewrite Hv. reflexivity.
      * reflexivity.
    + apply (reader_next_corrupt m N j tsS tsl 15); try assumption; lia.
Qed.

(** The chunks of a payload whose last byte lies at [end_]: a [next] call
    before the last sample reports corruption, the calls before it return
    the samples. *)
Lemma reader_cut_chunks (m : list Z) (N : Z) (e : nat) (F : list (list (Z * Z))) :
  forall (j : Z) (p : nat) (rle : RLEStreamReader.t u64) (prev : Z)
         (val : FcmStreamReader.t) (buf : list Z),
  F <> [] -> Forall chunk_ok F -> RLEStreamReader.reps_ rle = 0 ->
  Z.even (FcmStreamReader.iter_ val) = true ->
  predictor_ok (FcmStreamReader.predictor_ val) ->
  holds m p (payload prev (FcmStreamReader.predictor_ val) F) ->
  (e + 1 = p + length (payload prev (FcmStreamReader.predictor_ val) F))%nat ->
  le_value (load_bytes m 2 2) * 16 = N ->
  0 <= j -> 16 * j + 16 * Z.of_nat (length F) <= N -> N < 2 ^ 32 ->
  exists (k : nat) (rd' : DataBlockReader.t),
    (k < 16 * length F)%nat /\
    next_all k
      (DataBlockReader.mk 0 (Base128StreamReader.mk m p e)
         (DeltaStreamReader.mk (T:=u64) rle prev) val buf (16 * j)) =
    Some (take k (concat F), rd') /\
    DataBlockReader.next rd' = (Corrupt, 0, 0, rd').
Proof.
  induction F as [|c F IH];
    intros j p rle prev val buf Hne HF Hrle Heven Hpred Hm He HN Hj HjN HN32;
    [congruence|].
  apply Forall_cons in HF as [Hc HF]. cbn [payload length] in *.
  destruct F as [|c' F'].
  - cbn [payload] in Hm, He. rewrite app_nil_r in Hm, He.
    destruct (reader_cut_chunk m N j c p e rle prev val buf Hc Hrle Heven Hpred
                Hm He HN Hj ltac:(cbn [length] in HjN; lia) HN32)
      as (k & rd' & Hk & Hall & Hcor).
    exists k, rd'. cbn [length concat]. rewrite app_nil_r.
    split; [lia|]. split; assumption.
  - set (F := c' :: F') in *.
    assert (HneF : F <> []) by discriminate.
    rewrite app_assoc in Hm, He.
    apply holds_app in Hm. destruct Hm as [Hm1 Hm2].
    rewrite length_app in He.
    pose proof (payload_nonempty F (default prev (last (map fst c)))
                  (predictor_after (FcmStreamReader.predictor_ val) (map snd c))
                  HneF HF) as Hpl.
    destruct (reader_next_chunk m N j c p e rle prev val buf Hc Hrle Heven Hpred
                Hm1 ltac:(lia) HN Hj ltac:(lia) HN32)
      as (rle' & fl & it & buf' & Hrle' & Hit & Hchunk).
    set (len1 := length (ts_chunk_bytes prev (map fst c)
                         ++ fcm_bytes (FcmStreamReader.predictor_ val) (map snd c))) in *.
    set (val' := FcmStreamReader.mk
                   (predictor_after (FcmStreamReader.predictor_ val) (map snd c)) fl it) in *.
    destruct (IH (j + 1) (p + len1)%nat rle' (default prev (last (map fst c)))
                val' buf' HneF HF Hrle' Hit) as (k & rd' & Hk & Hall & Hcor).
    + apply predictor_after_ok; [assumption|apply samples_snd_ok; apply Hc].
    + exact Hm2.
    + cbn [val' FcmStreamReader.predictor_]. lia.
    + assumption.
    + lia.
    + lia.
    + assumption.
    + exists (16 + k)%nat, rd'. split; [lia|]. split; [|assumption].
      rewrite next_all_app, Hchunk.
      replace (16 * j + 16) with (16 * (j + 1)) by lia.
      rewrite Hall. cbn [concat].
      rewrite (take_app_add' c (concat F) 16 k) by (symmetry; apply Hc).
      reflexivity.
Qed.

(** A sealed block less its last byte.  Without a chunk the header is cut
    and the constructor of the reader refuses the buffer; with chunks the
    byte is the last of the values of the last chunk, and a [next] call
    before the last sample reports corruption. *)
Lemma block_cut_last_byte (P : Params) (id : Z) (buf : list Z) (B : nat)
    (samples : list (Z * Z)) (w : DataBlockWriter.t) :
  (B <= length buf)%nat -> 0 <= id < 2 ^ 64 ->
  Forall sample_ok samples ->
  Z.of_nat (length samples) <= 16 * MAX_CHUNKS_PER_BLOCK ->
  write_block P id buf B samples = Some w ->
  let sealed := take (length samples - length samples `mod` 16) samples in
  let used := (DataBlockWriter.commit w).1 in
  let block :=
    Base128StreamWriter.mem (DataBlockWriter.stream_ (DataBlockWriter.commit w).2) in
  ((length samples < 16)%nat ->
   DataBlockReader.make P block (used - 1) = inr BadArgument) /\
  ((16 <= length samples)%nat ->
   exists (rd : DataBlockReader.t) (k : nat) (rd' : DataBlockReader.t),
     DataBlockReader.make P block (used - 1) = inl rd /\
     (k < length sealed)%nat /\
     next_all k rd = Some (take k sealed, rd') /\
     DataBlockReader.next rd' = (Corrupt, 0, 0, rd')).
Proof.
  intros HB Hid Hs Hmax Hw sealed used block.
  unfold write_block in Hw.
  destruct (DataBlockWriter.make P id buf B) as [w0|] eqn:Hmake; [|discriminate].
  pose proof (writer_make_inv P id buf B w0 HB Hmake) as Hinv0.
  unfold MAX_CHUNKS_PER_BLOCK in Hmax.
  assert (H31 : 16 * 65535 < 2 ^ 31) by reflexivity.
  destruct (writer_put_all_inv P id B samples w0 w [] [] Hinv0 Hs
              ltac:(cbn [length]; lia) Hw) as (F & T & Hinv & Hcat).
  cbn [concat app] in Hcat.
  pose proof (writer_commit_inv P id B w F T Hinv) as Hcommit.
  cbv zeta in Hcommit. fold used block in Hcommit.
  destruct Hcommit as (Hused & HusedB & _ & _ & Hblock).
  destruct Hinv as (_ & HF & HT & HlT & _).
  destruct (chunks_of_samples F T samples HF HlT Hcat)
    as (Hmod & Hlen & Htake & Hdrop).
  subst sealed. rewrite Htake.
  set (p0 := FcmPredictor.make (table_size P)) in *.
  split.
  - intros Hshort. assert (HF0 : F = []) by (destruct F; [reflexivity|cbn [length] in Hlen; lia]).
    rewrite HF0 in Hused. cbn [payload length] in Hused. rewrite Hused.
    reflexivity.
  - intros Hlong. assert (HFne : F <> []).
    { intros ->. cbn [length] in Hlen. lia. }
    pose proof (payload_nonempty F 0 p0 HFne HF) as Hpl.
    assert (HlF : Z.of_nat (length F) <= 65535) by lia.
    assert (H16 : 65535 < 2 ^ 16) by reflexivity.
    destruct (reader_make_ok P block (payload 0 p0 F) (used - 1)
                (Z.of_nat (length F)) (Z.of_nat (length T)) id Hblock
                ltac:(lia) ltac:(lia) Hid ltac:(lia))
      as (Hrd & _ & Hnchunks & _).
    set (rd := DataBlockReader.mk 0 (Base128StreamReader.make block 14 (used - 1))
                 DeltaRLEReader_make (FcmStreamReader.make P)
                 (replicate DataBlockReader.CHUNK_SIZE 0) 0) in *.
    assert (HN : le_value (load_bytes block 2 2) * 16 = 16 * Z.of_nat (length F)).
    { unfold DataBlockReader.nchunks, rd, Base128StreamReader.make in Hnchunks.
      cbn [DataBlockReader.stream_ DataBlockReader.begin_ Base128StreamReader.mem]
        in Hnchunks.
      change (0 + 2)%nat with 2%nat in Hnchunks. rewrite Hnchunks. lia. }
    apply holds_app in Hblock. destruct Hblock as [_ Hpay].
    rewrite header_bytes_length in Hpay. cbn [Nat.add] in Hpay.
    assert (H32 : 16 * 65535 < 2 ^ 32) by reflexivity.
    assert (Hend : (used - 1 + 1
                    = 14 + length (payload 0 (FcmStreamReader.predictor_
                                                (FcmStreamReader.make P)) F))%nat)
      by (change (FcmStreamReader.predictor_ (FcmStreamReader.make P)) with p0; lia).
    destruct (reader_cut_chunks block (16 * Z.of_nat (length F)) (used - 1) F 0 14
                (RLEStreamReader.make u64) 0 (FcmStreamReader.make P)
                (replicate DataBlockReader.CHUNK_SIZE 0) HFne HF eq_refl eq_refl
                (predictor_make_ok _) Hpay Hend HN
                ltac:(lia) ltac:(lia) ltac:(lia))
      as (k & rd' & Hk & Hall & Hcor).
    exists rd, k, rd'. split; [exact Hrd|].
    rewrite concat_chunks_length by assumption.
    split; [assumption|]. split; assumption.
Qed.


(** * The claims *)

(** C3. VarInt bijection and length: for every [u] in [[0, 2^64)] and every
    stream with at least 10 free bytes, [Base128StreamWriter::put(u)]
    succeeds and writes exactly [max(1, ceil(bitlen(u)/7))] bytes, the bytes
    [varint u], at the cursor, leaving the rest of the memory as it was (for
    [u = 0] the single byte [0x00]); and [Base128StreamReader::next] over
    those bytes (whatever follows them) returns [u] and stops right after
    them. *)
Theorem varint_bijection_and_length (u : Z) (s : Base128StreamWriter.t) :
  0 <= u < 2 ^ 64 ->
  Base128StreamWriter.wf s ->
  (10 <= Base128StreamWriter.space_left s)%nat ->
  let n := encode_len u in
  let r := Base128StreamWriter.put u s in
  Z.of_nat n = Z.max 1 ((bitlen u + 6) / 7) /\
  r.1 = true /\
  Base128StreamWriter.pos_ r.2 = (Base128StreamWriter.pos_ s + n)%nat /\
  Base128StreamWriter.mem r.2 =
    blit (Base128StreamWriter.mem s) (Base128StreamWriter.pos_ s) (varint u) /\
  length (varint u) = n /\
  (u = 0 -> varint u = [0]) /\
  forall end', (Base128StreamWriter.pos_ s + n <= end')%nat ->
    Base128StreamReader.next u64
      (Base128StreamReader.mk (Base128StreamWriter.mem r.2)
         (Base128StreamWriter.pos_ s) end') =
    Value (u, Base128StreamReader.mk (Base128StreamWriter.mem r.2)
                (Base128StreamWriter.pos_ s + n) end').
Proof.
  intros Hu Hwf Hroom n r.
  pose proof (encode_len_u64 u Hu) as Hn.
  unfold Base128StreamWriter.space_left in Hroom.
  assert (Hfit : (Base128StreamWriter.pos_ s + n <= Base128StreamWriter.end_ s)%nat)
    by (subst n; lia).
  subst r. rewrite stream_put_ok by (assumption || lia). simpl.
  split; [unfold n, encode_len; lia|].
  split; [reflexivity|]. split; [reflexivity|]. split; [reflexivity|].
  split; [apply varint_length|].
  split; [intros ->; reflexivity|].
  intros end' Hend.
  destruct Hwf as (_ & _ & Hlen).
  apply stream_next_ok; simpl; [assumption| |assumption].
  apply holds_blit. rewrite varint_length. fold n. lia.
Qed.

Lemma varint_bijection_and_length_witness :
  let s := Base128StreamWriter.make (replicate 12 255) 0 12 in
  (0 <= 300 < 2 ^ 64 /\ Base128StreamWriter.wf s /\
   (10 <= Base128StreamWriter.space_left s)%nat) /\
  (Base128StreamWriter.put 300 s).1 = true /\
  Base128StreamWriter.pos_ (Base128StreamWriter.put 300 s).2 = 2%nat.
Proof.
  intros s.
  assert (Hu : 0 <= 300 < 2 ^ 64) by lia.
  assert (Hwf : Base128StreamWriter.wf s)
    by (unfold Base128StreamWriter.wf; simpl; lia).
  assert (Hroom : (10 <= Base128StreamWriter.space_left s)%nat)
    by (unfold Base128StreamWriter.space_left; simpl; lia).
  split; [auto|].
  destruct (varint_bijection_and_length 300 s Hu Hwf Hroom)
    as (_ & H1 & H2 & _).
  split; [exact H1|exact H2].
Defined.

(** C6, amended. Truncation rejection: when the remaining bytes of the
    input run out inside a value (each one up to [end_] has the continuation
    bit [0x80]; or none remains, [assert(begin < end)] being compiled out),
    [Base128StreamReader::next] returns no value but takes the out-of-bounds
    path (it is a total function: it terminates), and it does so whatever the
    memory holds at or past [end_]: no such byte is read.  The failure is
    passed on by the timestamp stack whenever its reader is to load a pair;
    and an encoding cut short by one byte or more is such an input.  A
    sealed block less its last byte is rejected
    as well, though not on this path: a block without a chunk is its header,
    and the constructor of the reader refuses the 13 bytes; in a block with
    chunks the byte is the last one of the values of the last chunk, the
    reader is constructed, its [next] calls return the samples as written,
    and one of them, before the last sample, reports corruption (from
    [read_raw] of the value codec). *)
Theorem truncated_varint_rejected :
  (forall (T : IntType) (s : Base128StreamReader.t),
     (Base128StreamReader.pos_ s <= Base128StreamReader.end_ s)%nat ->
     (forall i, (Base128StreamReader.pos_ s <= i < Base128StreamReader.end_ s)%nat ->
                Z.land (load (Base128StreamReader.mem s) i) 128 <> 0) ->
     Base128StreamReader.next T s = Panic /\
     (forall m',
        (forall i, (i < Base128StreamReader.end_ s)%nat ->
                   load m' i = load (Base128StreamReader.mem s) i) ->
        Base128StreamReader.next T
          (Base128StreamReader.mk m' (Base128StreamReader.pos_ s)
             (Base128StreamReader.end_ s)) = Panic) /\
     (forall rd : DeltaRLEReader,
        RLEStreamReader.reps_ (DeltaStreamReader.stream_ rd) = 0 ->
        stream_next rd s = Panic)) /\
  (forall (T : IntType) (u : Z) (m : list Z) (p e : nat),
     0 <= u -> holds m p (varint u) ->
     (p <= e < p + encode_len u)%nat ->
     Base128StreamReader.next T (Base128StreamReader.mk m p e) = Panic) /\
  (forall (P : Params) (id : Z) (buf : list Z) (B : nat) (samples : list (Z * Z))
          (w : DataBlockWriter.t),
     (B <= length buf)%nat -> 0 <= id < 2 ^ 64 ->
     Forall sample_ok samples ->
     Z.of_nat (length samples) <= 16 * MAX_CHUNKS_PER_BLOCK ->
     write_block P id buf B samples = Some w ->
     let sealed := take (length samples - length samples `mod` 16) samples in
     let used := (DataBlockWriter.commit w).1 in
     let block :=
       Base128StreamWriter.mem (DataBlockWriter.stream_ (DataBlockWriter.commit w).2) in
     ((length samples < 16)%nat ->
      DataBlockReader.make P block (used - 1) = inr BadArgument) /\
     ((16 <= length samples)%nat ->
      exists (rd : DataBlockReader.t) (k : nat) (rd' : DataBlockReader.t),
        DataBlockReader.make P block (used - 1) = inl rd /\
        (k < length sealed)%nat /\
        next_all k rd = Some (take k sealed, rd') /\
        DataBlockReader.next rd' = (Corrupt, 0, 0, rd'))).
Proof.
  split; [|split].
  - intros T s Hle Hcont.
    split; [apply stream_next_truncated; assumption|]. split.
    + intros m' Hm'. apply stream_next_truncated. simpl.
      intros i Hi. rewrite Hm' by lia. apply Hcont. assumption.
    + intros [rle prev] Hr. cbn [DeltaStreamReader.stream_] in Hr.
      cbn [stream_next DeltaStreamReader_ops]. unfold DeltaStreamReader.next.
      cbn [DeltaStreamReader.stream_ stream_next RLEStreamReader_ops].
      unfold RLEStreamReader.next. rewrite Hr. cbn [Z.eqb].
      rewrite (stream_next_truncated u64 s) by assumption. reflexivity.
  - intros T u m p e Hu Hm He.
    apply stream_next_truncated. simpl. intros i Hi.
    replace i with (p + (i - p))%nat by lia.
    rewrite (holds_load m p (varint u)) by (rewrite ?varint_length; assumption || lia).
    apply base128_continuation. lia.
  - intros P id buf B samples w HB Hid Hs Hmax Hw.
    exact (block_cut_last_byte P id buf B samples w HB Hid Hs Hmax Hw).
Qed.

Lemma truncated_varint_rejected_witness :
  Base128StreamReader.next u64 (Base128StreamReader.mk [172; 2; 7] 0 1) = Panic /\
  Base128StreamReader.next u64 (Base128StreamReader.mk [172; 2; 7] 0 2) =
    Value (300, Base128StreamReader.mk [172; 2; 7] 2 2) /\
  let P := {| table_size := 128; chunk_reserve := 456; min_chunk_cost := 0 |} in
  let one := 4607182418800017408 in
  let samples :=
    [(1000, one); (1010, one); (1020, one); (1030, 0);
     (1040, 0); (1050, one); (1060, 4612811918334230528); (1070, one);
     (1080, one); (1090, one); (1100, 2 ^ 64 - 1); (1100, one);
     (1100, one); (1130, one); (1131, 1); (1132, one)] in
  exists w rd k rd',
    write_block P 7 (replicate 600 0) 600 samples = Some w /\
    (DataBlockWriter.commit w).1 = 137%nat /\
    DataBlockReader.make P
      (Base128StreamWriter.mem (DataBlockWriter.stream_ (DataBlockWriter.commit w).2))
      136 = inl rd /\
    (k < 16)%nat /\
    next_all k rd = Some (take k samples, rd') /\
    DataBlockReader.next rd' = (Corrupt, 0, 0, rd').
Proof.
  split; [|split; [reflexivity|]].
  { apply (proj1 (proj2 truncated_varint_rejected) u64 300 [172; 2; 7] 0%nat 1%nat).
    - lia.
    - reflexivity.
    - vm_compute. lia. }
  intros P one samples.
  assert (Hw : { w | write_block P 7 (replicate 600 0) 600 samples = Some w }).
  { eexists. vm_compute. reflexivity. }
  destruct Hw as [w Hw].
  assert (Hok : Forall sample_ok samples).
  { unfold samples, one, sample_ok.
    change (2 ^ 64) with 18446744073709551616.
    repeat (constructor; [cbn [fst snd]; lia|]). constructor. }
  assert (Hused : (DataBlockWriter.commit w).1 = 137%nat).
  { revert Hw. vm_compute. intros Hw. injection Hw as <-. reflexivity. }
  destruct (proj2 (proj2 truncated_varint_rejected) P 7 (replicate 600 0) 600%nat
              samples w) as [_ Hcut];
    [rewrite length_replicate; lia|lia|exact Hok|vm_compute; discriminate|exact Hw|].
  destruct (Hcut ltac:(vm_compute; lia)) as (rd & k & rd' & Hmake & Hk & Hall & Hcor).
  rewrite Hused in Hmake. change (137 - 1)%nat with 136%nat in Hmake.
  exists w, rd, k, rd'. repeat split; assumption.
Defined.

(** C6, as stated, fails: a reader over a block cut by one byte does not
    report an error when the byte is one the block does not use: a
    block of seventeen samples sealed in a buffer of 600 bytes uses 137 of
    them, and the reader over the first 599 bytes of the buffer returns the
    sixteen samples of the chunk and then the end of the block, as the
    reader over the 600 bytes does. *)
Lemma truncated_buffer_not_rejected :
  let P := {| table_size := 128; chunk_reserve := 456; min_chunk_cost := 0 |} in
  let one := 4607182418800017408 in
  let chunk :=
    [(1000, one); (1010, one); (1020, one); (1030, 0);
     (1040, 0); (1050, one); (1060, 4612811918334230528); (1070, one);
     (1080, one); (1090, one); (1100, 2 ^ 64 - 1); (1100, one);
     (1100, one); (1130, one); (1131, 1); (1132, one)] in
  let samples := chunk ++ [(1200, 4612811918334230528)] in
  exists w rd rd',
    write_block P 7 (replicate 600 0) 600 samples = Some w /\
    (DataBlockWriter.commit w).1 = 137%nat /\
    DataBlockReader.make P
      (Base128StreamWriter.mem (DataBlockWriter.stream_ (DataBlockWriter.commit w).2))
      599 = inl rd /\
    next_all 16 rd = Some (chunk, rd') /\
    DataBlockReader.next rd' = (Exhausted, 0, 0, rd').
Proof.
  intros P one chunk samples.
  eexists _, _, _.
  split; [vm_compute; reflexivity|].
  split; [vm_compute; reflexivity|].
  split; [vm_compute; reflexivity|].
  split; [vm_compute; reflexivity|].
  vm_compute. reflexivity.
Qed.

(** C2. Timestamp-stack round-trip: for every sequence of unsigned 64-bit
    timestamps, in any order, handed chunk by chunk to successive
    [DeltaRLEWriter::tput] calls (each chunk below the 1000 elements the
    [assert] allows) on a fresh writer: when the buffer has 20 free bytes
    per timestamp all calls succeed, and whenever all calls succeed a fresh
    [DeltaRLEReader] at the start of the written bytes returns, by
    successive [next()] calls, exactly the original sequence and stops where
    the writer stopped. *)
Theorem timestamp_stack_roundtrip (chunks : list (list Z))
    (stream : Base128StreamWriter.t) :
  Base128StreamWriter.wf stream ->
  Forall (fun c => u64_list c /\ (length c < 1000)%nat) chunks ->
  let r := tput_chunks chunks (DeltaRLEWriter_make stream) stream in
  ((20 * length (concat chunks) <= Base128StreamWriter.space_left stream)%nat ->
   r.1.1 = true) /\
  (r.1.1 = true ->
   (Base128StreamWriter.pos_ stream <= Base128StreamWriter.pos_ r.2
      <= Base128StreamWriter.end_ stream)%nat /\
   forall e, (Base128StreamWriter.pos_ r.2 <= e)%nat ->
     exists rd',
       read_n (length (concat chunks)) DeltaRLEReader_make
         (Base128StreamReader.mk (Base128StreamWriter.mem r.2)
            (Base128StreamWriter.pos_ stream) e) =
       Value (concat chunks, rd',
              Base128StreamReader.mk (Base128StreamWriter.mem r.2)
                (Base128StreamWriter.pos_ r.2) e)).
Proof.
  intros Hwf Hc r.
  assert (Hn : Forall (fun c => Z.of_nat (length c) < 2 ^ 64) chunks).
  { eapply Forall_impl; [exact Hc|]. intros c [_ H]. simpl.
    assert (1000 < 2 ^ 64) by reflexivity. lia. }
  assert (Hc' : Forall (fun c => u64_list c /\ Z.of_nat (length c) < 2 ^ 64) chunks).
  { eapply Forall_impl; [exact Hc|]. intros c [H1 H2]. simpl. split; [assumption|].
    assert (1000 < 2 ^ 64) by reflexivity. lia. }
  pose proof (ts_chunks_bytes_bound chunks 0 Hn) as Hbound.
  assert (Hfit : (Base128StreamWriter.pos_ stream + length (ts_chunks_bytes 0 chunks)
                  <= Base128StreamWriter.end_ stream)%nat -> 
          exists prev', r = (true,
            DeltaStreamWriter.mk
              (RLEStreamWriter.mk 0 0 (Base128StreamWriter.size stream)) prev',
            Base128StreamWriter.mk
              (blit (Base128StreamWriter.mem stream) (Base128StreamWriter.pos_ stream)
                 (ts_chunks_bytes 0 chunks))
              (Base128StreamWriter.begin_ stream) (Base128StreamWriter.end_ stream)
              (Base128StreamWriter.pos_ stream + length (ts_chunks_bytes 0 chunks)))).
  { intros Hroom. apply tput_chunks_ok; assumption. }
  split.
  - intros Hroom. unfold Base128StreamWriter.space_left in Hroom.
    destruct Hwf as (? & ? & ?).
    destruct Hfit as (prev' & ->); [lia|reflexivity].
  - intros Hok.
    assert (Hroom : (Base128StreamWriter.pos_ stream + length (ts_chunks_bytes 0 chunks)
                     <= Base128StreamWriter.end_ stream)%nat)
      by (apply (tput_chunks_true_fits chunks 0 (Base128StreamWriter.size stream));
          assumption).
    destruct (Hfit Hroom) as (prev' & ->). simpl.
    split; [lia|]. intros e He.
    destruct Hwf as (? & ? & ?).
    apply ts_read_chunks; try assumption; try reflexivity.
    apply holds_blit. lia.
Qed.

Lemma timestamp_stack_roundtrip_witness :
  let chunks := [[1000; 1000; 2000]; [5; 2 ^ 64 - 1]] in
  let stream := Base128StreamWriter.make (replicate 100 0) 0 100 in
  let r := tput_chunks chunks (DeltaRLEWriter_make stream) stream in
  r.1.1 = true /\
  exists rd',
    read_n 5 DeltaRLEReader_make
      (Base128StreamReader.mk (Base128StreamWriter.mem r.2) 0 100) =
    Value ([1000; 1000; 2000; 5; 2 ^ 64 - 1], rd',
           Base128StreamReader.mk (Base128StreamWriter.mem r.2)
             (Base128StreamWriter.pos_ r.2) 100).
Proof.
  intros chunks stream r.
  assert (Hwf : Base128StreamWriter.wf stream)
    by (unfold Base128StreamWriter.wf; simpl; lia).
  assert (Hc : Forall (fun c => u64_list c /\ (length c < 1000)%nat) chunks).
  { repeat constructor; simpl; lia. }
  destruct (timestamp_stack_roundtrip chunks stream Hwf Hc) as [H1 H2].
  assert (Hok : r.1.1 = true).
  { apply H1. unfold Base128StreamWriter.space_left. simpl. lia. }
  split; [exact Hok|].
  destruct (H2 Hok) as [_ H3].
  apply (H3 100%nat). vm_compute. lia.
Defined.


(** C7, as stated, fails: the chunk of 16 timestamps 1000 does not go to the
    byte stream as the single pair [(15, 1000)]. *)
Lemma constant_series_not_one_pair :
  let stream := Base128StreamWriter.make (replicate 32 0) 0 32 in
  let r := stream_tput (replicate 16 1000) (DeltaRLEWriter_make stream) stream in
  r.1.1 = true /\
  rle_outbuf u64 (DeltaStreamWriter.tput_loop u64 (replicate 16 1000) 0).1
    <> [15; 1000] /\
  take (Base128StreamWriter.pos_ r.2) (Base128StreamWriter.mem r.2)
    <> varints [15; 1000].
Proof.
  vm_compute. repeat split; discriminate.
Qed.

(** C7, amended. Flushing the 16 timestamps all equal to 1000 through the
    delta+RLE stack with initial [prev = 0] gives the differences 1000 and
    fifteen times 0, which go to the byte stream as two pairs, [(1, 1000)]
    and [(15, 0)]: the five bytes [01 E8 07 0F 00]. *)
Theorem constant_series_two_pairs (stream : Base128StreamWriter.t) :
  Base128StreamWriter.wf stream ->
  (5 <= Base128StreamWriter.space_left stream)%nat ->
  DeltaStreamWriter.tput_loop u64 (replicate 16 1000) 0
    = (1000 :: replicate 15 0, 1000) /\
  rle_outbuf u64 (1000 :: replicate 15 0) = flatten_pairs [(1, 1000); (15, 0)] /\
  stream_tput (replicate 16 1000) (DeltaRLEWriter_make stream) stream =
  (true,
   DeltaStreamWriter.mk (RLEStreamWriter.make u64 stream) 1000,
   Base128StreamWriter.mk
     (blit (Base128StreamWriter.mem stream) (Base128StreamWriter.pos_ stream)
        [1; 232; 7; 15; 0])
     (Base128StreamWriter.begin_ stream) (Base128StreamWriter.end_ stream)
     (Base128StreamWriter.pos_ stream + 5)).
Proof.
  intros Hwf Hroom. unfold Base128StreamWriter.space_left in Hroom.
  split; [reflexivity|]. split; [reflexivity|].
  unfold DeltaRLEWriter_make, RLEStreamWriter.make.
  assert (Hb : ts_chunk_bytes 0 (replicate 16 1000) = [1; 232; 7; 15; 0])
    by reflexivity.
  rewrite ts_tput_ok.
  - rewrite Hb. reflexivity.
  - assumption.
  - simpl. lia.
  - rewrite Hb. destruct Hwf as (? & ? & ?). simpl. lia.
Qed.

Lemma constant_series_two_pairs_witness :
  let stream := Base128StreamWriter.make (replicate 8 255) 0 8 in
  (stream_tput (replicate 16 1000) (DeltaRLEWriter_make stream) stream).2 =
  Base128StreamWriter.mk [1; 232; 7; 15; 0; 255; 255; 255] 0 8 5.
Proof.
  intros stream.
  assert (Hwf : Base128StreamWriter.wf stream)
    by (unfold Base128StreamWriter.wf; simpl; lia).
  assert (Hroom : (5 <= Base128StreamWriter.space_left stream)%nat)
    by (unfold Base128StreamWriter.space_left; simpl; lia).
  destruct (constant_series_two_pairs stream Hwf Hroom) as (_ & _ & ->).
  reflexivity.
Defined.

(** C8, amended. [RLEStreamWriter::commit] is
    [stream_.put(reps_) && stream_.put(prev_) && stream_.commit()], with no
    test of [reps_].  It returns true exactly when [reps_] and [prev_] are not
    negative and their two encodings fit in the space left, and then exactly
    one pair, the encodings of [reps_] and [prev_], has been appended.  When
    it returns false no pair has been appended: the cursor stands behind the
    encoding of [reps_] alone when that was written, and where it was
    otherwise.  For a writer on which no value was put the pair is [(0, 0)],
    the two bytes [00 00]. *)
Theorem rle_commit_final_pair (T : IntType) (self : RLEStreamWriter.t T)
    (stream : Base128StreamWriter.t) :
  Base128StreamWriter.wf stream ->
  let reps := RLEStreamWriter.reps_ self in
  let prev := RLEStreamWriter.prev_ self in
  let pos := Base128StreamWriter.pos_ stream in
  let end' := Base128StreamWriter.end_ stream in
  let r := RLEStreamWriter.commit T self stream in
  (r.1.1 = true <->
   0 <= reps /\ 0 <= prev /\ (pos + length (varints [reps; prev]) <= end')%nat) /\
  (r.1.1 = true ->
   r = (true, self,
        Base128StreamWriter.mk
          (blit (Base128StreamWriter.mem stream) pos (varints [reps; prev]))
          (Base128StreamWriter.begin_ stream) end'
          (pos + length (varints [reps; prev])))) /\
  (r.1.1 = false ->
   r.1.2 = self /\
   ((0 <= reps /\ (pos + encode_len reps <= end')%nat /\
     Base128StreamWriter.pos_ r.2 = (pos + encode_len reps)%nat /\
     take (Base128StreamWriter.pos_ r.2) (Base128StreamWriter.mem r.2) =
       take pos (Base128StreamWriter.mem stream) ++ varint reps) \/
    ((reps < 0 \/ (end' < pos + encode_len reps)%nat) /\
     Base128StreamWriter.pos_ r.2 = pos /\
     take pos (Base128StreamWriter.mem r.2) =
       take pos (Base128StreamWriter.mem stream)))) /\
  varints [RLEStreamWriter.reps_ (RLEStreamWriter.make T stream);
           RLEStreamWriter.prev_ (RLEStreamWriter.make T stream)] = [0; 0].
Proof.
  intros Hwf reps prev pos end' r. pose proof Hwf as (Hbg & Hp & He).
  assert (Hlen : length (varints [reps; prev])
                 = (encode_len reps + encode_len prev)%nat).
  { change (varints [reps; prev]) with (varint reps ++ varint prev ++ []).
    rewrite app_nil_r, length_app, !varint_length. reflexivity. }
  assert (Hiff : r.1.1 = true <->
            0 <= reps /\ 0 <= prev /\
            (pos + length (varints [reps; prev]) <= end')%nat).
  { split.
    - intros Hok.
      assert (Hr : 0 <= reps).
      { destruct (Z.le_gt_cases 0 reps) as [|Hneg]; [assumption|exfalso].
        pose proof (stream_put_negative reps stream Hwf ltac:(lia)) as Hf.
        unfold r, RLEStreamWriter.commit in Hok. fold reps in Hok.
        destruct (Base128StreamWriter.put reps stream) as [ok1 s1].
        cbn [fst] in Hf. subst ok1. discriminate. }
      assert (Hv : 0 <= prev).
      { destruct (Z.le_gt_cases 0 prev) as [|Hneg]; [assumption|exfalso].
        unfold r, RLEStreamWriter.commit in Hok. fold reps prev in Hok.
        pose proof (stream_put_frame reps stream Hwf) as (Hwf1 & _).
        destruct (Base128StreamWriter.put reps stream) as [ok1 s1].
        cbn [snd] in Hwf1. destruct ok1; [|discriminate].
        pose proof (stream_put_negative prev s1 Hwf1 ltac:(lia)) as Hf.
        destruct (Base128StreamWriter.put prev s1) as [ok2 s2].
        cbn [fst] in Hf. subst ok2. discriminate. }
      split; [assumption|]. split; [assumption|].
      destruct (Nat.le_gt_cases (pos + length (varints [reps; prev])) end')
        as [|Hshort]; [assumption|].
      unfold r in Hok. rewrite rle_commit_short in Hok by assumption. discriminate.
    - intros (Hr & Hv & Hroom). unfold r.
      rewrite rle_commit_ok by assumption. reflexivity. }
  split; [exact Hiff|].
  split.
  { intros Hok. apply Hiff in Hok. destruct Hok as (Hr & Hv & Hroom).
    apply rle_commit_ok; assumption. }
  split; [|reflexivity].
  intros Hfail. unfold r, RLEStreamWriter.commit in Hfail |- *.
  fold reps prev in Hfail |- *.
  destruct (Z.le_gt_cases 0 reps) as [Hr|Hneg];
    [destruct (le_lt_dec (pos + encode_len reps) end') as [Hfit|Hshort]|].
  - rewrite stream_put_ok in Hfail |- * by assumption.
    set (s1 := Base128StreamWriter.mk _ _ _ _) in *.
    assert (Hwf1 : Base128StreamWriter.wf s1).
    { unfold Base128StreamWriter.wf, s1.
      cbn [Base128StreamWriter.mem Base128StreamWriter.pos_
           Base128StreamWriter.begin_ Base128StreamWriter.end_].
      rewrite blit_length by (rewrite varint_length; unfold pos, end' in *; lia).
      unfold pos, end' in *. lia. }
    destruct (stream_put_frame prev s1 Hwf1)
      as (_ & _ & _ & _ & Htake & _ & _ & Hpos2).
    destruct (Base128StreamWriter.put prev s1) as [ok2 s2].
    cbn [fst snd] in *.
    destruct ok2; [discriminate|]. cbn [fst snd].
    split; [reflexivity|]. left.
    split; [assumption|]. split; [assumption|].
    rewrite (Hpos2 eq_refl). split; [reflexivity|].
    rewrite Htake. unfold s1.
    cbn [Base128StreamWriter.mem Base128StreamWriter.pos_]. unfold blit.
    rewrite <- (varint_length reps), app_assoc.
    rewrite take_app_length'
      by (rewrite length_app, length_take; unfold pos, end' in *; lia).
    reflexivity.
  - pose proof (stream_put_short reps stream Hwf Hr Hshort) as Hf.
    destruct (stream_put_frame reps stream Hwf)
      as (_ & _ & _ & _ & Htake & _ & _ & Hpos1).
    destruct (Base128StreamWriter.put reps stream) as [ok1 s1].
    cbn [fst snd] in *. subst ok1.
    split; [reflexivity|]. right.
    split; [right; assumption|]. split; [apply Hpos1; reflexivity|exact Htake].
  - pose proof (stream_put_negative reps stream Hwf ltac:(lia)) as Hf.
    destruct (stream_put_frame reps stream Hwf)
      as (_ & _ & _ & _ & Htake & _ & _ & Hpos1).
    destruct (Base128StreamWriter.put reps stream) as [ok1 s1].
    cbn [fst snd] in *. subst ok1.
    split; [reflexivity|]. right.
    split; [left; lia|]. split; [apply Hpos1; reflexivity|exact Htake].
Qed.

Lemma rle_commit_final_pair_witness :
  let stream := Base128StreamWriter.make [255; 255; 255] 0 3 in
  RLEStreamWriter.commit u64 (RLEStreamWriter.make u64 stream) stream =
  (true, RLEStreamWriter.make u64 stream,
   Base128StreamWriter.mk [0; 0; 255] 0 3 2).
Proof.
  intros stream.
  assert (Hwf : Base128StreamWriter.wf stream)
    by (unfold Base128StreamWriter.wf; simpl; lia).
  destruct (rle_commit_final_pair u64 (RLEStreamWriter.make u64 stream) stream Hwf)
    as (Hiff & Hpair & _).
  rewrite Hpair; [reflexivity|].
  apply Hiff. vm_compute. repeat split; try discriminate. lia.
Defined.

(** C8, as stated, fails: [commit] does not append a pair in every case.
    With one byte of room, [commit] on a writer on which no value
    was put returns false and leaves the byte [00] of the count, half a pair,
    behind the cursor.  With any room, [commit] on an [RLEStreamWriter<int64_t>]
    that was given the value [-2^63] (the zigzag code of [2^62]) writes the
    count [01] and fails on the value. *)
Lemma rle_commit_without_pair :
  (let stream := Base128StreamWriter.make [255] 0 1 in
   let r := RLEStreamWriter.commit u64 (RLEStreamWriter.make u64 stream) stream in
   r.1.1 = false /\
   Base128StreamWriter.pos_ r.2 = 1%nat /\
   Base128StreamWriter.mem r.2 = [0]) /\
  (let stream := Base128StreamWriter.make (replicate 16 255) 0 16 in
   let w := RLEStreamWriter.put i64 (-9223372036854775808)
              (RLEStreamWriter.make i64 stream) stream in
   let r := RLEStreamWriter.commit i64 w.1.2 w.2 in
   w.1.1 = true /\
   r.1.1 = false /\
   Base128StreamWriter.pos_ r.2 = 1%nat /\
   take 1 (Base128StreamWriter.mem r.2) = [1]).
Proof.
  split; vm_compute; repeat split; reflexivity.
Qed.


(** C5, as stated, fails: after a [tput] of the timestamp stack that failed,
    the delta writer's [prev_] is not what it was before the call. *)
Lemma failed_tput_keeps_delta_prev :
  let stream := Base128StreamWriter.make [0; 0] 0 2 in
  let w := DeltaRLEWriter_make stream in
  let r := stream_tput [5; 7] w stream in
  r.1.1 = false /\
  Base128StreamWriter.pos_ r.2 = Base128StreamWriter.pos_ stream /\
  DeltaStreamWriter.prev_ w = 0 /\
  DeltaStreamWriter.prev_ r.1.2 = 7 /\
  r.1.2 <> w.
Proof.
  vm_compute. repeat split. discriminate.
Qed.

(** C5, amended. A [tput] that fails returns [false] with the byte cursor
    back at its position before the call and the bytes before the cursor
    (and the bounds) as they were; this holds for
    [Base128StreamWriter::tput] and for the [tput] of the timestamp stack.
    Of the filter state, the run-length writer's [reps_] and [prev_] are
    zero after the call, which is their value before it on a writer driven
    by [tput]; the delta writer's [prev_] is not rolled back: it is the last
    value of the failed chunk. *)
Theorem failed_tput_restores_cursor :
  (forall (l : list Z) (s : Base128StreamWriter.t),
     Base128StreamWriter.wf s ->
     let r := Base128StreamWriter.tput l s in
     r.1 = false ->
     Base128StreamWriter.pos_ r.2 = Base128StreamWriter.pos_ s /\
     Base128StreamWriter.begin_ r.2 = Base128StreamWriter.begin_ s /\
     Base128StreamWriter.end_ r.2 = Base128StreamWriter.end_ s /\
     take (Base128StreamWriter.pos_ s) (Base128StreamWriter.mem r.2)
       = take (Base128StreamWriter.pos_ s) (Base128StreamWriter.mem s)) /\
  (forall (iter : list Z) (w : DeltaRLEWriter) (stream : Base128StreamWriter.t),
     Base128StreamWriter.wf stream ->
     let r := stream_tput iter w stream in
     r.1.1 = false ->
     Base128StreamWriter.pos_ r.2 = Base128StreamWriter.pos_ stream /\
     Base128StreamWriter.begin_ r.2 = Base128StreamWriter.begin_ stream /\
     Base128StreamWriter.end_ r.2 = Base128StreamWriter.end_ stream /\
     take (Base128StreamWriter.pos_ stream) (Base128StreamWriter.mem r.2)
       = take (Base128StreamWriter.pos_ stream) (Base128StreamWriter.mem stream) /\
     RLEStreamWriter.reps_ (DeltaStreamWriter.stream_ r.1.2) = 0 /\
     RLEStreamWriter.prev_ (DeltaStreamWriter.stream_ r.1.2) = 0 /\
     (RLEStreamWriter.reps_ (DeltaStreamWriter.stream_ w) = 0 ->
      RLEStreamWriter.prev_ (DeltaStreamWriter.stream_ w) = 0 ->
      DeltaStreamWriter.stream_ r.1.2 = DeltaStreamWriter.stream_ w) /\
     DeltaStreamWriter.prev_ r.1.2
       = default (DeltaStreamWriter.prev_ w) (last iter)).
Proof.
  split.
  - intros l s Hwf r Hfail.
    destruct (tput_frame l s Hwf) as (_ & Hb & He & _ & Ht & _ & _ & Hp).
    fold r in Hb, He, Ht, Hp. auto.
  - intros iter w stream Hwf r Hfail.
    destruct (ts_tput_general iter w stream) as (outbuf & E).
    destruct (tput_frame outbuf stream Hwf) as (_ & Hb & He & _ & Ht & _ & _ & Hp).
    subst r. rewrite E in *.
    destruct (Base128StreamWriter.tput outbuf stream) as [ok stream'].
    simpl in *. subst ok.
    repeat split; auto.
    intros H1 H2. destruct w as [[p q start] prev]. simpl in *. subst.
    reflexivity.
Qed.

Lemma failed_tput_restores_cursor_witness :
  let stream := Base128StreamWriter.make [0; 0] 0 2 in
  let r := stream_tput [5; 7] (DeltaRLEWriter_make stream) stream in
  r.1.1 = false /\
  Base128StreamWriter.pos_ r.2 = 0%nat /\
  DeltaStreamWriter.stream_ r.1.2 = RLEStreamWriter.make u64 stream /\
  DeltaStreamWriter.prev_ r.1.2 = 7.
Proof.
  intros stream r.
  assert (Hwf : Base128StreamWriter.wf stream)
    by (unfold Base128StreamWriter.wf; simpl; lia).
  assert (Hfail : r.1.1 = false) by reflexivity.
  destruct (proj2 failed_tput_restores_cursor [5; 7] (DeltaRLEWriter_make stream)
              stream Hwf Hfail) as (Hpos & _ & _ & _ & _ & _ & Hrle & Hprev).
  split; [exact Hfail|]. split; [exact Hpos|].
  split; [exact (Hrle eq_refl eq_refl)|exact Hprev].
Defined.

(** C4 at the failing input: the code of [2^62] has bit 63 set, the decoder
    shifts it arithmetically, and [-2^62] comes back. *)
Theorem zigzag_decode_of_large_value :
  ZigZagStreamWriter.zigzag i64 (2 ^ 62) = - 2 ^ 63 /\
  ZigZagStreamReader.unzigzag i64 (ZigZagStreamWriter.zigzag i64 (2 ^ 62))
    = - 2 ^ 62 /\
  ZigZagStreamReader.unzigzag i64 (ZigZagStreamWriter.zigzag i64 (2 ^ 62))
    <> 2 ^ 62.
Proof.
  vm_compute. repeat split. discriminate.
Qed.

(** C9. A negative value never fits: [Base128StreamWriter::put] of any
    negative [v] returns [false] on every buffer and leaves the cursor where
    it was. Hence the [i64] stack [ZDeltaRLEWriter] cannot write a chunk in
    which some difference has a zig-zag code with bit 63 set (a negative
    [i64]), nor commit such a value after [put]; for a value written first
    these are the values outside [[-2^62, 2^62)]. *)
Theorem negative_value_never_encoded :
  (forall (v : Z) (s : Base128StreamWriter.t),
     Base128StreamWriter.wf s -> v < 0 ->
     (Base128StreamWriter.put v s).1 = false /\
     Base128StreamWriter.pos_ (Base128StreamWriter.put v s).2
       = Base128StreamWriter.pos_ s) /\
  (forall (iter : list Z) (prev : Z) (start : nat) (d : Z)
          (stream : Base128StreamWriter.t),
     Base128StreamWriter.wf stream -> (length iter < 1000)%nat ->
     d ∈ (DeltaStreamWriter.tput_loop i64 iter prev).1 ->
     Z.testbit (ZigZagStreamWriter.zigzag i64 d) 63 = true ->
     let w : ZDeltaRLEWriter :=
       DeltaStreamWriter.mk (ZigZagStreamWriter.mk (RLEStreamWriter.mk 0 0 start)) prev in
     let r := stream_tput iter w stream in
     r.1.1 = false /\
     Base128StreamWriter.pos_ r.2 = Base128StreamWriter.pos_ stream) /\
  (forall (x : Z) (stream : Base128StreamWriter.t),
     Base128StreamWriter.wf stream -> - 2 ^ 63 <= x < 2 ^ 63 ->
     Z.testbit (ZigZagStreamWriter.zigzag i64 x) 63 = true ->
     let r := stream_put x (ZDeltaRLEWriter_make stream) stream in
     (stream_commit r.1.2 r.2).1.1 = false) /\
  (forall x : Z, - 2 ^ 63 <= x < 2 ^ 63 ->
     (Z.testbit (ZigZagStreamWriter.zigzag i64 x) 63 = true <->
      x < - 2 ^ 62 \/ 2 ^ 62 <= x)).
Proof.
  assert (Hzrange : forall d, - 2 ^ 63 <= ZigZagStreamWriter.zigzag i64 d < 2 ^ 63)
    by (intros d; apply wrap_i64_range).
  split; [|split; [|split]].
  - intros v s Hwf Hv.
    pose proof (stream_put_negative v s Hwf Hv) as Hf.
    split; [assumption|].
    apply (stream_put_frame v s Hwf). assumption.
  - intros iter prev start d stream Hwf Hn Hd Hbit w r.
    apply i64_bit63 in Hbit; [|apply Hzrange].
    subst r w. simpl. unfold DeltaStreamWriter.tput. simpl.
    pose proof (delta_loop_length i64 iter prev) as Hlen.
    destruct (DeltaStreamWriter.tput_loop i64 iter prev) as [deltas prev'].
    simpl in Hd, Hlen. unfold ZigZagStreamWriter.tput. simpl.
    rewrite rle_tput_fresh.
    set (outbuf := rle_outbuf i64 (map (ZigZagStreamWriter.zigzag i64) deltas)).
    assert (Hin : ZigZagStreamWriter.zigzag i64 d ∈ outbuf).
    { apply rle_outbuf_values.
      - rewrite length_map, Hlen. assert (1000 < 2 ^ 64) by reflexivity. lia.
      - intros x Hx. rewrite length_map, Hlen in Hx.
        apply wrap_i64_id. assert (1000 < 2 ^ 63) by reflexivity. lia.
      - apply list_elem_of_In, in_map, list_elem_of_In. assumption. }
    pose proof (tput_frame outbuf stream Hwf) as Hf. cbv zeta in Hf.
    assert (Hfail : (Base128StreamWriter.tput outbuf stream).1 = false).
    { apply tput_loop_negative; [assumption|].
      apply Exists_exists. exists (ZigZagStreamWriter.zigzag i64 d).
      split; assumption. }
    destruct (Base128StreamWriter.tput outbuf stream) as [ok stream'].
    simpl in *. split; [assumption|]. apply Hf. assumption.
  - intros x stream Hwf Hx Hbit r.
    apply i64_bit63 in Hbit; [|apply Hzrange].
    subst r. simpl. unfold DeltaStreamWriter.put, DeltaStreamWriter.commit. simpl.
    unfold ZigZagStreamWriter.put, ZigZagStreamWriter.commit. simpl.
    rewrite Z.sub_0_r, (wrap_i64_id x) by assumption.
    unfold RLEStreamWriter.put. simpl.
    destruct (Z.eqb_spec (ZigZagStreamWriter.zigzag i64 x) 0) as [E|E]; [lia|].
    simpl. unfold RLEStreamWriter.commit. simpl.
    pose proof (stream_put_frame (wrap i64 (0 + 1)) stream Hwf) as Hf.
    cbv zeta in Hf.
    destruct (Base128StreamWriter.put (wrap i64 (0 + 1)) stream) as [ok1 s1].
    simpl in Hf. destruct ok1; [|reflexivity].
    pose proof (stream_put_negative (ZigZagStreamWriter.zigzag i64 x) s1
                  ltac:(apply Hf) Hbit) as Hneg.
    destruct (Base128StreamWriter.put (ZigZagStreamWriter.zigzag i64 x) s1)
      as [ok2 s2].
    simpl in Hneg. subst ok2. reflexivity.
  - intros x Hx. rewrite i64_bit63 by apply Hzrange.
    apply zigzag_i64_negative. assumption.
Qed.

Lemma negative_value_never_encoded_witness :
  let stream := Base128StreamWriter.make (replicate 64 0) 0 64 in
  (Base128StreamWriter.put (-1) stream).1 = false /\
  (stream_tput [7; 2 ^ 62 + 7] (ZDeltaRLEWriter_make stream) stream).1.1 = false.
Proof.
  intros stream.
  assert (Hwf : Base128StreamWriter.wf stream)
    by (unfold Base128StreamWriter.wf; simpl; lia).
  destruct negative_value_never_encoded as (H1 & H2 & _ & _).
  split.
  - apply (H1 (-1) stream Hwf). lia.
  - apply (H2 [7; 2 ^ 62 + 7] 0 0%nat (2 ^ 62) stream Hwf).
    + simpl. lia.
    + vm_compute. apply list_elem_of_In. simpl. auto.
    + reflexivity.
Defined.

(** C10. When [RLEStreamReader::next] loads a pair whose repeat-count is 0
    (such as the pair [00 00] that committing an empty writer leaves), the
    decrement wraps the counter to [2^w - 1]: the call returns the pair's
    value, and each of the next [2^w - 1] calls returns the same value and
    leaves the byte stream where it was. *)
Theorem rle_zero_count_wraps (T : IntType) (self : RLEStreamReader.t T)
    (stream s1 s2 : Base128StreamReader.t) (v : Z) :
  is_signed T = false -> 0 < bits T ->
  RLEStreamReader.reps_ self = 0 ->
  Base128StreamReader.next T stream = Value (0, s1) ->
  Base128StreamReader.next T s1 = Value (v, s2) ->
  RLEStreamReader.next T self stream
    = Value (v, RLEStreamReader.mk v (2 ^ bits T - 1), s2) /\
  forall k : nat, Z.of_nat k <= 2 ^ bits T - 1 ->
    read_n k (RLEStreamReader.mk (T:=T) v (2 ^ bits T - 1)) s2 =
    Value (replicate k v, RLEStreamReader.mk v (2 ^ bits T - 1 - Z.of_nat k), s2).
Proof.
  intros Hs Hb Hr H1 H2.
  assert (Hpow : 0 < 2 ^ bits T) by (apply Z.pow_pos_nonneg; lia).
  split.
  - unfold RLEStreamReader.next. rewrite Hr. simpl. rewrite H1. simpl.
    rewrite H2. simpl. rewrite wrap_unsigned_m1 by assumption. reflexivity.
  - intros k Hk. apply rle_read_pending; [assumption|].
    intros x Hx. apply wrap_unsigned_id; [assumption|lia].
Qed.

Lemma rle_zero_count_wraps_witness :
  let stream := Base128StreamReader.mk [0; 0; 9; 9] 0 4 in
  let s2 := Base128StreamReader.mk [0; 0; 9; 9] 2 4 in
  RLEStreamReader.next u64 (RLEStreamReader.make u64) stream
    = Value (0, RLEStreamReader.mk 0 (2 ^ 64 - 1), s2) /\
  read_n 3 (RLEStreamReader.mk (T:=u64) 0 (2 ^ 64 - 1)) s2
    = Value ([0; 0; 0], RLEStreamReader.mk 0 (2 ^ 64 - 1 - 3), s2).
Proof.
  intros stream s2.
  destruct (rle_zero_count_wraps u64 (RLEStreamReader.make u64) stream
              (Base128StreamReader.mk [0; 0; 9; 9] 1 4) s2 0
              eq_refl eq_refl eq_refl eq_refl eq_refl) as [Hfirst Hrest].
  split; [exact Hfirst|].
  exact (Hrest 3%nat ltac:(simpl; lia)).
Defined.


(** C1. Block round-trip.  For every sequence [samples] of at most
    [16 * MAX_CHUNKS_PER_BLOCK] samples (timestamps and the 64 bits of the
    doubles; non-decreasing timestamps are a special case) that fits in a
    block of [B] bytes, that is, the writer is constructed over the buffer
    and every [put] returns success: [read_tail_elements] before [commit]
    returns the last [ntail = |samples| mod 16] samples; [commit] reports at
    most [B] bytes; a reader constructed over the committed buffer, with any
    size from the bytes used on, carries the id, counts the other samples,
    returns exactly them, in order and bit for bit, by successive [next]
    calls, and then reports the end of the block. *)
Theorem block_roundtrip (P : Params) (id : Z) (buf : list Z) (B : nat)
    (samples : list (Z * Z)) (w : DataBlockWriter.t) :
  (B <= length buf)%nat -> 0 <= id < 2 ^ 64 ->
  Forall sample_ok samples ->
  Z.of_nat (length samples) <= 16 * MAX_CHUNKS_PER_BLOCK ->
  write_block P id buf B samples = Some w ->
  let ntail := (length samples `mod` 16)%nat in
  let sealed := take (length samples - ntail) samples in
  let tail := drop (length samples - ntail) samples in
  let used := (DataBlockWriter.commit w).1 in
  let block :=
    Base128StreamWriter.mem (DataBlockWriter.stream_ (DataBlockWriter.commit w).2) in
  DataBlockWriter.read_tail_elements w = (map fst tail, map snd tail) /\
  DataBlockWriter.get_write_index w = Z.of_nat (length samples) /\
  (used <= B)%nat /\
  forall bufsize : nat, (used <= bufsize)%nat ->
  exists rd rd',
    DataBlockReader.make P block bufsize = inl rd /\
    DataBlockReader.get_id rd = id /\
    DataBlockReader.nelements rd = Z.of_nat (length sealed) /\
    next_all (length sealed) rd = Some (sealed, rd') /\
    DataBlockReader.next rd' = (Exhausted, 0, 0, rd').
Proof.
  intros HB Hid Hs Hmax Hw ntail sealed tail used block.
  unfold write_block in Hw.
  destruct (DataBlockWriter.make P id buf B) as [w0|] eqn:Hmake; [|discriminate].
  pose proof (writer_make_inv P id buf B w0 HB Hmake) as Hinv0.
  unfold MAX_CHUNKS_PER_BLOCK in Hmax.
  assert (H31 : 16 * 65535 < 2 ^ 31) by reflexivity.
  destruct (writer_put_all_inv P id B samples w0 w [] [] Hinv0 Hs
              ltac:(cbn [length]; lia) Hw) as (F & T & Hinv & Hcat).
  cbn [concat app] in Hcat.
  pose proof (writer_commit_inv P id B w F T Hinv) as Hcommit.
  cbv zeta in Hcommit. fold used block in Hcommit.
  destruct Hcommit as (Hused & HusedB & _ & _ & Hblock).
  destruct Hinv as (_ & HF & HT & HlT & Hwi & _ & _ & _ & _ & _ & _ & _ & _ & _
                    & Hl1 & Hl2 & Ht1 & Ht2).
  destruct (chunks_of_samples F T samples HF HlT Hcat)
    as (Hmod & Hlen & Htake & Hdrop).
  subst ntail sealed tail. rewrite Htake, Hdrop.
  split.
  { unfold DataBlockWriter.read_tail_elements, DataBlockWriter.CHUNK_MASK.
    rewrite Hwi, write_index_low by assumption. rewrite Ht1, Ht2. reflexivity. }
  split; [unfold DataBlockWriter.get_write_index; rewrite Hwi, Hlen; reflexivity|].
  split; [assumption|].
  intros bufsize Hsize.
  set (p0 := FcmPredictor.make (table_size P)) in *.
  assert (HlF : Z.of_nat (length F) <= 65535) by lia.
  assert (H16 : 65535 < 2 ^ 16) by reflexivity.
  destruct (reader_make_ok P block (payload 0 p0 F) bufsize
              (Z.of_nat (length F)) (Z.of_nat (length T)) id Hblock
              ltac:(lia) ltac:(lia) Hid ltac:(lia))
    as (Hrd & _ & Hnchunks & Hgid).
  set (rd := DataBlockReader.mk 0 (Base128StreamReader.make block 14 bufsize)
               DeltaRLEReader_make (FcmStreamReader.make P)
               (replicate DataBlockReader.CHUNK_SIZE 0) 0) in *.
  assert (HN : le_value (load_bytes block 2 2) * 16 = 16 * Z.of_nat (length F)).
  { unfold DataBlockReader.nchunks, rd, Base128StreamReader.make in Hnchunks.
    cbn [DataBlockReader.stream_ DataBlockReader.begin_ Base128StreamReader.mem]
      in Hnchunks.
    change (0 + 2)%nat with 2%nat in Hnchunks. rewrite Hnchunks. lia. }
  apply holds_app in Hblock. destruct Hblock as [_ Hpay].
  rewrite header_bytes_length in Hpay. cbn [Nat.add] in Hpay.
  assert (H32 : 16 * 65535 < 2 ^ 32) by reflexivity.
  destruct (reader_next_chunks block (16 * Z.of_nat (length F)) bufsize F 0 14
              (RLEStreamReader.make u64) 0 (FcmStreamReader.make P)
              (replicate DataBlockReader.CHUNK_SIZE 0) HF eq_refl eq_refl
              (predictor_make_ok _) Hpay ltac:(cbn; fold p0; lia) HN
              ltac:(lia) ltac:(lia) ltac:(lia))
    as (rd' & Hall & Hidx & Hmem & Hbeg).
  exists rd, rd'. split; [exact Hrd|]. split; [exact Hgid|].
  rewrite concat_chunks_length by assumption.
  split; [unfold DataBlockReader.nelements; rewrite Hnchunks; lia|].
  split; [exact Hall|].
  unfold DataBlockReader.next, DataBlockReader.nelements, DataBlockReader.nchunks.
  rewrite Hidx, Hmem, Hbeg. change (0 + 2)%nat with 2%nat. rewrite HN.
  destruct (Z.ltb_spec (16 * 0 + 16 * Z.of_nat (length F))
              (16 * Z.of_nat (length F))); [lia|reflexivity].
Qed.

Lemma block_roundtrip_witness :
  let P := {| table_size := 128; chunk_reserve := 456; min_chunk_cost := 0 |} in
  let one := 4607182418800017408 in
  let chunk :=
    [(1000, one); (1010, one); (1020, one); (1030, 0);
     (1040, 0); (1050, one); (1060, 4612811918334230528); (1070, one);
     (1080, one); (1090, one); (1100, 2 ^ 64 - 1); (1100, one);
     (1100, one); (1130, one); (1131, 1); (1132, one)] in
  let samples := chunk ++ [(1200, 4612811918334230528)] in
  exists w,
    write_block P 7 (replicate 600 0) 600 samples = Some w /\
    DataBlockWriter.read_tail_elements w = ([1200], [4612811918334230528]) /\
    exists rd rd',
      DataBlockReader.make P
        (Base128StreamWriter.mem (DataBlockWriter.stream_ (DataBlockWriter.commit w).2))
        600 = inl rd /\
      next_all 16 rd = Some (chunk, rd') /\
      DataBlockReader.next rd' = (Exhausted, 0, 0, rd').
Proof.
  intros P one chunk samples.
  assert (Hw : { w | write_block P 7 (replicate 600 0) 600 samples = Some w }).
  { eexists. vm_compute. reflexivity. }
  destruct Hw as [w Hw]. exists w. split; [exact Hw|].
  assert (Hok : Forall sample_ok samples).
  { unfold samples, chunk, one, sample_ok.
    change (2 ^ 64) with 18446744073709551616.
    repeat (constructor; [cbn [fst snd]; lia|]). constructor. }
  destruct (block_roundtrip P 7 (replicate 600 0) 600 samples w)
    as (Htail & _ & Hused & Hread);
    [rewrite length_replicate; lia|lia|exact Hok|vm_compute; discriminate|exact Hw|].
  split; [exact Htail|].
  destruct (Hread 600%nat Hused) as (rd & rd' & Hmake & _ & _ & Hall & Hend).
  exists rd, rd'. split; [exact Hmake|]. split; [exact Hall|exact Hend].
Defined.


(** * Further properties of the streams *)

(** X1. [put_raw] followed by [read_raw]: an unsigned value of [sz] bytes
    is stored exactly when [sz] bytes are left; it then occupies the [sz]
    bytes at the cursor, in little-endian order, nothing else changes, and
    [read_raw] at the old cursor returns the value and stops right after
    it.  When fewer than [sz] bytes are left the stream is untouched. *)
Theorem put_raw_read_raw_roundtrip (sz : nat) (v : Z) (s : Base128StreamWriter.t) :
  Base128StreamWriter.wf s -> 0 <= v < 2 ^ (8 * Z.of_nat sz) ->
  let r := Base128StreamWriter.put_raw sz v s in
  (r.1 = true <-> (sz <= Base128StreamWriter.space_left s)%nat) /\
  (r.1 = false -> r.2 = s) /\
  (r.1 = true ->
   r.2 = Base128StreamWriter.mk
           (blit (Base128StreamWriter.mem s) (Base128StreamWriter.pos_ s)
              (le_bytes sz v))
           (Base128StreamWriter.begin_ s) (Base128StreamWriter.end_ s)
           (Base128StreamWriter.pos_ s + sz) /\
   forall e, (Base128StreamWriter.pos_ s + sz <= e)%nat ->
     Base128StreamReader.read_raw sz
       (Base128StreamReader.mk (Base128StreamWriter.mem r.2)
          (Base128StreamWriter.pos_ s) e) =
     Value (v, Base128StreamReader.mk (Base128StreamWriter.mem r.2)
                 (Base128StreamWriter.pos_ s + sz) e)).
Proof.
  intros Hwf Hv r. pose proof Hwf as (Hb & Hp & He).
  unfold Base128StreamWriter.space_left.
  destruct (le_lt_dec sz (Base128StreamWriter.end_ s - Base128StreamWriter.pos_ s))
    as [Hfit|Hshort].
  - assert (E : r = (true,
               Base128StreamWriter.mk
                 (blit (Base128StreamWriter.mem s) (Base128StreamWriter.pos_ s)
                    (le_bytes sz v))
                 (Base128StreamWriter.begin_ s) (Base128StreamWriter.end_ s)
                 (Base128StreamWriter.pos_ s + sz)))
      by (apply put_raw_ok; [assumption|lia]).
    rewrite E. cbn [fst snd Base128StreamWriter.mem].
    split; [split; [intros _; assumption|reflexivity]|].
    split; [discriminate|]. intros _. split; [reflexivity|].
    intros e Hroom.
    pose proof (read_raw_ok (le_bytes sz v)
                  (blit (Base128StreamWriter.mem s) (Base128StreamWriter.pos_ s)
                     (le_bytes sz v))
                  (Base128StreamWriter.pos_ s) e) as Hread.
    rewrite le_bytes_length, le_value_le_bytes in Hread by assumption.
    apply Hread; [|assumption].
    apply holds_blit. rewrite le_bytes_length. lia.
  - assert (E : r = (false, s)) by (apply put_raw_short; [assumption|lia]).
    rewrite E. cbn [fst snd].
    split; [split; [discriminate|lia]|].
    split; [reflexivity|discriminate].
Qed.

Lemma put_raw_read_raw_roundtrip_witness :
  let s := Base128StreamWriter.make (replicate 8 0) 0 8 in
  (Base128StreamWriter.put_raw 2 513 s).2
    = Base128StreamWriter.mk [1; 2; 0; 0; 0; 0; 0; 0] 0 8 2 /\
  Base128StreamReader.read_raw 2
    (Base128StreamReader.mk
       (Base128StreamWriter.mem (Base128StreamWriter.put_raw 2 513 s).2) 0 8)
    = Value (513,
             Base128StreamReader.mk
               (Base128StreamWriter.mem (Base128StreamWriter.put_raw 2 513 s).2) 2 8).
Proof.
  intros s.
  assert (Hwf : Base128StreamWriter.wf s)
    by (unfold Base128StreamWriter.wf; cbn; lia).
  destruct (put_raw_read_raw_roundtrip 2 513 s Hwf ltac:(cbn; lia))
    as (_ & _ & Hok).
  destruct (Hok eq_refl) as [E Hread].
  split; [exact E|]. apply (Hread 8%nat). cbn. lia.
Defined.

(** X2. Whatever calls are made on a [Base128StreamWriter] ([put], [tput],
    [put_raw], [allocate], with any arguments and whether they succeed or
    fail), the bounds of the stream stay, the cursor stays between them and
    never moves back, the memory keeps its size, and no byte before the
    cursor or at and after [end_] is ever changed; [size()] and
    [space_left()] always add up to the size of the region. *)
Theorem writer_ops_stay_in_bounds (ops : list writer_op) :
  forall s : Base128StreamWriter.t,
  Base128StreamWriter.wf s ->
  let s' := run_ops ops s in
  Base128StreamWriter.wf s' /\
  Base128StreamWriter.begin_ s' = Base128StreamWriter.begin_ s /\
  Base128StreamWriter.end_ s' = Base128StreamWriter.end_ s /\
  length (Base128StreamWriter.mem s') = length (Base128StreamWriter.mem s) /\
  (Base128StreamWriter.pos_ s <= Base128StreamWriter.pos_ s')%nat /\
  take (Base128StreamWriter.pos_ s) (Base128StreamWriter.mem s')
    = take (Base128StreamWriter.pos_ s) (Base128StreamWriter.mem s) /\
  drop (Base128StreamWriter.end_ s) (Base128StreamWriter.mem s')
    = drop (Base128StreamWriter.end_ s) (Base128StreamWriter.mem s) /\
  (Base128StreamWriter.size s' + Base128StreamWriter.space_left s'
   = Base128StreamWriter.end_ s - Base128StreamWriter.begin_ s)%nat.
Proof.
  induction ops as [|op ops IH]; intros s Hwf.
  - cbn [run_ops fold_left]. pose proof Hwf as (Hb & Hp & He).
    unfold Base128StreamWriter.size, Base128StreamWriter.space_left.
    repeat split; try assumption; try reflexivity; lia.
  - cbn [run_ops fold_left]. fold (run_ops ops (run_op op s)).
    destruct (run_op_frame op s Hwf) as (W1 & B1 & E1 & L1 & T1 & D1 & P1).
    destruct (IH (run_op op s) W1) as (W2 & B2 & E2 & L2 & P2 & T2 & D2 & S2).
    cbv zeta in *.
    set (s1 := run_op op s) in *. set (s2 := run_ops ops s1) in *.
    split; [assumption|]. split; [congruence|]. split; [congruence|].
    split; [congruence|]. split; [lia|]. split; [|split].
    + assert (Hmin : (Base128StreamWriter.pos_ s `min` Base128StreamWriter.pos_ s1
                      = Base128StreamWriter.pos_ s)%nat) by lia.
      transitivity (take (Base128StreamWriter.pos_ s)
                      (take (Base128StreamWriter.pos_ s1) (Base128StreamWriter.mem s2))).
      { rewrite take_take, Hmin. reflexivity. }
      rewrite T2, take_take, Hmin. exact T1.
    + rewrite <- E1, D2, E1. exact D1.
    + rewrite S2, E1, B1. reflexivity.
Qed.

Lemma writer_ops_stay_in_bounds_witness :
  let s := Base128StreamWriter.mk [9; 9; 0; 0; 0; 0; 7; 7] 1 6 2 in
  let s' := run_ops [OpPut 300; OpAllocate 1; OpPutRaw 4 1; OpTput [1; 128]; OpPut (-1)] s in
  Base128StreamWriter.wf s' /\
  take 2 (Base128StreamWriter.mem s') = [9; 9] /\
  drop 6 (Base128StreamWriter.mem s') = [7; 7].
Proof.
  intros s s'.
  assert (Hwf : Base128StreamWriter.wf s)
    by (unfold Base128StreamWriter.wf; cbn; lia).
  destruct (writer_ops_stay_in_bounds
              [OpPut 300; OpAllocate 1; OpPutRaw 4 1; OpTput [1; 128]; OpPut (-1)]
              s Hwf) as (H1 & _ & _ & _ & _ & H2 & H3 & _).
  split; [exact H1|]. split; [exact H2|exact H3].
Defined.

(** X3. [Base128StreamWriter::put] of a non-negative value succeeds exactly
    when its encoding fits between the cursor and [end_]; then exactly the
    encoding is written at the cursor, which moves past it.  When it does
    not fit the call returns [false] with the cursor where it was, but the
    memory is not restored: the bytes up to [end_] hold the beginning of
    the encoding. *)
Theorem put_succeeds_iff_fits (v : Z) (s : Base128StreamWriter.t) :
  Base128StreamWriter.wf s -> 0 <= v ->
  let r := Base128StreamWriter.put v s in
  (r.1 = true <->
   (Base128StreamWriter.pos_ s + encode_len v <= Base128StreamWriter.end_ s)%nat) /\
  (r.1 = true ->
   r.2 = Base128StreamWriter.mk
           (blit (Base128StreamWriter.mem s) (Base128StreamWriter.pos_ s) (varint v))
           (Base128StreamWriter.begin_ s) (Base128StreamWriter.end_ s)
           (Base128StreamWriter.pos_ s + encode_len v)) /\
  (r.1 = false ->
   r.2 = Base128StreamWriter.mk
           (blit (Base128StreamWriter.mem s) (Base128StreamWriter.pos_ s)
              (take (Base128StreamWriter.end_ s - Base128StreamWriter.pos_ s)
                 (varint v)))
           (Base128StreamWriter.begin_ s) (Base128StreamWriter.end_ s)
           (Base128StreamWriter.pos_ s)).
Proof.
  intros Hwf Hv r.
  destruct (le_lt_dec (Base128StreamWriter.pos_ s + encode_len v)
              (Base128StreamWriter.end_ s)) as [Hfit|Hshort].
  - assert (E : r = (true,
               Base128StreamWriter.mk
                 (blit (Base128StreamWriter.mem s) (Base128StreamWriter.pos_ s)
                    (varint v))
                 (Base128StreamWriter.begin_ s) (Base128StreamWriter.end_ s)
                 (Base128StreamWriter.pos_ s + encode_len v)))
      by (apply stream_put_ok; assumption).
    rewrite E. cbn [fst snd].
    split; [split; [intros _; assumption|reflexivity]|].
    split; [reflexivity|discriminate].
  - assert (E : r = (false,
               Base128StreamWriter.mk
                 (blit (Base128StreamWriter.mem s) (Base128StreamWriter.pos_ s)
                    (take (Base128StreamWriter.end_ s - Base128StreamWriter.pos_ s)
                       (varint v)))
                 (Base128StreamWriter.begin_ s) (Base128StreamWriter.end_ s)
                 (Base128StreamWriter.pos_ s)))
      by (apply stream_put_short_exact; assumption).
    rewrite E. cbn [fst snd].
    split; [split; [discriminate|lia]|].
    split; [discriminate|reflexivity].
Qed.

Lemma put_succeeds_iff_fits_witness :
  let s := Base128StreamWriter.make [0; 0; 0] 0 2 in
  Base128StreamWriter.put 100000 s
    = (false, Base128StreamWriter.mk [160; 141; 0] 0 2 0) /\
  Base128StreamWriter.put 300 s
    = (true, Base128StreamWriter.mk [172; 2; 0] 0 2 2).
Proof.
  intros s.
  assert (Hwf : Base128StreamWriter.wf s)
    by (unfold Base128StreamWriter.wf; cbn; lia).
  destruct (put_succeeds_iff_fits 100000 s Hwf ltac:(lia)) as (_ & _ & Hfail).
  destruct (put_succeeds_iff_fits 300 s Hwf ltac:(lia)) as (_ & Hok & _).
  split.
  - rewrite (surjective_pairing (Base128StreamWriter.put 100000 s)).
    rewrite (Hfail eq_refl). reflexivity.
  - rewrite (surjective_pairing (Base128StreamWriter.put 300 s)).
    rewrite (Hok eq_refl). reflexivity.
Defined.

(** X4. [Base128StreamWriter::tput] and [Base128StreamReader::next], for
    every integer type [TVal] and every sequence of non-negative values of
    that type: [tput] succeeds exactly when the encodings of all values fit;
    it then has appended exactly those encodings, in order, and as many
    [next<TVal>()] calls as there are values, started at the old cursor,
    return the values in order and stop at the new cursor. *)
Theorem tput_next_roundtrip (T : IntType) (l : list Z) (s : Base128StreamWriter.t) :
  1 < bits T -> Base128StreamWriter.wf s -> Forall (nonneg_value T) l ->
  let r := Base128StreamWriter.tput l s in
  (r.1 = true <->
   (Base128StreamWriter.pos_ s + length (varints l)
      <= Base128StreamWriter.end_ s)%nat) /\
  (r.1 = true ->
   r.2 = Base128StreamWriter.mk
           (blit (Base128StreamWriter.mem s) (Base128StreamWriter.pos_ s) (varints l))
           (Base128StreamWriter.begin_ s) (Base128StreamWriter.end_ s)
           (Base128StreamWriter.pos_ s + length (varints l)) /\
   forall e, (Base128StreamWriter.pos_ r.2 <= e)%nat ->
     next_n T (length l)
       (Base128StreamReader.mk (Base128StreamWriter.mem r.2)
          (Base128StreamWriter.pos_ s) e) =
     Value (l, Base128StreamReader.mk (Base128StreamWriter.mem r.2)
                 (Base128StreamWriter.pos_ r.2) e)).
Proof.
  intros Hb Hwf Hl r. pose proof Hwf as (Hbg & Hp & He).
  pose proof (nonneg_values_nonneg T l Hl) as Hnn.
  assert (Hiff : r.1 = true <->
            (Base128StreamWriter.pos_ s + length (varints l)
               <= Base128StreamWriter.end_ s)%nat).
  { split.
    - apply tput_true_fits; assumption.
    - intros Hfit. unfold r. rewrite tput_ok by assumption. reflexivity. }
  split; [exact Hiff|]. intros Hok. apply Hiff in Hok.
  assert (E : r = (true,
             Base128StreamWriter.mk
               (blit (Base128StreamWriter.mem s) (Base128StreamWriter.pos_ s)
                  (varints l))
               (Base128StreamWriter.begin_ s) (Base128StreamWriter.end_ s)
               (Base128StreamWriter.pos_ s + length (varints l))))
    by (apply tput_ok; assumption).
  rewrite E. cbn [fst snd Base128StreamWriter.mem Base128StreamWriter.pos_].
  split; [reflexivity|]. intros e Hroom.
  apply (next_n_varints T (value_bits T) (value_bits_pos T Hb)
           (fun x => wrap_value_bits T x Hb)).
  - apply nonneg_values_bound; assumption.
  - apply holds_blit. lia.
  - assumption.
Qed.

Lemma tput_next_roundtrip_witness :
  let s := Base128StreamWriter.make (replicate 8 0) 0 8 in
  let r := Base128StreamWriter.tput [4294967295; 0; 300] s in
  r.1 = true /\
  next_n u32 3 (Base128StreamReader.mk (Base128StreamWriter.mem r.2) 0 8)
    = Value ([4294967295; 0; 300],
             Base128StreamReader.mk (Base128StreamWriter.mem r.2) 8 8).
Proof.
  intros s r.
  assert (Hwf : Base128StreamWriter.wf s)
    by (unfold Base128StreamWriter.wf; cbn; lia).
  assert (Hl : Forall (nonneg_value u32) [4294967295; 0; 300])
    by (repeat constructor; cbn; lia).
  destruct (tput_next_roundtrip u32 [4294967295; 0; 300] s ltac:(cbn; lia) Hwf Hl)
    as [Hiff Hok].
  assert (Htrue : r.1 = true) by (apply Hiff; vm_compute; lia).
  split; [exact Htrue|].
  destruct (Hok Htrue) as [_ Hread]. apply (Hread 8%nat). vm_compute. lia.
Defined.

(** X5. [Base128StreamReader::next] does not insist on the shortest
    encoding: the groups of seven bits of a value, low group first and the
    continuation bit on all but the last, are decoded to the value whatever
    their number, as long as no shift reaches the width of the type; so a
    value has longer encodings than the one [put] writes, padded with zero
    groups. *)
Theorem next_accepts_padded_encoding (n : nat) (v : Z) (s : Base128StreamReader.t) :
  0 <= v < 2 ^ (7 * Z.of_nat (S n)) -> v < 2 ^ 64 -> (n <= 9)%nat ->
  holds (Base128StreamReader.mem s) (Base128StreamReader.pos_ s) (base128 (S n) v) ->
  (Base128StreamReader.pos_ s + S n <= Base128StreamReader.end_ s)%nat ->
  (encode_len v <= S n)%nat /\
  (encode_len v = S n -> base128 (S n) v = varint v) /\
  Base128StreamReader.next u64 s =
  Value (v, Base128StreamReader.mk (Base128StreamReader.mem s)
              (Base128StreamReader.pos_ s + S n)
              (Base128StreamReader.end_ s)).
Proof.
  intros Hv H64 Hn Hm Hroom.
  split; [apply encode_len_bound; [assumption|lia]|].
  split; [intros E; unfold varint; rewrite E; reflexivity|].
  apply (stream_next_groups u64 64 ltac:(lia) wrap_u64_id n v s);
    try assumption; lia.
Qed.

Lemma next_accepts_padded_encoding_witness :
  encode_len 1 = 1%nat /\
  Base128StreamReader.next u64 (Base128StreamReader.mk [129; 128; 0; 55] 0 4)
    = Value (1, Base128StreamReader.mk [129; 128; 0; 55] 3 4).
Proof.
  split; [reflexivity|].
  apply (next_accepts_padded_encoding 2 1
           (Base128StreamReader.mk [129; 128; 0; 55] 0 4));
    [cbn; lia|lia|lia|reflexivity|cbn; lia].
Defined.


(** X6. [RLEStreamWriter<TVal>::tput] and [RLEStreamReader<TVal>::next], for
    every integer type of at most 64 bits (among them the [u32] of
    [RLELenWriter] and [RLELenReader]) and every chunk of non-negative
    values of that type, on a writer that holds no pending run: [tput]
    succeeds exactly when the encoded runs fit, the writer again holds no
    pending run, and after a success as many [next()] calls as the chunk
    has values, on a reader that holds no pending run, return the chunk and
    stop where the writer stopped, again with no pending run. *)
Theorem rle_tput_roundtrip (T : IntType) (iter : list Z) (start : nat)
    (stream : Base128StreamWriter.t) :
  1 < bits T <= 64 -> Base128StreamWriter.wf stream ->
  Forall (nonneg_value T) iter -> Z.of_nat (length iter) < 2 ^ value_bits T ->
  let r := RLEStreamWriter.tput T iter (RLEStreamWriter.mk 0 0 start) stream in
  let bytes := varints (rle_outbuf T iter) in
  (r.1.1 = true <->
   (Base128StreamWriter.pos_ stream + length bytes
      <= Base128StreamWriter.end_ stream)%nat) /\
  r.1.2 = RLEStreamWriter.mk 0 0 start /\
  (r.1.1 = true ->
   Base128StreamWriter.pos_ r.2 = (Base128StreamWriter.pos_ stream + length bytes)%nat /\
   forall (e : nat) (self : RLEStreamReader.t T),
     (Base128StreamWriter.pos_ r.2 <= e)%nat -> RLEStreamReader.reps_ self = 0 ->
     exists self',
       RLEStreamReader.reps_ self' = 0 /\
       read_n (length iter) self
         (Base128StreamReader.mk (Base128StreamWriter.mem r.2)
            (Base128StreamWriter.pos_ stream) e) =
       Value (iter, self',
              Base128StreamReader.mk (Base128StreamWriter.mem r.2)
                (Base128StreamWriter.pos_ r.2) e)).
Proof.
  intros Hbits Hwf Hl Hn r bytes. pose proof Hwf as (Hb & Hp & He).
  assert (Hiff : r.1.1 = true <->
            (Base128StreamWriter.pos_ stream + length bytes
               <= Base128StreamWriter.end_ stream)%nat).
  { split.
    - apply rle_tput_true_fits_gen; assumption.
    - intros Hfit. unfold r. rewrite rle_tput_ok_gen by assumption. reflexivity. }
  split; [exact Hiff|]. split.
  { unfold r. rewrite rle_tput_fresh.
    destruct (Base128StreamWriter.tput _ stream). reflexivity. }
  intros Hok. apply Hiff in Hok.
  unfold r. rewrite rle_tput_ok_gen by assumption.
  cbn [fst snd Base128StreamWriter.mem Base128StreamWriter.pos_]. fold bytes.
  split; [reflexivity|]. intros e self Hroom Hs.
  apply rle_read_chunk_gen; try assumption.
  apply holds_blit. fold bytes. lia.
Qed.

Lemma rle_tput_roundtrip_witness :
  let stream := Base128StreamWriter.make (replicate 16 0) 0 16 in
  let r := RLEStreamWriter.tput u32 [7; 7; 7; 300; 0; 0] (RLEStreamWriter.make u32 stream)
             stream in
  r.1.1 = true /\
  take (Base128StreamWriter.pos_ r.2) (Base128StreamWriter.mem r.2)
    = [3; 7; 1; 172; 2; 2; 0] /\
  exists self',
    read_n 6 (RLEStreamReader.make u32)
      (Base128StreamReader.mk (Base128StreamWriter.mem r.2) 0 16) =
    Value ([7; 7; 7; 300; 0; 0], self',
           Base128StreamReader.mk (Base128StreamWriter.mem r.2) 7 16).
Proof.
  intros stream r.
  assert (Hwf : Base128StreamWriter.wf stream)
    by (unfold Base128StreamWriter.wf; cbn; lia).
  assert (Hl : Forall (nonneg_value u32) [7; 7; 7; 300; 0; 0])
    by (repeat constructor; cbn; lia).
  destruct (rle_tput_roundtrip u32 [7; 7; 7; 300; 0; 0] 0 stream
              ltac:(cbn; lia) Hwf Hl ltac:(cbn; lia)) as (Hiff & _ & Hok).
  assert (Htrue : r.1.1 = true) by (apply Hiff; vm_compute; lia).
  split; [exact Htrue|]. split; [reflexivity|].
  destruct (Hok Htrue) as [_ Hread].
  destruct (Hread 16%nat (RLEStreamReader.make u32) ltac:(vm_compute; lia) eq_refl)
    as (self' & _ & E).
  exists self'. exact E.
Defined.

(** X7. The zig-zag code keeps small magnitudes small: an [i64] of
    magnitude below [2^(7j-1)] (for [j] from 1 to 9) has a non-negative code
    below [2^(7j)], so its base-128 encoding takes at most [j] bytes, and
    decoding the code gives the value back. *)
Theorem zigzag_code_length (j : nat) (x : Z) :
  (1 <= j <= 9)%nat ->
  - 2 ^ (7 * Z.of_nat j - 1) <= x < 2 ^ (7 * Z.of_nat j - 1) ->
  0 <= ZigZagStreamWriter.zigzag i64 x < 2 ^ (7 * Z.of_nat j) /\
  (length (varint (ZigZagStreamWriter.zigzag i64 x)) <= j)%nat /\
  ZigZagStreamReader.unzigzag i64 (ZigZagStreamWriter.zigzag i64 x) = x.
Proof.
  intros Hj Hx.
  pose proof (zigzag_small_codes (7 * Z.of_nat j - 1) x ltac:(lia) Hx) as Hc.
  replace (7 * Z.of_nat j - 1 + 1) with (7 * Z.of_nat j) in Hc by lia.
  split; [exact Hc|]. split.
  - rewrite varint_length. apply encode_len_bound; [exact Hc|lia].
  - apply unzigzag_zigzag_small.
    assert (2 ^ (7 * Z.of_nat j - 1) <= 2 ^ 62) by (apply Z.pow_le_mono_r; lia).
    lia.
Qed.

Lemma zigzag_code_length_witness :
  ZigZagStreamWriter.zigzag i64 (-64) = 127 /\
  (length (varint (ZigZagStreamWriter.zigzag i64 (-64))) <= 1)%nat /\
  ZigZagStreamReader.unzigzag i64 (ZigZagStreamWriter.zigzag i64 (-64)) = -64.
Proof.
  split; [reflexivity|].
  apply (zigzag_code_length 1 (-64)); [lia|cbn; lia].
Defined.

(** X8. Round trip of the signed stack: a chunk of [i64] values (fewer than
    the 1000 the [assert] allows) whose successive differences, the first
    one taken from the [prev_] of the delta filter, all lie in
    [[-2^62, 2^62)] goes through [ZDeltaRLEWriter::tput] when the buffer has
    20 free bytes per value; [tput] succeeds exactly when the bytes
    [zts_chunk_bytes] fit, and after a success a [ZDeltaRLEReader] with the
    same [prev_] returns, by as many [next()] calls as the chunk has values,
    exactly the chunk, and stops where the writer stopped; writer and reader
    are left with the last value as [prev_] and no pending run. *)
Theorem zdelta_stack_roundtrip (iter : list Z) (prev : Z) (start : nat)
    (stream : Base128StreamWriter.t) :
  Base128StreamWriter.wf stream -> i64_list iter -> (length iter < 1000)%nat ->
  Forall (fun d => - 2 ^ 62 <= d < 2 ^ 62)
    (DeltaStreamWriter.tput_loop i64 iter prev).1 ->
  let w : ZDeltaRLEWriter :=
    DeltaStreamWriter.mk (ZigZagStreamWriter.mk (RLEStreamWriter.mk 0 0 start)) prev in
  let r := stream_tput iter w stream in
  let bytes := zts_chunk_bytes prev iter in
  (length bytes <= 20 * length iter)%nat /\
  (r.1.1 = true <->
   (Base128StreamWriter.pos_ stream + length bytes
      <= Base128StreamWriter.end_ stream)%nat) /\
  r.1.2 = DeltaStreamWriter.mk (ZigZagStreamWriter.mk (RLEStreamWriter.mk 0 0 start))
            (default prev (last iter)) /\
  (r.1.1 = true ->
   Base128StreamWriter.pos_ r.2 = (Base128StreamWriter.pos_ stream + length bytes)%nat /\
   forall (e : nat) (rle : RLEStreamReader.t i64),
     (Base128StreamWriter.pos_ r.2 <= e)%nat -> RLEStreamReader.reps_ rle = 0 ->
     exists rle',
       RLEStreamReader.reps_ rle' = 0 /\
       read_n (length iter)
         (DeltaStreamReader.mk (T:=i64) (ZigZagStreamReader.mk (T:=i64) rle) prev)
         (Base128StreamReader.mk (Base128StreamWriter.mem r.2)
            (Base128StreamWriter.pos_ stream) e) =
       Value (iter,
              DeltaStreamReader.mk (ZigZagStreamReader.mk rle')
                (default prev (last iter)),
              Base128StreamReader.mk (Base128StreamWriter.mem r.2)
                (Base128StreamWriter.pos_ r.2) e)).
Proof.
  intros Hwf Hi Hlen Hd w r bytes. pose proof Hwf as (Hb & Hp & He).
  set (deltas := (DeltaStreamWriter.tput_loop i64 iter prev).1) in *.
  set (codes := map (ZigZagStreamWriter.zigzag i64) deltas).
  assert (Hcodes : Forall (nonneg_value i64) codes) by (apply zts_codes_ok; exact Hd).
  assert (Hclen : length codes = length iter).
  { unfold codes, deltas. rewrite length_map. apply delta_loop_length. }
  assert (Hbits : 1 < bits i64 <= 64) by (cbn; lia).
  assert (Hn : Z.of_nat (length codes) < 2 ^ value_bits i64).
  { rewrite Hclen. change (2 ^ value_bits i64) with 9223372036854775808. lia. }
  assert (Hbytes : bytes = varints (rle_outbuf i64 codes)) by reflexivity.
  destruct (rle_outbuf_range_gen i64 Hbits codes Hcodes Hn)
    as (ps & E & Hx & Hg & Hr & Hps).
  assert (Hnn : Forall (fun v => 0 <= v) (rle_outbuf i64 codes)).
  { rewrite E. eapply Forall_impl; [exact Hr|]. cbn beta. intros; lia. }
  assert (Hsize : (length bytes <= 20 * length iter)%nat).
  { rewrite Hbytes, E.
    assert (H64 : Forall (fun v => 0 <= v < 2 ^ 64) (flatten_pairs ps)).
    { eapply Forall_impl; [exact Hr|]. cbn beta.
      change (2 ^ value_bits i64) with 9223372036854775808.
      change (2 ^ 64) with 18446744073709551616. intros; lia. }
    pose proof (varints_length_bound _ H64) as Hvb.
    rewrite flatten_pairs_length in Hvb. lia. }
  assert (Hunf : r =
    let '(ok, stream') := Base128StreamWriter.tput (rle_outbuf i64 codes) stream in
    (ok,
     DeltaStreamWriter.mk (ZigZagStreamWriter.mk (RLEStreamWriter.mk 0 0 start))
       (default prev (last iter)),
     stream')) by apply zts_tput_unfold.
  assert (Hiff : r.1.1 = true <->
            (Base128StreamWriter.pos_ stream + length bytes
               <= Base128StreamWriter.end_ stream)%nat).
  { rewrite Hunf, Hbytes. split.
    - intros Hok. apply tput_true_fits; [assumption|assumption|].
      destruct (Base128StreamWriter.tput _ stream). exact Hok.
    - intros Hfit. rewrite tput_ok by assumption. reflexivity. }
  split; [exact Hsize|]. split; [exact Hiff|]. split.
  { rewrite Hunf. destruct (Base128StreamWriter.tput _ stream). reflexivity. }
  intros Hok. apply Hiff in Hok.
  rewrite Hunf. rewrite tput_ok by (rewrite <- ?Hbytes; assumption).
  rewrite <- Hbytes.
  cbn [fst snd Base128StreamWriter.mem Base128StreamWriter.pos_].
  split; [reflexivity|]. intros e rle Hroom Hs.
  destruct (rle_read_chunk_gen i64 Hbits codes rle
              (blit (Base128StreamWriter.mem stream) (Base128StreamWriter.pos_ stream)
                 bytes)
              (Base128StreamWriter.pos_ stream) e Hcodes Hn Hs)
    as (rle' & Hs' & Hread).
  { rewrite <- Hbytes. apply holds_blit. lia. }
  { rewrite <- Hbytes. exact Hroom. }
  exists rle'. split; [assumption|].
  rewrite delta_read_n, zigzag_read_n.
  rewrite <- Hclen at 1. rewrite Hread. rewrite <- Hbytes.
  cbn [mbind outcome_bind mret outcome_ret].
  unfold codes. rewrite unzigzag_zigzag_list by exact Hd.
  unfold deltas. rewrite undelta_delta_i64 by assumption. reflexivity.
Qed.

Lemma zdelta_stack_roundtrip_witness :
  let stream := Base128StreamWriter.make (replicate 16 0) 0 16 in
  let iter := [100; 90; 90; 90; -5] in
  let r := stream_tput iter (ZDeltaRLEWriter_make stream) stream in
  r.1.1 = true /\
  take (Base128StreamWriter.pos_ r.2) (Base128StreamWriter.mem r.2)
    = [1; 200; 1; 1; 19; 2; 0; 1; 189; 1] /\
  exists rd',
    read_n 5 ZDeltaRLEReader_make
      (Base128StreamReader.mk (Base128StreamWriter.mem r.2) 0 16) =
    Value ([100; 90; 90; 90; -5], rd',
           Base128StreamReader.mk (Base128StreamWriter.mem r.2) 10 16).
Proof.
  intros stream iter r.
  assert (Hwf : Base128StreamWriter.wf stream)
    by (unfold Base128StreamWriter.wf; cbn; lia).
  assert (Hi : i64_list iter).
  { unfold iter, i64_list. change (2 ^ 63) with 9223372036854775808.
    repeat constructor; lia. }
  assert (Hd : Forall (fun d => - 2 ^ 62 <= d < 2 ^ 62)
                 (DeltaStreamWriter.tput_loop i64 iter 0).1).
  { change (DeltaStreamWriter.tput_loop i64 iter 0).1 with [100; -10; 0; 0; -95].
    change (2 ^ 62) with 4611686018427387904. repeat constructor; lia. }
  destruct (zdelta_stack_roundtrip iter 0 0 stream Hwf Hi ltac:(cbn; lia) Hd)
    as (_ & Hiff & _ & Hok).
  assert (Htrue : r.1.1 = true) by (apply Hiff; vm_compute; lia).
  split; [exact Htrue|]. split; [reflexivity|].
  destruct (Hok Htrue) as [_ Hread].
  destruct (Hread 16%nat (RLEStreamReader.make i64) ltac:(vm_compute; lia) eq_refl)
    as (rle' & _ & E).
  eexists. exact E.
Defined.


(** X9. Values handed to a [DeltaRLEWriter] one by one with [put] and then
    closed with [commit] leave the byte stream exactly as one [tput] of the
    same values does, for every chunk of [u64] values that is not empty and
    fits: the same bytes, the same cursor, the same [prev_] in the delta
    filter; so a [DeltaRLEReader] reads the values back.  (Unlike [tput],
    [commit] leaves the run-length writer holding the run it wrote.) *)
Theorem put_commit_writes_what_tput_writes (iter : list Z) (prev : Z) (start : nat)
    (stream : Base128StreamWriter.t) :
  Base128StreamWriter.wf stream -> u64_list iter -> iter <> [] ->
  Z.of_nat (length iter) < 2 ^ 64 ->
  (Base128StreamWriter.pos_ stream + length (ts_chunk_bytes prev iter)
     <= Base128StreamWriter.end_ stream)%nat ->
  let w : DeltaRLEWriter := DeltaStreamWriter.mk (RLEStreamWriter.mk 0 0 start) prev in
  let r1 := put_each iter w stream in
  let r2 := stream_commit r1.1.2 r1.2 in
  let rt := stream_tput iter w stream in
  r1.1.1 = true /\ r2.1.1 = true /\ rt.1.1 = true /\
  r2.2 = rt.2 /\
  DeltaStreamWriter.prev_ r2.1.2 = DeltaStreamWriter.prev_ rt.1.2 /\
  forall (e : nat) (rle : RLEStreamReader.t u64),
    (Base128StreamWriter.pos_ r2.2 <= e)%nat -> RLEStreamReader.reps_ rle = 0 ->
    exists rle',
      read_n (length iter) (DeltaStreamReader.mk (T:=u64) rle prev)
        (Base128StreamReader.mk (Base128StreamWriter.mem r2.2)
           (Base128StreamWriter.pos_ stream) e) =
      Value (iter, DeltaStreamReader.mk rle' (default prev (last iter)),
             Base128StreamReader.mk (Base128StreamWriter.mem r2.2)
               (Base128StreamWriter.pos_ r2.2) e).
Proof.
  intros Hwf Hi Hne Hn Hroom w r1 r2 rt. pose proof Hwf as (Hb & Hp & He).
  set (deltas := (DeltaStreamWriter.tput_loop u64 iter prev).1).
  assert (Hdl : length deltas = length iter) by apply delta_loop_length.
  assert (Hdr : u64_list deltas) by apply delta_loop_range.
  assert (Hdn : Forall (fun v => 0 <= v) deltas) by (apply range_nonneg; exact Hdr).
  assert (Hdne : deltas <> []).
  { intros E. rewrite E in Hdl. destruct iter; [congruence|discriminate]. }
  assert (Hw : forall x, 0 <= x <= 0 + Z.of_nat (length deltas) -> wrap u64 x = x)
    by (intros x Hx; apply wrap_u64_id; lia).
  pose proof (rle_outbuf_nonempty u64 deltas Hdne ltac:(lia)
                ltac:(intros x Hx; apply Hw; lia)) as Hout.
  pose proof (rle_put_each_spec u64 start deltas 0 0 stream Hwf ltac:(lia) ltac:(lia)
                Hdn Hw) as Hput.
  pose proof (rle_loop_prev_nonneg u64 deltas 0 0 [] ltac:(lia) Hdn) as Hpn.
  destruct (RLEStreamWriter.tput_loop u64 deltas 0 0 []) as [[prev' reps'] o].
  destruct Hout as [Hout Hr']. cbn [fst] in Hpn.
  assert (Hbytes : ts_chunk_bytes prev iter = varints o ++ varints [reps'; prev']).
  { unfold ts_chunk_bytes. fold deltas. rewrite Hout. apply varints_app. }
  rewrite Hbytes, length_app in Hroom.
  specialize (Hput ltac:(lia)).
  set (s1 := Base128StreamWriter.mk
               (blit (Base128StreamWriter.mem stream) (Base128StreamWriter.pos_ stream)
                  (varints o))
               (Base128StreamWriter.begin_ stream) (Base128StreamWriter.end_ stream)
               (Base128StreamWriter.pos_ stream + length (varints o))) in *.
  assert (E1 : r1 = (true,
                     DeltaStreamWriter.mk (RLEStreamWriter.mk prev' reps' start)
                       (default prev (last iter)), s1))
    by (apply delta_put_each_ok; exact Hput).
  assert (Hwf1 : Base128StreamWriter.wf s1).
  { unfold Base128StreamWriter.wf, s1.
    cbn [Base128StreamWriter.mem Base128StreamWriter.pos_
         Base128StreamWriter.begin_ Base128StreamWriter.end_].
    rewrite blit_length by lia. lia. }
  assert (Et : rt = (true,
                     DeltaStreamWriter.mk (RLEStreamWriter.mk 0 0 start)
                       (default prev (last iter)),
                     Base128StreamWriter.mk
                       (blit (Base128StreamWriter.mem stream)
                          (Base128StreamWriter.pos_ stream) (ts_chunk_bytes prev iter))
                       (Base128StreamWriter.begin_ stream)
                       (Base128StreamWriter.end_ stream)
                       (Base128StreamWriter.pos_ stream
                        + length (ts_chunk_bytes prev iter)))).
  { apply ts_tput_ok; [assumption|assumption|]. rewrite Hbytes, length_app. lia. }
  assert (E2 : r2 = (true,
                     DeltaStreamWriter.mk (RLEStreamWriter.mk prev' reps' start)
                       (default prev (last iter)), rt.2)).
  { unfold r2. rewrite E1, Et. cbn [fst snd stream_commit DeltaStreamWriter_ops].
    unfold DeltaStreamWriter.commit.
    cbn [DeltaStreamWriter.stream_ DeltaStreamWriter.prev_ stream_commit
         RLEStreamWriter_ops].
    rewrite rle_commit_ok;
      [|assumption
       |cbn [RLEStreamWriter.reps_]; lia
       |cbn [RLEStreamWriter.prev_]; lia
       |cbn [RLEStreamWriter.reps_ RLEStreamWriter.prev_]; unfold s1;
        cbn [Base128StreamWriter.pos_ Base128StreamWriter.end_]; lia].
    cbn [RLEStreamWriter.reps_ RLEStreamWriter.prev_]. unfold s1.
    cbn [Base128StreamWriter.mem Base128StreamWriter.pos_
         Base128StreamWriter.begin_ Base128StreamWriter.end_].
    rewrite blit_app by lia. rewrite Hbytes, length_app, Nat.add_assoc.
    reflexivity. }
  rewrite E1, E2, Et. cbn [fst snd DeltaStreamWriter.prev_
    Base128StreamWriter.mem Base128StreamWriter.pos_].
  repeat (split; [reflexivity|]).
  intros e rle Hroom' Hs.
  destruct (ts_read_chunk iter prev rle
              (blit (Base128StreamWriter.mem stream) (Base128StreamWriter.pos_ stream)
                 (ts_chunk_bytes prev iter))
              (Base128StreamWriter.pos_ stream) e Hi Hn Hs)
    as (rle' & _ & Hread).
  - apply holds_blit. rewrite Hbytes, length_app. lia.
  - exact Hroom'.
  - exists rle'. exact Hread.
Qed.

Lemma put_commit_writes_what_tput_writes_witness :
  let stream := Base128StreamWriter.make (replicate 12 0) 0 12 in
  let w := DeltaRLEWriter_make stream in
  let r1 := put_each [1000; 1010; 1020; 1020] w stream in
  let r2 := stream_commit r1.1.2 r1.2 in
  r2.1.1 = true /\
  r2.2 = (stream_tput [1000; 1010; 1020; 1020] w stream).2 /\
  take (Base128StreamWriter.pos_ r2.2) (Base128StreamWriter.mem r2.2)
    = [1; 232; 7; 2; 10; 1; 0].
Proof.
  intros stream w r1 r2.
  assert (Hwf : Base128StreamWriter.wf stream)
    by (unfold Base128StreamWriter.wf; cbn; lia).
  assert (Hi : u64_list [1000; 1010; 1020; 1020]).
  { unfold u64_list. change (2 ^ 64) with 18446744073709551616.
    repeat constructor; lia. }
  destruct (put_commit_writes_what_tput_writes [1000; 1010; 1020; 1020] 0 0 stream
              Hwf Hi ltac:(discriminate) ltac:(cbn; lia) ltac:(vm_compute; lia))
    as (_ & H2 & _ & Heq & _).
  split; [exact H2|]. split; [exact Heq|reflexivity].
Defined.



(** X11. [size()] of the timestamp stack counts the bytes the filter has
    appended since it was constructed: it is 0 for a new [DeltaRLEWriter],
    and after any sequence of [tput] calls, whether or not the last one
    failed, it is the distance of the cursor from where the filter was
    constructed; when all calls succeeded this is the length of the encoded
    chunks. *)
Theorem filter_size_counts_bytes (chunks : list (list Z))
    (stream : Base128StreamWriter.t) :
  Base128StreamWriter.wf stream ->
  Forall (fun c => Z.of_nat (length c) < 2 ^ 64) chunks ->
  let w := DeltaRLEWriter_make stream in
  let r := tput_chunks chunks w stream in
  stream_size w stream = 0%nat /\
  stream_size r.1.2 r.2
    = (Base128StreamWriter.pos_ r.2 - Base128StreamWriter.pos_ stream)%nat /\
  (r.1.1 = true -> stream_size r.1.2 r.2 = length (ts_chunks_bytes 0 chunks)).
Proof.
  intros Hwf Hc w r. pose proof Hwf as (Hb & Hp & He).
  destruct (tput_chunks_frame chunks w stream Hwf) as (W & B & P & S).
  fold r in W, B, P, S.
  assert (Hsize : stream_size r.1.2 r.2
            = (Base128StreamWriter.pos_ r.2 - Base128StreamWriter.pos_ stream)%nat).
  { cbn [stream_size DeltaStreamWriter_ops]. unfold DeltaStreamWriter.size.
    cbn [stream_size RLEStreamWriter_ops]. unfold RLEStreamWriter.size.
    rewrite S. unfold w, DeltaRLEWriter_make, RLEStreamWriter.make.
    cbn [DeltaStreamWriter.stream_ RLEStreamWriter.start_size_].
    unfold Base128StreamWriter.size. rewrite B. lia. }
  split; [|split; [exact Hsize|]].
  - cbn [stream_size DeltaStreamWriter_ops]. unfold DeltaStreamWriter.size.
    cbn [stream_size RLEStreamWriter_ops]. unfold RLEStreamWriter.size.
    unfold w, DeltaRLEWriter_make, RLEStreamWriter.make.
    cbn [DeltaStreamWriter.stream_ RLEStreamWriter.start_size_]. lia.
  - intros Hok. rewrite Hsize.
    pose proof (tput_chunks_true_fits chunks 0
                  (Base128StreamWriter.size stream) stream Hwf Hc Hok) as Hfit.
    destruct (tput_chunks_ok chunks 0 (Base128StreamWriter.size stream) stream
                Hwf Hc Hfit) as (prev' & E).
    change (tput_chunks chunks _ stream) with r in E. rewrite E.
    cbn [snd Base128StreamWriter.pos_]. lia.
Qed.

Lemma filter_size_counts_bytes_witness :
  let stream := Base128StreamWriter.mk (replicate 12 0) 0 12 3 in
  let r := tput_chunks [[1000; 1000]; [1000; 1001; 1002]]
             (DeltaRLEWriter_make stream) stream in
  r.1.1 = true /\ stream_size r.1.2 r.2 = 9%nat.
Proof.
  intros stream r.
  assert (Hwf : Base128StreamWriter.wf stream)
    by (unfold Base128StreamWriter.wf; cbn; lia).
  destruct (filter_size_counts_bytes [[1000; 1000]; [1000; 1001; 1002]] stream Hwf)
    as (_ & _ & H).
  { repeat constructor; cbn; lia. }
  split; [reflexivity|]. exact (H eq_refl).
Defined.


(** X12. Round trip of the delta-of-delta filters, for every unsigned
    integer type of at most 64 bits and every [Step] of at least 1: [tput]
    of a chunk of [Step] values succeeds exactly when the encodings of the
    least difference and of the differences less it fit; the writer's
    [prev_] is then the last value, and [Step] calls of [next()] on a reader
    with the same [prev_] whose counter is a multiple of [Step] return the
    chunk and stop where the writer stopped, with the last value as [prev_]
    and the counter advanced by [Step]. *)
Theorem dd_tput_roundtrip (T : IntType) (Step : nat) (iter : list Z)
    (self : DeltaDeltaStreamWriter.t T) (stream : Base128StreamWriter.t) :
  is_signed T = false -> 0 < bits T <= 64 ->
  Base128StreamWriter.wf stream ->
  (1 <= Step)%nat -> length iter = Step ->
  Forall (fun v => 0 <= v < 2 ^ bits T) iter ->
  let prev := DeltaDeltaStreamWriter.prev_ self in
  let r := DeltaDeltaStreamWriter.tput T iter self stream in
  let bytes := dd_chunk_bytes T prev iter in
  (r.1.1 = true <->
   (Base128StreamWriter.pos_ stream + length bytes
      <= Base128StreamWriter.end_ stream)%nat) /\
  r.1.2 = DeltaDeltaStreamWriter.mk (default prev (last iter))
            (DeltaDeltaStreamWriter.put_calls_ self) /\
  (r.1.1 = true ->
   r.2 = Base128StreamWriter.mk
           (blit (Base128StreamWriter.mem stream) (Base128StreamWriter.pos_ stream) bytes)
           (Base128StreamWriter.begin_ stream) (Base128StreamWriter.end_ stream)
           (Base128StreamWriter.pos_ stream + length bytes) /\
   forall (e : nat) (q min0 : Z),
     (Base128StreamWriter.pos_ r.2 <= e)%nat ->
     0 <= q -> q * Z.of_nat Step + Z.of_nat Step < 2 ^ 31 ->
     exists min,
       dd_read_n Step T Step
         (DeltaDeltaStreamReader.mk prev min0 (q * Z.of_nat Step))
         (Base128StreamReader.mk (Base128StreamWriter.mem r.2)
            (Base128StreamWriter.pos_ stream) e) =
       Value (iter,
              DeltaDeltaStreamReader.mk (default prev (last iter)) min
                (q * Z.of_nat Step + Z.of_nat Step),
              Base128StreamReader.mk (Base128StreamWriter.mem r.2)
                (Base128StreamWriter.pos_ r.2) e)).
Proof.
  intros Hu Hb Hwf Hs Hlen Hr prev r bytes. pose proof Hwf as (Hbg & Hp & He).
  assert (Hne : iter <> []) by (intros ->; cbn in Hlen; lia).
  destruct (dd_tput_cases T Hu Hb iter self stream Hwf Hne)
    as (Hbytes & Hstate & Hcases).
  fold prev r bytes in Hbytes, Hstate, Hcases.
  set (ds := (DeltaStreamWriter.tput_loop T iter prev).1) in *.
  set (min := DeltaDeltaStreamWriter.min_loop ds) in *.
  set (es := map (fun d => wrap T (d - min)) ds) in *.
  assert (Hbl : length bytes = (encode_len min + length (varints es))%nat)
    by (rewrite Hbytes, length_app, varint_length; reflexivity).
  assert (Hiff : r.1.1 = true <->
            (Base128StreamWriter.pos_ stream + length bytes
               <= Base128StreamWriter.end_ stream)%nat).
  { destruct Hcases as [(Hfit & Hok & _)|[(Hfit & Hok & _)|(Hfit & Hok & _)]];
      rewrite Hok; split; try discriminate; try lia; reflexivity. }
  split; [exact Hiff|]. split; [exact Hstate|].
  intros Hok.
  destruct Hcases as [(Hfit & _ & E)|[(_ & Hf & _)|(_ & Hf & _)]];
    [|congruence|congruence].
  rewrite <- Hbytes in E. rewrite E.
  cbn [Base128StreamWriter.mem Base128StreamWriter.pos_].
  split; [reflexivity|]. intros e q min0 Hroom Hq H31.
  exists min.
  assert (Hdl : length ds = Step).
  { unfold ds. rewrite delta_loop_length. exact Hlen. }
  pose proof (dd_read_chunk T Hu Hb Step
                (blit (Base128StreamWriter.mem stream) (Base128StreamWriter.pos_ stream)
                   bytes) e q ds prev min0 (Base128StreamWriter.pos_ stream)) as Hread.
  cbv zeta in Hread. fold min es in Hread.
  change (varints (min :: es)) with (varint min ++ varints es) in Hread.
  rewrite <- Hbytes in Hread.
  rewrite Hread; try assumption.
  - unfold ds. rewrite undelta_delta_gen by assumption. reflexivity.
  - unfold ds. apply delta_range_gen; assumption.
  - apply holds_blit. lia.
Qed.

Lemma dd_tput_roundtrip_witness :
  let stream := Base128StreamWriter.make (replicate 10 0) 0 10 in
  let r := DeltaDeltaStreamWriter.tput u64 [100; 110; 125]
             (DeltaDeltaStreamWriter.make u64) stream in
  r.1.1 = true /\
  take (Base128StreamWriter.pos_ r.2) (Base128StreamWriter.mem r.2) = [10; 90; 0; 5] /\
  exists rd',
    dd_read_n 3 u64 3 (DeltaDeltaStreamReader.make u64)
      (Base128StreamReader.mk (Base128StreamWriter.mem r.2) 0 10) =
    Value ([100; 110; 125], rd',
           Base128StreamReader.mk (Base128StreamWriter.mem r.2) 4 10).
Proof.
  intros stream r.
  assert (Hwf : Base128StreamWriter.wf stream)
    by (unfold Base128StreamWriter.wf; cbn; lia).
  assert (Hi : Forall (fun v => 0 <= v < 2 ^ bits u64) [100; 110; 125]).
  { change (2 ^ bits u64) with 18446744073709551616. repeat constructor; lia. }
  destruct (dd_tput_roundtrip u64 3 [100; 110; 125] (DeltaDeltaStreamWriter.make u64)
              stream eq_refl ltac:(cbn; lia) Hwf ltac:(lia) eq_refl Hi)
    as (Hiff & _ & Hok).
  assert (Htrue : r.1.1 = true) by (apply Hiff; vm_compute; lia).
  split; [exact Htrue|]. split; [reflexivity|].
  destruct (Hok Htrue) as [_ Hread].
  destruct (Hread 10%nat 0 0 ltac:(vm_compute; lia) ltac:(lia) ltac:(cbn; lia))
    as (min & E).
  eexists. exact E.
Defined.



(** X14. For an unsigned [TVal] of 32 bits or more (so that the difference
    [value - prev_] of [put] is a [TVal] and not a promoted [int]), values
    handed to a new delta-of-delta writer one by one with [put] are read back
    as long as they are at most [Step]: [put] writes a zero in the place of
    the least difference and then each difference, and a new reader with the
    same [prev_] returns the values by as many [next()] calls. *)
Theorem dd_put_roundtrip_within_step (T : IntType) (Step : nat) (iter : list Z)
    (prev : Z) (stream : Base128StreamWriter.t) :
  is_signed T = false -> 32 <= bits T <= 64 ->
  Base128StreamWriter.wf stream ->
  iter <> [] -> (length iter <= Step)%nat -> Z.of_nat Step < 2 ^ 31 ->
  Forall (fun v => 0 <= v < 2 ^ bits T) iter ->
  let bytes := varints (0 :: (DeltaStreamWriter.tput_loop T iter prev).1) in
  (Base128StreamWriter.pos_ stream + length bytes
     <= Base128StreamWriter.end_ stream)%nat ->
  let r := put_each iter (DeltaDeltaStreamWriter.mk (T:=T) prev 0) stream in
  r = (true,
       DeltaDeltaStreamWriter.mk (default prev (last iter)) (Z.of_nat (length iter)),
       Base128StreamWriter.mk
         (blit (Base128StreamWriter.mem stream) (Base128StreamWriter.pos_ stream) bytes)
         (Base128StreamWriter.begin_ stream) (Base128StreamWriter.end_ stream)
         (Base128StreamWriter.pos_ stream + length bytes)) /\
  forall (e : nat) (min0 : Z),
    (Base128StreamWriter.pos_ r.2 <= e)%nat ->
    dd_read_n Step T (length iter) (DeltaDeltaStreamReader.mk prev min0 0)
      (Base128StreamReader.mk (Base128StreamWriter.mem r.2)
         (Base128StreamWriter.pos_ stream) e) =
    Value (iter,
           DeltaDeltaStreamReader.mk (default prev (last iter)) 0
             (Z.of_nat (length iter)),
           Base128StreamReader.mk (Base128StreamWriter.mem r.2)
             (Base128StreamWriter.pos_ r.2) e).
Proof.
  intros Hu Hb32 Hwf Hne Hlen H31 Hr bytes Hroom r. pose proof Hwf as (Hbg & Hp & He).
  assert (Hb : 0 < bits T <= 64) by lia.
  set (ds := (DeltaStreamWriter.tput_loop T iter prev).1) in *.
  assert (E : r = (true,
       DeltaDeltaStreamWriter.mk (default prev (last iter)) (Z.of_nat (length iter)),
       Base128StreamWriter.mk
         (blit (Base128StreamWriter.mem stream) (Base128StreamWriter.pos_ stream) bytes)
         (Base128StreamWriter.begin_ stream) (Base128StreamWriter.end_ stream)
         (Base128StreamWriter.pos_ stream + length bytes))).
  { apply (dd_put_each_fresh T Hu Hb); try assumption; lia. }
  split; [exact E|]. rewrite E.
  cbn [snd Base128StreamWriter.mem Base128StreamWriter.pos_].
  intros e min0 Hroom'.
  assert (Hdl : length ds = length iter) by apply delta_loop_length.
  assert (Hdne : ds <> []).
  { intros E0. rewrite E0 in Hdl. destruct iter; [congruence|discriminate]. }
  assert (Hdr : Forall (fun d => 0 <= d < 2 ^ bits T) ds)
    by (apply delta_range_gen; assumption).
  assert (Hid : map (fun d => d - 0) ds = ds).
  { rewrite (map_ext _ id); [apply map_id|]. intros d. unfold id. lia. }
  pose proof (dd_read_run T Hu Hb Step
                (blit (Base128StreamWriter.mem stream) (Base128StreamWriter.pos_ stream)
                   bytes) e 0 0 ds prev min0 (Base128StreamWriter.pos_ stream)) as Hread.
  cbv zeta in Hread. rewrite Hid in Hread.
  change (varint 0 ++ varints ds) with bytes in Hread.
  rewrite Hdl in Hread. change (0 * Z.of_nat Step) with 0 in Hread.
  rewrite Z.add_0_l in Hread.
  assert (Hpow : 0 < 2 ^ bits T) by (apply Z.pow_pos_nonneg; lia).
  specialize (Hread ltac:(lia) Hdne ltac:(lia) ltac:(lia) ltac:(lia) Hdr
                ltac:(apply holds_blit; lia) ltac:(lia)).
  rewrite Hread. unfold ds. rewrite undelta_delta_gen by assumption. reflexivity.
Qed.

Lemma dd_put_roundtrip_within_step_witness :
  let stream := Base128StreamWriter.make (replicate 10 0) 0 10 in
  let r := put_each [100; 110; 125] (DeltaDeltaStreamWriter.make u64) stream in
  r.1.1 = true /\
  take (Base128StreamWriter.pos_ r.2) (Base128StreamWriter.mem r.2) = [0; 100; 10; 15] /\
  exists rd',
    dd_read_n 3 u64 3 (DeltaDeltaStreamReader.make u64)
      (Base128StreamReader.mk (Base128StreamWriter.mem r.2) 0 10) =
    Value ([100; 110; 125], rd',
           Base128StreamReader.mk (Base128StreamWriter.mem r.2) 4 10).
Proof.
  intros stream r.
  assert (Hwf : Base128StreamWriter.wf stream)
    by (unfold Base128StreamWriter.wf; cbn; lia).
  assert (Hi : Forall (fun v => 0 <= v < 2 ^ bits u64) [100; 110; 125]).
  { change (2 ^ bits u64) with 18446744073709551616. repeat constructor; lia. }
  destruct (dd_put_roundtrip_within_step u64 3 [100; 110; 125] 0 stream eq_refl
              ltac:(cbn; lia) Hwf ltac:(discriminate) ltac:(cbn; lia) ltac:(cbn; lia)
              Hi ltac:(vm_compute; lia)) as [E Hread].
  split; [reflexivity|]. split; [reflexivity|].
  eexists. apply (Hread 10%nat 0). vm_compute. lia.
Defined.

(** X15. Beyond [Step] values, [put] and [next()] of the delta-of-delta
    filters do not agree: [put] writes the zero for the least difference
    once only, while the reader takes a number for the least difference at
    every multiple of [Step].  For an unsigned [TVal] of 32 bits or more
    (where the difference [value - prev_] of [put] is a [TVal] and every
    [put] with room succeeds), when [Step] values and then [y] and [z] were
    put, the call of [next()] after the first [Step] takes the difference of
    [y] for the least difference and returns [z]: [y] is never returned. *)
Theorem dd_put_beyond_step_skips (T : IntType) (Step : nat) (iter : list Z)
    (y z prev : Z) (stream : Base128StreamWriter.t) :
  is_signed T = false -> 32 <= bits T <= 64 ->
  Base128StreamWriter.wf stream ->
  (1 <= Step)%nat -> length iter = Step -> Z.of_nat Step + 2 < 2 ^ 31 ->
  Forall (fun v => 0 <= v < 2 ^ bits T) (iter ++ [y; z]) ->
  let bytes := varints (0 :: (DeltaStreamWriter.tput_loop T (iter ++ [y; z]) prev).1) in
  (Base128StreamWriter.pos_ stream + length bytes
     <= Base128StreamWriter.end_ stream)%nat ->
  let r := put_each (iter ++ [y; z]) (DeltaDeltaStreamWriter.mk (T:=T) prev 0) stream in
  r.1.1 = true /\
  forall (e : nat) (min0 : Z),
    (Base128StreamWriter.pos_ r.2 <= e)%nat ->
    exists rd',
      dd_read_n Step T (Step + 1) (DeltaDeltaStreamReader.mk prev min0 0)
        (Base128StreamReader.mk (Base128StreamWriter.mem r.2)
           (Base128StreamWriter.pos_ stream) e) =
      Value (iter ++ [z], rd',
             Base128StreamReader.mk (Base128StreamWriter.mem r.2)
               (Base128StreamWriter.pos_ r.2) e).
Proof.
  intros Hu Hb32 Hwf Hs Hlen H31 Hr bytes Hroom r. pose proof Hwf as (Hbg & Hp & He).
  assert (Hb : 0 < bits T <= 64) by lia.
  assert (Hne : iter <> []) by (intros ->; cbn in Hlen; lia).
  assert (Hne2 : iter ++ [y; z] <> []) by (destruct iter; discriminate).
  apply Forall_app in Hr as [Hri Hryz].
  apply Forall_cons in Hryz as [Hy Hryz]. apply Forall_cons in Hryz as [Hz _].
  set (xl := default prev (last iter)).
  set (ds := (DeltaStreamWriter.tput_loop T iter prev).1).
  set (dy := wrap T (y - xl)). set (dz := wrap T (z - y)).
  assert (Hds : (DeltaStreamWriter.tput_loop T (iter ++ [y; z]) prev).1
                = ds ++ [dy; dz]) by (rewrite delta_loop_app; reflexivity).
  assert (Hbytes : bytes = (varint 0 ++ varints ds) ++ varint dy ++ varint dz).
  { unfold bytes. rewrite Hds.
    change (varints (0 :: ds ++ [dy; dz])) with (varint 0 ++ varints (ds ++ [dy; dz])).
    rewrite varints_app, <- app_assoc.
    change (varints [dy; dz]) with (varint dy ++ varint dz ++ []).
    rewrite app_nil_r. reflexivity. }
  assert (E : r = (true,
       DeltaDeltaStreamWriter.mk (default prev (last (iter ++ [y; z])))
         (Z.of_nat (length (iter ++ [y; z]))),
       Base128StreamWriter.mk
         (blit (Base128StreamWriter.mem stream) (Base128StreamWriter.pos_ stream) bytes)
         (Base128StreamWriter.begin_ stream) (Base128StreamWriter.end_ stream)
         (Base128StreamWriter.pos_ stream + length bytes))).
  { apply (dd_put_each_fresh T Hu Hb); try assumption; [lia|].
    rewrite length_app. cbn [length]. lia. }
  rewrite E. cbn [fst snd Base128StreamWriter.mem Base128StreamWriter.pos_].
  split; [reflexivity|]. intros e min0 Hroom'.
  set (m := blit (Base128StreamWriter.mem stream) (Base128StreamWriter.pos_ stream) bytes).
  assert (Hm : holds m (Base128StreamWriter.pos_ stream) bytes)
    by (apply holds_blit; lia).
  rewrite Hbytes in Hm. apply holds_app in Hm. destruct Hm as [Hm1 Hm2].
  apply holds_app in Hm2. destruct Hm2 as [Hmy Hmz].
  assert (Hbl : length bytes
            = (length (varint 0 ++ varints ds) + encode_len dy + encode_len dz)%nat).
  { rewrite Hbytes, !length_app, !varint_length. lia. }
  rewrite varint_length in Hmz.
  assert (Hdl : length ds = Step).
  { unfold ds. rewrite delta_loop_length. exact Hlen. }
  assert (Hdne : ds <> []) by (intros E0; rewrite E0 in Hdl; cbn in Hdl; lia).
  assert (Hdr : Forall (fun d => 0 <= d < 2 ^ bits T) ds)
    by (apply delta_range_gen; assumption).
  assert (Hid : map (fun d => d - 0) ds = ds).
  { rewrite (map_ext _ id); [apply map_id|]. intros d. unfold id. lia. }
  assert (Hpow : 0 < 2 ^ bits T) by (apply Z.pow_pos_nonneg; lia).
  pose proof (dd_read_run T Hu Hb Step m e 0 0 ds prev min0
                (Base128StreamWriter.pos_ stream)) as Hread.
  cbv zeta in Hread. rewrite Hid, Hdl in Hread.
  change (0 * Z.of_nat Step) with 0 in Hread. rewrite Z.add_0_l in Hread.
  specialize (Hread ltac:(lia) Hdne ltac:(lia) ltac:(lia) ltac:(lia) Hdr
                Hm1 ltac:(lia)).
  unfold ds in Hread at 1 2. rewrite undelta_delta_gen in Hread by assumption.
  fold xl in Hread.
  rewrite dd_read_n_app, Hread.
  cbn [mbind outcome_bind dd_read_n]. unfold DeltaDeltaStreamReader.next.
  cbn [DeltaDeltaStreamReader.counter_ DeltaDeltaStreamReader.min_
       DeltaDeltaStreamReader.prev_].
  assert (H31' : 2 ^ 31 < 2 ^ 64) by reflexivity.
  rewrite wrap_u64_id by lia. rewrite Z.mod_same by lia. cbn [Z.eqb].
  pose proof (wrap_T_range T Hu Hb (y - xl)) as Hdy. fold dy in Hdy.
  pose proof (wrap_T_range T Hu Hb (z - y)) as Hdz. fold dz in Hdz.
  rewrite (stream_next_ok_gen T (bits T) ltac:(lia) (wrap_T_id T Hu) dy)
    by (cbn [Base128StreamReader.mem Base128StreamReader.pos_
             Base128StreamReader.end_]; assumption || lia).
  cbn [mbind outcome_bind mret outcome_ret Base128StreamReader.mem
       Base128StreamReader.pos_ Base128StreamReader.end_].
  rewrite (stream_next_ok_gen T (bits T) ltac:(lia) (wrap_T_id T Hu) dz)
    by (cbn [Base128StreamReader.mem Base128StreamReader.pos_
             Base128StreamReader.end_]; assumption || lia).
  cbn [mbind outcome_bind mret outcome_ret Base128StreamReader.mem
       Base128StreamReader.pos_ Base128StreamReader.end_].
  assert (Ez : wrap T (xl + dz + dy) = z).
  { unfold dy, dz, wrap. rewrite Hu.
    rewrite Zplus_mod_idemp_r, <- Z.add_assoc, (Z.add_comm ((z - y) mod _)).
    rewrite Z.add_assoc, Zplus_mod_idemp_r.
    replace (xl + (y - xl) + (z - y)) with z by lia.
    apply Z.mod_small. assumption. }
  rewrite Ez. eexists. do 3 f_equal. lia.
Qed.

Lemma dd_put_beyond_step_skips_witness :
  let stream := Base128StreamWriter.make (replicate 32 0) 0 32 in
  let r := put_each ([100; 110; 125] ++ [7; 300]) (DeltaDeltaStreamWriter.make u64)
             stream in
  r.1.1 = true /\
  exists rd',
    dd_read_n 3 u64 4 (DeltaDeltaStreamReader.make u64)
      (Base128StreamReader.mk (Base128StreamWriter.mem r.2) 0 32) =
    Value ([100; 110; 125; 300], rd',
           Base128StreamReader.mk (Base128StreamWriter.mem r.2) 16 32).
Proof.
  intros stream r.
  assert (Hwf : Base128StreamWriter.wf stream)
    by (unfold Base128StreamWriter.wf; cbn; lia).
  assert (Hi : Forall (fun v => 0 <= v < 2 ^ bits u64) ([100; 110; 125] ++ [7; 300])).
  { change (2 ^ bits u64) with 18446744073709551616. repeat constructor; lia. }
  destruct (dd_put_beyond_step_skips u64 3 [100; 110; 125] 7 300 0 stream eq_refl
              ltac:(cbn; lia) Hwf ltac:(lia) eq_refl ltac:(cbn; lia) Hi
              ltac:(vm_compute; lia)) as [Hok Hread].
  split; [exact Hok|].
  destruct (Hread 32%nat 0 ltac:(vm_compute; lia)) as (rd' & E).
  exists rd'. exact E.
Defined.


(** X16. [allocate] reserves a slot for a value to be filled in later (a
    size prefix): it fails exactly when fewer than [sz] bytes are left, and
    then changes nothing; otherwise it returns the old cursor, with the slot
    inside the region, and writes nothing.  Whatever calls follow on the
    stream, a value of [sz] bytes stored at the returned pointer afterwards
    changes the slot only, and [read_raw] at the pointer returns it. *)
Theorem allocate_reserves_slot (sz : nat) (s : Base128StreamWriter.t)
    (ops : list writer_op) (v : Z) :
  Base128StreamWriter.wf s -> 0 <= v < 2 ^ (8 * Z.of_nat sz) ->
  let a := Base128StreamWriter.allocate sz s in
  (a.1 = None <-> (Base128StreamWriter.space_left s < sz)%nat) /\
  (a.1 = None -> a.2 = s) /\
  forall p : nat, a.1 = Some p ->
    p = Base128StreamWriter.pos_ s /\
    (p + sz <= Base128StreamWriter.end_ s)%nat /\
    a.2 = Base128StreamWriter.set_pos s (p + sz) /\
    let s2 := run_ops ops a.2 in
    let m' := store_bytes (Base128StreamWriter.mem s2) p (le_bytes sz v) in
    (p + sz <= Base128StreamWriter.pos_ s2)%nat /\
    length m' = length (Base128StreamWriter.mem s2) /\
    take p m' = take p (Base128StreamWriter.mem s2) /\
    drop (p + sz) m' = drop (p + sz) (Base128StreamWriter.mem s2) /\
    forall e, (p + sz <= e)%nat ->
      Base128StreamReader.read_raw sz (Base128StreamReader.mk m' p e) =
      Value (v, Base128StreamReader.mk m' (p + sz) e).
Proof.
  intros Hwf Hv a. pose proof Hwf as (Hb & Hp & He).
  unfold a, Base128StreamWriter.allocate, Base128StreamWriter.space_left.
  destruct (Nat.ltb_spec (Base128StreamWriter.end_ s - Base128StreamWriter.pos_ s) sz)
    as [Hshort|Hfit]; cbn [fst snd].
  - split; [split; [intros _; assumption|reflexivity]|].
    split; [reflexivity|]. intros p Hp'. discriminate.
  - split; [split; [discriminate|lia]|].
    split; [discriminate|]. intros p Hp'. injection Hp' as <-.
    split; [reflexivity|]. split; [lia|]. split; [reflexivity|].
    set (s1 := Base128StreamWriter.set_pos s (Base128StreamWriter.pos_ s + sz)).
    assert (Hwf1 : Base128StreamWriter.wf s1).
    { unfold Base128StreamWriter.wf, s1, Base128StreamWriter.set_pos.
      cbn [Base128StreamWriter.mem Base128StreamWriter.pos_
           Base128StreamWriter.begin_ Base128StreamWriter.end_]. lia. }
    destruct (run_ops_frame ops s1 Hwf1) as ((_ & Hp2 & He2) & E2 & L2 & P2 & _).
    cbv zeta.
    set (s2 := run_ops ops s1) in *.
    assert (Hs1 : Base128StreamWriter.pos_ s1 = (Base128StreamWriter.pos_ s + sz)%nat)
      by reflexivity.
    assert (Hlen : (Base128StreamWriter.pos_ s + length (le_bytes sz v)
                      <= length (Base128StreamWriter.mem s2))%nat)
      by (rewrite le_bytes_length; lia).
    rewrite store_bytes_blit by exact Hlen.
    split; [lia|]. split; [apply blit_length; exact Hlen|].
    split; [apply take_blit; lia|].
    split.
    { apply drop_blit; rewrite le_bytes_length; lia. }
    intros e Hroom.
    pose proof (read_raw_ok (le_bytes sz v)
                  (blit (Base128StreamWriter.mem s2) (Base128StreamWriter.pos_ s)
                     (le_bytes sz v))
                  (Base128StreamWriter.pos_ s) e) as Hread.
    rewrite le_bytes_length, le_value_le_bytes in Hread by assumption.
    apply Hread; [|assumption].
    apply holds_blit. exact Hlen.
Qed.

Lemma allocate_reserves_slot_witness :
  let s := Base128StreamWriter.make (replicate 8 0) 0 8 in
  let a := Base128StreamWriter.allocate 2 s in
  let s2 := run_ops [OpPut 300; OpPut 5] a.2 in
  let m' := store_bytes (Base128StreamWriter.mem s2) 0 (le_bytes 2 3) in
  a.1 = Some 0%nat /\
  m' = [3; 0; 172; 2; 5; 0; 0; 0] /\
  Base128StreamReader.read_raw 2 (Base128StreamReader.mk m' 0 8)
    = Value (3, Base128StreamReader.mk m' 2 8).
Proof.
  intros s a s2 m'.
  assert (Hwf : Base128StreamWriter.wf s)
    by (unfold Base128StreamWriter.wf; cbn; lia).
  destruct (allocate_reserves_slot 2 s [OpPut 300; OpPut 5] 3 Hwf ltac:(cbn; lia))
    as (_ & _ & H).
  destruct (H 0%nat eq_refl) as (_ & _ & _ & _ & _ & _ & _ & Hread).
  split; [reflexivity|]. split; [reflexivity|].
  apply (Hread 8%nat). lia.
Defined.

(** X17. [RLEStreamWriter::tput] on a writer that holds a pending run (left
    by [put]) loses a value when no value of the chunk equals the one before
    it: the loop then fills all of [outbuf] with the pending run and the
    runs of all values but the last, the test [outpos < n * 2] fails, and
    the run of the last value is neither written nor kept: the call
    succeeds, the writer holds no run, and the stream stands for the pending
    run and the chunk without its last value. *)
Theorem rle_tput_on_pending_run_drops_last (T : IntType) (iter : list Z)
    (self : RLEStreamWriter.t T) (stream : Base128StreamWriter.t) :
  1 < bits T -> Base128StreamWriter.wf stream ->
  0 < RLEStreamWriter.reps_ self -> 0 <= RLEStreamWriter.prev_ self ->
  iter <> [] -> all_change (RLEStreamWriter.prev_ self) iter ->
  Forall (fun v => 0 <= v) iter ->
  let ps := (RLEStreamWriter.reps_ self, RLEStreamWriter.prev_ self)
            :: map (fun v => (1, v)) (removelast iter) in
  let bytes := varints (flatten_pairs ps) in
  (Base128StreamWriter.pos_ stream + length bytes
     <= Base128StreamWriter.end_ stream)%nat ->
  RLEStreamWriter.tput T iter self stream =
  (true, RLEStreamWriter.mk 0 0 (RLEStreamWriter.start_size_ self),
   Base128StreamWriter.mk
     (blit (Base128StreamWriter.mem stream) (Base128StreamWriter.pos_ stream) bytes)
     (Base128StreamWriter.begin_ stream) (Base128StreamWriter.end_ stream)
     (Base128StreamWriter.pos_ stream + length bytes)) /\
  expand_pairs ps =
    replicate (Z.to_nat (RLEStreamWriter.reps_ self)) (RLEStreamWriter.prev_ self)
    ++ removelast iter /\
  length (removelast iter) = (length iter - 1)%nat.
Proof.
  intros Hbits Hwf Hr Hp Hne Hc Hl ps bytes Hroom.
  assert (H1 : wrap T (0 + 1) = 1).
  { apply wrap_value_bits; [assumption|].
    pose proof (value_bits_pos T Hbits) as Hvb.
    assert (2 ^ 1 <= 2 ^ value_bits T) by (apply Z.pow_le_mono_r; lia).
    change (2 ^ 1) with 2 in *. lia. }
  assert (Hrl : length (removelast iter) = (length iter - 1)%nat).
  { rewrite removelast_firstn_len, length_take.
    destruct (length iter); cbn [Init.Nat.pred]; lia. }
  assert (Hrn : Forall (fun v => 0 <= v) (removelast iter)).
  { rewrite removelast_firstn_len. apply Forall_take. exact Hl. }
  assert (Hfl : flatten_pairs ps
                = RLEStreamWriter.reps_ self :: RLEStreamWriter.prev_ self
                  :: flatten_pairs (map (fun v => (1, v)) (removelast iter)))
    by reflexivity.
  assert (Hnn : Forall (fun v => 0 <= v) (flatten_pairs ps)).
  { rewrite Hfl. constructor; [lia|]. constructor; [lia|].
    clear -Hrn. induction Hrn as [|v l Hv _ IH]; [constructor|].
    cbn [map]. rewrite flatten_pairs_cons.
    constructor; [lia|]. constructor; [exact Hv|exact IH]. }
  split; [|split; [|exact Hrl]].
  - unfold RLEStreamWriter.tput.
    rewrite (rle_loop_all_change T iter (RLEStreamWriter.prev_ self)
               (RLEStreamWriter.reps_ self) [] H1 ltac:(lia) Hne Hc).
    cbn [app]. rewrite <- Hfl.
    assert (Hlen : length (flatten_pairs ps) = (length iter * 2)%nat).
    { rewrite flatten_pairs_length. unfold ps. cbn [length].
      rewrite length_map, Hrl. destruct iter; [congruence|]. cbn [length]. lia. }
    rewrite Hlen, Nat.ltb_irrefl.
    rewrite tput_ok by assumption. reflexivity.
  - unfold ps. rewrite expand_pairs_cons, expand_unit_pairs. reflexivity.
Qed.

Lemma rle_tput_on_pending_run_drops_last_witness :
  let stream := Base128StreamWriter.make (replicate 8 0) 0 8 in
  let self : RLEStreamWriter.t u64 := RLEStreamWriter.mk 5 2 0 in
  let r := RLEStreamWriter.tput u64 [6; 7] self stream in
  r.1.1 = true /\
  take (Base128StreamWriter.pos_ r.2) (Base128StreamWriter.mem r.2) = [2; 5; 1; 6] /\
  r.1.2 = RLEStreamWriter.mk 0 0 0.
Proof.
  intros stream self r.
  assert (Hwf : Base128StreamWriter.wf stream)
    by (unfold Base128StreamWriter.wf; cbn; lia).
  destruct (rle_tput_on_pending_run_drops_last u64 [6; 7] self stream
              ltac:(cbn; lia) Hwf ltac:(cbn; lia) ltac:(cbn; lia) ltac:(discriminate)
              ltac:(cbn; lia) ltac:(repeat constructor; lia) ltac:(vm_compute; lia))
    as (E & _ & _).
  unfold r. rewrite E. cbn [fst snd]. repeat split.
Defined.
